(** * The compiled-function core of CasADi: tape construction, slot
    allocation and the tape evaluators of [SXFunctionInternal] and
    [MXFunctionInternal].

    The development follows [sx_function_internal.cpp] and
    [mx_function_internal.cpp].  Operator kernels, sparsity patterns and
    expression handles are external collaborators of these two files and
    enter as parameters; the control flow and the bookkeeping on the tape,
    the work vector and the spill tape are transcribed from the source. *)

From Stdlib Require Import ZArith Lia DecimalString.
From stdpp Require Import gmap list strings functions.

Local Open Scope Z_scope.

(** ** Operator tags

    The enumeration [Operation] of [casadi_math.hpp] is not part of the two
    files; the tags that the code tests by name are kept apart, the
    elementary scalar operations are split by arity, and the remaining
    matrix operations are lumped together. *)

Inductive Operation : Type :=
  | OP_CONST
  | OP_INPUT
  | OP_OUTPUT
  | OP_PARAMETER
  | OP_CALL
  | OP_SOLVE
  | OP_UNARY (code : nat)
  | OP_BINARY (code : nat)
  | OP_MATRIX (code : nat).

#[global] Instance Operation_eq_dec : EqDecision Operation.
Proof. solve_decision. Defined.

(** Modelled from the spec: [casadi_math<double>::ndeps], which is not under
    src/.  Constants, parameters and inputs read nothing, a binary built-in
    reads two slots, everything else (an output sentinel included) one. *)
Definition ndeps (op : Operation) : nat :=
  match op with
  | OP_CONST | OP_PARAMETER | OP_INPUT => 0%nat
  | OP_BINARY _ => 2%nat
  | _ => 1%nat
  end.

(** ** Errors *)

Inductive error : Type :=
  | NON_SYMBOLIC_INPUT
  | DUPLICATE_INPUT
  | EMPTY_OUTPUT_LIST
  | FREE_VARIABLE
  | OUT_OF_RANGE
  | WRONG_ARITY.

#[global] Instance error_eq_dec : EqDecision error.
Proof. solve_decision. Defined.

(** Code that may throw returns in [result]. *)
Definition result (A : Type) : Type := error + A.

#[global] Instance result_ret : MRet result := λ A, inr.
#[global] Instance result_bind : MBind result := λ A B f m,
  match m with
  | inl e => inl e
  | inr a => f a
  end.

(** [std::vector::at]: the checked access. *)
Definition at_ {A} (l : list A) (i : nat) : result A :=
  match l !! i with
  | Some x => inr x
  | None => inl OUT_OF_RANGE
  end.

(** A loop whose body may throw. *)
Fixpoint foldlM {A B} (f : A → B → result A) (a : A) (l : list B) : result A :=
  match l with
  | [] => inr a
  | b :: l' => a' ← f a b; foldlM f a' l'
  end.

(** The elements of a vector paired with their positions. *)
Definition indexed {A} (l : list A) : list (nat * A) := zip (seq 0 (length l)) l.

(** [std::copy(src.begin(), src.end(), dst.begin())]: the first
    [src.size()] elements of the destination are overwritten.  For a
    destination shorter than [src] the source writes past its end, which
    is undefined; the list grows here, and what is proved of a copy is
    proved for destinations that are long enough. *)
Definition copy {A} (src dst : list A) : list A := src ++ drop (length src) dst.

(** * The scalar layer: [SXFunctionInternal] *)

Module SX.

(** ** Constructor (sx_function_internal.cpp, lines 46-93)

    An [SXElement] is a handle to a node; the constructor only looks at the
    scratch field [temp] of the node behind each handle, so a handle is
    named here by the address of its node and the scratch fields form a
    store [temp : nat → Z].  An [SX] matrix is the vector of its nonzero
    elements. *)

Record members := {
  inputv_ : list (list nat);
  outputv_ : list (list nat);
}.

(** Lines 56-66: [is_duplicate = itc->getTemp()!=0], then [itc->setTemp(1)]. *)
Definition mark_element (st : bool * (nat → Z)) (a : nat) : bool * (nat → Z) :=
  let is_duplicate := bool_decide (st.2 a ≠ 0) in
  (st.1 || is_duplicate, <[a := 1]> st.2).

Definition mark_inputs (inputv : list (list nat)) (temp : nat → Z) : bool * (nat → Z) :=
  foldl (λ st it, foldl mark_element st it) (false, temp) inputv.

(** Lines 68-73. *)
Definition reset_inputs (inputv : list (list nat)) (temp : nat → Z) : nat → Z :=
  foldl (λ t it, foldl (λ t a, <[a := 0]> t) t it) temp inputv.

(** Modelled from the spec: the base-class constructor
    [XFunctionInternal(inputv, outputv)], which is not under src/; it
    supplies the members [inputv_] and [outputv_] the body then inspects. *)
Definition XFunctionInternal_new (inputv outputv : list (list nat)) : members :=
  {| inputv_ := inputv; outputv_ := outputv |}.

(** The constructor returns the members and the scratch store it leaves. *)
Definition SXFunctionInternal_new (inputv outputv : list (list nat)) (temp : nat → Z)
  : result (members * (nat → Z)) :=
  let this := XFunctionInternal_new inputv outputv in
  let '(has_duplicates, temp1) := mark_inputs (inputv_ this) temp in
  let temp2 := reset_inputs (inputv_ this) temp1 in
  if has_duplicates then inl DUPLICATE_INPUT
  else if bool_decide (outputv_ this = []) then inl EMPTY_OUTPUT_LIST
  else inr (this, temp2).

(** ** Sparsity pre-pass (lines 803-817)

    The work vector is reinterpreted as an array of bit masks ([bvec_t]);
    the OpenCL branch is compiled out. *)
Definition spInit (fwd : bool) (iwork : list Z) : list Z :=
  if negb fwd then replicate (length iwork) 0 else iwork.

Section Tape.

(** Numeric values ([double]) stay abstract. *)
Context {D : Type} `{!Inhabited D}.

(** ** Nodes and tape records

    In [init] every node is named by its position in the sorted node list,
    which is the value lines 345-350 store in its [temp] field; [dep0] and
    [dep1] are [n->dep(0).get()->temp] and [n->dep(1).get()->temp]. *)
Record SXNode := {
  getOp : Operation;
  getValue : D;
  dep0 : nat;
  dep1 : nat;
}.

Record AlgEl := {
  op : Operation;
  i0 : nat;
  i1 : nat;
  i2 : nat;
  d : D;
}.

Definition set_op (o : Operation) (e : AlgEl) : AlgEl :=
  {| op := o; i0 := i0 e; i1 := i1 e; i2 := i2 e; d := d e |}.
Definition set_i0 (v : nat) (e : AlgEl) : AlgEl :=
  {| op := op e; i0 := v; i1 := i1 e; i2 := i2 e; d := d e |}.
Definition set_i1 (v : nat) (e : AlgEl) : AlgEl :=
  {| op := op e; i0 := i0 e; i1 := v; i2 := i2 e; d := d e |}.
Definition set_i2 (v : nat) (e : AlgEl) : AlgEl :=
  {| op := op e; i0 := i0 e; i1 := i1 e; i2 := v; d := d e |}.

(** ** [init], first loop: the instruction sequence (lines 368-437) *)

Record build_state := {
  b_algorithm : list AlgEl;
  b_symb_loc : list (nat * nat);
  b_curr_oind : nat;
  b_curr_nz : nat;
  b_refcount : list Z;
}.

(** [for (; curr_oind<outputv_.size(); ++curr_oind) if (size()!=0) break;]
    run on the outputs from position [k] on. *)
Fixpoint skip_empty (rest : list (list nat)) (k : nat) : nat :=
  match rest with
  | [] => k
  | o :: rest' => if bool_decide (length o ≠ 0%nat) then k else skip_empty rest' (S k)
  end.

Definition first_output (outputv : list (list nat)) : nat := skip_empty outputv 0.

(** Lines 428-434: [refcount.at(c==0 ? ae.i1 : ae.i2)++] for [c < ndeps]. *)
Definition child (e : AlgEl) (c : nat) : nat := if bool_decide (c = 0%nat) then i1 e else i2 e.

Definition count_children (e : AlgEl) (refcount : list Z) : result (list Z) :=
  foldlM (λ rc c, v ← at_ rc (child e c); mret (<[child e c := v + 1]> rc))
         refcount (seq 0 (ndeps (op e))).

(** One turn of the loop, for the node [n] at position [idx]; a null pointer
    is an output instruction.  [outputv] holds, for every output, the
    positions of the nodes of its nonzeros.  The unchecked
    [outputv_[curr_oind]] reads an empty matrix past the end, so that the
    checked [.at(curr_nz)] that follows throws. *)
Definition emit (outputv : list (list nat)) (st : build_state) (it : nat * option SXNode)
  : result build_state :=
  let '(idx, n) := it in
  let o := from_option getOp OP_OUTPUT n in
  let blank := {| op := o; i0 := 0; i1 := 0; i2 := 0; d := inhabitant |} in
  '(ae, symb_loc, curr_oind, curr_nz) ←
    match o with
    | OP_CONST =>
        mret ({| op := o; i0 := idx; i1 := 0; i2 := 0;
                 d := from_option getValue inhabitant n |},
              b_symb_loc st, b_curr_oind st, b_curr_nz st)
    | OP_PARAMETER =>
        mret (set_i0 idx blank,
              b_symb_loc st ++ [(length (b_algorithm st), idx)],
              b_curr_oind st, b_curr_nz st)
    | OP_OUTPUT =>
        t ← at_ (outputv !!! b_curr_oind st) (b_curr_nz st);
        let ae := set_i2 (b_curr_nz st) (set_i1 t (set_i0 (b_curr_oind st) blank)) in
        let nz := S (b_curr_nz st) in
        if bool_decide (length (outputv !!! b_curr_oind st) ≤ nz)%nat
        then mret (ae, b_symb_loc st,
                   skip_empty (drop (S (b_curr_oind st)) outputv) (S (b_curr_oind st)),
                   0%nat)
        else mret (ae, b_symb_loc st, b_curr_oind st, nz)
    | _ =>
        mret (set_i2 (from_option dep1 0%nat n)
                (set_i1 (from_option dep0 0%nat n) (set_i0 idx blank)),
              b_symb_loc st, b_curr_oind st, b_curr_nz st)
    end;
  refcount ← count_children ae (b_refcount st);
  mret {| b_algorithm := b_algorithm st ++ [ae];
          b_symb_loc := symb_loc;
          b_curr_oind := curr_oind;
          b_curr_nz := curr_nz;
          b_refcount := refcount |}.

Definition build (nodes : list (option SXNode)) (outputv : list (list nat))
  : result build_state :=
  foldlM (emit outputv)
         {| b_algorithm := []; b_symb_loc := [];
            b_curr_oind := first_output outputv; b_curr_nz := 0;
            b_refcount := replicate (length nodes) 0 |}
         (indexed nodes).

(** ** [init], second loop: places in the work vector (lines 439-488) *)

Record alloc_state := {
  a_refcount : list Z;
  a_place : list nat;
  a_unused : list nat;          (* the stack, top first *)
  a_worksize : nat;
}.

(** Lines 454-460, children [c-1] down to [0]. *)
Fixpoint release_children (c : nat) (e : AlgEl) (st : alloc_state) : result alloc_state :=
  match c with
  | O => mret st
  | S c' =>
      let ch_ind := child e c' in
      v ← at_ (a_refcount st) ch_ind;
      let remaining := v - 1 in
      release_children c' e
        {| a_refcount := <[ch_ind := remaining]> (a_refcount st);
           a_place := a_place st;
           a_unused := if bool_decide (remaining = 0)
                       then (a_place st !!! ch_ind) :: a_unused st
                       else a_unused st;
           a_worksize := a_worksize st |}
  end.

(** Lines 462-472. *)
Definition store_result (live_variables : bool) (e : AlgEl) (st : alloc_state)
  : AlgEl * alloc_state :=
  if bool_decide (op e ≠ OP_OUTPUT) then
    match live_variables, a_unused st with
    | true, top :: rest =>
        (set_i0 top e,
         {| a_refcount := a_refcount st;
            a_place := <[i0 e := top]> (a_place st);
            a_unused := rest;
            a_worksize := a_worksize st |})
    | _, _ =>
        (set_i0 (a_worksize st) e,
         {| a_refcount := a_refcount st;
            a_place := <[i0 e := a_worksize st]> (a_place st);
            a_unused := a_unused st;
            a_worksize := S (a_worksize st) |})
    end
  else (e, st).

(** Lines 474-481. *)
Definition relocate_children (place : list nat) (e : AlgEl) : AlgEl :=
  foldl (λ e c, if bool_decide (c = 0%nat)
                then set_i1 (place !!! i1 e) e
                else set_i2 (place !!! i2 e) e)
        e (seq 0 (ndeps (op e))).

(** Lines 483-487. *)
Definition pad_unary (e : AlgEl) : AlgEl :=
  if bool_decide (ndeps (op e) = 1%nat ∧ op e ≠ OP_OUTPUT) then set_i2 (i1 e) e else e.

Definition allocate (live_variables : bool) (acc : list AlgEl * alloc_state) (e : AlgEl)
  : result (list AlgEl * alloc_state) :=
  st1 ← release_children (ndeps (op e)) e acc.2;
  let '(e2, st2) := store_result live_variables e st1 in
  let e3 := pad_unary (relocate_children (a_place st2) e2) in
  mret (acc.1 ++ [e3], st2).

(** ** [init], the input instructions and the free variables (lines 503-548)

    After the scratch fields are cleared, every parameter node is marked
    with its place in the algorithm plus one. *)
Definition mark_symb_loc (n : nat) (symb_loc : list (nat * nat)) : list Z :=
  foldl (λ temp it, <[it.2 := Z.of_nat it.1 + 1]> temp) (replicate n 0) symb_loc.

(** Lines 516-535, for the element at nonzero [nz] of input [ind], whose node
    is at position [a]. *)
Definition add_input (ind : nat) (acc : list AlgEl * list Z) (it : nat * nat)
  : list AlgEl * list Z :=
  let '(nz, a) := it in
  let i := (acc.2 !!! a) - 1 in
  if bool_decide (0 ≤ i) then
    (alter (λ e, set_i2 nz (set_i1 ind (set_op OP_INPUT e))) (Z.to_nat i) acc.1,
     <[a := 0]> acc.2)
  else acc.

Definition add_inputs (inputv : list (list nat)) (acc : list AlgEl * list Z)
  : list AlgEl * list Z :=
  foldl (λ acc it, foldl (add_input it.1) acc (indexed it.2)) acc (indexed inputv).

(** Lines 537-548. *)
Definition locate_free (symb_loc : list (nat * nat)) (temp : list Z) : list nat :=
  (foldl (λ acc it,
            if bool_decide (acc.2 !!! it.2 ≠ 0)
            then (acc.1 ++ [it.2], <[it.2 := 0]> acc.2)
            else acc)
         ([], temp) symb_loc).1.

(** ** [init] *)

Record compiled := {
  algorithm_ : list AlgEl;
  worksize : nat;               (* the size of [work_] and of [s_work_] *)
  free_vars_ : list nat;
}.

Definition init (live_variables : bool) (nodes : list (option SXNode))
    (inputv outputv : list (list nat)) : result compiled :=
  b ← build nodes outputv;
  '(alg, a) ← foldlM (allocate live_variables)
                 ([], {| a_refcount := b_refcount b;
                         a_place := replicate (length nodes) 0%nat;
                         a_unused := [];
                         a_worksize := 0 |})
                 (b_algorithm b);
  let temp := mark_symb_loc (length nodes) (b_symb_loc b) in
  let '(alg', temp') := add_inputs inputv (alg, temp) in
  mret {| algorithm_ := alg';
          worksize := a_worksize a;
          free_vars_ := locate_free (b_symb_loc b) temp' |}.

(** ** Numeric evaluation (lines 103-167)

    [CASADI_MATH_FUN_BUILTIN] expands to one case per elementary operation;
    the function it computes is a parameter.  The OpenCL branch is compiled
    out.  The value returned is the list of tape records executed, in
    order, and the state reached or the error thrown. *)

Record buffers := {
  work_ : list D;
  input : list (list D);
  output : list (list D);
}.

Definition is_builtin (o : Operation) : bool :=
  match o with
  | OP_UNARY _ | OP_BINARY _ => true
  | _ => false
  end.

Section Evaluate.

Variable casadi_math_fun : Operation → D → D → D.

Definition exec (st : buffers) (it : AlgEl) : buffers :=
  match op it with
  | OP_CONST =>
      {| work_ := <[i0 it := d it]> (work_ st); input := input st; output := output st |}
  | OP_INPUT =>
      {| work_ := <[i0 it := (input st !!! i1 it) !!! i2 it]> (work_ st);
         input := input st; output := output st |}
  | OP_OUTPUT =>
      {| work_ := work_ st; input := input st;
         output := alter (λ o, <[i2 it := work_ st !!! i1 it]> o) (i0 it) (output st) |}
  | o =>
      if is_builtin o
      then {| work_ := <[i0 it := casadi_math_fun o (work_ st !!! i1 it) (work_ st !!! i2 it)]>
                         (work_ st);
              input := input st; output := output st |}
      else st
  end.

Definition run (acc : list AlgEl * buffers) (it : AlgEl) : list AlgEl * buffers :=
  (acc.1 ++ [it], exec acc.2 it).

Definition evaluate (f : compiled) (st : buffers) : list AlgEl * result buffers :=
  if bool_decide (free_vars_ f ≠ []) then ([], inl FREE_VARIABLE)
  else let r := foldl run ([], st) (algorithm_ f) in (r.1, inr r.2).

End Evaluate.

End Tape.
Global Arguments SXNode : clear implicits.
Global Arguments AlgEl : clear implicits.
Global Arguments build_state : clear implicits.
Global Arguments compiled : clear implicits.
Global Arguments buffers : clear implicits.

(** ** Symbolic evaluation (lines 626-790)

    Scalar expressions and the elementary operations on them are
    parameters.  [sx_fun] is [CASADI_MATH_FUN_BUILTIN], [sx_der] is
    [CASADI_MATH_DER_BUILTIN]. *)

Class SXOps (E : Type) := {
  sx_default : E;
  sx_zero : E;
  sx_isEqual : E → E → nat → bool;
  sx_assignIfDuplicate : E → E → nat → E;
  sx_fun : Operation → E → E → E;
  sx_der : Operation → E → E → E → E * E;
  sx_add : E → E → E;
  sx_mul : E → E → E;
}.

Section Symbolic.

Context {D E : Type} `{!Inhabited D} `{!SXOps E}.

#[local] Instance E_inhabited : Inhabited E := populate sx_default.

(** The members the symbolic evaluator reads and writes. *)
Record symbolic := {
  s_inputv_ : list (list E);
  s_outputv_ : list (list E);
  s_algorithm_ : list (AlgEl D);
  s_operations_ : list E;
  s_constants_ : list E;
  s_free_vars_ : list E;
  s_work_ : list E;
}.

(** [m[i].data()[j] = v]. *)
Definition store {A} (i j : nat) (v : A) (m : list (list A)) : list (list A) :=
  alter (λ row, <[j := v]> row) i m.

(** [m[dir][i].data()[j] = v]. *)
Definition store3 {A} (dir i j : nat) (v : A) (m : list (list (list A)))
  : list (list (list A)) :=
  alter (store i j v) dir m.

(** Lines 633-641: the comparison stops at the first mismatch; the checked
    [inputv_[i].at(j)] may throw.  [inputv_[i]] itself is not checked: for
    an argument past the declared inputs the source reads past the end of
    [inputv_], which is undefined; an empty row stands for it here, and
    what is proved of the comparison is proved for no more arguments than
    declared inputs. *)
Definition check_row (given : list E) (declared : list E) (og : bool) : result bool :=
  foldlM (λ (og : bool) (it : nat * E),
            if og
                   then x ← at_ declared it.1;
                        mret (sx_isEqual it.2 x 2)
                   else mret false)
         og (indexed given).

Definition check_output_given (arg1 inputv : list (list E)) : result bool :=
  foldlM (λ (og : bool) (it : nat * list E),
            if og then check_row it.2 (inputv !!! it.1) og else mret false)
         true (indexed arg1).

(** Lines 643-648.  [outputv_[i]] is not checked either: for a result
    vector past the stored outputs the source reads past the end of
    [outputv_]; an empty row stands for it here. *)
Definition copy_outputs (outputv res1 : list (list E)) : list (list E) :=
  imap (λ i r, copy (outputv !!! i) r) res1.

Record fwd_state := {
  f_work : list E;
  f_res : list (list E);
  f_b_it : list E;
  f_c_it : list E;
  f_p_it : list E;
  f_pdwork : list (E * E);
  f_it1 : nat;
}.

(** Lines 683-724, one record. *)
Definition forward (output_given taping : bool) (arg : list (list E))
    (st : fwd_state) (it : AlgEl D) : fwd_state :=
  match op it with
  | OP_INPUT =>
      {| f_work := <[i0 it := (arg !!! i1 it) !!! i2 it]> (f_work st);
         f_res := f_res st; f_b_it := f_b_it st; f_c_it := f_c_it st;
         f_p_it := f_p_it st; f_pdwork := f_pdwork st; f_it1 := f_it1 st |}
  | OP_OUTPUT =>
      {| f_work := f_work st;
         f_res := store (i0 it) (i2 it) (f_work st !!! i1 it) (f_res st);
         f_b_it := f_b_it st; f_c_it := f_c_it st;
         f_p_it := f_p_it st; f_pdwork := f_pdwork st; f_it1 := f_it1 st |}
  | OP_CONST =>
      {| f_work := <[i0 it := f_c_it st !!! 0%nat]> (f_work st);
         f_res := f_res st; f_b_it := f_b_it st; f_c_it := tail (f_c_it st);
         f_p_it := f_p_it st; f_pdwork := f_pdwork st; f_it1 := f_it1 st |}
  | OP_PARAMETER =>
      {| f_work := <[i0 it := f_p_it st !!! 0%nat]> (f_work st);
         f_res := f_res st; f_b_it := f_b_it st; f_c_it := f_c_it st;
         f_p_it := tail (f_p_it st); f_pdwork := f_pdwork st; f_it1 := f_it1 st |}
  | o =>
      let x := f_work st !!! i1 it in
      let y := f_work st !!! i2 it in
      let f := if output_given then f_b_it st !!! 0%nat
               else sx_assignIfDuplicate (sx_fun o x y) (f_b_it st !!! 0%nat) 2 in
      {| f_work := <[i0 it := f]> (f_work st);
         f_res := f_res st; f_b_it := tail (f_b_it st); f_c_it := f_c_it st;
         f_p_it := f_p_it st;
         f_pdwork := if taping then <[f_it1 st := sx_der o x y f]> (f_pdwork st)
                     else f_pdwork st;
         f_it1 := if taping then S (f_it1 st) else f_it1 st |}
  end.

(** Lines 732-750, one record of the sweep for direction [dir]; the state is
    the work vector, the sensitivities and the tape iterator [it2]. *)
Definition fwd_sweep (fseed : list (list (list E))) (dir : nat)
    (st : list E * list (list (list E)) * list (E * E)) (it : AlgEl D)
  : list E * list (list (list E)) * list (E * E) :=
  let '(w, fsens, it2) := st in
  let t := it2 !!! 0%nat in
  match op it with
  | OP_INPUT => (<[i0 it := ((fseed !!! dir) !!! i1 it) !!! i2 it]> w, fsens, it2)
  | OP_OUTPUT => (w, store3 dir (i0 it) (i2 it) (w !!! i1 it) fsens, it2)
  | OP_CONST | OP_PARAMETER => (<[i0 it := sx_zero]> w, fsens, it2)
  | OP_BINARY _ =>
      (<[i0 it := sx_add (sx_mul t.1 (w !!! i1 it)) (sx_mul t.2 (w !!! i2 it))]> w,
       fsens, tail it2)
  | _ => (<[i0 it := sx_mul t.1 (w !!! i1 it)]> w, fsens, tail it2)
  end.

(** Lines 756-788, one record of the reverse sweep for direction [dir]. *)
Definition adj_sweep (aseed : list (list (list E))) (dir : nat)
    (st : list E * list (list (list E)) * list (E * E)) (it : AlgEl D)
  : list E * list (list (list E)) * list (E * E) :=
  let '(w, asens, it2) := st in
  let t := it2 !!! 0%nat in
  match op it with
  | OP_INPUT => (<[i0 it := sx_zero]> w, store3 dir (i1 it) (i2 it) (w !!! i0 it) asens, it2)
  | OP_OUTPUT =>
      (<[i1 it := sx_add (w !!! i1 it) (((aseed !!! dir) !!! i0 it) !!! i2 it)]> w,
       asens, it2)
  | OP_CONST | OP_PARAMETER => (<[i0 it := sx_zero]> w, asens, it2)
  | OP_BINARY _ =>
      let seed := w !!! i0 it in
      let w1 := <[i0 it := sx_zero]> w in
      let w2 := <[i1 it := sx_add (w1 !!! i1 it) (sx_mul t.1 seed)]> w1 in
      let w3 := <[i2 it := sx_add (w2 !!! i2 it) (sx_mul t.2 seed)]> w2 in
      (w3, asens, tail it2)
  | _ =>
      let seed := w !!! i0 it in
      let w1 := <[i0 it := sx_zero]> w in
      (<[i1 it := sx_add (w1 !!! i1 it) (sx_mul t.1 seed)]> w1, asens, tail it2)
  end.

(** What a call leaves behind: the caller's vectors, the members it wrote
    to, and the sweeps it ran (one entry per derivative direction, in the
    order of execution). *)
Inductive sweep := FwdSweep (dir : nat) | AdjSweep (dir : nat).

Record outcome := {
  res1 : list (list E);
  fsens : list (list (list E));
  asens : list (list (list E));
  this : symbolic;
  sweeps : list sweep;
}.

Definition with_members (f : symbolic) (outputv : list (list E)) (w : list E) : symbolic :=
  {| s_inputv_ := s_inputv_ f; s_outputv_ := outputv; s_algorithm_ := s_algorithm_ f;
     s_operations_ := s_operations_ f; s_constants_ := s_constants_ f;
     s_free_vars_ := s_free_vars_ f; s_work_ := w |}.

(** Lines 643-789, once [output_given] is known. *)
Definition replay (output_given : bool) (f : symbolic) (arg1 res1 : list (list E))
    (fseed fsens aseed asens : list (list (list E))) : outcome :=
  let res1 := if output_given then copy_outputs (s_outputv_ f) res1 else res1 in
  let arg := if output_given then s_inputv_ f else arg1 in
  let res := if output_given then s_outputv_ f else res1 in
  let nfdir := length fsens in
  let nadir := length aseed in
  let taping := bool_decide (0 < nfdir ∨ 0 < nadir)%nat in
  let st := foldl (forward output_given taping arg)
              {| f_work := s_work_ f; f_res := res;
                 f_b_it := s_operations_ f; f_c_it := s_constants_ f;
                 f_p_it := s_free_vars_ f;
                 f_pdwork := if taping
                             then replicate (length (s_operations_ f)) (sx_default, sx_default)
                             else [];
                 f_it1 := 0 |}
              (s_algorithm_ f) in
  let res1 := if output_given then res1 else f_res st in
  let outputv := if output_given then f_res st else s_outputv_ f in
  if negb taping
  then {| res1 := res1; fsens := fsens; asens := asens;
               this := with_members f outputv (f_work st); sweeps := [] |}
  else
    let '(w, fsens, log) :=
      foldl (λ '((w, fsens, log) : list E * list (list (list E)) * list sweep) dir,
               let '(w, fsens, _) :=
                 foldl (fwd_sweep fseed dir) (w, fsens, f_pdwork st) (s_algorithm_ f) in
               (w, fsens, log ++ [FwdSweep dir]))
            (f_work st, fsens, []) (seq 0 nfdir) in
    let w := if bool_decide (0 < nadir)%nat then replicate (length w) sx_zero else w in
    let '(w, asens, log) :=
      foldl (λ '((w, asens, log) : list E * list (list (list E)) * list sweep) dir,
               let '(w, asens, _) :=
                 foldl (adj_sweep aseed dir) (w, asens, reverse (f_pdwork st))
                       (reverse (s_algorithm_ f)) in
               (w, asens, log ++ [AdjSweep dir]))
            (w, asens, log) (seq 0 nadir) in
    {| res1 := res1; fsens := fsens; asens := asens;
       this := with_members f outputv w; sweeps := log |}.

Definition evalSXsparse (f : symbolic) (arg1 res1 : list (list E))
    (fseed fsens aseed asens : list (list (list E))) : result outcome :=
  output_given ← check_output_given arg1 (s_inputv_ f);
  mret (replay output_given f arg1 res1 fseed fsens aseed asens).

End Symbolic.
Global Arguments symbolic : clear implicits.
Global Arguments outcome : clear implicits.

(** ** Sparsity propagation (lines 819-875)

    The work vector and the numeric buffers are reinterpreted as arrays of
    64-bit masks ([bvec_t]).  The loop only assigns masks and takes their
    bitwise or, so a mask is an integer and no wrap-around arises.  The
    OpenCL branch is compiled out. *)

Section Sparsity.

Context {D : Type}.

Record bvecs := {
  iwork : list Z;
  sp_input : list (list Z);
  sp_output : list (list Z);
}.

(** Lines 833-845, one record of the forward loop. *)
Definition sp_fwd (st : bvecs) (it : AlgEl D) : bvecs :=
  match op it with
  | OP_CONST | OP_PARAMETER =>
      {| iwork := <[i0 it := 0]> (iwork st);
         sp_input := sp_input st; sp_output := sp_output st |}
  | OP_INPUT =>
      {| iwork := <[i0 it := (sp_input st !!! i1 it) !!! i2 it]> (iwork st);
         sp_input := sp_input st; sp_output := sp_output st |}
  | OP_OUTPUT =>
      {| iwork := iwork st; sp_input := sp_input st;
         sp_output := alter (λ o, <[i2 it := iwork st !!! i1 it]> o) (i0 it) (sp_output st) |}
  | _ =>
      {| iwork := <[i0 it := Z.lor (iwork st !!! i1 it) (iwork st !!! i2 it)]> (iwork st);
         sp_input := sp_input st; sp_output := sp_output st |}
  end.

(** Lines 851-872, one record of the backward loop. *)
Definition sp_adj (st : bvecs) (it : AlgEl D) : bvecs :=
  match op it with
  | OP_CONST | OP_PARAMETER =>
      {| iwork := <[i0 it := 0]> (iwork st);
         sp_input := sp_input st; sp_output := sp_output st |}
  | OP_INPUT =>
      {| iwork := <[i0 it := 0]> (iwork st);
         sp_input := alter (λ i, <[i2 it := iwork st !!! i0 it]> i) (i1 it) (sp_input st);
         sp_output := sp_output st |}
  | OP_OUTPUT =>
      {| iwork := <[i1 it := Z.lor (iwork st !!! i1 it)
                                   ((sp_output st !!! i0 it) !!! i2 it)]> (iwork st);
         sp_input := sp_input st; sp_output := sp_output st |}
  | _ =>
      let seed := iwork st !!! i0 it in
      let w1 := <[i0 it := 0]> (iwork st) in
      let w2 := <[i1 it := Z.lor (w1 !!! i1 it) seed]> w1 in
      let w3 := <[i2 it := Z.lor (w2 !!! i2 it) seed]> w2 in
      {| iwork := w3; sp_input := sp_input st; sp_output := sp_output st |}
  end.

Definition spEvaluate (fwd : bool) (algorithm : list (AlgEl D)) (st : bvecs) : bvecs :=
  if fwd then foldl sp_fwd st algorithm
  else foldl sp_adj st (reverse algorithm).

End Sparsity.

End SX.

(** * The matrix layer: [MXFunctionInternal] *)

Module MX.

(** A sparsity pattern is an interned, reference-counted object; [sp_get]
    is the address [sparsity().get()] used as the reuse key in [init]. *)
Record Sparsity := {
  sp_get : nat;
  sp_shape : nat * nat;
}.

#[global] Instance Sparsity_inhabited : Inhabited Sparsity :=
  populate {| sp_get := 0; sp_shape := (0%nat, 0%nat) |}.

(** ** Matrix expressions

    An [MX] is a handle to a node; what the two files ask of it is collected
    here.  [mx_node] is the address of the node behind the handle (the
    scratch field [temp] lives there), and [mx_sym name sp a] is
    [MX::sym(name, sp)] when the allocator places the new node at [a]. *)
Class MXOps (MX : Type) := {
  mx_null : MX;                              (* MX() *)
  mx_node : MX → nat;
  mx_isSymbolic : MX → bool;
  mx_isEmpty : MX → bool;                    (* isEmpty() *)
  mx_isEmpty_both : MX → bool;               (* isEmpty(true) *)
  mx_sparsity : MX → Sparsity;
  mx_size : MX → nat;                        (* size(): structural nonzeros *)
  mx_shape : MX → nat * nat;
  mx_sym : string → Sparsity → nat → MX;
  mx_sparse : nat * nat → MX;                (* MX::sparse(shape) *)
  mx_isEqual : MX → MX → nat → bool;
  mx_setSparse : MX → Sparsity → bool → MX;
  mx_addToSum : MX → MX → MX;                (* x.addToSum(y), the new x *)
}.

(** ** Constructor (mx_function_internal.cpp, lines 64-101) *)

Section Constructor.

Context {MX : Type} `{!MXOps MX}.

Record members := {
  inputv_ : list MX;
  outputv_ : list MX;
}.

(** Modelled from the spec: the base-class constructor
    [XFunctionInternal(inputv, outputv)], which is not under src/; it
    supplies the members [inputv_] and [outputv_] the body then inspects. *)
Definition XFunctionInternal_new (inputv outputv : list MX) : members :=
  {| inputv_ := inputv; outputv_ := outputv |}.

(** The node store: the scratch fields and the next free address. *)
Record heap := {
  temp : nat → Z;
  next : nat;
}.

(** [ss << "r" << ind]. *)
Definition fresh_name (ind : nat) : string :=
  String.append "r" (NilEmpty.string_of_uint (Nat.to_uint ind)).

(** Lines 70-87, one input; a node is created with its scratch field
    cleared. *)
Definition check_symbolic (acc : list MX * heap) (it : nat * MX) : result (list MX * heap) :=
  let '(ind, x) := it in
  if negb (mx_isSymbolic x) then
    if mx_isEmpty x then
      let a := next acc.2 in
      mret (acc.1 ++ [mx_sym (fresh_name ind) (mx_sparsity x) a],
            {| temp := <[a := 0]> (temp acc.2); next := S a |})
    else inl NON_SYMBOLIC_INPUT
  else mret (acc.1 ++ [x], acc.2).

(** Lines 89-94. *)
Definition mark_input (st : bool * (nat → Z)) (x : MX) : bool * (nat → Z) :=
  (st.1 || bool_decide (st.2 (mx_node x) ≠ 0), <[mx_node x := 1]> st.2).

(** Lines 96-99. *)
Definition reset_inputs (inputv : list MX) (t : nat → Z) : nat → Z :=
  foldl (λ t x, <[mx_node x := 0]> t) t inputv.

Definition MXFunctionInternal_new (inputv outputv : list MX) (h : heap)
  : result (members * heap) :=
  let this := XFunctionInternal_new inputv outputv in
  '(inputv', h1) ← foldlM check_symbolic ([], h) (indexed (inputv_ this));
  let '(has_duplicates, t2) := foldl mark_input (false, temp h1) inputv' in
  let t3 := reset_inputs inputv' t2 in
  if has_duplicates then inl DUPLICATE_INPUT
  else mret ({| inputv_ := inputv'; outputv_ := outputv_ this |},
             {| temp := t3; next := next h1 |}).

End Constructor.
Global Arguments members : clear implicits.

(** ** Sparsity pre-pass (lines 582-589)

    Every element of [work_] is a matrix and a marker; the data of the
    matrix is reinterpreted as an array of bit masks. *)
Definition spInit (fwd : bool) (work : list (list Z * Z)) : list (list Z * Z) :=
  (λ it, (replicate (length it.1) 0, it.2)) <$> work.

(** ** Nodes and tape records

    In [init] a node is named by its position in the sorted node list, the
    value lines 138-143 first store in its [temp] field.  [getOp] is [None]
    for a function-output node, whose operation code is negative. *)
Record MXNode := {
  getOp : option Operation;
  dep : list nat;
  getNumOutputs : nat;
  isMultipleOutput : bool;
  getFunctionOutput : nat;
  sparsity : Sparsity;                (* sparsity() *)
  sparsity_of : nat → Sparsity;       (* sparsity(oind) *)
  numInplace : nat;
}.

Record AlgEl := {
  op : Operation;
  data : option MXNode;
  arg : list Z;
  res : list Z;
}.

Definition set_arg (v : list Z) (e : AlgEl) : AlgEl :=
  {| op := op e; data := data e; arg := v; res := res e |}.
Definition set_res (v : list Z) (e : AlgEl) : AlgEl :=
  {| op := op e; data := data e; arg := arg e; res := v |}.
Definition set_op (o : Operation) (e : AlgEl) : AlgEl :=
  {| op := o; data := data e; arg := arg e; res := res e |}.

(** [v.front()]. *)
Definition front (v : list Z) : nat := Z.to_nat (v !!! 0%nat).

(** ** [init], first loop: the instruction sequence (lines 145-230) *)

Record build_state := {
  b_algorithm : list AlgEl;
  b_place_in_alg : list Z;
  b_symb_loc : list (nat * nat);
  b_curr_oind : nat;
  b_refcount : list Z;
  b_temp : list Z;
}.

(** Lines 201-206. *)
Definition count_refs (args : list Z) (refcount : list Z) : list Z :=
  foldl (λ rc a, if bool_decide (0 ≤ a) then alter (λ v, v + 1) (Z.to_nat a) rc else rc)
        refcount args.

(** One turn of the loop for the node [n] at position [idx]; [outputv]
    holds the position of the node of every output expression.  Indexing
    [algorithm_] with a parent place that is negative or past the end is
    undefined in the source and reported as [OUT_OF_RANGE] here. *)
Definition emit (outputv : list nat) (st : build_state) (it : nat * option MXNode)
  : result build_state :=
  let '(idx, n) := it in
  let o := from_option getOp (Some OP_OUTPUT) n in
  let symb_loc := if bool_decide (o = Some OP_PARAMETER)
                  then b_symb_loc st ++ [(length (b_algorithm st), idx)]
                  else b_symb_loc st in
  match o with
  | Some o =>
      '(args, ress, curr_oind) ←
        (if bool_decide (o = OP_OUTPUT) then
           t ← at_ outputv (b_curr_oind st);
           mret ([b_temp st !!! t], [Z.of_nat (b_curr_oind st)], S (b_curr_oind st))
         else
           let args := (λ k, b_temp st !!! k) <$> from_option dep [] n in
           let nout := from_option getNumOutputs 0%nat n in
           let ress := if from_option isMultipleOutput false n
                       then replicate nout (-1)
                       else <[0%nat := b_temp st !!! idx]> (replicate nout 0) in
           mret (args, ress, b_curr_oind st));
      mret {| b_algorithm := b_algorithm st ++ [{| op := o; data := n; arg := args; res := ress |}];
              b_place_in_alg := b_place_in_alg st ++ [Z.of_nat (length (b_algorithm st))];
              b_symb_loc := symb_loc;
              b_curr_oind := curr_oind;
              b_refcount := count_refs args (b_refcount st);
              b_temp := b_temp st |}
  | None =>
      let oind := from_option getFunctionOutput 0%nat n in
      let pind := b_place_in_alg st !!! Z.to_nat (b_temp st !!! (from_option dep [] n !!! 0%nat)) in
      parent ← (if bool_decide (0 ≤ pind) then at_ (b_algorithm st) (Z.to_nat pind)
                else inl OUT_OF_RANGE);
      otmp ← at_ (res parent) oind;
      if bool_decide (otmp < 0) then
        mret {| b_algorithm :=
                  <[Z.to_nat pind := set_res (<[oind := b_temp st !!! idx]> (res parent)) parent]>
                    (b_algorithm st);
                b_place_in_alg := b_place_in_alg st ++ [-1];
                b_symb_loc := symb_loc;
                b_curr_oind := b_curr_oind st;
                b_refcount := b_refcount st;
                b_temp := b_temp st |}
      else
        mret {| b_algorithm := b_algorithm st;
                b_place_in_alg := b_place_in_alg st ++ [-1];
                b_symb_loc := symb_loc;
                b_curr_oind := b_curr_oind st;
                b_refcount := b_refcount st;
                b_temp := <[idx := otmp]> (b_temp st) |}
  end.

Definition build (nodes : list (option MXNode)) (outputv : list nat) : result build_state :=
  foldlM (emit outputv)
         {| b_algorithm := []; b_place_in_alg := []; b_symb_loc := [];
            b_curr_oind := 0; b_refcount := replicate (length nodes) 0;
            b_temp := Z.of_nat <$> seq 0 (length nodes) |}
         (indexed nodes).

(** ** [init], second loop: places in the work vector (lines 232-311)

    [unused_all] maps the address of a sparsity pattern to its stack of
    free work-vector elements (top first).  [a_log] is not in the source:
    it records, in order, every push and pop on those stacks and every
    fresh element, each with the sparsity address it happened under. *)

Inductive alloc_event : Type :=
  | Freed (slot : Z) (sp : nat)
  | Reused (slot : Z) (sp : nat)
  | Fresh (slot : Z) (sp : nat).

Record alloc_state := {
  a_refcount : list Z;
  a_place : list Z;
  a_unused_all : gmap nat (list Z);
  a_worksize : nat;
  a_log : list alloc_event;
}.

(** [nodes[ch_ind]->sparsity().get()]. *)
Definition node_sparsity (nodes : list (option MXNode)) (k : nat) : nat :=
  sp_get (from_option sparsity inhabitant (nodes !!! k)).

(** Lines 256-276 for the argument at position [c]; a position past the
    end of [arg] is undefined in the source and skipped here. *)
Definition release (live_variables : bool) (nodes : list (option MXNode))
    (acc : AlgEl * alloc_state) (c : nat) : AlgEl * alloc_state :=
  let '(it, st) := acc in
  match arg it !! c with
  | Some ch_ind =>
      if bool_decide (0 ≤ ch_ind) then
        let k := Z.to_nat ch_ind in
        let remaining := (a_refcount st !!! k) - 1 in
        let refcount := <[k := remaining]> (a_refcount st) in
        let p := a_place st !!! k in
        let st' :=
          if live_variables && bool_decide (remaining = 0) then
            let sp := node_sparsity nodes k in
            {| a_refcount := refcount; a_place := a_place st;
               a_unused_all := <[sp := p :: default [] (a_unused_all st !! sp)]> (a_unused_all st);
               a_worksize := a_worksize st;
               a_log := a_log st ++ [Freed p sp] |}
          else
            {| a_refcount := refcount; a_place := a_place st;
               a_unused_all := a_unused_all st;
               a_worksize := a_worksize st; a_log := a_log st |} in
        (set_arg (<[c := p]> (arg it)) it, st')
      else acc
  | None => acc
  end.

(** [for (int c=last_to_free-1; c>=first_to_free; --c)]. *)
Definition release_range (live_variables : bool) (nodes : list (option MXNode))
    (first_to_free last_to_free : nat) (acc : AlgEl * alloc_state) : AlgEl * alloc_state :=
  foldl (release live_variables nodes) acc
        (reverse (seq first_to_free (last_to_free - first_to_free))).

(** Lines 287-309 for the result at position [c]. *)
Definition place_result (live_variables : bool) (acc : AlgEl * alloc_state) (c : nat)
  : AlgEl * alloc_state :=
  let '(it, st) := acc in
  match res it !! c with
  | Some r =>
      if bool_decide (0 ≤ r) then
        let sp := sp_get (from_option (λ n, sparsity_of n c) inhabitant (data it)) in
        match live_variables, default [] (a_unused_all st !! sp) with
        | true, top :: rest =>
            (set_res (<[c := top]> (res it)) it,
             {| a_refcount := a_refcount st;
                a_place := <[Z.to_nat r := top]> (a_place st);
                a_unused_all := <[sp := rest]> (a_unused_all st);
                a_worksize := a_worksize st;
                a_log := a_log st ++ [Reused top sp] |})
        | _, _ =>
            let w := Z.of_nat (a_worksize st) in
            (set_res (<[c := w]> (res it)) it,
             {| a_refcount := a_refcount st;
                a_place := <[Z.to_nat r := w]> (a_place st);
                a_unused_all := a_unused_all st;
                a_worksize := S (a_worksize st);
                a_log := a_log st ++ [Fresh w sp] |})
        end
      else acc
  | None => acc
  end.

(** Lines 243-311, one record. *)
Definition allocate (live_variables : bool) (nodes : list (option MXNode))
    (acc : list AlgEl * alloc_state) (it : AlgEl) : list AlgEl * alloc_state :=
  let last_to_free := if bool_decide (op it = OP_OUTPUT) then 1%nat
                      else from_option numInplace 0%nat (data it) in
  let r0 := release_range live_variables nodes 0 last_to_free (it, acc.2) in
  if bool_decide (op it = OP_OUTPUT) then (acc.1 ++ [r0.1], r0.2)
  else
    let r1 := foldl (place_result live_variables) r0 (seq 0 (length (res r0.1))) in
    let r2 := release_range live_variables nodes last_to_free (length (arg r1.1)) r1 in
    (acc.1 ++ [r2.1], r2.2).

(** ** [init], the input instructions and the free variables (lines 345-385) *)

Definition mark_symb_loc (n : nat) (symb_loc : list (nat * nat)) : list Z :=
  foldl (λ t it, <[it.2 := Z.of_nat it.1 + 1]> t) (replicate n 0) symb_loc.

(** Lines 358-371 for input [ind], whose node is at position [a]. *)
Definition add_input (acc : list AlgEl * list Z) (it : nat * nat) : list AlgEl * list Z :=
  let '(ind, a) := it in
  let i := (acc.2 !!! a) - 1 in
  if bool_decide (0 ≤ i) then
    (alter (λ e, set_arg [Z.of_nat ind] (set_op OP_INPUT e)) (Z.to_nat i) acc.1,
     <[a := 0]> acc.2)
  else acc.

(** Lines 373-385. *)
Definition locate_free (symb_loc : list (nat * nat)) (t : list Z) : list nat :=
  (foldl (λ acc it,
            if bool_decide (0 ≤ (acc.2 !!! it.2) - 1)
            then (acc.1 ++ [it.2], <[it.2 := 0]> acc.2)
            else acc)
         ([], t) symb_loc).1.

(** ** [init] *)

Record compiled := {
  algorithm_ : list AlgEl;
  worksize : nat;                     (* the size of [work_] *)
  free_vars_ : list nat;
  alloc_log : list alloc_event;
}.

Definition init (live_variables : bool) (nodes : list (option MXNode))
    (inputv outputv : list nat) : result compiled :=
  b ← build nodes outputv;
  let '(alg, a) :=
    foldl (allocate live_variables nodes)
          ([], {| a_refcount := b_refcount b;
                  a_place := resize (length nodes) 0 (b_place_in_alg b);
                  a_unused_all := ∅;
                  a_worksize := 0;
                  a_log := [] |})
          (b_algorithm b) in
  let t := mark_symb_loc (length nodes) (b_symb_loc b) in
  let '(alg', t') := foldl add_input (alg, t) (indexed inputv) in
  mret {| algorithm_ := alg';
          worksize := a_worksize a;
          free_vars_ := locate_free (b_symb_loc b) t';
          alloc_log := a_log a |}.

(** ** Numeric evaluation (lines 403-511)

    The numeric matrices and the numeric kernels are parameters: [dm_set w x]
    is [w] after [w.set(x)], [dm_get w y] is [y] after [w.get(y)], and
    [evaluateD n input output work] is the work vector after the kernel of
    [n] ran on the pointers [updatePointers] set up ([None] is the null
    pointer).  The value returned is the list of tape records executed, in
    order, and the state reached or the error thrown. *)

Section Evaluate.

Context {DMatrix : Type} `{!Inhabited DMatrix}.
Variable dm_set : DMatrix → DMatrix → DMatrix.
Variable dm_get : DMatrix → DMatrix → DMatrix.
Variable evaluateD : MXNode → list (option nat) → list (option nat) → list DMatrix → list DMatrix.

Record buffers := {
  work_ : list DMatrix;
  input : list DMatrix;
  output : list DMatrix;
}.

(** Lines 403-427. *)
Definition pointers (v : list Z) : list (option nat) :=
  (λ k, if bool_decide (0 ≤ k) then Some (Z.to_nat k) else None) <$> v.

Definition exec (st : buffers) (it : AlgEl) : buffers :=
  if bool_decide (op it = OP_INPUT) then
    {| work_ := alter (λ w, dm_set w (input st !!! front (arg it))) (front (res it)) (work_ st);
       input := input st; output := output st |}
  else if bool_decide (op it = OP_OUTPUT) then
    {| work_ := work_ st; input := input st;
       output := alter (λ y, dm_get (work_ st !!! front (arg it)) y) (front (res it)) (output st) |}
  else
    match data it with
    | Some n =>
        {| work_ := evaluateD n (pointers (arg it)) (pointers (res it)) (work_ st);
           input := input st; output := output st |}
    | None => st
    end.

Definition run (acc : list AlgEl * buffers) (it : AlgEl) : list AlgEl * buffers :=
  (acc.1 ++ [it], exec acc.2 it).

Definition evaluate (f : compiled) (st : buffers) : list AlgEl * result buffers :=
  if bool_decide (free_vars_ f ≠ []) then ([], inl FREE_VARIABLE)
  else let r := foldl run ([], st) (algorithm_ f) in (r.1, inr r.2).

End Evaluate.
Global Arguments buffers : clear implicits.

(** ** Symbolic evaluation with derivatives (lines 681-1059, 1161-1187) *)

Section Symbolic.

Context {MX : Type} `{!MXOps MX}.

#[local] Instance MX_inhabited : Inhabited MX := populate mx_null.

(** The members [evalMX] reads; [input_sp] and [output_sp] are the
    sparsities of the numeric buffers [input(i)] and [output(i)].  A
    [function] stands for an object that [init] has been run on: the tape
    and the size of the work vector are there, and [assertInit()] (line
    687) passes. *)
Record function := {
  f_inputv_ : list MX;
  f_outputv_ : list MX;
  f_algorithm_ : list AlgEl;
  f_worksize : nat;
  input_sp : list Sparsity;
  output_sp : list Sparsity;
}.

(** *** [allocTape] *)

Definition spill (alg_counter : nat) (acc : list bool * list (nat * Z * MX)) (ind : Z)
  : list bool * list (nat * Z * MX) :=
  let '(in_use, tape) := acc in
  if bool_decide (0 ≤ ind) then
    if (in_use !!! Z.to_nat ind : bool)
    then (in_use, tape ++ [(alg_counter, ind, mx_null)])
    else (<[Z.to_nat ind := true]> in_use, tape)
  else acc.

Definition spill_record (acc : list bool * list (nat * Z * MX)) (it : nat * AlgEl)
  : list bool * list (nat * Z * MX) :=
  if bool_decide (op it.2 ≠ OP_OUTPUT) then foldl (spill it.1) acc (res it.2) else acc.

Definition allocTape (algorithm : list AlgEl) (worksize : nat) : list (nat * Z * MX) :=
  (foldl spill_record (replicate worksize false, []) (indexed algorithm)).2.

(** *** Storage and pointers

    The kernels receive pointers into the symbolic work vector, the
    vector of known outputs, the derivative work vector and, on the
    reverse sweep, the spill tape. *)

Inductive ptr : Type :=
  | Null
  | Swork (k : nat)
  | OutputTmp (i : nat)
  | Dwork (k d : nat)
  | Spilled (t : nat).

Record mem := {
  swork : list MX;
  dwork : list (list MX);
  output_tmp : list MX;
}.

Definition set_swork (v : list MX) (m : mem) : mem :=
  {| swork := v; dwork := dwork m; output_tmp := output_tmp m |}.
Definition set_dwork (v : list (list MX)) (m : mem) : mem :=
  {| swork := swork m; dwork := v; output_tmp := output_tmp m |}.
Definition set_output_tmp (v : list MX) (m : mem) : mem :=
  {| swork := swork m; dwork := dwork m; output_tmp := v |}.

(** [m[k][d] = v]. *)
Definition store (k d : nat) (v : MX) (m : list (list MX)) : list (list MX) :=
  alter (λ row, <[d := v]> row) k m.

(** The arguments of one call of [evaluateMX]; [dummy_p] is the empty
    vector. *)
Record call := {
  c_input : list ptr;
  c_output : list ptr;
  c_fwdSeed : list (list ptr);
  c_fwdSens : list (list ptr);
  c_adjSeed : list (list ptr);
  c_adjSens : list (list ptr);
  c_output_given : bool;
}.

Definition dummy_p : list (list ptr) := [].

(** One entry per call of [evaluateMX]: the record it was made for, the
    pass, the node, the derivative vectors as assembled, what [purgeSeeds]
    returned if it was called, and the arguments passed.  The entries are
    not in the source. *)
Record invocation := {
  v_alg_counter : nat;
  v_forward : bool;
  v_data : MXNode;
  v_seed_p : list (list ptr);
  v_sens_p : list (list ptr);
  v_purged : option (list (list ptr) * list (list ptr));
  v_call : call;
}.

(** The operator kernels and the base-class helper [purgeSeeds] are not
    under src/ and enter as parameters.  A kernel rewrites the storage it
    is pointed to and reads the spill tape; [purgeSeeds seed sens forward
    m] returns the purged seeds, the purged sensitivities and the storage
    it leaves. *)
Variable create : MXNode → MX.
Variable getOutput : MXNode → nat → MX.
Variable evaluateMX : MXNode → call → list (nat * Z * MX) → mem → mem.
Variable purgeSeeds :
  list (list ptr) → list (list ptr) → bool → mem → list (list ptr) * list (list ptr) * mem.
(** [CasadiOptions::purgeSeeds]. *)
Variable purge_flag : bool.

(** *** The forward loop (lines 802-929) *)

Record fwd_state := {
  fw_mem : mem;
  fw_tape : list (nat * Z * MX);
  fw_tt : nat;
  fw_res : list MX;
  fw_fsens : list (list MX);
  fw_calls : list invocation;
}.

(** Lines 806-813 for the result [c]. *)
Definition capture (alg_counter : nat) (sw : list MX)
    (acc : list (nat * Z * MX) * nat) (c : Z) : list (nat * Z * MX) * nat :=
  let '(tape, tt_) := acc in
  if bool_decide (0 ≤ c) && bool_decide (tt_ < length tape)%nat
     && bool_decide ((tape !!! tt_).1 = (alg_counter, c))
  then (<[tt_ := ((tape !!! tt_).1, sw !!! Z.to_nat c)]> tape, S tt_)
  else acc.

Definition capture_record (nadir : nat) (alg_counter : nat) (it : AlgEl) (sw : list MX)
    (acc : list (nat * Z * MX) * nat) : list (nat * Z * MX) * nat :=
  if bool_decide (0 < nadir)%nat && bool_decide (op it ≠ OP_OUTPUT)
  then foldl (capture alg_counter sw) acc (res it)
  else acc.

Definition slot_ptr (el : Z) : ptr := if bool_decide (el < 0) then Null else Swork (Z.to_nat el).
Definition dir_ptr (d : nat) (el : Z) : ptr :=
  if bool_decide (el < 0) then Null else Dwork (Z.to_nat el) d.

(** Lines 840-848. *)
Definition known_outputs (n : option MXNode) (ress : list Z) (tmp : list MX) : list MX :=
  foldl (λ (tmp : list MX) (it : nat * Z),
           if bool_decide (0 ≤ it.2)
                   then <[it.1 := from_option (λ n, getOutput n it.1) mx_null n]> tmp
                   else tmp)
        (resize (length ress) mx_null tmp) (indexed ress).

(** Lines 871-878: give a zero seed if null. *)
Definition zero_seed (sw : list MX) (d : nat) (dw : list (list MX)) (el : Z) : list (list MX) :=
  if bool_decide (0 ≤ el) && mx_isEmpty_both ((dw !!! Z.to_nat el) !!! d) then
    if bool_decide (d = 0%nat)
    then store (Z.to_nat el) d (mx_sparse (mx_shape (sw !!! Z.to_nat el))) dw
    else store (Z.to_nat el) d ((dw !!! Z.to_nat el) !!! 0%nat) dw
  else dw.

(** Lines 883-887; [out] is the matrix [output_p[oind]] points to. *)
Definition zero_sens (out : nat → Z → MX) (d : nat) (dw : list (list MX)) (it : nat * Z)
  : list (list MX) :=
  if bool_decide (0 ≤ it.2) && mx_isEmpty_both ((dw !!! Z.to_nat it.2) !!! d)
  then store (Z.to_nat it.2) d (mx_sparse (mx_shape (out it.1 it.2))) dw
  else dw.

(** Lines 864-889. *)
Definition fwd_seeds (og : bool) (nfdir : nat) (it : AlgEl) (m : mem) : list (list MX) :=
  let out := λ (oind : nat) (el : Z),
               if og then output_tmp m !!! oind else swork m !!! Z.to_nat el in
  foldl (λ dw d, foldl (zero_sens out d) (foldl (zero_seed (swork m) d) dw (arg it))
                       (indexed (res it)))
        (dwork m) (seq 0 nfdir).

(** Lines 891-918. *)
Definition fwd_call (alg_counter : nat) (n : MXNode) (input_p output_p : list ptr)
    (fseed_p fsens_p : list (list ptr)) (og : bool)
    (tape : list (nat * Z * MX)) (m : mem) : mem * invocation :=
  let mk := λ seed sens,
    {| c_input := input_p; c_output := output_p;
       c_fwdSeed := seed; c_fwdSens := sens;
       c_adjSeed := dummy_p; c_adjSens := dummy_p;
       c_output_given := og |} in
  if bool_decide (getOp n = Some OP_CALL) then
    let '(fseed_purged, fsens_purged, m1) := purgeSeeds fseed_p fsens_p true m in
    let c :=
      if bool_decide (length fsens_purged = 0%nat) && bool_decide (length fsens_purged = 0%nat)
      then mk dummy_p dummy_p
      else if purge_flag then mk fseed_purged fsens_purged
      else mk fseed_p fsens_p in
    (evaluateMX n c tape m1,
     {| v_alg_counter := alg_counter; v_forward := true; v_data := n;
        v_seed_p := fseed_p; v_sens_p := fsens_p;
        v_purged := Some (fseed_purged, fsens_purged); v_call := c |})
  else
    let c := mk fseed_p fsens_p in
    (evaluateMX n c tape m,
     {| v_alg_counter := alg_counter; v_forward := true; v_data := n;
        v_seed_p := fseed_p; v_sens_p := fsens_p;
        v_purged := None; v_call := c |}).

(** Lines 920-927. *)
Definition save_known (ress : list Z) (tmp : list MX) (sw : list MX) : list MX :=
  foldl (λ (sw : list MX) (it : nat * Z),
           if bool_decide (0 ≤ it.2) then <[Z.to_nat it.2 := tmp !!! it.1]> sw else sw)
        sw (indexed ress).

(** Lines 838-928: any other operation.  A record without a node cannot
    be evaluated and is left alone. *)
Definition fwd_operation (og : bool) (nfdir : nat) (alg_counter : nat) (it : AlgEl)
    (st : fwd_state) : fwd_state :=
  match data it with
  | None => st
  | Some n =>
      let m0 := if og
                then set_output_tmp (known_outputs (data it) (res it) (output_tmp (fw_mem st)))
                                    (fw_mem st)
                else fw_mem st in
      let input_p := slot_ptr <$> arg it in
      let output_p := imap (λ i el, if bool_decide (el < 0) then Null
                                    else if og then OutputTmp i
                                    else Swork (Z.to_nat el)) (res it) in
      let fseed_p := (λ d, dir_ptr d <$> arg it) <$> seq 0 nfdir in
      let fsens_p := (λ d, dir_ptr d <$> res it) <$> seq 0 nfdir in
      let m1 := set_dwork (fwd_seeds og nfdir it m0) m0 in
      let '(m2, calls) :=
        if negb og || bool_decide (0 < nfdir)%nat then
          let r := fwd_call alg_counter n input_p output_p fseed_p fsens_p og (fw_tape st) m1 in
          (r.1, fw_calls st ++ [r.2])
        else (m1, fw_calls st) in
      let m3 := if og then set_swork (save_known (res it) (output_tmp m2) (swork m2)) m2
                else m2 in
      {| fw_mem := m3; fw_tape := fw_tape st; fw_tt := fw_tt st;
         fw_res := fw_res st; fw_fsens := fw_fsens st; fw_calls := calls |}
  end.

(** Lines 804-929, one record. *)
Definition forward (f : function) (og : bool) (nfdir nadir : nat)
    (arg_ : list MX) (fseed : list (list MX)) (st : fwd_state) (ia : nat * AlgEl)
  : fwd_state :=
  let '(alg_counter, it) := ia in
  let '(tape, tt_) :=
    capture_record nadir alg_counter it (swork (fw_mem st)) (fw_tape st, fw_tt st) in
  let st := {| fw_mem := fw_mem st; fw_tape := tape; fw_tt := tt_;
               fw_res := fw_res st; fw_fsens := fw_fsens st; fw_calls := fw_calls st |} in
  let m := fw_mem st in
  if bool_decide (op it = OP_INPUT) then
    let sp_input := input_sp f !!! front (arg it) in
    let sw := <[front (res it) := mx_setSparse (arg_ !!! front (arg it)) sp_input true]>
                (swork m) in
    let dw := foldl (λ dw d, store (front (res it)) d
                               (mx_setSparse ((fseed !!! d) !!! front (arg it)) sp_input true)
                               dw)
                    (dwork m) (seq 0 nfdir) in
    {| fw_mem := set_dwork dw (set_swork sw m); fw_tape := fw_tape st; fw_tt := fw_tt st;
       fw_res := fw_res st; fw_fsens := fw_fsens st; fw_calls := fw_calls st |}
  else if bool_decide (op it = OP_OUTPUT) then
    {| fw_mem := m; fw_tape := fw_tape st; fw_tt := fw_tt st;
       fw_res := if negb og
                 then <[front (res it) := swork m !!! front (arg it)]> (fw_res st)
                 else fw_res st;
       fw_fsens := foldl (λ fs d, store d (front (res it))
                                    ((dwork m !!! front (arg it)) !!! d) fs)
                         (fw_fsens st) (seq 0 nfdir);
       fw_calls := fw_calls st |}
  else if bool_decide (op it = OP_PARAMETER) then
    let sw := <[front (res it) := from_option create mx_null (data it)]> (swork m) in
    let dw := foldl (λ dw d, store (front (res it)) d mx_null dw) (dwork m) (seq 0 nfdir) in
    {| fw_mem := set_dwork dw (set_swork sw m); fw_tape := fw_tape st; fw_tt := fw_tt st;
       fw_res := fw_res st; fw_fsens := fw_fsens st; fw_calls := fw_calls st |}
  else fwd_operation og nfdir alg_counter it st.

(** *** The reverse loop (lines 931-1057) *)

Record adj_state := {
  ad_mem : mem;
  ad_tt : Z;
  ad_marks : list Z;                  (* [work_[k].second] *)
  ad_asens : list (list MX);
  ad_calls : list invocation;
}.

(** Lines 945-951 for the result [c]. *)
Definition recover_mark (alg_counter : nat) (tape : list (nat * Z * MX))
    (acc : list Z * Z) (c : Z) : list Z * Z :=
  let '(marks, tt_) := acc in
  if bool_decide (0 ≤ c) && bool_decide (0 ≤ tt_)
     && bool_decide ((tape !!! Z.to_nat tt_).1 = (alg_counter, c))
  then (<[Z.to_nat c := 1 + tt_]> marks, tt_ - 1)
  else acc.

(** Lines 1002-1005 and 1013-1016. *)
Definition zero_adj (sw : list MX) (d : nat) (dw : list (list MX)) (el : Z) : list (list MX) :=
  if bool_decide (0 ≤ el) && mx_isEmpty_both ((dw !!! Z.to_nat el) !!! d)
  then store (Z.to_nat el) d (mx_sparse (mx_shape (sw !!! Z.to_nat el))) dw
  else dw.

(** Lines 995-1018. *)
Definition adj_seeds (nadir : nat) (it : AlgEl) (m : mem) : list (list MX) :=
  foldl (λ dw d, foldl (zero_adj (swork m) d) (foldl (zero_adj (swork m) d) dw (res it))
                       (arg it))
        (dwork m) (seq 0 nadir).

(** Lines 1021-1043. *)
Definition adj_call (alg_counter : nat) (n : MXNode) (input_p output_p : list ptr)
    (aseed_p asens_p : list (list ptr))
    (tape : list (nat * Z * MX)) (m : mem) : mem * invocation :=
  let mk := λ seed sens,
    {| c_input := input_p; c_output := output_p;
       c_fwdSeed := dummy_p; c_fwdSens := dummy_p;
       c_adjSeed := seed; c_adjSens := sens;
       c_output_given := true |} in
  if bool_decide (getOp n = Some OP_CALL) then
    let '(aseed_purged, asens_purged, m1) := purgeSeeds aseed_p asens_p false m in
    let c :=
      if bool_decide (length aseed_purged = 0%nat) && bool_decide (length asens_purged = 0%nat)
      then mk dummy_p dummy_p
      else if purge_flag then mk aseed_purged asens_purged
      else mk aseed_p asens_p in
    (evaluateMX n c tape m1,
     {| v_alg_counter := alg_counter; v_forward := false; v_data := n;
        v_seed_p := aseed_p; v_sens_p := asens_p;
        v_purged := Some (aseed_purged, asens_purged); v_call := c |})
  else
    let c := mk aseed_p asens_p in
    (evaluateMX n c tape m,
     {| v_alg_counter := alg_counter; v_forward := false; v_data := n;
        v_seed_p := aseed_p; v_sens_p := asens_p;
        v_purged := None; v_call := c |}).

(** Lines 1046-1055 for the result [c]. *)
Definition restore (tape : list (nat * Z * MX)) (acc : list MX * list Z) (c : Z)
  : list MX * list Z :=
  let '(sw, marks) := acc in
  if bool_decide (0 ≤ c) && bool_decide (0 < marks !!! Z.to_nat c)
  then (<[Z.to_nat c := (tape !!! Z.to_nat (marks !!! Z.to_nat c - 1)).2]> sw,
        <[Z.to_nat c := 0]> marks)
  else acc.

(** Lines 939-1056, one record. *)
Definition reverse_step (f : function) (nadir : nat) (tape : list (nat * Z * MX))
    (aseed : list (list MX)) (st : adj_state) (ia : nat * AlgEl) : adj_state :=
  let '(alg_counter, it) := ia in
  let '(marks, tt_) :=
    if bool_decide (op it ≠ OP_OUTPUT)
    then foldl (recover_mark alg_counter tape) (ad_marks st, ad_tt st) (reverse (res it))
    else (ad_marks st, ad_tt st) in
  let m := ad_mem st in
  let '(m', asens, calls) :=
    if bool_decide (op it = OP_INPUT) then
      let r := foldl (λ (acc : list (list MX) * list (list MX)) d,
                        let x := (acc.1 !!! front (res it)) !!! d in
                        (store (front (res it)) d mx_null acc.1,
                         store d (front (arg it))
                           (if mx_isEmpty_both x
                            then mx_sparse (sp_shape (input_sp f !!! front (arg it)))
                            else x)
                           acc.2))
                     (dwork m, ad_asens st) (seq 0 nadir) in
      (set_dwork r.1 m, r.2, ad_calls st)
    else if bool_decide (op it = OP_OUTPUT) then
      let dw := foldl (λ dw d,
                         store (front (arg it)) d
                           (mx_addToSum ((dw !!! front (arg it)) !!! d)
                              (mx_setSparse ((aseed !!! d) !!! front (res it))
                                 (output_sp f !!! front (res it)) true))
                           dw)
                      (dwork m) (seq 0 nadir) in
      (set_dwork dw m, ad_asens st, ad_calls st)
    else if bool_decide (op it = OP_PARAMETER) then
      let dw := foldl (λ dw d, store (front (res it)) d mx_null dw) (dwork m) (seq 0 nadir) in
      (set_dwork dw m, ad_asens st, ad_calls st)
    else
      match data it with
      | None => (m, ad_asens st, ad_calls st)
      | Some n =>
          let input_p := (λ el, if bool_decide (el < 0) then Null
                                else let tmp := marks !!! Z.to_nat el in
                                     if bool_decide (tmp = 0) then Swork (Z.to_nat el)
                                     else Spilled (Z.to_nat (tmp - 1))) <$> arg it in
          let output_p := slot_ptr <$> res it in
          let aseed_p := (λ d, dir_ptr d <$> res it) <$> seq 0 nadir in
          let asens_p := (λ d, dir_ptr d <$> arg it) <$> seq 0 nadir in
          let m1 := set_dwork (adj_seeds nadir it m) m in
          let r := adj_call alg_counter n input_p output_p aseed_p asens_p tape m1 in
          (r.1, ad_asens st, ad_calls st ++ [r.2])
      end in
  let '(sw, marks') :=
    if bool_decide (op it ≠ OP_OUTPUT)
    then foldl (restore tape) (swork m', marks) (reverse (res it))
    else (swork m', marks) in
  {| ad_mem := set_swork sw m'; ad_tt := tt_; ad_marks := marks';
     ad_asens := asens; ad_calls := calls |}.

(** *** [evalMX] *)

(** Lines 693-701: the comparison stops at the first mismatch.
    [inputv_[i]] is not checked; [evalMX] has asserted the number of
    arguments before, [symbolicOutput] has not. *)
Definition check_output_given (arg1 inputv : list MX) : bool :=
  foldl (λ (og : bool) (it : nat * MX),
           if og then mx_isEqual it.2 (inputv !!! it.1) 2 else false)
        true (indexed arg1).

(** Lines 713-731. *)
Definition skip (seed : list (list MX)) : bool :=
  forallb (forallb (λ j, negb (bool_decide (0 < mx_size j)%nat))) seed.

(** Lines 745-754 and 759-768: [sens.resize(ndir)], every direction resized
    to [n] matrices and, when skipping, filled with zeros of the shapes
    [sp]. *)
Definition allocate_sens (skipping : bool) (ndir n : nat) (sp : list Sparsity)
    (sens : list (list MX)) : list (list MX) :=
  (λ s, let s := resize n mx_null s in
        if skipping then imap (λ i _, mx_sparse (sp_shape (sp !!! i))) s else s)
    <$> resize ndir [] sens.

Record outcome := {
  res1 : list MX;
  fsens : list (list MX);
  asens : list (list MX);
  tape : list (nat * Z * MX);
  calls : list invocation;
}.

(** Lines 773-800: the state the forward loop starts from. *)
Definition forward_start (f : function) (nfdir : nat) (res : list MX)
    (fsens : list (list MX)) : fwd_state :=
  {| fw_mem := {| swork := replicate (f_worksize f) mx_null;
                  dwork := replicate (f_worksize f) (replicate nfdir mx_null);
                  output_tmp := [] |};
     fw_tape := allocTape (f_algorithm_ f) (f_worksize f);
     fw_tt := 0;
     fw_res := res;
     fw_fsens := fsens;
     fw_calls := [] |}.

Definition forward_pass (f : function) (og : bool) (nfdir nadir : nat)
    (arg_ : list MX) (fseed : list (list MX)) (res : list MX)
    (fsens : list (list MX)) : fwd_state :=
  foldl (forward f og nfdir nadir arg_ fseed) (forward_start f nfdir res fsens)
        (indexed (f_algorithm_ f)).

Definition reverse_pass (f : function) (nadir : nat) (aseed asens : list (list MX))
    (fw : fwd_state) : adj_state :=
  foldl (reverse_step f nadir (fw_tape fw) aseed)
        {| ad_mem := set_dwork (replicate (f_worksize f) (replicate nadir mx_null)) (fw_mem fw);
           ad_tt := Z.of_nat (fw_tt fw) - 1;
           ad_marks := replicate (f_worksize f) 0;
           ad_asens := asens;
           ad_calls := fw_calls fw |}
        (reverse (indexed (f_algorithm_ f))).

(** Lines 681-1059.  The one throw is the assertion on the number of
    arguments.  The seeds are read with unchecked accesses
    ([fseed[d][i]], [aseed[d][i]]), which are undefined for a direction
    with too few matrices; a null matrix stands for a missing one here, so
    that the model returns where the source need not. *)
Definition evalMX (f : function) (arg1 res1 : list MX)
    (fseed fsens aseed asens : list (list MX)) : result outcome :=
  if bool_decide (length arg1 ≠ length (f_inputv_ f)) then inl WRONG_ARITY
  else
    let res1 := resize (length (f_outputv_ f)) mx_null res1 in
    let output_given := check_output_given arg1 (f_inputv_ f) in
    let res1 := if output_given then copy (f_outputv_ f) res1 else res1 in
    let arg_ := if output_given then f_inputv_ f else arg1 in
    let res := if output_given then f_outputv_ f else res1 in
    let skip_fwd := skip fseed in
    let skip_adj := skip aseed in
    let fsens := allocate_sens skip_fwd (length fseed) (length (f_outputv_ f)) (output_sp f) fsens in
    let nfdir := if skip_fwd then 0%nat else length fseed in
    let asens := allocate_sens skip_adj (length aseed) (length (f_inputv_ f)) (input_sp f) asens in
    let nadir := if skip_adj then 0%nat else length aseed in
    if output_given && bool_decide (nfdir = 0%nat) && bool_decide (nadir = 0%nat) then
      mret {| res1 := res1; fsens := fsens; asens := asens; tape := []; calls := [] |}
    else
      let fw := forward_pass f output_given nfdir nadir arg_ fseed res fsens in
      let res1 := if output_given then res1 else fw_res fw in
      if bool_decide (0 < nadir)%nat then
        let ad := reverse_pass f nadir aseed asens fw in
        mret {| res1 := res1; fsens := fw_fsens fw; asens := ad_asens ad;
                tape := fw_tape fw; calls := ad_calls ad |}
      else
        mret {| res1 := res1; fsens := fw_fsens fw; asens := asens;
                tape := fw_tape fw; calls := fw_calls fw |}.

End Symbolic.

(** ** [symbolicOutput] (lines 663-679)

    The fallback [FunctionInternal::symbolicOutput] of the base class is
    not under src/ and enters as a parameter. *)

Section SymbolicOutput.

Context {MX : Type} `{!MXOps MX}.

Variable FunctionInternal_symbolicOutput : list MX → list MX.

(** The loop of lines 666-671 is the one of [evalMX], lines 696-701. *)
Definition symbolicOutput (f : function) (arg : list MX) : list MX :=
  let input_given := check_output_given arg (f_inputv_ f) in
  if input_given then f_outputv_ f else FunctionInternal_symbolicOutput arg.

End SymbolicOutput.

End MX.

(** * A small instance of the parameters

    The examples at the end of each part of the development run the model
    on this instance: matrix expressions are records that carry the address
    of their node, a shape and a count of structural nonzeros. *)

Module Toy.

Record mx := {
  node : nat;
  symbolic : bool;
  shape : nat * nat;
  nnz : nat;
  label : string;
}.

Definition pattern (sh : nat * nat) : MX.Sparsity :=
  {| MX.sp_get := sh.1 * 100 + sh.2; MX.sp_shape := sh |}.

#[global] Instance mx_ops : MX.MXOps mx := {|
  MX.mx_null := {| node := 0; symbolic := false; shape := (0%nat, 0%nat); nnz := 0;
                   label := EmptyString |};
  MX.mx_node := node;
  MX.mx_isSymbolic := symbolic;
  MX.mx_isEmpty := λ m, bool_decide ((shape m).1 = 0%nat ∨ (shape m).2 = 0%nat);
  MX.mx_isEmpty_both := λ m, bool_decide (shape m = (0%nat, 0%nat));
  MX.mx_sparsity := λ m, pattern (shape m);
  MX.mx_size := nnz;
  MX.mx_shape := shape;
  MX.mx_sym := λ name sp a,
    {| node := a; symbolic := true; shape := MX.sp_shape sp;
       nnz := ((MX.sp_shape sp).1 * (MX.sp_shape sp).2)%nat; label := name |};
  MX.mx_sparse := λ sh,
    {| node := 0; symbolic := false; shape := sh; nnz := 0; label := "zero" |};
  MX.mx_isEqual := λ x y depth, bool_decide (node x = node y);
  MX.mx_setSparse := λ x sp intersect,
    {| node := node x; symbolic := symbolic x; shape := MX.sp_shape sp;
       nnz := nnz x; label := label x |};
  MX.mx_addToSum := λ x y,
    {| node := node x + node y; symbolic := false; shape := shape y;
       nnz := (nnz x + nnz y)%nat; label := "sum" |};
|}.

(** A 2-by-1 symbolic primitive at address [a]. *)
Definition sym (a : nat) (name : string) : mx :=
  MX.mx_sym name (pattern (2%nat, 1%nat)) a.

(** A 2-by-1 expression that is not a symbolic primitive. *)
Definition expr (a : nat) : mx :=
  {| node := a; symbolic := false; shape := (2%nat, 1%nat); nnz := 2; label := "expr" |}.

(** A 0-by-0 matrix that is not a symbolic primitive. *)
Definition empty (a : nat) : mx :=
  {| node := a; symbolic := false; shape := (0%nat, 0%nat); nnz := 0; label := "empty" |}.

(** A store with every scratch field cleared and the addresses below [n]
    taken. *)
Definition heap0 (n : nat) : MX.heap := {| MX.temp := λ _, 0; MX.next := n |}.

(** *** Graphs

    All nodes of the examples have the 2-by-1 dense pattern. *)

Definition parameter : MX.MXNode :=
  {| MX.getOp := Some OP_PARAMETER; MX.dep := []; MX.getNumOutputs := 1;
     MX.isMultipleOutput := false; MX.getFunctionOutput := 0;
     MX.sparsity := pattern (2%nat, 1%nat);
     MX.sparsity_of := λ _, pattern (2%nat, 1%nat); MX.numInplace := 0 |}.

Definition operation (o : Operation) (deps : list nat) : MX.MXNode :=
  {| MX.getOp := Some o; MX.dep := deps; MX.getNumOutputs := 1;
     MX.isMultipleOutput := false; MX.getFunctionOutput := 0;
     MX.sparsity := pattern (2%nat, 1%nat);
     MX.sparsity_of := λ _, pattern (2%nat, 1%nat); MX.numInplace := 0 |}.

(** [y = (a + b) * (a + b)]: the sorted nodes of the matrix layer. *)
Definition square_of_sum : list (option MX.MXNode) :=
  [Some parameter; Some parameter;
   Some (operation (OP_MATRIX 0) [0%nat; 1%nat]);
   Some (operation (OP_MATRIX 1) [2%nat; 2%nat]);
   None].

(** The same graph in the scalar layer, over integer literals. *)
Definition sx_parameter : SX.SXNode Z :=
  {| SX.getOp := OP_PARAMETER; SX.getValue := 0; SX.dep0 := 0; SX.dep1 := 0 |}.

Definition sx_binary (code a b : nat) : SX.SXNode Z :=
  {| SX.getOp := OP_BINARY code; SX.getValue := 0; SX.dep0 := a; SX.dep1 := b |}.

Definition sx_square_of_sum : list (option (SX.SXNode Z)) :=
  [Some sx_parameter; Some sx_parameter;
   Some (sx_binary 0 0 1); Some (sx_binary 1 2 2); None].

(** [y = F(a + b)], with [F] an embedded function call. *)
Definition call_of_sum : list (option MX.MXNode) :=
  [Some parameter; Some parameter;
   Some (operation (OP_MATRIX 0) [0%nat; 1%nat]);
   Some (operation OP_CALL [2%nat]);
   None].

(** *** Kernels

    The symbolic kernels of the examples read what their arguments point
    to and store a combination of it where their results point to. *)

#[local] Existing Instance MX.MX_inhabited.

Definition read (tape : list (nat * Z * mx)) (m : MX.mem) (p : MX.ptr) : mx :=
  match p with
  | MX.Null => MX.mx_null
  | MX.Swork k => MX.swork m !!! k
  | MX.OutputTmp i => MX.output_tmp m !!! i
  | MX.Dwork k d => (MX.dwork m !!! k) !!! d
  | MX.Spilled t => (tape !!! t).2
  end.

Definition write (v : mx) (m : MX.mem) (p : MX.ptr) : MX.mem :=
  match p with
  | MX.Swork k => MX.set_swork (<[k := v]> (MX.swork m)) m
  | MX.OutputTmp i => MX.set_output_tmp (<[i := v]> (MX.output_tmp m)) m
  | MX.Dwork k d => MX.set_dwork (MX.store k d v (MX.dwork m)) m
  | _ => m
  end.

Definition combine (name : string) (l : list mx) : mx :=
  {| node := foldr (λ x a, (node x + a)%nat) 0%nat l; symbolic := false;
     shape := (2%nat, 1%nat); nnz := foldr (λ x a, (nnz x + a)%nat) 0%nat l;
     label := name |}.

Definition create (n : MX.MXNode) : mx :=
  {| node := 0; symbolic := true; shape := MX.sp_shape (MX.sparsity n); nnz := 2;
     label := "p" |}.

Definition getOutput (n : MX.MXNode) (oind : nat) : mx := expr oind.

Definition evaluateMX (n : MX.MXNode) (c : MX.call) (tape : list (nat * Z * mx))
    (m : MX.mem) : MX.mem :=
  let m := if MX.c_output_given c then m
           else foldl (write (combine "f" (read tape m <$> MX.c_input c))) m (MX.c_output c) in
  let m := foldl (λ m (d : list MX.ptr * list MX.ptr),
                    foldl (write (combine "df" (read tape m <$> d.1))) m d.2)
                 m (zip (MX.c_fwdSeed c) (MX.c_fwdSens c)) in
  foldl (λ m (d : list MX.ptr * list MX.ptr),
           foldl (λ m p, write (MX.mx_addToSum (read tape m p)
                                               (combine "adj" (read tape m <$> d.1))) m p)
                 m d.2)
        m (zip (MX.c_adjSeed c) (MX.c_adjSens c)).

(** Modelled from the spec: [purgeSeeds], which is not under src/.
    Directions whose entire seed vector is structurally empty are dropped,
    with their sensitivities set to zero; the others are kept, seeds and
    sensitivities together. *)
Definition seeded (m : MX.mem) (d : list MX.ptr * list MX.ptr) : bool :=
  existsb (λ p, match p with
                | MX.Null => false
                | _ => bool_decide (0 < nnz (read [] m p))%nat
                end) d.1.

Definition purgeSeeds (seed sens : list (list MX.ptr)) (forward : bool) (m : MX.mem)
  : list (list MX.ptr) * list (list MX.ptr) * MX.mem :=
  let kept := filter (λ d, seeded m d = true) (zip seed sens) in
  let dropped := filter (λ d, seeded m d = false) (zip seed sens) in
  (kept.*1, kept.*2,
   foldl (λ m (d : list MX.ptr * list MX.ptr),
            foldl (write (MX.mx_sparse (2%nat, 1%nat))) m d.2) m dropped).

(** The function [y = F(a + b)] as [init] compiles it with live variables. *)
Definition function_of (nodes : list (option MX.MXNode)) (inputv outputv : list nat)
  : MX.function :=
  let c := match MX.init true nodes inputv outputv with
           | inr c => c
           | inl _ => {| MX.algorithm_ := []; MX.worksize := 0; MX.free_vars_ := [];
                         MX.alloc_log := [] |}
           end in
  {| MX.f_inputv_ := (λ a, sym a "x") <$> inputv;
     MX.f_outputv_ := expr <$> outputv;
     MX.f_algorithm_ := MX.algorithm_ c;
     MX.f_worksize := MX.worksize c;
     MX.input_sp := (λ _, pattern (2%nat, 1%nat)) <$> inputv;
     MX.output_sp := (λ _, pattern (2%nat, 1%nat)) <$> outputv |}.

Definition f : MX.function := function_of call_of_sum [0%nat; 1%nat] [3%nat].

(** *** Scalar expressions

    Integers stand for the scalar expressions of the examples: two
    expressions are equal when the integers are, and the operations and
    their partial derivatives are those of a sum. *)

#[global] Instance sx_ops : SX.SXOps Z := {|
  SX.sx_default := 0;
  SX.sx_zero := 0;
  SX.sx_isEqual := λ x y depth, bool_decide (x = y);
  SX.sx_assignIfDuplicate := λ x y depth, x;
  SX.sx_fun := λ o x y, x + y;
  SX.sx_der := λ o x y f, (1, 1);
  SX.sx_add := Z.add;
  SX.sx_mul := Z.mul;
|}.

(** [y = (a + b) * (a + b)] as [init] compiles it, with [a = 3], [b = 4]
    and the expressions 7 and 49 stored for the two operations. *)
Definition sx_f : SX.symbolic Z Z :=
  let c := match SX.init true sx_square_of_sum [[0%nat; 1%nat]] [[3%nat]] with
           | inr c => c
           | inl _ => {| SX.algorithm_ := []; SX.worksize := 0; SX.free_vars_ := [] |}
           end in
  {| SX.s_inputv_ := [[3; 4]];
     SX.s_outputv_ := [[49]];
     SX.s_algorithm_ := SX.algorithm_ c;
     SX.s_operations_ := [7; 49];
     SX.s_constants_ := [];
     SX.s_free_vars_ := [];
     SX.s_work_ := replicate (SX.worksize c) 0 |}.

End Toy.

(** * Properties *)

(** ** Loops that may throw *)

Lemma foldlM_app {A B} (f : A → B → result A) (a : A) (l1 l2 : list B) :
  foldlM f a (l1 ++ l2) = a' ← foldlM f a l1; foldlM f a' l2.
Proof.
  revert a. induction l1 as [|b l1 IH]; intros a; simpl; [done|].
  destruct (f a b) as [e|a']; simpl; [done|]. apply IH.
Qed.

Lemma foldlM_inv {A B} (P : A → Prop) (f : A → B → result A) (l : list B) (a r : A) :
  (∀ a b a', P a → b ∈ l → f a b = inr a' → P a') →
  P a → foldlM f a l = inr r → P r.
Proof.
  revert a. induction l as [|b l IH]; intros a Hstep Ha Hr; simpl in Hr.
  - inversion Hr; by subst.
  - destruct (f a b) as [e|a'] eqn:Hf; simpl in Hr; [done|].
    apply (IH a'); [| |done].
    + intros x y z Hx Hy. apply Hstep; [done|]. by apply list_elem_of_further.
    + apply (Hstep a b a'); [done| |done]. apply list_elem_of_here.
Qed.

Lemma indexed_length {A} (l : list A) : length (indexed l) = length l.
Proof. unfold indexed. rewrite length_zip_with, length_seq. lia. Qed.

Lemma indexed_lookup {A} (l : list A) (i : nat) :
  indexed l !! i = (λ x, (i, x)) <$> l !! i.
Proof.
  unfold indexed. rewrite lookup_zip_with.
  destruct (l !! i) as [x|] eqn:Hl.
  - rewrite lookup_seq_lt by (by eapply lookup_lt_Some). done.
  - destruct (seq 0 (length l) !! i); done.
Qed.

(** ** Sparsity pre-pass *)

(** C8, as amended.  The pre-pass of the matrix layer zeroes every element
    of the work vector whatever the direction, keeping its size and its
    marker; the pre-pass of the scalar layer zeroes the whole work vector
    before a reverse pass and leaves it as it is before a forward pass. *)
Theorem spInit_zeroes :
  (∀ (fwd : bool) (work : list (list Z * Z)),
     Forall2 (λ old new, new.2 = old.2 ∧ length new.1 = length old.1
                         ∧ Forall (λ x, x = 0) new.1)
             work (MX.spInit fwd work))
  ∧ (∀ iwork : list Z,
       length (SX.spInit false iwork) = length iwork
       ∧ Forall (λ x, x = 0) (SX.spInit false iwork))
  ∧ (∀ iwork : list Z, SX.spInit true iwork = iwork).
Proof.
  split; [|split].
  - intros fwd work. unfold MX.spInit.
    induction work as [|[m k] work IH]; simpl; constructor; [|done].
    simpl. rewrite length_replicate. split; [done|]. split; [done|].
    by apply (Forall_replicate (λ x : Z, x = 0)).
  - intros iwork. unfold SX.spInit. simpl.
    rewrite length_replicate. split; [done|].
    by apply (Forall_replicate (λ x : Z, x = 0)).
  - done.
Qed.

(** C8 as stated fails in the scalar layer: before a forward pass the work
    vector [5] is left as it is. *)
Lemma spInit_forward_keeps_work :
  ¬ Forall (λ x, x = 0) (SX.spInit true [5]).
Proof.
  unfold SX.spInit. simpl. intros H. inversion H as [|x l Hx Hl]. discriminate Hx.
Qed.

(** ** Constructors *)

(** C9, as amended.  In the scalar layer a construction with an empty
    output list always fails, with [EMPTY_OUTPUT_LIST] unless the check for
    duplicate inputs, which comes first, has found one.  The constructor of
    the matrix layer never reports [EMPTY_OUTPUT_LIST]: it does not look at
    the output list, so that with an empty list it ends as with any other
    list. *)
Theorem empty_output_list_construction :
  (∀ (inputv : list (list nat)) (temp : nat → Z),
     SX.SXFunctionInternal_new inputv [] temp
     = inl (if (SX.mark_inputs inputv temp).1 then DUPLICATE_INPUT else EMPTY_OUTPUT_LIST))
  ∧ (∀ (M : Type) (ops : MX.MXOps M) (inputv outputv : list M) (h : MX.heap),
       MX.MXFunctionInternal_new inputv outputv h ≠ inl EMPTY_OUTPUT_LIST
       ∧ MX.MXFunctionInternal_new inputv [] h
         = match MX.MXFunctionInternal_new inputv outputv h with
           | inl e => inl e
           | inr (m, h') => inr ({| MX.inputv_ := MX.inputv_ m; MX.outputv_ := [] |}, h')
           end).
Proof.
  split.
  - intros inputv temp. unfold SX.SXFunctionInternal_new. simpl.
    destruct (SX.mark_inputs inputv temp) as [dup t]. simpl.
    destruct dup; reflexivity.
  - intros M ops inputv outputv h. unfold MX.MXFunctionInternal_new. simpl.
    destruct (foldlM MX.check_symbolic ([], h) (indexed inputv)) as [e|[inputv' h1]] eqn:Hc;
      simpl.
    + split; [|done]. intros He. inversion He as [He']. subst e.
      assert (∀ l acc, foldlM MX.check_symbolic acc l ≠ inl EMPTY_OUTPUT_LIST) as Hno.
      { clear. intros l. induction l as [|[i x] l IH]; intros acc; simpl; [done|].
        unfold MX.check_symbolic at 1.
        destruct (MX.mx_isSymbolic x); simpl; [apply IH|].
        destruct (MX.mx_isEmpty x); simpl; [apply IH|done]. }
      by apply Hno in Hc.
    + destruct (foldl MX.mark_input (false, MX.temp h1) inputv') as [dup t2]. simpl.
      destruct dup; done.
Qed.

(** C9 as stated fails in the matrix layer: with one symbolic input and an
    empty output list the construction succeeds. *)
Lemma mx_empty_output_list_accepted :
  MX.MXFunctionInternal_new [Toy.sym 1 "x"] [] (Toy.heap0 2)
  = inr ({| MX.inputv_ := [Toy.sym 1 "x"]; MX.outputv_ := [] |},
         {| MX.temp := <[1%nat := 0]> (<[1%nat := 1]> (λ _, 0)); MX.next := 2 |}).
Proof. reflexivity. Qed.

(** ** Work-vector size with and without live variables *)

(** Two runs end alike: both throw the same error, or both return and the
    values returned are related. *)
Definition agree {A B} (R : A → B → Prop) (x : result A) (y : result B) : Prop :=
  match x, y with
  | inr a, inr b => R a b
  | inl e1, inl e2 => e1 = e2
  | _, _ => False
  end.

Lemma agree_bind {A B A' B'} (R : A → B → Prop) (R' : A' → B' → Prop)
    (x : result A) (y : result B) (f : A → result A') (g : B → result B') :
  agree R x y → (∀ a b, R a b → agree R' (f a) (g b)) → agree R' (x ≫= f) (y ≫= g).
Proof.
  destruct x as [e1|a], y as [e2|b]; simpl; try done. intros Hab Hfg. by apply Hfg.
Qed.

Lemma agree_foldlM {A1 A2 B} (R : A1 → A2 → Prop)
    (f1 : A1 → B → result A1) (f2 : A2 → B → result A2) (l : list B) (a1 : A1) (a2 : A2) :
  (∀ a1 a2 b, R a1 a2 → agree R (f1 a1 b) (f2 a2 b)) →
  R a1 a2 → agree R (foldlM f1 a1 l) (foldlM f2 a2 l).
Proof.
  intros Hstep. revert a1 a2. induction l as [|b l IH]; intros a1 a2 HR; simpl; [done|].
  apply (agree_bind R); [by apply Hstep|]. intros a b'. apply IH.
Qed.

Lemma agree_refl {A} (x : result A) : agree eq x x.
Proof. by destruct x. Qed.

Section SXAlloc.

Context {D : Type} `{!Inhabited D}.

(** What the two modes share in the scalar layer: the reference counts
    evolve alike, and the live run never holds the larger work vector. *)
Definition sx_behind (s1 s0 : SX.alloc_state) : Prop :=
  SX.a_refcount s1 = SX.a_refcount s0 ∧ (SX.a_worksize s1 ≤ SX.a_worksize s0)%nat.

Lemma sx_release_children_behind (c : nat) (e : SX.AlgEl D) (s1 s0 : SX.alloc_state) :
  sx_behind s1 s0 →
  agree sx_behind (SX.release_children c e s1) (SX.release_children c e s0).
Proof.
  revert s1 s0. induction c as [|c IH]; intros s1 s0 [Hrc Hw]; simpl; [done|].
  destruct s1 as [rc1 p1 u1 w1], s0 as [rc0 p0 u0 w0]. simpl in *. subst rc1.
  destruct (at_ rc0 (SX.child e c)) as [err|v]; simpl; [done|].
  apply IH. by split.
Qed.

Lemma sx_store_result_behind (e : SX.AlgEl D) (s1 s0 : SX.alloc_state) :
  sx_behind s1 s0 →
  sx_behind (SX.store_result true e s1).2 (SX.store_result false e s0).2.
Proof.
  intros [Hrc Hw]. unfold SX.store_result.
  destruct (bool_decide (SX.op e ≠ OP_OUTPUT)); [|done].
  destruct (SX.a_unused s1) as [|top rest]; split; simpl; try done; lia.
Qed.

Lemma sx_allocate_behind (acc1 acc0 : list (SX.AlgEl D) * SX.alloc_state) (e : SX.AlgEl D) :
  sx_behind acc1.2 acc0.2 →
  agree (λ r1 r0, sx_behind r1.2 r0.2) (SX.allocate true acc1 e) (SX.allocate false acc0 e).
Proof.
  intros H. unfold SX.allocate.
  apply (agree_bind sx_behind); [by apply sx_release_children_behind|].
  intros a b Hab. pose proof (sx_store_result_behind e a b Hab) as Hs.
  destruct (SX.store_result true e a) as [e1 t1], (SX.store_result false e b) as [e0 t0].
  done.
Qed.

Lemma sx_init_worksize (nodes : list (option (SX.SXNode D))) (inputv outputv : list (list nat)) :
  agree (λ c1 c0, (SX.worksize c1 ≤ SX.worksize c0)%nat)
        (SX.init true nodes inputv outputv) (SX.init false nodes inputv outputv).
Proof.
  unfold SX.init. apply (agree_bind eq); [apply agree_refl|]. intros b ? <-.
  apply (agree_bind (λ r1 r0 : list (SX.AlgEl D) * SX.alloc_state, sx_behind r1.2 r0.2)).
  - apply agree_foldlM; [intros; by apply sx_allocate_behind|]. by split.
  - intros [alg1 a1] [alg0 a0] [_ Hw]. simpl in Hw.
    destruct (SX.add_inputs inputv (alg1, _)), (SX.add_inputs inputv (alg0, _)). done.
Qed.

End SXAlloc.

Section MXAlloc.

Lemma mx_release_frame (live : bool) (nodes : list (option MX.MXNode))
    (acc : MX.AlgEl * MX.alloc_state) (c : nat) :
  MX.res (MX.release live nodes acc c).1 = MX.res acc.1
  ∧ MX.op (MX.release live nodes acc c).1 = MX.op acc.1
  ∧ MX.data (MX.release live nodes acc c).1 = MX.data acc.1
  ∧ length (MX.arg (MX.release live nodes acc c).1) = length (MX.arg acc.1)
  ∧ MX.a_worksize (MX.release live nodes acc c).2 = MX.a_worksize acc.2.
Proof.
  destruct acc as [it st]. unfold MX.release.
  destruct (MX.arg it !! c) as [ch|]; [|done].
  destruct (bool_decide (0 ≤ ch)); [|done].
  simpl. rewrite length_insert.
  destruct (live && _); done.
Qed.

Lemma mx_release_range_frame (live : bool) (nodes : list (option MX.MXNode))
    (first last_ : nat) (acc : MX.AlgEl * MX.alloc_state) :
  MX.res (MX.release_range live nodes first last_ acc).1 = MX.res acc.1
  ∧ MX.op (MX.release_range live nodes first last_ acc).1 = MX.op acc.1
  ∧ MX.data (MX.release_range live nodes first last_ acc).1 = MX.data acc.1
  ∧ length (MX.arg (MX.release_range live nodes first last_ acc).1) = length (MX.arg acc.1)
  ∧ MX.a_worksize (MX.release_range live nodes first last_ acc).2 = MX.a_worksize acc.2.
Proof.
  unfold MX.release_range. generalize (reverse (seq first (last_ - first))). intros cs.
  revert acc. induction cs as [|c cs IH]; intros acc; cbn [foldl]; [done|].
  destruct (IH (MX.release live nodes acc c)) as (-> & -> & -> & -> & ->).
  apply mx_release_frame.
Qed.

Lemma mx_place_result_other (live : bool) (acc : MX.AlgEl * MX.alloc_state) (c c' : nat) :
  c ≠ c' → MX.res (MX.place_result live acc c).1 !! c' = MX.res acc.1 !! c'.
Proof.
  intros Hne. destruct acc as [it st]. unfold MX.place_result.
  destruct (MX.res it !! c) as [r|]; [|done].
  destruct (bool_decide (0 ≤ r)); [|done].
  destruct live; [destruct (default [] _)|]; simpl; by rewrite list_lookup_insert_ne.
Qed.

Lemma mx_place_results_behind (cs : list nat) (it1 it0 : MX.AlgEl) (s1 s0 : MX.alloc_state) :
  NoDup cs →
  (∀ c, c ∈ cs → MX.res it1 !! c = MX.res it0 !! c) →
  (MX.a_worksize s1 ≤ MX.a_worksize s0)%nat →
  (MX.a_worksize (foldl (MX.place_result true) (it1, s1) cs).2
   ≤ MX.a_worksize (foldl (MX.place_result false) (it0, s0) cs).2)%nat.
Proof.
  revert it1 it0 s1 s0.
  induction cs as [|c cs IH]; intros it1 it0 s1 s0 Hnd Hres Hw; cbn [foldl]; [done|].
  pose proof (NoDup_cons_1_1 _ _ Hnd) as Hc. apply NoDup_cons_1_2 in Hnd.
  pose proof (mx_place_result_other true (it1, s1) c) as Ho1.
  pose proof (mx_place_result_other false (it0, s0) c) as Ho0.
  assert (MX.a_worksize (MX.place_result true (it1, s1) c).2
          ≤ MX.a_worksize (MX.place_result false (it0, s0) c).2)%nat as Hw'.
  { unfold MX.place_result. rewrite (Hres c) by apply list_elem_of_here.
    destruct (MX.res it0 !! c) as [r|]; [|done].
    destruct (bool_decide (0 ≤ r)); [|done].
    destruct (default [] _); simpl; lia. }
  destruct (MX.place_result true (it1, s1) c) as [it1' s1'].
  destruct (MX.place_result false (it0, s0) c) as [it0' s0'].
  apply IH; [done| |done].
  intros c' Hc'. simpl in Ho1, Ho0.
  assert (c ≠ c') by (intros ->; done).
  rewrite Ho1, Ho0 by done. apply Hres. by apply list_elem_of_further.
Qed.

Lemma mx_allocate_behind (nodes : list (option MX.MXNode))
    (acc1 acc0 : list MX.AlgEl * MX.alloc_state) (it : MX.AlgEl) :
  (MX.a_worksize acc1.2 ≤ MX.a_worksize acc0.2)%nat →
  (MX.a_worksize (MX.allocate true nodes acc1 it).2
   ≤ MX.a_worksize (MX.allocate false nodes acc0 it).2)%nat.
Proof.
  intros Hw. unfold MX.allocate.
  set (last_ := if bool_decide (MX.op it = OP_OUTPUT) then 1%nat
                else from_option MX.numInplace 0%nat (MX.data it)).
  destruct (mx_release_range_frame true nodes 0 last_ (it, acc1.2)) as (Hr1 & _ & _ & _ & Hw1).
  destruct (mx_release_range_frame false nodes 0 last_ (it, acc0.2)) as (Hr0 & _ & _ & _ & Hw0).
  destruct (bool_decide (MX.op it = OP_OUTPUT)); simpl in *; [lia|].
  destruct (MX.release_range true nodes 0 last_ (it, acc1.2)) as [it1 s1].
  destruct (MX.release_range false nodes 0 last_ (it, acc0.2)) as [it0 s0].
  simpl in *.
  match goal with
  | |- (MX.a_worksize (MX.release_range _ _ _ ?n1 ?r1).2
        ≤ MX.a_worksize (MX.release_range _ _ _ ?n0 ?r0).2)%nat =>
      destruct (mx_release_range_frame true nodes last_ n1 r1) as (_ & _ & _ & _ & ->);
      destruct (mx_release_range_frame false nodes last_ n0 r0) as (_ & _ & _ & _ & ->)
  end.
  rewrite Hr1, Hr0. apply mx_place_results_behind.
  - apply NoDup_seq.
  - intros c _. by rewrite Hr1, Hr0.
  - lia.
Qed.

Lemma mx_allocate_fold_behind (nodes : list (option MX.MXNode)) (l : list MX.AlgEl)
    (acc1 acc0 : list MX.AlgEl * MX.alloc_state) :
  (MX.a_worksize acc1.2 ≤ MX.a_worksize acc0.2)%nat →
  (MX.a_worksize (foldl (MX.allocate true nodes) acc1 l).2
   ≤ MX.a_worksize (foldl (MX.allocate false nodes) acc0 l).2)%nat.
Proof.
  revert acc1 acc0. induction l as [|it l IH]; intros acc1 acc0 Hw; cbn [foldl]; [done|].
  apply IH. by apply mx_allocate_behind.
Qed.

Lemma mx_init_worksize (nodes : list (option MX.MXNode)) (inputv outputv : list nat) :
  agree (λ c1 c0, (MX.worksize c1 ≤ MX.worksize c0)%nat)
        (MX.init true nodes inputv outputv) (MX.init false nodes inputv outputv).
Proof.
  unfold MX.init. apply (agree_bind eq); [apply agree_refl|]. intros b ? <-.
  match goal with
  | |- agree _ (let '(_, _) := foldl _ ?i ?l in _) _ =>
      pose proof (mx_allocate_fold_behind nodes l i i (le_n _)) as Hw;
      destruct (foldl (MX.allocate true nodes) i l) as [alg1 a1];
      destruct (foldl (MX.allocate false nodes) i l) as [alg0 a0]
  end.
  simpl in Hw.
  destruct (foldl MX.add_input (alg1, _) _), (foldl MX.add_input (alg0, _) _). done.
Qed.

End MXAlloc.

(** C6.  Compiled from the same node list, inputs and outputs, the two
    modes end alike (both return, or both throw the same error), and when
    they return the work vector with [live_variables] on is no larger than
    the one with [live_variables] off; in the scalar and in the matrix
    layer. *)
Theorem live_variables_never_grow_work :
  (∀ (D : Type) (inh : Inhabited D) (nodes : list (option (SX.SXNode D)))
     (inputv outputv : list (list nat)),
     agree (λ c1 c0, (SX.worksize c1 ≤ SX.worksize c0)%nat)
           (SX.init true nodes inputv outputv) (SX.init false nodes inputv outputv))
  ∧ (∀ (nodes : list (option MX.MXNode)) (inputv outputv : list nat),
       agree (λ c1 c0, (MX.worksize c1 ≤ MX.worksize c0)%nat)
             (MX.init true nodes inputv outputv) (MX.init false nodes inputv outputv)).
Proof.
  split.
  - intros. apply sx_init_worksize.
  - intros. apply mx_init_worksize.
Qed.
(** ** Reuse of work-vector elements *)

(** The free elements a per-sparsity last-in-first-out discipline holds
    for the sparsity at address [sp] after the events of [log], most recent
    first: a release under [sp] adds its element on top, a reuse under [sp]
    takes the top one away, and nothing else touches it. *)
Definition pending_step (sp : nat) (stack : list Z) (ev : MX.alloc_event) : list Z :=
  match ev with
  | MX.Freed s sp' => if bool_decide (sp' = sp) then s :: stack else stack
  | MX.Reused _ sp' => if bool_decide (sp' = sp) then tail stack else stack
  | MX.Fresh _ _ => stack
  end.

Definition pending (sp : nat) (log : list MX.alloc_event) : list Z :=
  foldl (pending_step sp) [] log.

(** What the discipline asks of one event, given the events before it. *)
Definition lifo_event (before : list MX.alloc_event) (ev : MX.alloc_event) : Prop :=
  match ev with
  | MX.Reused s sp => MX.Freed s sp ∈ before ∧ ∃ rest, pending sp before = s :: rest
  | MX.Fresh _ sp => pending sp before = []
  | MX.Freed _ _ => True
  end.

Definition lifo (log : list MX.alloc_event) : Prop :=
  ∀ i ev, log !! i = Some ev → lifo_event (take i log) ev.

Section Lifo.

Lemma pending_snoc (sp : nat) (log : list MX.alloc_event) (ev : MX.alloc_event) :
  pending sp (log ++ [ev]) = pending_step sp (pending sp log) ev.
Proof. unfold pending. by rewrite foldl_app. Qed.

Lemma pending_freed (sp : nat) (log : list MX.alloc_event) (s : Z) :
  s ∈ pending sp log → MX.Freed s sp ∈ log.
Proof.
  induction log as [|ev log IH] using rev_ind; [by intros ?%elem_of_nil|].
  rewrite pending_snoc, elem_of_app, list_elem_of_singleton.
  destruct ev as [s' sp'|s' sp'|s' sp']; simpl.
  - case_bool_decide as Hsp; [|by left; apply IH].
    subst sp'. intros [->|Hs]%elem_of_cons; [by right|by left; apply IH].
  - case_bool_decide; intros Hs; left; apply IH; [|done].
    destruct (pending sp log); simpl in Hs; [done|]. by apply list_elem_of_further.
  - intros Hs. left. by apply IH.
Qed.

Lemma lifo_snoc (log : list MX.alloc_event) (ev : MX.alloc_event) :
  lifo log → lifo_event log ev → lifo (log ++ [ev]).
Proof.
  intros Hlog Hev i ev' Hi.
  destruct (decide (i < length log)%nat) as [Hlt|Hge].
  - rewrite lookup_app_l in Hi by done.
    rewrite take_app_le by lia. by apply Hlog.
  - apply lookup_lt_Some in Hi as Hlen. rewrite length_app in Hlen. simpl in Hlen.
    assert (i = length log) as -> by lia.
    rewrite list_lookup_middle in Hi by done. inversion Hi; subst ev'.
    by rewrite take_app_length.
Qed.

(** The stacks [init] keeps are the ones the discipline prescribes. *)
Definition stacks_follow_log (st : MX.alloc_state) : Prop :=
  (∀ sp, default [] (MX.a_unused_all st !! sp) = pending sp (MX.a_log st))
  ∧ lifo (MX.a_log st).

Lemma release_follows (nodes : list (option MX.MXNode))
    (acc : MX.AlgEl * MX.alloc_state) (c : nat) :
  stacks_follow_log acc.2 → stacks_follow_log (MX.release true nodes acc c).2.
Proof.
  destruct acc as [it st]. intros [Hst Hlog]. unfold MX.release. simpl in *.
  destruct (MX.arg it !! c) as [ch|]; [|done].
  destruct (bool_decide (0 ≤ ch)); [|done].
  case_bool_decide as Hrem; simpl; [|done].
  split; simpl.
  - intros sp. rewrite pending_snoc. simpl.
    destruct (decide (MX.node_sparsity nodes (Z.to_nat ch) = sp)) as [<-|Hne].
    + rewrite lookup_insert_eq, bool_decide_eq_true_2 by done. simpl. by rewrite Hst.
    + rewrite lookup_insert_ne, bool_decide_eq_false_2 by done. apply Hst.
  - by apply lifo_snoc.
Qed.

Lemma place_result_follows (acc : MX.AlgEl * MX.alloc_state) (c : nat) :
  stacks_follow_log acc.2 → stacks_follow_log (MX.place_result true acc c).2.
Proof.
  destruct acc as [it st]. intros [Hst Hlog]. unfold MX.place_result. simpl in *.
  destruct (MX.res it !! c) as [r|]; [|done].
  destruct (bool_decide (0 ≤ r)); [|done].
  set (sp := MX.sp_get _).
  destruct (default [] (MX.a_unused_all st !! sp)) as [|top rest] eqn:Hsp; simpl.
  - split; simpl.
    + intros sp'. rewrite pending_snoc. simpl. apply Hst.
    + apply lifo_snoc; [done|]. simpl. by rewrite <- Hst.
  - split; simpl.
    + intros sp'. rewrite pending_snoc. simpl.
      destruct (decide (sp = sp')) as [<-|Hne].
      * rewrite lookup_insert_eq, bool_decide_eq_true_2 by done. simpl.
        by rewrite <- Hst, Hsp.
      * rewrite lookup_insert_ne, bool_decide_eq_false_2 by done. apply Hst.
    + apply lifo_snoc; [done|]. simpl. rewrite <- Hst, Hsp. split; [|by eexists].
      apply pending_freed. rewrite <- Hst, Hsp. apply list_elem_of_here.
Qed.

Lemma fold_follows {B} (f : MX.AlgEl * MX.alloc_state → B → MX.AlgEl * MX.alloc_state)
    (l : list B) (acc : MX.AlgEl * MX.alloc_state) :
  (∀ acc b, stacks_follow_log acc.2 → stacks_follow_log (f acc b).2) →
  stacks_follow_log acc.2 → stacks_follow_log (foldl f acc l).2.
Proof.
  intros Hf. revert acc. induction l as [|b l IH]; intros acc Hacc; cbn [foldl]; [done|].
  apply IH. by apply Hf.
Qed.

Lemma allocate_follows (nodes : list (option MX.MXNode))
    (acc : list MX.AlgEl * MX.alloc_state) (it : MX.AlgEl) :
  stacks_follow_log acc.2 → stacks_follow_log (MX.allocate true nodes acc it).2.
Proof.
  intros Hacc. unfold MX.allocate, MX.release_range.
  destruct (bool_decide (MX.op it = OP_OUTPUT)); cbn [fst snd].
  - apply fold_follows; [apply release_follows|done].
  - apply fold_follows; [apply release_follows|].
    apply fold_follows; [apply place_result_follows|].
    apply fold_follows; [apply release_follows|done].
Qed.

Lemma allocate_fold_follows (nodes : list (option MX.MXNode)) (l : list MX.AlgEl)
    (acc : list MX.AlgEl * MX.alloc_state) :
  stacks_follow_log acc.2 → stacks_follow_log (foldl (MX.allocate true nodes) acc l).2.
Proof.
  revert acc. induction l as [|it l IH]; intros acc Hacc; cbn [foldl]; [done|].
  apply IH. by apply allocate_follows.
Qed.

End Lifo.

(** *** The log against the tape

    The log is kept by the model only; what follows ties every event of it
    to the records of the tape and to the sparsity patterns of the nodes. *)

(** The address of the sparsity pattern of the result [c] of a record,
    [it->data->sparsity(c).get()]. *)
Definition result_sparsity (e : MX.AlgEl) (c : nat) : nat :=
  MX.sp_get (from_option (λ n, MX.sparsity_of n c) inhabitant (MX.data e)).

(** The result [c] of a record, if it is given an element of the work
    vector: the element, read off the finished record [e], and the address
    of the result's sparsity pattern.  [e0] is the record as the first
    loop left it, whose results name nodes. *)
Definition result_of (e0 e : MX.AlgEl) (c : nat) : option (Z * nat) :=
  r ← MX.res e0 !! c;
  s ← MX.res e !! c;
  if bool_decide (0 ≤ r) then Some (s, result_sparsity e0 c) else None.

Definition record_results (e0 e : MX.AlgEl) : list (Z * nat) :=
  if bool_decide (MX.op e0 = OP_OUTPUT) then []
  else omap (result_of e0 e) (seq 0 (length (MX.res e0))).

(** The results of the tape [T], in the order of the second loop; [B] is
    the tape as the first loop left it. *)
Definition tape_results (B T : list MX.AlgEl) : list (Z * nat) :=
  concat (zip_with record_results B T).

(** The element and the sparsity address of an event that gives a result
    its element. *)
Definition result_event (ev : MX.alloc_event) : option (Z * nat) :=
  match ev with
  | MX.Reused s sp | MX.Fresh s sp => Some (s, sp)
  | MX.Freed _ _ => None
  end.

Definition result_events (log : list MX.alloc_event) : list (Z * nat) :=
  omap result_event log.

(** Some record of the tape has the node [k] for an argument and reads it
    from the element [s] (an input instruction has the index of its input
    for an argument instead). *)
Definition reads (B T : list MX.AlgEl) (k : nat) (s : Z) : Prop :=
  ∃ j c e0 e, B !! j = Some e0 ∧ T !! j = Some e
    ∧ MX.arg e0 !! c = Some (Z.of_nat k)
    ∧ (MX.op e = OP_INPUT ∨ MX.arg e !! c = Some s).

Section LogAndTape.

Variable nodes : list (option MX.MXNode).

(** A release of the argument at one of the positions [cs]: [it0] is the
    record before, [it] the record after. *)
Definition freed_by (it0 it : MX.AlgEl) (cs : list nat) (ev : MX.alloc_event) : Prop :=
  ∃ s c k, ev = MX.Freed s (MX.node_sparsity nodes k) ∧ c ∈ cs
           ∧ MX.arg it0 !! c = Some (Z.of_nat k) ∧ MX.arg it !! c = Some s.

Lemma omap_agree {A B} (f g : A → option B) (l : list A) :
  (∀ x, x ∈ l → f x = g x) → omap f l = omap g l.
Proof.
  induction l as [|x l IH]; intros H; [done|]. csimpl.
  rewrite (H x) by apply list_elem_of_here.
  rewrite IH; [done|]. intros y Hy. apply H. by apply list_elem_of_further.
Qed.

Lemma result_events_app (l1 l2 : list MX.alloc_event) :
  result_events (l1 ++ l2) = result_events l1 ++ result_events l2.
Proof. apply omap_app. Qed.

Lemma release_events (acc : MX.AlgEl * MX.alloc_state) (c : nat) :
  (∀ c', c' ≠ c → MX.arg (MX.release true nodes acc c).1 !! c' = MX.arg acc.1 !! c')
  ∧ ∃ new, MX.a_log (MX.release true nodes acc c).2 = MX.a_log acc.2 ++ new
           ∧ Forall (freed_by acc.1 (MX.release true nodes acc c).1 [c]) new.
Proof.
  destruct acc as [it st]. unfold MX.release. cbn [fst snd].
  destruct (MX.arg it !! c) as [ch|] eqn:Hch.
  2:{ split; [done|]. exists []. by rewrite app_nil_r. }
  case_bool_decide as Hpos.
  2:{ split; [done|]. exists []. by rewrite app_nil_r. }
  cbn [fst snd MX.arg MX.set_arg]. split.
  { intros c' Hne. by rewrite list_lookup_insert_ne. }
  cbn [andb]. case_bool_decide as Hrem; cbn [MX.a_log].
  - eexists [_]. split; [done|]. constructor; [|done].
    exists (MX.a_place st !!! Z.to_nat ch), c, (Z.to_nat ch).
    split; [done|]. split; [apply list_elem_of_here|]. split.
    + rewrite Hch. f_equal. lia.
    + apply list_lookup_insert_eq. by eapply lookup_lt_Some.
  - exists []. by rewrite app_nil_r.
Qed.

Lemma release_fold_events (cs : list nat) (acc : MX.AlgEl * MX.alloc_state) :
  NoDup cs →
  (∀ c', c' ∉ cs →
     MX.arg (foldl (MX.release true nodes) acc cs).1 !! c' = MX.arg acc.1 !! c')
  ∧ ∃ new, MX.a_log (foldl (MX.release true nodes) acc cs).2 = MX.a_log acc.2 ++ new
           ∧ Forall (freed_by acc.1 (foldl (MX.release true nodes) acc cs).1 cs) new.
Proof.
  revert acc. induction cs as [|c cs IH]; intros acc Hnd; cbn [foldl].
  { split; [done|]. exists []. by rewrite app_nil_r. }
  pose proof (NoDup_cons_1_1 _ _ Hnd) as Hc. apply NoDup_cons_1_2 in Hnd.
  destruct (release_events acc c) as (Hf1 & new1 & Hl1 & Hn1).
  destruct (IH (MX.release true nodes acc c) Hnd) as (Hf2 & new2 & Hl2 & Hn2).
  split.
  - intros c' Hc'. rewrite Hf2, Hf1; [done| |].
    + intros ->. apply Hc'. apply list_elem_of_here.
    + intros ?. apply Hc'. by apply list_elem_of_further.
  - exists (new1 ++ new2). split; [by rewrite Hl2, Hl1, app_assoc|].
    apply Forall_app. split.
    + eapply list.Forall_impl; [exact Hn1|]. intros ev (s & c0 & k & -> & Hc0 & Ha & Hs).
      apply list_elem_of_singleton in Hc0. subst c0.
      exists s, c, k. split; [done|]. split; [apply list_elem_of_here|]. split; [done|].
      by rewrite Hf2.
    + eapply list.Forall_impl; [exact Hn2|]. intros ev (s & c0 & k & -> & Hc0 & Ha & Hs).
      exists s, c0, k. split; [done|]. split; [by apply list_elem_of_further|].
      split; [|done]. rewrite <- Hf1; [done|]. intros ->. by apply Hc.
Qed.

Lemma release_range_events (first last_ : nat) (acc : MX.AlgEl * MX.alloc_state) :
  (∀ c', ¬ (first ≤ c' < last_)%nat →
     MX.arg (MX.release_range true nodes first last_ acc).1 !! c' = MX.arg acc.1 !! c')
  ∧ ∃ new, MX.a_log (MX.release_range true nodes first last_ acc).2 = MX.a_log acc.2 ++ new
           ∧ Forall (λ ev, ∃ s c k, ev = MX.Freed s (MX.node_sparsity nodes k)
                       ∧ (first ≤ c < last_)%nat
                       ∧ MX.arg acc.1 !! c = Some (Z.of_nat k)
                       ∧ MX.arg (MX.release_range true nodes first last_ acc).1 !! c = Some s)
                    new.
Proof.
  unfold MX.release_range.
  assert (∀ c, c ∈ reverse (seq first (last_ - first)) ↔ (first ≤ c < last_)%nat) as Hmem.
  { intros c. rewrite elem_of_reverse, elem_of_seq. lia. }
  destruct (release_fold_events (reverse (seq first (last_ - first))) acc)
    as (Hf & new & Hl & Hn).
  { rewrite reverse_Permutation. apply NoDup_seq. }
  split.
  - intros c' Hc'. apply Hf. by rewrite Hmem.
  - exists new. split; [done|]. eapply list.Forall_impl; [exact Hn|].
    intros ev (s & c & k & -> & Hc & Ha & Hs). exists s, c, k. by rewrite <- Hmem.
Qed.

Lemma place_results_events (it0 : MX.AlgEl) (st0 : MX.alloc_state) (m : nat) :
  (m ≤ length (MX.res it0))%nat →
  MX.op (foldl (MX.place_result true) (it0, st0) (seq 0 m)).1 = MX.op it0
  ∧ MX.data (foldl (MX.place_result true) (it0, st0) (seq 0 m)).1 = MX.data it0
  ∧ MX.arg (foldl (MX.place_result true) (it0, st0) (seq 0 m)).1 = MX.arg it0
  ∧ length (MX.res (foldl (MX.place_result true) (it0, st0) (seq 0 m)).1)
    = length (MX.res it0)
  ∧ (∀ c, (m ≤ c)%nat →
       MX.res (foldl (MX.place_result true) (it0, st0) (seq 0 m)).1 !! c = MX.res it0 !! c)
  ∧ ∃ new, MX.a_log (foldl (MX.place_result true) (it0, st0) (seq 0 m)).2
           = MX.a_log st0 ++ new
      ∧ Forall (λ ev, ∀ s sp, ev ≠ MX.Freed s sp) new
      ∧ result_events new
        = omap (result_of it0 (foldl (MX.place_result true) (it0, st0) (seq 0 m)).1)
               (seq 0 m).
Proof.
  induction m as [|m IH]; intros Hm.
  { cbn [seq foldl fst snd]. repeat (split; [done|]). exists [].
    by rewrite app_nil_r. }
  destruct IH as (Hop & Hdata & Harg & Hlen & Hres & new & Hlog & Hnew & Hev); [lia|].
  rewrite seq_S, foldl_app. cbn [foldl]. rewrite Nat.add_0_l.
  destruct (foldl (MX.place_result true) (it0, st0) (seq 0 m)) as [it st].
  cbn [fst snd] in *.
  destruct (lookup_lt_is_Some_2 (MX.res it0) m) as [r Hr]; [lia|].
  assert (MX.res it !! m = Some r) as Hrm by (by rewrite Hres).
  assert (∀ it' : MX.AlgEl,
            (∀ c, (c < m)%nat → MX.res it' !! c = MX.res it !! c) →
            omap (result_of it0 it') (seq 0 m) = omap (result_of it0 it) (seq 0 m)) as Hsame.
  { intros it' H. apply omap_agree. intros c [_ Hc]%elem_of_seq. unfold result_of.
    by rewrite H by lia. }
  unfold MX.place_result. rewrite Hrm.
  case_bool_decide as Hpos.
  2:{ cbn [fst snd]. repeat (split; [done|]). split.
      { intros c Hc. apply Hres. lia. }
      exists new. split; [done|]. split; [done|].
      rewrite omap_app, <- Hev.
      assert (result_of it0 it m = None) as Hnone.
      { unfold result_of. rewrite Hr, Hrm. csimpl. by rewrite bool_decide_eq_false_2. }
      csimpl. rewrite Hnone. by rewrite app_nil_r. }
  set (sp := MX.sp_get _).
  assert (sp = result_sparsity it0 m) as Hsp.
  { unfold sp, result_sparsity. by rewrite Hdata. }
  clearbody sp. subst sp.
  assert (∀ s ev,
            result_event ev = Some (s, result_sparsity it0 m) →
            let it' := MX.set_res (<[m := s]> (MX.res it)) it in
            MX.op it' = MX.op it0 ∧ MX.data it' = MX.data it0 ∧ MX.arg it' = MX.arg it0
            ∧ length (MX.res it') = length (MX.res it0)
            ∧ (∀ c, (S m ≤ c)%nat → MX.res it' !! c = MX.res it0 !! c)
            ∧ ∃ new', MX.a_log st ++ [ev] = MX.a_log st0 ++ new'
                ∧ Forall (λ ev, ∀ s sp, ev ≠ MX.Freed s sp) new'
                ∧ result_events new' = omap (result_of it0 it') (seq 0 m ++ [m])) as Hstep.
  { intros s ev Hevs it'. unfold it'. cbn [MX.op MX.data MX.arg MX.res MX.set_res].
    repeat (split; [done|]). split; [by rewrite length_insert|]. split.
    { intros c Hc. rewrite list_lookup_insert_ne by lia. apply Hres. lia. }
    exists (new ++ [ev]). split; [by rewrite Hlog, app_assoc|]. split.
    { apply Forall_app. split; [done|]. constructor; [|done].
      intros s' sp' ->. done. }
    rewrite result_events_app, omap_app, Hev. f_equal.
    - symmetry. apply Hsame. intros c Hc. cbn [MX.res MX.set_res]. by rewrite list_lookup_insert_ne by lia.
    - assert (result_of it0 (MX.set_res (<[m:=s]> (MX.res it)) it) m
              = Some (s, result_sparsity it0 m)) as Hsome.
      { unfold result_of. rewrite Hr. csimpl. cbn [MX.res MX.set_res].
        rewrite list_lookup_insert_eq by (rewrite Hlen; lia). csimpl.
        by rewrite bool_decide_eq_true_2. }
      unfold result_events. csimpl. by rewrite Hevs, Hsome. }
  destruct (default [] (MX.a_unused_all st !! result_sparsity it0 m)) as [|top rest];
    cbn [fst snd MX.a_log].
  - exact (Hstep _ (MX.Fresh _ _) eq_refl).
  - exact (Hstep _ (MX.Reused _ _) eq_refl).
Qed.

(** What the second loop logs for one record. *)
Lemma allocate_events (acc : list MX.AlgEl * MX.alloc_state) (e0 : MX.AlgEl) :
  ∃ e new, (MX.allocate true nodes acc e0).1 = acc.1 ++ [e]
    ∧ MX.a_log (MX.allocate true nodes acc e0).2 = MX.a_log acc.2 ++ new
    ∧ result_events new = record_results e0 e
    ∧ ∀ s sp, MX.Freed s sp ∈ new →
        ∃ c k, sp = MX.node_sparsity nodes k
               ∧ MX.arg e0 !! c = Some (Z.of_nat k) ∧ MX.arg e !! c = Some s.
Proof.
  unfold MX.allocate.
  set (last_ := if bool_decide (MX.op e0 = OP_OUTPUT) then 1%nat else _).
  destruct (mx_release_range_frame true nodes 0 last_ (e0, acc.2))
    as (Hr0 & Ho0 & Hd0 & Hl0 & _).
  destruct (release_range_events 0 last_ (e0, acc.2)) as (Hf0 & new0 & Hlog0 & Hn0).
  destruct (MX.release_range true nodes 0 last_ (e0, acc.2)) as [it1 s1].
  cbn [fst snd] in *.
  assert (result_events new0 = []) as Hre0.
  { clear -Hn0. induction Hn0 as [|ev new (s & c & k & -> & _) _ IH]; [done|].
    unfold result_events. csimpl. apply IH. }
  unfold record_results.
  case_bool_decide as Hop; cbn [fst snd].
  - exists it1, new0. split; [done|]. split; [done|]. split; [done|].
    intros s sp Hin. rewrite list.Forall_forall in Hn0.
    destruct (Hn0 _ Hin) as (s' & c & k & Heq & _ & Ha & Hs). inversion Heq; subst.
    by exists c, k.
  - destruct (place_results_events it1 s1 (length (MX.res it1)) (le_n _))
      as (Ho1 & Hd1 & Ha1 & Hl1 & _ & new1 & Hlog1 & Hn1 & Hev1).
    destruct (foldl (MX.place_result true) (it1, s1) (seq 0 (length (MX.res it1))))
      as [it2 s2].
    cbn [fst snd] in *.
    destruct (mx_release_range_frame true nodes last_ (length (MX.arg it2)) (it2, s2))
      as (Hr2 & Ho2 & Hd2 & Hl2 & _).
    destruct (release_range_events last_ (length (MX.arg it2)) (it2, s2))
      as (Hf2 & new2 & Hlog2 & Hn2).
    destruct (MX.release_range true nodes last_ (length (MX.arg it2)) (it2, s2)) as [it3 s3].
    cbn [fst snd] in *.
    assert (result_events new2 = []) as Hre2.
    { clear -Hn2. induction Hn2 as [|ev new (s & c & k & -> & _) _ IH]; [done|].
      unfold result_events. csimpl. apply IH. }
    exists it3, (new0 ++ new1 ++ new2). split; [done|].
    split; [by rewrite Hlog2, Hlog1, Hlog0, <- !app_assoc|]. split.
    + rewrite !result_events_app, Hre0, Hre2, app_nil_r, Hev1. cbn [app].
      rewrite Hr0. apply omap_agree. intros c _. unfold result_of, result_sparsity.
      by rewrite Hr0, Hr2, Hd0.
    + intros s sp [Hin|[Hin|Hin]%elem_of_app]%elem_of_app.
      * rewrite list.Forall_forall in Hn0.
        destruct (Hn0 _ Hin) as (s' & c & k & Heq & Hc & Ha & Hs). inversion Heq; subst.
        exists c, k. split; [done|]. split; [done|].
        rewrite Hf2 by lia. by rewrite Ha1.
      * rewrite list.Forall_forall in Hn1. by destruct (Hn1 _ Hin s sp).
      * rewrite list.Forall_forall in Hn2.
        destruct (Hn2 _ Hin) as (s' & c & k & Heq & Hc & Ha & Hs). inversion Heq; subst.
        exists c, k. split; [done|]. split; [|done].
        rewrite Ha1 in Ha. rewrite <- Hf0; [done|lia].
Qed.

Lemma tape_results_cons (e0 e : MX.AlgEl) (B T : list MX.AlgEl) :
  tape_results (e0 :: B) (e :: T) = record_results e0 e ++ tape_results B T.
Proof. done. Qed.

(** What the second loop logs for the whole tape. *)
Lemma allocate_fold_events (l : list MX.AlgEl) (acc : list MX.AlgEl * MX.alloc_state) :
  ∃ alg new, (foldl (MX.allocate true nodes) acc l).1 = acc.1 ++ alg
    ∧ length alg = length l
    ∧ MX.a_log (foldl (MX.allocate true nodes) acc l).2 = MX.a_log acc.2 ++ new
    ∧ result_events new = tape_results l alg
    ∧ ∀ s sp, MX.Freed s sp ∈ new →
        ∃ k, sp = MX.node_sparsity nodes k ∧ reads l alg k s.
Proof.
  revert acc. induction l as [|e0 l IH]; intros acc; cbn [foldl].
  { exists [], []. rewrite !app_nil_r. repeat (split; [done|]).
    intros s sp Hin. by apply elem_of_nil in Hin. }
  destruct (allocate_events acc e0) as (e & new1 & Halg1 & Hlog1 & Hev1 & Hfr1).
  destruct (IH (MX.allocate true nodes acc e0)) as (alg & new2 & Halg2 & Hlen & Hlog2 & Hev2 & Hfr2).
  exists (e :: alg), (new1 ++ new2).
  split; [by rewrite Halg2, Halg1, <- app_assoc|].
  split; [by cbn; rewrite Hlen|].
  split; [by rewrite Hlog2, Hlog1, app_assoc|].
  split; [by rewrite result_events_app, tape_results_cons, Hev1, Hev2|].
  intros s sp [Hin|Hin]%elem_of_app.
  - destruct (Hfr1 s sp Hin) as (c & k & -> & Ha & Hs). exists k. split; [done|].
    exists 0%nat, c, e0, e. split; [done|]. split; [done|]. split; [done|]. by right.
  - destruct (Hfr2 s sp Hin) as (k & -> & j & c & e0' & e' & Hj0 & Hj & Ha & Hs).
    exists k. split; [done|]. by exists (S j), c, e0', e'.
Qed.

(** The third loop turns records into input instructions and leaves the
    results of every record alone. *)
Definition input_or_same (e e' : MX.AlgEl) : Prop :=
  MX.res e' = MX.res e ∧ (e' = e ∨ MX.op e' = OP_INPUT).

Lemma mx_add_input_kind (acc : list MX.AlgEl * list Z) (it : nat * nat) :
  Forall2 input_or_same acc.1 (MX.add_input acc it).1.
Proof.
  destruct acc as [alg t], it as [ind a]. unfold MX.add_input. cbn [fst snd].
  case_bool_decide; cbn [fst].
  - apply Forall2_alter_r.
    + apply Forall_Forall2_diag, list.Forall_forall. intros e _. split; [done|by left].
    + intros e e' _ _ [Hres [->|Hop]]; split; try done; by right.
  - apply Forall_Forall2_diag, list.Forall_forall. intros e _. split; [done|by left].
Qed.

Lemma mx_add_inputs_kind (l : list (nat * nat)) (acc : list MX.AlgEl * list Z) :
  Forall2 input_or_same acc.1 (foldl MX.add_input acc l).1.
Proof.
  revert acc. induction l as [|it l IH]; intros acc; cbn [foldl].
  { apply Forall_Forall2_diag, list.Forall_forall. intros e _. split; [done|by left]. }
  pose proof (mx_add_input_kind acc it) as H1. pose proof (IH (MX.add_input acc it)) as H2.
  clear IH. revert H2. generalize (foldl MX.add_input (MX.add_input acc it) l).1.
  revert H1. generalize (MX.add_input acc it).1. generalize acc.1.
  intros l1 l2 H1. induction H1 as [|e1 e2 l1 l2 [Hr1 H12] _ IH]; intros l3 H2.
  { inversion H2. constructor. }
  inversion H2 as [|? e3 ? l3' [Hr2 H23] H2']; subst. constructor; [|by apply IH].
  split; [congruence|]. destruct H23 as [->|?]; [done|by right].
Qed.

Lemma tape_results_same (B alg T : list MX.AlgEl) :
  Forall2 input_or_same alg T → tape_results B alg = tape_results B T.
Proof.
  intros H. revert B. induction H as [|e e' alg T [Hres _] _ IH]; intros B; [done|].
  destruct B as [|e0 B]; [done|]. rewrite !tape_results_cons, IH. f_equal.
  unfold record_results. case_bool_decide; [done|]. apply omap_agree. intros c _.
  unfold result_of. by rewrite Hres.
Qed.

Lemma reads_same (B alg T : list MX.AlgEl) (k : nat) (s : Z) :
  Forall2 input_or_same alg T → reads B alg k s → reads B T k s.
Proof.
  intros H (j & c & e0 & e & Hj0 & Hj & Ha & Hs).
  destruct (Forall2_lookup_l _ _ _ _ _ H Hj) as (e' & Hj' & [_ Hsame]).
  exists j, c, e0, e'. split; [done|]. split; [done|]. split; [done|].
  destruct Hsame as [->|?]; [done|by left].
Qed.

End LogAndTape.

(** *** Fresh indices

    The fresh indices are handed out in order: the number of fresh indices
    taken so far is the size of the work vector so far. *)
Definition is_fresh (ev : MX.alloc_event) : bool :=
  match ev with MX.Fresh _ _ => true | _ => false end.

Definition fresh_count (log : list MX.alloc_event) : nat :=
  length (filter (λ ev, is_fresh ev = true) log).

Definition fresh_event (before : list MX.alloc_event) (ev : MX.alloc_event) : Prop :=
  match ev with
  | MX.Fresh s _ => s = Z.of_nat (fresh_count before)
  | _ => True
  end.

Definition numbered (log : list MX.alloc_event) : Prop :=
  ∀ i ev, log !! i = Some ev → fresh_event (take i log) ev.

Definition counts_follow_log (st : MX.alloc_state) : Prop :=
  MX.a_worksize st = fresh_count (MX.a_log st) ∧ numbered (MX.a_log st).

Section Fresh.

Lemma fresh_count_snoc (log : list MX.alloc_event) (ev : MX.alloc_event) :
  fresh_count (log ++ [ev]) = (fresh_count log + if is_fresh ev then 1 else 0)%nat.
Proof.
  unfold fresh_count. rewrite list.filter_app, length_app. f_equal.
  rewrite filter_cons, filter_nil. by destruct ev.
Qed.

Lemma numbered_snoc (log : list MX.alloc_event) (ev : MX.alloc_event) :
  numbered log → fresh_event log ev → numbered (log ++ [ev]).
Proof.
  intros Hlog Hev i ev' Hi.
  destruct (decide (i < length log)%nat) as [Hlt|Hge].
  - rewrite lookup_app_l in Hi by done.
    rewrite take_app_le by lia. by apply Hlog.
  - apply lookup_lt_Some in Hi as Hlen. rewrite length_app in Hlen. simpl in Hlen.
    assert (i = length log) as -> by lia.
    rewrite list_lookup_middle in Hi by done. inversion Hi; subst ev'.
    by rewrite take_app_length.
Qed.

Lemma release_counts (nodes : list (option MX.MXNode))
    (acc : MX.AlgEl * MX.alloc_state) (c : nat) :
  counts_follow_log acc.2 → counts_follow_log (MX.release true nodes acc c).2.
Proof.
  destruct acc as [it st]. intros [Hw Hlog]. unfold MX.release. simpl in *.
  destruct (MX.arg it !! c) as [ch|]; [|done].
  destruct (bool_decide (0 ≤ ch)); [|done].
  case_bool_decide as Hrem; simpl; [|done].
  split; simpl.
  - rewrite fresh_count_snoc. simpl. lia.
  - by apply numbered_snoc.
Qed.

Lemma place_result_counts (acc : MX.AlgEl * MX.alloc_state) (c : nat) :
  counts_follow_log acc.2 → counts_follow_log (MX.place_result true acc c).2.
Proof.
  destruct acc as [it st]. intros [Hw Hlog]. unfold MX.place_result. simpl in *.
  destruct (MX.res it !! c) as [r|]; [|done].
  destruct (bool_decide (0 ≤ r)); [|done].
  set (sp := MX.sp_get _).
  destruct (default [] (MX.a_unused_all st !! sp)) as [|top rest]; simpl.
  - split; simpl.
    + rewrite fresh_count_snoc. simpl. lia.
    + apply numbered_snoc; [done|]. simpl. by rewrite Hw.
  - split; simpl.
    + rewrite fresh_count_snoc. simpl. lia.
    + by apply numbered_snoc.
Qed.

Lemma fold_counts {B} (f : MX.AlgEl * MX.alloc_state → B → MX.AlgEl * MX.alloc_state)
    (l : list B) (acc : MX.AlgEl * MX.alloc_state) :
  (∀ acc b, counts_follow_log acc.2 → counts_follow_log (f acc b).2) →
  counts_follow_log acc.2 → counts_follow_log (foldl f acc l).2.
Proof.
  intros Hf. revert acc. induction l as [|b l IH]; intros acc Hacc; cbn [foldl]; [done|].
  apply IH. by apply Hf.
Qed.

Lemma allocate_counts (nodes : list (option MX.MXNode))
    (acc : list MX.AlgEl * MX.alloc_state) (it : MX.AlgEl) :
  counts_follow_log acc.2 → counts_follow_log (MX.allocate true nodes acc it).2.
Proof.
  intros Hacc. unfold MX.allocate, MX.release_range.
  destruct (bool_decide (MX.op it = OP_OUTPUT)); cbn [fst snd].
  - apply fold_counts; [apply release_counts|done].
  - apply fold_counts; [apply release_counts|].
    apply fold_counts; [apply place_result_counts|].
    apply fold_counts; [apply release_counts|done].
Qed.

Lemma allocate_fold_counts (nodes : list (option MX.MXNode)) (l : list MX.AlgEl)
    (acc : list MX.AlgEl * MX.alloc_state) :
  counts_follow_log acc.2 → counts_follow_log (foldl (MX.allocate true nodes) acc l).2.
Proof.
  revert acc. induction l as [|it l IH]; intros acc Hacc; cbn [foldl]; [done|].
  apply IH. by apply allocate_counts.
Qed.

End Fresh.

(** Every record but an output instruction carries its node: the sparsity
    of a result is the sparsity [it->data->sparsity(c)] of that node. *)
Definition carries_node (e : MX.AlgEl) : Prop :=
  MX.op e ≠ OP_OUTPUT → is_Some (MX.data e).

Lemma mx_emit_carries (outputv : list nat) (st st' : MX.build_state)
    (it : nat * option MX.MXNode) :
  MX.emit outputv st it = inr st' →
  Forall carries_node (MX.b_algorithm st) → Forall carries_node (MX.b_algorithm st').
Proof.
  destruct it as [idx n]. intros Hemit Hall. unfold MX.emit in Hemit.
  destruct (from_option MX.getOp (Some OP_OUTPUT) n) as [o|] eqn:Ho.
  - assert (o ≠ OP_OUTPUT → is_Some n) as Hn.
    { intros Hne. destruct n as [n|]; [done|]. simpl in Ho. congruence. }
    set (symb := if bool_decide (Some o = Some OP_PARAMETER) then _ else _) in Hemit.
    clearbody symb.
    case_bool_decide as Hop.
    + destruct (at_ outputv (MX.b_curr_oind st)) as [e|t]; simpl in Hemit; [done|].
      inversion Hemit; subst st'. simpl. apply Forall_app. split; [done|].
      constructor; [|done]. intros Hne. by destruct Hne.
    + simpl in Hemit. inversion Hemit; subst st'. simpl. apply Forall_app. split; [done|].
      constructor; [|done]. intros _. by apply Hn.
  - set (pind := MX.b_place_in_alg st !!! _) in Hemit.
    destruct (if bool_decide (0 ≤ pind) then at_ (MX.b_algorithm st) (Z.to_nat pind)
              else inl OUT_OF_RANGE) as [e|parent] eqn:Hparent; simpl in Hemit; [done|].
    destruct (at_ (MX.res parent) (from_option MX.getFunctionOutput 0%nat n))
      as [e|otmp]; simpl in Hemit; [done|].
    assert (MX.b_algorithm st !! Z.to_nat pind = Some parent) as Hp.
    { destruct (bool_decide (0 ≤ pind)); [|done]. unfold at_ in Hparent.
      by destruct (MX.b_algorithm st !! Z.to_nat pind); inversion Hparent. }
    case_bool_decide; inversion Hemit; subst st'; simpl; [|done].
    apply Forall_insert; [done|]. apply (Forall_lookup_1 _ _ _ _ Hall Hp).
Qed.

Lemma mx_build_carries (nodes : list (option MX.MXNode)) (outputv : list nat)
    (b : MX.build_state) :
  MX.build nodes outputv = inr b → Forall carries_node (MX.b_algorithm b).
Proof.
  unfold MX.build. intros Hb.
  refine (foldlM_inv (λ st, Forall carries_node (MX.b_algorithm st)) _ _ _ _ _ _ Hb).
  - intros st it st' Hst _ Hemit. by eapply mx_emit_carries.
  - constructor.
Qed.

(** The place of a result event among the results: the number of result
    events before it. *)
Lemma result_events_lookup (log : list MX.alloc_event) (i : nat) (ev : MX.alloc_event)
    (x : Z * nat) :
  log !! i = Some ev → result_event ev = Some x →
  result_events log !! length (result_events (take i log)) = Some x.
Proof.
  intros Hi Hev.
  assert (result_events log
          = result_events (take i log) ++ x :: result_events (drop (S i) log)) as ->.
  { rewrite <- (take_drop_middle _ _ _ Hi) at 1. rewrite result_events_app. f_equal.
    unfold result_events. csimpl. by rewrite Hev. }
  by rewrite list_lookup_middle.
Qed.

(** C7.  With live variables on, the element every result gets and the
    sparsity pattern it is taken under are those of the tape and of the
    nodes: every record that has results carries its node, the events that give a result its element are, in order,
    exactly the results of the finished tape, each with the element the
    record holds in [res] and with the address of the sparsity pattern of
    that result; every release is the release of a node some record has for
    an argument, of the element that record reads it from, under the
    address of the sparsity pattern of that node; and the events obey the
    per-sparsity last-in-first-out discipline.  So an element is reused for
    a result only if it was released for a node whose sparsity pattern has
    the very address of the result's and is the most recent such element
    not taken back yet, and a result gets a fresh index exactly when no
    element released under its sparsity address is left, whatever other
    sparsities have free; the fresh indices are 0, 1, 2, ... in order, and
    their number is the size of the work vector. *)
Theorem reuse_is_lifo_per_sparsity (nodes : list (option MX.MXNode))
    (inputv outputv : list nat) (c : MX.compiled) :
  MX.init true nodes inputv outputv = inr c →
  ∃ b, MX.build nodes outputv = inr b
    ∧ Forall carries_node (MX.b_algorithm b)
    ∧ lifo (MX.alloc_log c)
    ∧ result_events (MX.alloc_log c) = tape_results (MX.b_algorithm b) (MX.algorithm_ c)
    ∧ (∀ s sp, MX.Freed s sp ∈ MX.alloc_log c →
         ∃ k, sp = MX.node_sparsity nodes k
              ∧ reads (MX.b_algorithm b) (MX.algorithm_ c) k s)
    ∧ (∀ i s sp, MX.alloc_log c !! i = Some (MX.Reused s sp) →
         tape_results (MX.b_algorithm b) (MX.algorithm_ c)
           !! length (result_events (take i (MX.alloc_log c))) = Some (s, sp)
         ∧ (∃ k, MX.node_sparsity nodes k = sp
                 ∧ reads (MX.b_algorithm b) (MX.algorithm_ c) k s)
         ∧ ∃ rest, pending sp (take i (MX.alloc_log c)) = s :: rest)
    ∧ (∀ i s sp, MX.alloc_log c !! i = Some (MX.Fresh s sp) →
         tape_results (MX.b_algorithm b) (MX.algorithm_ c)
           !! length (result_events (take i (MX.alloc_log c))) = Some (s, sp)
         ∧ pending sp (take i (MX.alloc_log c)) = []
         ∧ s = Z.of_nat (fresh_count (take i (MX.alloc_log c))))
    ∧ MX.worksize c = fresh_count (MX.alloc_log c).
Proof.
  unfold MX.init. destruct (MX.build nodes outputv) as [e|b] eqn:Hb; simpl; [done|].
  match goal with
  | |- context [foldl (MX.allocate true nodes) ?i ?l] =>
      pose proof (allocate_fold_follows nodes l i) as Hlifo;
      pose proof (allocate_fold_counts nodes l i) as Hcount;
      destruct (allocate_fold_events nodes l i) as (alg' & new & Halg & _ & Hlog & Hev & Hfr);
      destruct (foldl (MX.allocate true nodes) i l) as [alg a]
  end.
  cbn [fst snd MX.a_log app] in *. subst alg'.
  match goal with
  | |- context [foldl MX.add_input ?i ?l] =>
      pose proof (mx_add_inputs_kind l i) as Hsame;
      destruct (foldl MX.add_input i l) as [T t']
  end.
  cbn [fst] in Hsame.
  intros Hc. inversion Hc; subst c; clear Hc. cbn [MX.alloc_log MX.algorithm_ MX.worksize].
  assert (counts_follow_log a) as [Hw Hnum].
  { apply Hcount. split; simpl; [done|]. intros i ev Hi. by rewrite lookup_nil in Hi. }
  assert (lifo (MX.a_log a)) as Hl.
  { apply Hlifo. split; simpl; [|intros i ev Hi; by rewrite lookup_nil in Hi].
    intros sp. by rewrite lookup_empty. }
  assert (result_events (MX.a_log a) = tape_results (MX.b_algorithm b) T) as Hres.
  { rewrite Hlog, Hev. by apply tape_results_same. }
  assert (∀ s sp, MX.Freed s sp ∈ MX.a_log a →
            ∃ k, sp = MX.node_sparsity nodes k ∧ reads (MX.b_algorithm b) T k s) as Hfreed.
  { intros s sp Hin. rewrite Hlog in Hin. destruct (Hfr s sp Hin) as (k & -> & Hreads).
    exists k. split; [done|]. by apply (reads_same _ alg). }
  exists b. split; [done|]. split; [by eapply mx_build_carries|].
  split; [done|]. split; [done|]. split; [done|].
  split; [|split; [|done]].
  - intros i s sp Hi. destruct (Hl i _ Hi) as [Hin Hpend]. split; [|split; [|done]].
    + rewrite <- Hres. by apply (result_events_lookup _ _ _ _ Hi).
    + destruct (Hfreed s sp) as (k & -> & Hreads).
      { apply elem_of_take in Hin as (i0 & Hi0 & _). by eapply list_elem_of_lookup_2. }
      by exists k.
  - intros i s sp Hi. pose proof (Hl i _ Hi) as Hpend. split; [|split; [done|]].
    + rewrite <- Hres. by apply (result_events_lookup _ _ _ _ Hi).
    + apply (Hnum i _ Hi).
Qed.

Lemma reuse_is_lifo_per_sparsity_witness :
  ∃ c b, MX.init true Toy.square_of_sum [0%nat; 1%nat] [3%nat] = inr c
    ∧ MX.build Toy.square_of_sum [3%nat] = inr b
    ∧ MX.alloc_log c !! 5%nat = Some (MX.Reused 0 201)
    ∧ lifo (MX.alloc_log c)
    ∧ tape_results (MX.b_algorithm b) (MX.algorithm_ c) !! 3%nat = Some (0, 201%nat)
    ∧ (∃ k, MX.node_sparsity Toy.square_of_sum k = 201%nat
            ∧ reads (MX.b_algorithm b) (MX.algorithm_ c) k 0)
    ∧ ∃ rest, pending 201 (take 5 (MX.alloc_log c)) = 0 :: rest.
Proof.
  destruct (MX.init true Toy.square_of_sum [0%nat; 1%nat] [3%nat]) as [e|c] eqn:Hc;
    [by vm_compute in Hc|].
  destruct (reuse_is_lifo_per_sparsity Toy.square_of_sum [0%nat; 1%nat] [3%nat] c Hc)
    as (b & Hb & _ & Hl & _ & _ & Hre & _ & _).
  exists c, b. split; [done|]. split; [done|].
  vm_compute in Hc. injection Hc as <-.
  split; [done|]. split; [exact Hl|].
  exact (Hre 5%nat 0 201%nat eq_refl).
Defined.

(** A graph with two sparsity patterns: [w = h(f(y), g(x))] with [x], [g(x)]
    and [w] 2-by-1 and [y], [f(y)] 1-by-1. *)
Definition shaped (sh : nat * nat) (o : Operation) (deps : list nat) : MX.MXNode :=
  {| MX.getOp := Some o; MX.dep := deps; MX.getNumOutputs := 1;
     MX.isMultipleOutput := false; MX.getFunctionOutput := 0;
     MX.sparsity := Toy.pattern sh;
     MX.sparsity_of := λ _, Toy.pattern sh; MX.numInplace := 0 |}.

Definition two_patterns : list (option MX.MXNode) :=
  [Some (shaped (2%nat, 1%nat) OP_PARAMETER []);
   Some (shaped (1%nat, 1%nat) OP_PARAMETER []);
   Some (shaped (1%nat, 1%nat) (OP_MATRIX 0) [1%nat]);
   Some (shaped (2%nat, 1%nat) (OP_MATRIX 1) [0%nat]);
   Some (shaped (2%nat, 1%nat) (OP_MATRIX 2) [2%nat; 3%nat]);
   None].

(** The element of [y] is free when [g(x)] is placed, but it was released
    under the 1-by-1 pattern: [g(x)] gets a fresh index, and [w] later
    takes the element of [x]. *)
Example reuse_skips_other_sparsity :
  ∃ c, MX.init true two_patterns [0%nat; 1%nat] [4%nat] = inr c
    ∧ MX.alloc_log c
      = [MX.Fresh 0 201; MX.Fresh 1 101; MX.Fresh 2 101; MX.Freed 1 101;
         MX.Fresh 3 201; MX.Freed 0 201; MX.Reused 0 201; MX.Freed 3 201;
         MX.Freed 2 101; MX.Freed 0 201]
    ∧ MX.res <$> MX.algorithm_ c = [[0]; [1]; [2]; [3]; [0]; [0]].
Proof. eexists. split; [vm_compute; reflexivity|]. split; reflexivity. Qed.
(** ** Inputs of the matrix-layer constructor *)

Lemma indexed_snoc {A} (l : list A) (x : A) :
  indexed (l ++ [x]) = indexed l ++ [(length l, x)].
Proof.
  unfold indexed. rewrite length_app. simpl.
  rewrite seq_app. simpl. rewrite zip_with_app by (by rewrite length_seq). done.
Qed.

Lemma elem_of_indexed {A} (l : list A) (i : nat) (x : A) :
  (i, x) ∈ indexed l ↔ l !! i = Some x.
Proof.
  rewrite list_elem_of_lookup. split.
  - intros [j Hj]. rewrite indexed_lookup in Hj.
    destruct (l !! j) as [y|] eqn:Hl; simpl in Hj; [|done]. by inversion Hj; subst.
  - intros Hl. exists i. by rewrite indexed_lookup, Hl.
Qed.

Section Replacement.

Context {M : Type} `{!MX.MXOps M}.

(** An input that makes the constructor give up: neither a symbolic
    primitive nor empty. *)
Definition rejected (x : M) : Prop :=
  MX.mx_isSymbolic x = false ∧ MX.mx_isEmpty x = false.

(** The number of inputs of [l] that are no symbolic primitives. *)
Definition replaced (l : list M) : nat :=
  length (filter (λ x, MX.mx_isSymbolic x = false) l).

(** The inputs as the claim has them after the check: a symbolic primitive
    stays, anything else gives way to a new symbolic primitive of its
    sparsity named after its position, the new nodes taking the free
    addresses in order. *)
Definition symbolic_inputs (h : MX.heap) (inputv : list M) : list M :=
  imap (λ i x, if MX.mx_isSymbolic x then x
               else MX.mx_sym (MX.fresh_name i) (MX.mx_sparsity x)
                              (MX.next h + replaced (take i inputv)))
       inputv.

(** Inputs that are pairwise different nodes with cleared scratch fields,
    the symbolic ones at addresses already taken. *)
Definition independent (h : MX.heap) (inputv : list M) : Prop :=
  (∀ i j x y, inputv !! i = Some x → inputv !! j = Some y →
              MX.mx_isSymbolic x = true → MX.mx_isSymbolic y = true →
              MX.mx_node x = MX.mx_node y → i = j)
  ∧ (∀ x, x ∈ inputv → MX.mx_isSymbolic x = true →
          MX.temp h (MX.mx_node x) = 0 ∧ (MX.mx_node x < MX.next h)%nat).

Lemma replaced_snoc (l : list M) (x : M) :
  replaced (l ++ [x]) = (replaced l + if MX.mx_isSymbolic x then 0 else 1)%nat.
Proof.
  unfold replaced. rewrite list.filter_app, length_app. f_equal.
  destruct (MX.mx_isSymbolic x) eqn:Hx.
  - rewrite filter_cons_False by (by rewrite Hx). done.
  - rewrite filter_cons_True by done. done.
Qed.

Lemma replaced_take_le (l : list M) (i j : nat) :
  (i ≤ j)%nat → (replaced (take i l) ≤ replaced (take j l))%nat.
Proof.
  intros Hij. unfold replaced.
  replace (take i l) with (take i (take j l)) by (rewrite take_take; f_equal; lia).
  rewrite <- (take_drop i (take j l)) at 2. rewrite list.filter_app, length_app. lia.
Qed.

Lemma replaced_take_S (l : list M) (i : nat) (x : M) :
  l !! i = Some x → MX.mx_isSymbolic x = false →
  replaced (take (S i) l) = S (replaced (take i l)).
Proof.
  intros Hl Hx. rewrite (take_S_r _ _ _ Hl), replaced_snoc, Hx. lia.
Qed.

Lemma symbolic_inputs_snoc (h : MX.heap) (l : list M) (x : M) :
  symbolic_inputs h (l ++ [x])
  = symbolic_inputs h l
    ++ [if MX.mx_isSymbolic x then x
        else MX.mx_sym (MX.fresh_name (length l)) (MX.mx_sparsity x)
                       (MX.next h + replaced l)].
Proof.
  unfold symbolic_inputs. rewrite imap_app. f_equal.
  - apply imap_ext. intros i y Hy. apply lookup_lt_Some in Hy as Hlt.
    by rewrite take_app_le by lia.
  - simpl. rewrite Nat.add_0_r, take_app_length. done.
Qed.

(** Lines 70-87: the loop never throws anything but the non-symbolic-input
    error, and throws it exactly when it meets a rejected input. *)
Lemma check_symbolic_throws (l : list (nat * M)) (acc : list M * MX.heap) (e : error) :
  foldlM MX.check_symbolic acc l = inl e →
  e = NON_SYMBOLIC_INPUT ∧ ∃ it, it ∈ l ∧ rejected it.2.
Proof.
  revert acc. induction l as [|[i x] l IH]; intros acc; simpl; [done|].
  unfold MX.check_symbolic at 1.
  destruct (MX.mx_isSymbolic x) eqn:Hs; simpl.
  - intros [-> (it & Hit & Hr)]%IH. split; [done|]. exists it. split; [|done].
    by apply list_elem_of_further.
  - destruct (MX.mx_isEmpty x) eqn:He; simpl.
    + intros [-> (it & Hit & Hr)]%IH. split; [done|]. exists it. split; [|done].
      by apply list_elem_of_further.
    + intros Hinl. inversion Hinl; subst e. split; [done|]. exists (i, x).
      split; [apply list_elem_of_here|done].
Qed.

Lemma check_symbolic_returns (l : list (nat * M)) (acc r : list M * MX.heap) :
  foldlM MX.check_symbolic acc l = inr r → ∀ it, it ∈ l → ¬ rejected it.2.
Proof.
  revert acc. induction l as [|[i x] l IH]; intros acc; simpl.
  - intros _ it Hit. by apply elem_of_nil in Hit.
  - unfold MX.check_symbolic at 1.
    destruct (MX.mx_isSymbolic x) eqn:Hs; simpl.
    + intros Hr it [->|Hit]%elem_of_cons; [|by eapply IH].
      intros [Hx _]. simpl in Hx. congruence.
    + destruct (MX.mx_isEmpty x) eqn:He; simpl; [|done].
      intros Hr it [->|Hit]%elem_of_cons; [|by eapply IH].
      intros [_ Hx]. simpl in Hx. congruence.
Qed.

(** Lines 70-87 on inputs none of which is rejected. *)
Lemma check_symbolic_replaces (h : MX.heap) (inputv : list M) :
  (∀ x, x ∈ inputv → ¬ rejected x) →
  ∃ h1, foldlM MX.check_symbolic ([], h) (indexed inputv) = inr (symbolic_inputs h inputv, h1)
        ∧ MX.next h1 = (MX.next h + replaced inputv)%nat
        ∧ (∀ a, MX.temp h a = 0 → MX.temp h1 a = 0)
        ∧ (∀ a, (MX.next h ≤ a < MX.next h1)%nat → MX.temp h1 a = 0).
Proof.
  induction inputv as [|x l IH] using rev_ind; intros Hok.
  - exists h. simpl. split; [done|]. unfold replaced. simpl.
    split; [lia|]. split; [done|]. intros a Ha. lia.
  - destruct IH as (h1 & Hloop & Hnext & Hold & Hnew).
    { intros y Hy. apply Hok. apply elem_of_app. by left. }
    rewrite indexed_snoc, foldlM_app, Hloop. simpl.
    rewrite symbolic_inputs_snoc, replaced_snoc, <- Hnext.
    unfold MX.check_symbolic. simpl.
    destruct (MX.mx_isSymbolic x) eqn:Hs; simpl.
    + exists h1. split; [done|]. split; [lia|]. split; [done|].
      intros a Ha. apply Hnew. lia.
    + destruct (MX.mx_isEmpty x) eqn:He; simpl.
      * eexists. split; [done|]. simpl.
        split; [lia|]. split.
        -- intros a Ha. destruct (decide (MX.next h1 = a)) as [<-|Hne].
           ++ apply fn_lookup_insert.
           ++ rewrite fn_lookup_insert_ne by done. by apply Hold.
        -- intros a Ha. destruct (decide (MX.next h1 = a)) as [<-|Hne].
           ++ apply fn_lookup_insert.
           ++ rewrite fn_lookup_insert_ne by done. apply Hnew. lia.
      * exfalso. apply (Hok x); [|done]. apply elem_of_app. right. apply list_elem_of_here.
Qed.

(** Lines 89-94 find no duplicate among pairwise different nodes with
    cleared scratch fields. *)
Lemma mark_input_clean (l : list M) (t : nat → Z) :
  (∀ i j x y, l !! i = Some x → l !! j = Some y → MX.mx_node x = MX.mx_node y → i = j) →
  (∀ x, x ∈ l → t (MX.mx_node x) = 0) →
  (foldl MX.mark_input (false, t) l).1 = false.
Proof.
  revert t. induction l as [|x l IH]; intros t Hinj Hzero; cbn [foldl]; [done|].
  unfold MX.mark_input at 2. simpl.
  rewrite bool_decide_eq_false_2
    by (intros Hne; apply Hne, Hzero, list_elem_of_here).
  apply IH.
  - intros i j y z Hy Hz Hyz. assert (S i = S j) as Heq; [|lia].
    by apply (Hinj (S i) (S j) y z).
  - intros y Hy. rewrite fn_lookup_insert_ne; [apply Hzero; by apply list_elem_of_further|].
    intros Hxy. apply list_elem_of_lookup in Hy as [j Hj].
    by pose proof (Hinj 0%nat (S j) x y eq_refl Hj Hxy).
Qed.

Variable sym_node : ∀ name sp a, MX.mx_node (MX.mx_sym name sp a) = a.

Lemma symbolic_inputs_lookup (h : MX.heap) (inputv : list M) (i : nat) (y : M) :
  symbolic_inputs h inputv !! i = Some y →
  ∃ x, inputv !! i = Some x
       ∧ (MX.mx_isSymbolic x = true ∧ y = x
          ∨ MX.mx_isSymbolic x = false
            ∧ MX.mx_node y = (MX.next h + replaced (take i inputv))%nat).
Proof.
  unfold symbolic_inputs. rewrite list_lookup_imap.
  destruct (inputv !! i) as [x|]; simpl; [|done]. intros Hy. exists x. split; [done|].
  destruct (MX.mx_isSymbolic x); inversion Hy; subst y; [by left|right].
  by rewrite sym_node.
Qed.

Lemma symbolic_inputs_independent (h : MX.heap) (inputv : list M) (i j : nat) (x y : M) :
  independent h inputv →
  symbolic_inputs h inputv !! i = Some x → symbolic_inputs h inputv !! j = Some y →
  MX.mx_node x = MX.mx_node y → i = j.
Proof.
  intros [Hinj Hold] (x0 & Hx0 & Hx)%symbolic_inputs_lookup
         (y0 & Hy0 & Hy)%symbolic_inputs_lookup Hxy.
  destruct Hx as [[Hsx ->]|[Hsx Hnx]], Hy as [[Hsy ->]|[Hsy Hny]].
  - by apply (Hinj i j x0 y0).
  - destruct (Hold x0) as [_ Hlt]; [by eapply list_elem_of_lookup_2|done|]. lia.
  - destruct (Hold y0) as [_ Hlt]; [by eapply list_elem_of_lookup_2|done|]. lia.
  - destruct (Nat.lt_trichotomy i j) as [Hlt|[->|Hgt]]; [|done|].
    + pose proof (replaced_take_S inputv i x0 Hx0 Hsx).
      pose proof (replaced_take_le inputv (S i) j). lia.
    + pose proof (replaced_take_S inputv j y0 Hy0 Hsy).
      pose proof (replaced_take_le inputv (S j) i). lia.
Qed.

(** C10.  The constructor fails with the non-symbolic-input error exactly
    when some input is neither a symbolic primitive nor empty.  When there
    is no such input and the inputs are independent, construction succeeds
    and stores, for every input that is no symbolic primitive (and so is
    empty), a new symbolic primitive of the same sparsity named "r"
    followed by the position of the input; symbolic inputs and the outputs
    are stored as given. *)
Theorem empty_input_replaced_by_symbol (inputv outputv : list M) (h : MX.heap) :
  (MX.MXFunctionInternal_new inputv outputv h = inl NON_SYMBOLIC_INPUT
   ↔ ∃ x, x ∈ inputv ∧ rejected x)
  ∧ ((∀ x, x ∈ inputv → ¬ rejected x) → independent h inputv →
     ∃ h', MX.MXFunctionInternal_new inputv outputv h
           = inr ({| MX.inputv_ := symbolic_inputs h inputv; MX.outputv_ := outputv |}, h')).
Proof.
  unfold MX.MXFunctionInternal_new. simpl. split; [split|].
  - destruct (foldlM MX.check_symbolic ([], h) (indexed inputv)) as [e|[l h1]] eqn:Hloop;
      simpl.
    + intros _. apply check_symbolic_throws in Hloop as [_ ([i x] & Hit & Hr)].
      exists x. split; [|done]. apply elem_of_indexed in Hit. by eapply list_elem_of_lookup_2.
    + destruct (foldl MX.mark_input (false, MX.temp h1) l) as [dup t]. by destruct dup.
  - intros (x & Hx & Hr).
    destruct (foldlM MX.check_symbolic ([], h) (indexed inputv)) as [e|[l h1]] eqn:Hloop;
      simpl.
    + by apply check_symbolic_throws in Hloop as [-> _].
    + exfalso. apply list_elem_of_lookup in Hx as [i Hi].
      apply (check_symbolic_returns _ _ _ Hloop (i, x)); [|done]. by apply elem_of_indexed.
  - intros Hok Hind.
    destruct (check_symbolic_replaces h inputv Hok) as (h1 & -> & Hnext & Hold & Hnew). simpl.
    pose proof (mark_input_clean (symbolic_inputs h inputv) (MX.temp h1)) as Hclean.
    destruct (foldl MX.mark_input (false, MX.temp h1) (symbolic_inputs h inputv)) as [dup t].
    simpl in Hclean. rewrite Hclean; [by eexists| |].
    + intros i j x y Hx Hy. by apply (symbolic_inputs_independent h inputv).
    + intros y [i Hy]%list_elem_of_lookup.
      apply symbolic_inputs_lookup in Hy as (x & Hx & [[Hs ->]|[Hs Hn]]).
      * apply Hold. destruct Hind as [_ Hind].
        apply (Hind x); [by eapply list_elem_of_lookup_2|done].
      * rewrite Hn. apply Hnew. rewrite Hnext.
        pose proof (replaced_take_S inputv i x Hx Hs).
        pose proof (replaced_take_le inputv (S i) (length inputv)) as Hle.
        apply lookup_lt_Some in Hx. rewrite firstn_all in Hle. lia.
Qed.

End Replacement.

Lemma empty_input_replaced_by_symbol_witness :
  ∃ h', MX.MXFunctionInternal_new [Toy.sym 1 "x"; Toy.empty 2] [Toy.expr 5] (Toy.heap0 3)
        = inr ({| MX.inputv_ := [Toy.sym 1 "x"; MX.mx_sym "r1" (Toy.pattern (0%nat, 0%nat)) 3];
                  MX.outputv_ := [Toy.expr 5] |}, h').
Proof.
  apply (@empty_input_replaced_by_symbol Toy.mx Toy.mx_ops (λ _ _ _, eq_refl)
           [Toy.sym 1 "x"; Toy.empty 2] [Toy.expr 5] (Toy.heap0 3)).
  - intros x Hx [Hs He].
    apply elem_of_cons in Hx as [->|Hx]; [done|].
    apply list_elem_of_singleton in Hx as ->. done.
  - split.
    + intros [|[|i]] [|[|j]] x y Hi Hj Hx Hy _; simpl in *; simplify_eq; done.
    + intros x Hx Hs.
      apply elem_of_cons in Hx as [->|Hx]; [simpl; split; [done|lia]|].
      apply list_elem_of_singleton in Hx as ->. done.
Defined.
(** ** Numeric evaluation: the matrix layer *)

(** The number of null pointers (output instructions) in a node list. *)
Definition count_null {A} (l : list (option A)) : nat :=
  length (filter (λ n, n = None) l).

Section MXOutputs.

(** An output instruction for the output [k]. *)
Definition mx_writes (k : nat) (e : MX.AlgEl) : Prop :=
  MX.op e = OP_OUTPUT ∧ MX.res e = [Z.of_nat k].

(** What the first loop of [init] has established so far: an output
    instruction for every output index below [curr_oind], and a parameter
    instruction at every place recorded in [symb_loc]. *)
Definition mx_built (outputv : list nat) (st : MX.build_state) : Prop :=
  (∀ k, (k < MX.b_curr_oind st)%nat →
        ∃ j e, MX.b_algorithm st !! j = Some e ∧ mx_writes k e)
  ∧ (∀ j a, (j, a) ∈ MX.b_symb_loc st →
            ∃ e, MX.b_algorithm st !! j = Some e ∧ MX.op e = OP_PARAMETER)
  ∧ (MX.b_curr_oind st ≤ length outputv)%nat.

Lemma mx_emit_built (outputv : list nat) (st st' : MX.build_state)
    (it : nat * option MX.MXNode) :
  MX.emit outputv st it = inr st' → mx_built outputv st →
  mx_built outputv st'
  ∧ (MX.b_curr_oind st + (if bool_decide (it.2 = None) then 1 else 0)
     ≤ MX.b_curr_oind st')%nat.
Proof.
  destruct it as [idx n]. intros Hemit (Hout & Hsymb & Hle). unfold MX.emit in Hemit.
  simpl.
  destruct (from_option MX.getOp (Some OP_OUTPUT) n) as [o|] eqn:Ho.
  - (* a new element of the algorithm *)
    set (symb := if bool_decide (Some o = Some OP_PARAMETER) then _ else _) in Hemit.
    assert (∀ j a, (j, a) ∈ symb →
              (j, a) ∈ MX.b_symb_loc st
              ∨ j = length (MX.b_algorithm st) ∧ o = OP_PARAMETER) as Hsymb'.
    { intros j a. unfold symb.
      destruct (bool_decide_reflect (Some o = Some OP_PARAMETER)) as [Hp|Hp]; [|by left].
      intros [?|Hj]%elem_of_app; [by left|]. right.
      apply list_elem_of_singleton in Hj. inversion Hj; subst. split; [done|congruence]. }
    clearbody symb.
    case_bool_decide as Hop.
    + (* an output instruction *)
      subst o. destruct (at_ outputv (MX.b_curr_oind st)) as [e|t] eqn:Hat;
        simpl in Hemit; [done|].
      inversion Hemit; subst st'; clear Hemit. unfold mx_built. simpl.
      assert (MX.b_curr_oind st < length outputv)%nat as Hlt.
      { unfold at_ in Hat. destruct (outputv !! MX.b_curr_oind st) eqn:Hl; [|done].
        by eapply lookup_lt_Some. }
      split; [split; [|split]|].
      * intros k Hk. destruct (decide (k = MX.b_curr_oind st)) as [->|Hne].
        -- eexists _, _. split; [apply list_lookup_middle; done|]. by split.
        -- destruct (Hout k) as (j & e & Hj & He); [lia|].
           exists j, e. split; [by apply lookup_app_l_Some|done].
      * intros j a [Hin|[-> ?]]%Hsymb'; [|done].
        destruct (Hsymb j a Hin) as (e & Hj & He). exists e.
        split; [by apply lookup_app_l_Some|done].
      * lia.
      * case_bool_decide; lia.
    + (* any other operation *)
      simpl in Hemit. inversion Hemit; subst st'; clear Hemit. unfold mx_built. simpl.
      split; [split; [|split]|].
      * intros k Hk. destruct (Hout k Hk) as (j & e & Hj & He).
        exists j, e. split; [by apply lookup_app_l_Some|done].
      * intros j a [Hin|[-> ->]]%Hsymb'.
        -- destruct (Hsymb j a Hin) as (e & Hj & He). exists e.
           split; [by apply lookup_app_l_Some|done].
        -- eexists. split; [apply list_lookup_middle; done|done].
      * done.
      * case_bool_decide as Hn; [|lia]. subst n. simpl in Ho. congruence.
  - (* a function output: the parent's result list may change *)
    assert (n ≠ None) as Hn by (intros ->; done).
    rewrite bool_decide_eq_false_2 in Hemit by done.
    set (pind := MX.b_place_in_alg st !!! _) in Hemit.
    destruct (if bool_decide (0 ≤ pind) then at_ (MX.b_algorithm st) (Z.to_nat pind)
              else inl OUT_OF_RANGE) as [e|parent] eqn:Hparent; simpl in Hemit; [done|].
    destruct (at_ (MX.res parent) (from_option MX.getFunctionOutput 0%nat n))
      as [e|otmp] eqn:Hotmp; simpl in Hemit; [done|].
    assert (MX.b_algorithm st !! Z.to_nat pind = Some parent) as Hp.
    { destruct (bool_decide (0 ≤ pind)); [|done]. unfold at_ in Hparent.
      by destruct (MX.b_algorithm st !! Z.to_nat pind); inversion Hparent. }
    rewrite bool_decide_eq_false_2 by done.
    case_bool_decide as Hneg; inversion Hemit; subst st'; clear Hemit; unfold mx_built; simpl;
      (split; [split; [|split]|lia]); try done.
    + intros k Hk. destruct (Hout k Hk) as (j & e & Hj & [He1 He2]).
      destruct (decide (j = Z.to_nat pind)) as [->|Hne].
      * exfalso. rewrite Hp in Hj. inversion Hj; subst e. rewrite He2 in Hotmp.
        unfold at_ in Hotmp.
        destruct (from_option MX.getFunctionOutput 0%nat n) as [|m]; simpl in Hotmp;
          [inversion Hotmp; lia|done].
      * exists j, e. split; [by rewrite list_lookup_insert_ne|done].
    + intros j a Hin. destruct (Hsymb j a Hin) as (e & Hj & He).
      destruct (decide (j = Z.to_nat pind)) as [->|Hne].
      * rewrite Hp in Hj. inversion Hj; subst e. eexists.
        split; [apply list_lookup_insert_eq; by eapply lookup_lt_Some|done].
      * exists e. split; [by rewrite list_lookup_insert_ne|done].
Qed.

Lemma mx_build_built (outputv : list nat) (l : list (nat * option MX.MXNode))
    (st st' : MX.build_state) :
  foldlM (MX.emit outputv) st l = inr st' → mx_built outputv st →
  mx_built outputv st' ∧ (MX.b_curr_oind st + count_null l.*2 ≤ MX.b_curr_oind st')%nat.
Proof.
  revert st. induction l as [|it l IH]; intros st; simpl.
  - intros Hst Hb. inversion Hst; subst. split; [done|]. unfold count_null. simpl. lia.
  - destruct (MX.emit outputv st it) as [e|st1] eqn:Hemit; simpl; [done|].
    intros Hfold Hb. destruct (mx_emit_built _ _ _ _ Hemit Hb) as [Hb1 Hc1].
    destruct (IH st1 Hfold Hb1) as [Hb' Hc']. split; [done|].
    unfold count_null in *. destruct it as [idx n]. cbn [snd] in *.
    destruct n as [n|].
    + rewrite bool_decide_eq_false_2 in Hc1 by done.
      rewrite filter_cons_False by done.
      change (list_fmap (nat * option MX.MXNode)%type (option MX.MXNode) snd l) with (l.*2). lia.
    + rewrite bool_decide_eq_true_2 in Hc1 by done.
      rewrite filter_cons_True by done. cbn [length].
      change (list_fmap (nat * option MX.MXNode)%type (option MX.MXNode) snd l) with (l.*2). lia.
Qed.

(** The second loop keeps every record's operation, and the results of an
    output instruction. *)
Definition mx_same_kind (e e' : MX.AlgEl) : Prop :=
  MX.op e' = MX.op e ∧ (MX.op e = OP_OUTPUT → MX.res e' = MX.res e).

Lemma mx_place_results_op (live : bool) (cs : list nat) (r : MX.AlgEl * MX.alloc_state) :
  MX.op (foldl (MX.place_result live) r cs).1 = MX.op r.1.
Proof.
  revert r. induction cs as [|c cs IH]; intros r; cbn [foldl]; [done|].
  rewrite IH. destruct r as [e s]. unfold MX.place_result.
  destruct (MX.res e !! c) as [x|]; [|done].
  destruct (bool_decide (0 ≤ x)); [|done].
  destruct live; [destruct (default [] _)|]; done.
Qed.

Lemma mx_allocate_kind (live : bool) (nodes : list (option MX.MXNode))
    (acc : list MX.AlgEl * MX.alloc_state) (it : MX.AlgEl) :
  ∃ it', (MX.allocate live nodes acc it).1 = acc.1 ++ [it'] ∧ mx_same_kind it it'.
Proof.
  unfold MX.allocate.
  set (last_ := if bool_decide (MX.op it = OP_OUTPUT) then 1%nat else _).
  destruct (mx_release_range_frame live nodes 0 last_ (it, acc.2)) as (Hr & Ho & _).
  case_bool_decide as Hop; cbn [fst snd].
  - eexists. split; [done|]. by split.
  - eexists. split; [done|]. split; [|done].
    match goal with
    | |- MX.op (MX.release_range _ _ _ ?n ?r).1 = _ =>
        destruct (mx_release_range_frame live nodes last_ n r) as (_ & -> & _)
    end.
    by rewrite mx_place_results_op.
Qed.

Lemma mx_allocate_fold_kind (live : bool) (nodes : list (option MX.MXNode))
    (alg : list MX.AlgEl) (acc : list MX.AlgEl * MX.alloc_state) :
  ∃ alg', (foldl (MX.allocate live nodes) acc alg).1 = acc.1 ++ alg'
          ∧ Forall2 mx_same_kind alg alg'.
Proof.
  revert acc. induction alg as [|it alg IH]; intros acc; cbn [foldl].
  - exists []. by rewrite app_nil_r.
  - destruct (mx_allocate_kind live nodes acc it) as (it' & Hit & Hk).
    destruct (IH (MX.allocate live nodes acc it)) as (alg' & -> & Hall).
    exists (it' :: alg'). rewrite Hit, <- app_assoc. split; [done|]. by constructor.
Qed.

(** The marks that single out the input instructions point at parameter
    instructions only. *)
Definition mx_marks (positions : list nat) (t : list Z) : Prop :=
  ∀ a v, t !! a = Some v → v = 0 ∨ (1 ≤ v ∧ Z.to_nat (v - 1) ∈ positions).

Lemma mx_mark_symb_loc_marks (n : nat) (symb_loc : list (nat * nat)) :
  mx_marks symb_loc.*1 (MX.mark_symb_loc n symb_loc)
  ∧ length (MX.mark_symb_loc n symb_loc) = n.
Proof.
  unfold MX.mark_symb_loc.
  assert (mx_marks symb_loc.*1 (replicate n 0) ∧ length (replicate n 0 : list Z) = n) as H0.
  { split; [|apply length_replicate]. intros a v [-> _]%lookup_replicate. by left. }
  revert H0. generalize (replicate n 0).
  assert (∀ x, x ∈ symb_loc → x.1 ∈ symb_loc.*1) as Hsub
    by (intros x Hx; by apply list_elem_of_fmap_2).
  revert Hsub. generalize (symb_loc.*1). intros positions.
  induction symb_loc as [|[j b] l IH]; intros Hsub t [Ht Hlen]; cbn [foldl]; [done|].
  apply IH.
  - intros x Hx. apply Hsub. by apply list_elem_of_further.
  - split; [|by rewrite length_insert]. intros a v Hv. simpl in Hv.
    destruct (decide (a = b)) as [->|Hne].
    + apply list_lookup_insert_Some in Hv as [(_ & <- & _)|[? Hv]]; [|by apply Ht in Hv].
      right. split; [lia|]. replace (Z.to_nat (Z.of_nat j + 1 - 1)) with j by lia.
      apply (Hsub (j, b)). apply list_elem_of_here.
    + rewrite list_lookup_insert_ne in Hv by done. by apply Ht in Hv.
Qed.

Lemma mx_add_input_keeps (positions : list nat) (acc : list MX.AlgEl * list Z)
    (it : nat * nat) :
  mx_marks positions acc.2 → (it.2 < length acc.2)%nat →
  mx_marks positions (MX.add_input acc it).2
  ∧ length (MX.add_input acc it).2 = length acc.2
  ∧ ∀ j, j ∉ positions → (MX.add_input acc it).1 !! j = acc.1 !! j.
Proof.
  destruct acc as [alg t], it as [ind a]. simpl. intros Hm Ha. unfold MX.add_input. simpl.
  destruct (lookup_lt_is_Some_2 t a Ha) as [v Hv].
  rewrite (list_lookup_total_correct _ _ _ Hv).
  case_bool_decide as Hpos; simpl; [|done].
  split; [|split; [by rewrite length_insert|]].
  - intros b w Hw. destruct (decide (b = a)) as [->|Hne].
    + apply list_lookup_insert_Some in Hw as [(_ & <- & _)|[? Hw]]; [by left|by apply Hm in Hw].
    + rewrite list_lookup_insert_ne in Hw by done. by apply Hm in Hw.
  - intros j Hj. apply list_lookup_alter_ne.
    destruct (Hm a v Hv) as [->|[_ Hin]]; [lia|]. by intros <-.
Qed.

Lemma mx_add_inputs_keep (positions : list nat) (l : list (nat * nat))
    (acc : list MX.AlgEl * list Z) :
  mx_marks positions acc.2 → (∀ it, it ∈ l → (it.2 < length acc.2)%nat) →
  ∀ j, j ∉ positions → (foldl MX.add_input acc l).1 !! j = acc.1 !! j.
Proof.
  revert acc. induction l as [|it l IH]; intros acc Hm Hl j Hj; cbn [foldl]; [done|].
  destruct (mx_add_input_keeps positions acc it Hm) as (Hm' & Hlen & Hkeep).
  { apply Hl, list_elem_of_here. }
  rewrite IH; [by apply Hkeep|done| |done].
  intros it' Hit'. rewrite Hlen. apply Hl. by apply list_elem_of_further.
Qed.

(** Every declared output has its output instruction on a compiled tape. *)
Lemma mx_init_outputs (live : bool) (nodes : list (option MX.MXNode))
    (inputv outputv : list nat) (f : MX.compiled) :
  MX.init live nodes inputv outputv = inr f →
  count_null nodes = length outputv →
  Forall (λ a, (a < length nodes)%nat) inputv →
  ∀ k, (k < length outputv)%nat → ∃ e, e ∈ MX.algorithm_ f ∧ mx_writes k e.
Proof.
  unfold MX.init. intros Hinit Hnull Hin k Hk.
  destruct (MX.build nodes outputv) as [e|b] eqn:Hbuild; simpl in Hinit; [done|].
  unfold MX.build in Hbuild.
  apply mx_build_built in Hbuild as [(Hout & Hsymb & Hle) Hcount].
  2:{ split; [|split]; simpl; [intros ?; lia|by intros ?? ?%elem_of_nil|lia]. }
  simpl in Hcount.
  assert ((indexed nodes).*2 = nodes) as Hsnd.
  { unfold indexed. apply snd_zip. rewrite length_seq. lia. }
  rewrite Hsnd, Hnull in Hcount.
  destruct (Hout k) as (j & e & Hj & [He1 He2]); [lia|].
  revert Hinit.
  match goal with
  | |- context [foldl (MX.allocate live nodes) ?i ?l] =>
      destruct (mx_allocate_fold_kind live nodes l i) as (alg' & Halg & Hkind);
      destruct (foldl (MX.allocate live nodes) i l) as [alg a]
  end.
  simpl in Halg. subst alg.
  destruct (Forall2_lookup_l _ _ _ _ _ Hkind Hj) as (e' & Hj' & [Hk1 Hk2]).
  pose proof (mx_mark_symb_loc_marks (length nodes) (MX.b_symb_loc b)) as [Hm Hlen].
  pose proof (mx_add_inputs_keep (MX.b_symb_loc b).*1 (indexed inputv)
                (alg', MX.mark_symb_loc (length nodes) (MX.b_symb_loc b)) Hm) as Hkeep.
  destruct (foldl MX.add_input _ (indexed inputv)) as [alg'' t'].
  intros Hinit. inversion Hinit; subst f. simpl.
  exists e'. split.
  - apply (list_elem_of_lookup_2 _ j). simpl in Hkeep. rewrite Hkeep; [done| |].
    + intros [i x] Hia. simpl. rewrite Hlen. apply elem_of_indexed in Hia.
      by apply (Forall_lookup_1 _ _ _ _ Hin Hia).
    + intros ([j' x] & -> & Hin')%list_elem_of_fmap. simpl in *.
      destruct (Hsymb _ _ Hin') as (e0 & He0 & Hop). rewrite Hj in He0.
      inversion He0; subst e0. congruence.
  - split; [congruence|]. rewrite Hk2; done.
Qed.

Context {DMatrix : Type} `{!Inhabited DMatrix}.
Variable dm_set : DMatrix → DMatrix → DMatrix.
Variable dm_get : DMatrix → DMatrix → DMatrix.
Variable evaluateD :
  MX.MXNode → list (option nat) → list (option nat) → list DMatrix → list DMatrix.

Lemma mx_run_trace (l : list MX.AlgEl) (acc : list MX.AlgEl * MX.buffers DMatrix) :
  (foldl (MX.run dm_set dm_get evaluateD) acc l).1 = acc.1 ++ l.
Proof.
  revert acc. induction l as [|it l IH]; intros acc; cbn [foldl].
  - by rewrite app_nil_r.
  - rewrite IH. simpl. by rewrite <- app_assoc.
Qed.

(** An output instruction stores into the output buffer it names. *)
Lemma mx_exec_writes (st : MX.buffers DMatrix) (it : MX.AlgEl) (k : nat) :
  mx_writes k it → (k < length (MX.output st))%nat →
  MX.output (MX.exec dm_set dm_get evaluateD st it) !! k
  = Some (dm_get (MX.work_ st !!! MX.front (MX.arg it)) (MX.output st !!! k)).
Proof.
  intros [Hop Hres] Hk. unfold MX.exec. rewrite Hop. simpl.
  unfold MX.front at 2. rewrite Hres. simpl. rewrite Nat2Z.id.
  destruct (lookup_lt_is_Some_2 _ _ Hk) as [y Hy].
  rewrite list_lookup_alter_eq, Hy. simpl. by rewrite (list_lookup_total_correct _ _ _ Hy).
Qed.

Lemma mx_evaluate_gate (f : MX.compiled) (st : MX.buffers DMatrix) :
  (MX.free_vars_ f ≠ [] →
   MX.evaluate dm_set dm_get evaluateD f st = ([], inl FREE_VARIABLE))
  ∧ (MX.free_vars_ f = [] →
     ∃ st', MX.evaluate dm_set dm_get evaluateD f st = (MX.algorithm_ f, inr st')).
Proof.
  unfold MX.evaluate. split; intros Hfree.
  - by rewrite bool_decide_eq_true_2.
  - rewrite bool_decide_eq_false_2 by (by intros ?). rewrite mx_run_trace. simpl.
    by eexists.
Qed.

End MXOutputs.

(** The last element of a list with a decidable property. *)
Lemma last_such {A : Type} (P : A → Prop) `{!∀ x, Decision (P x)} (l : list A) :
  (∃ x, x ∈ l ∧ P x) →
  ∃ pre x post, l = pre ++ x :: post ∧ P x ∧ Forall (λ y, ¬ P y) post.
Proof.
  induction l as [|a l IH]; intros (x & Hx & HP); [by apply elem_of_nil in Hx|].
  destruct (decide (Exists P l)) as [Hex|Hno].
  - apply list.Exists_exists in Hex. destruct (IH Hex) as (pre & y & post & -> & Hy & Hpost).
    by exists (a :: pre), y, post.
  - apply not_Exists_Forall in Hno; [|solve_decision].
    apply elem_of_cons in Hx as [->|Hx].
    + by exists [], a, l.
    + exfalso. rewrite list.Forall_forall in Hno. by apply (Hno x Hx).
Qed.

Section MXFinal.

Context {DMatrix : Type} `{!Inhabited DMatrix}.
Variable dm_set : DMatrix → DMatrix → DMatrix.
Variable dm_get : DMatrix → DMatrix → DMatrix.
Variable evaluateD :
  MX.MXNode → list (option nat) → list (option nat) → list DMatrix → list DMatrix.

(** An output instruction that stores into the output buffer [k]. *)
Definition mx_stores (k : nat) (e : MX.AlgEl) : Prop :=
  MX.op e = OP_OUTPUT ∧ MX.front (MX.res e) = k.

#[local] Instance mx_stores_dec (k : nat) (e : MX.AlgEl) : Decision (mx_stores k e).
Proof. unfold mx_stores. apply _. Defined.

Lemma mx_writes_stores (k : nat) (e : MX.AlgEl) : mx_writes k e → mx_stores k e.
Proof.
  intros [Hop Hres]. split; [done|]. unfold MX.front. rewrite Hres. simpl. lia.
Qed.

(** No instruction changes the number of output buffers. *)
Lemma mx_exec_outputs (st : MX.buffers DMatrix) (it : MX.AlgEl) :
  length (MX.output (MX.exec dm_set dm_get evaluateD st it)) = length (MX.output st).
Proof.
  unfold MX.exec. repeat case_bool_decide; simpl; [done|by rewrite length_alter|].
  by destruct (MX.data it).
Qed.

Lemma mx_run_outputs (l : list MX.AlgEl) (st : MX.buffers DMatrix) :
  length (MX.output (foldl (MX.exec dm_set dm_get evaluateD) st l)) = length (MX.output st).
Proof.
  revert st. induction l as [|it l IH]; intros st; cbn [foldl]; [done|].
  by rewrite IH, mx_exec_outputs.
Qed.

(** An instruction other than an output instruction for the buffer [k]
    leaves the buffer as it is. *)
Lemma mx_exec_keeps (st : MX.buffers DMatrix) (it : MX.AlgEl) (k : nat) :
  ¬ mx_stores k it →
  MX.output (MX.exec dm_set dm_get evaluateD st it) !! k = MX.output st !! k.
Proof.
  intros Hno. unfold MX.exec. repeat case_bool_decide; simpl; [done| |by destruct (MX.data it)].
  apply list_lookup_alter_ne. intros Hk. apply Hno. by split.
Qed.

Lemma mx_run_keeps (l : list MX.AlgEl) (st : MX.buffers DMatrix) (k : nat) :
  Forall (λ e, ¬ mx_stores k e) l →
  MX.output (foldl (MX.exec dm_set dm_get evaluateD) st l) !! k = MX.output st !! k.
Proof.
  revert st. induction l as [|it l IH]; intros st Hl; cbn [foldl]; [done|].
  inversion Hl; subst. rewrite IH by done. by apply mx_exec_keeps.
Qed.

Lemma mx_exec_stores (st : MX.buffers DMatrix) (it : MX.AlgEl) (k : nat) :
  mx_stores k it → (k < length (MX.output st))%nat →
  MX.output (MX.exec dm_set dm_get evaluateD st it) !! k
  = Some (dm_get (MX.work_ st !!! MX.front (MX.arg it)) (MX.output st !!! k)).
Proof.
  intros [Hop Hres] Hk. unfold MX.exec. rewrite Hop. simpl. rewrite Hres.
  destruct (lookup_lt_is_Some_2 _ _ Hk) as [y Hy].
  rewrite list_lookup_alter_eq, Hy. simpl. by rewrite (list_lookup_total_correct _ _ _ Hy).
Qed.

Lemma mx_run_exec (l : list MX.AlgEl) (acc : list MX.AlgEl * MX.buffers DMatrix) :
  (foldl (MX.run dm_set dm_get evaluateD) acc l).2
  = foldl (MX.exec dm_set dm_get evaluateD) acc.2 l.
Proof. revert acc. induction l as [|it l IH]; intros acc; cbn [foldl]; [done|]. by rewrite IH. Qed.

(** After the run every declared output buffer holds what its last output
    instruction fetched from the work vector. *)
Lemma mx_evaluate_outputs (live : bool) (nodes : list (option MX.MXNode))
    (inputv outputv : list nat) (f : MX.compiled) (st : MX.buffers DMatrix) :
  MX.init live nodes inputv outputv = inr f →
  count_null nodes = length outputv →
  Forall (λ a, (a < length nodes)%nat) inputv →
  length (MX.output st) = length outputv →
  MX.free_vars_ f = [] →
  ∃ st', MX.evaluate dm_set dm_get evaluateD f st = (MX.algorithm_ f, inr st')
    ∧ st' = foldl (MX.exec dm_set dm_get evaluateD) st (MX.algorithm_ f)
    ∧ ∀ k, (k < length outputv)%nat →
        ∃ pre e post,
          MX.algorithm_ f = pre ++ e :: post ∧ mx_stores k e
          ∧ Forall (λ e', ¬ mx_stores k e') post
          ∧ MX.output st' !! k
            = Some (dm_get
                      (MX.work_ (foldl (MX.exec dm_set dm_get evaluateD) st pre)
                         !!! MX.front (MX.arg e))
                      (MX.output (foldl (MX.exec dm_set dm_get evaluateD) st pre) !!! k)).
Proof.
  intros Hinit Hnull Hin Hshape Hfree. unfold MX.evaluate.
  rewrite bool_decide_eq_false_2 by (by intros ?). rewrite mx_run_trace, mx_run_exec.
  cbn [fst snd app].
  eexists. split; [done|]. split; [done|]. intros k Hk.
  destruct (last_such (mx_stores k) (MX.algorithm_ f)) as (pre & e & post & Halg & He & Hpost).
  { destruct (mx_init_outputs live nodes inputv outputv f Hinit Hnull Hin k Hk)
      as (e & He & Hw).
    exists e. split; [done|]. by apply mx_writes_stores. }
  exists pre, e, post. split; [done|]. split; [done|]. split; [done|].
  rewrite Halg, foldl_app. cbn [foldl].
  rewrite mx_run_keeps by done.
  apply mx_exec_stores; [done|]. rewrite mx_run_outputs. lia.
Qed.

End MXFinal.
(** ** Numeric evaluation: the scalar layer *)

Section SXOutputs.

Context {D : Type} `{!Inhabited D}.

(** An output instruction for the nonzero [nz] of the output [o]. *)
Definition sx_writes (o nz : nat) (e : SX.AlgEl D) : Prop :=
  SX.op e = OP_OUTPUT ∧ SX.i0 e = o ∧ SX.i2 e = nz.

(** The number of nonzeros of the outputs before position [o]. *)
Definition nonzeros_before (outputv : list (list nat)) (o : nat) : nat :=
  sum_list_with length (take o outputv).

(** The nonzero [(o, nz)] comes before the cursor [(co, cnz)]. *)
Definition passed (co cnz o nz : nat) : Prop :=
  (o < co ∨ (o = co ∧ nz < cnz))%nat.

Definition sx_built (outputv : list (list nat)) (st : SX.build_state D) : Prop :=
  (∀ o nz, passed (SX.b_curr_oind st) (SX.b_curr_nz st) o nz →
           (nz < length (outputv !!! o))%nat →
           ∃ j e, SX.b_algorithm st !! j = Some e ∧ sx_writes o nz e)
  ∧ (∀ j a, (j, a) ∈ SX.b_symb_loc st →
            ∃ e, SX.b_algorithm st !! j = Some e ∧ SX.op e = OP_PARAMETER)
  ∧ (SX.b_curr_oind st ≤ length outputv)%nat
  ∧ ((SX.b_curr_oind st < length outputv)%nat →
     (SX.b_curr_nz st < length (outputv !!! SX.b_curr_oind st))%nat).

Definition sx_offset (outputv : list (list nat)) (st : SX.build_state D) : nat :=
  (nonzeros_before outputv (SX.b_curr_oind st) + SX.b_curr_nz st)%nat.

Lemma skip_empty_spec (rest : list (list nat)) (k : nat) :
  ∃ m, SX.skip_empty rest k = (k + m)%nat ∧ (m ≤ length rest)%nat
       ∧ (∀ i, (i < m)%nat → rest !! i = Some [])
       ∧ ((m < length rest)%nat → ∃ o, rest !! m = Some o ∧ o ≠ []).
Proof.
  revert k. induction rest as [|o rest IH]; intros k; simpl.
  - exists 0%nat. split; [lia|]. split; [done|]. split; intros; lia.
  - case_bool_decide as Hlen.
    + exists 0%nat. split; [lia|]. split; [simpl; lia|]. split; [intros; lia|].
      intros _. exists o. split; [done|]. by destruct o.
    + destruct (IH (S k)) as (m & -> & Hm & Hempty & Hnext).
      exists (S m). split; [lia|]. split; [simpl; lia|]. split.
      * intros [|i] Hi; simpl; [|apply Hempty; lia].
        destruct o; [done|]. simpl in Hlen. lia.
      * intros Hlt. simpl. apply Hnext. simpl in Hlt. lia.
Qed.

Lemma nonzeros_before_S (outputv : list (list nat)) (o : nat) (x : list nat) :
  outputv !! o = Some x →
  nonzeros_before outputv (S o) = (nonzeros_before outputv o + length x)%nat.
Proof.
  intros Ho. unfold nonzeros_before. rewrite (take_S_r _ _ _ Ho), sum_list_with_app.
  simpl. lia.
Qed.

Lemma nonzeros_before_skip (outputv : list (list nat)) (k m : nat) :
  (∀ i, (i < m)%nat → drop k outputv !! i = Some []) →
  nonzeros_before outputv (k + m) = nonzeros_before outputv k.
Proof.
  induction m as [|m IH]; intros Hempty; [by rewrite Nat.add_0_r|].
  replace (k + S m)%nat with (S (k + m)) by lia.
  pose proof (Hempty m (Nat.lt_succ_diag_r m)) as Hm. rewrite lookup_drop in Hm.
  rewrite (nonzeros_before_S _ _ _ Hm), IH; [simpl; lia|].
  intros i Hi. apply Hempty. lia.
Qed.

Lemma nonzeros_before_le (outputv : list (list nat)) (o : nat) (x : list nat) :
  outputv !! o = Some x →
  (nonzeros_before outputv o + length x ≤ nonzeros_before outputv (length outputv))%nat.
Proof.
  intros Ho. rewrite <- (nonzeros_before_S _ _ _ Ho). unfold nonzeros_before.
  rewrite firstn_all. rewrite <- (take_drop (S o) outputv) at 2.
  rewrite sum_list_with_app. lia.
Qed.

Lemma sx_emit_built (outputv : list (list nat)) (st st' : SX.build_state D)
    (it : nat * option (SX.SXNode D)) :
  SX.emit outputv st it = inr st' → sx_built outputv st →
  sx_built outputv st'
  ∧ (sx_offset outputv st + (if bool_decide (it.2 = None) then 1 else 0)
     ≤ sx_offset outputv st')%nat.
Proof.
  destruct it as [idx n]. intros Hemit (Hout & Hsymb & Hle & Hnz). unfold SX.emit in Hemit.
  cbn [snd].
  set (o := from_option SX.getOp OP_OUTPUT n) in *.
  assert (o ≠ OP_OUTPUT → n ≠ None) as Hnone by (intros Ho ->; by apply Ho).
  (* the three ordinary shapes of an instruction share one argument *)
  assert (∀ ae symb,
            o ≠ OP_OUTPUT → SX.op ae = o →
            (∀ j a, (j, a) ∈ symb →
                    (j, a) ∈ SX.b_symb_loc st
                    ∨ j = length (SX.b_algorithm st) ∧ o = OP_PARAMETER) →
            (refcount ← SX.count_children ae (SX.b_refcount st);
             mret {| SX.b_algorithm := SX.b_algorithm st ++ [ae];
                     SX.b_symb_loc := symb;
                     SX.b_curr_oind := SX.b_curr_oind st;
                     SX.b_curr_nz := SX.b_curr_nz st;
                     SX.b_refcount := refcount |}) = inr st' →
            sx_built outputv st'
            ∧ (sx_offset outputv st + (if bool_decide (n = None) then 1 else 0)
               ≤ sx_offset outputv st')%nat) as Hplain.
  { intros ae symb Ho Hop Hsymb' Hst'.
    destruct (SX.count_children ae (SX.b_refcount st)) as [e|rc]; simpl in Hst'; [done|].
    inversion Hst'; subst st'; clear Hst'. unfold sx_built, sx_offset. simpl.
    rewrite bool_decide_eq_false_2 by (by apply Hnone).
    split; [|lia]. split; [|split; [|done]].
    - intros o' nz Hp Hlt. destruct (Hout o' nz Hp Hlt) as (j & e & Hj & He).
      exists j, e. split; [by apply lookup_app_l_Some|done].
    - intros j a [Hin|[-> Hpar]]%Hsymb'.
      + destruct (Hsymb j a Hin) as (e & Hj & He). exists e.
        split; [by apply lookup_app_l_Some|done].
      + exists ae. split; [by apply list_lookup_middle|congruence]. }
  destruct o eqn:Ho; cbn [mbind result_bind mret result_ret] in Hemit.
  all: try (refine (Hplain _ _ _ _ _ Hemit); [done|done|]; intros j a Hin;
            first [ by left
                  | apply elem_of_app in Hin as [Hin|Hin];
                    [ by left
                    | right; apply list_elem_of_singleton in Hin; by inversion Hin ] ]).
  - (* an output instruction *)
    clear Hplain.
    destruct (at_ (outputv !!! SX.b_curr_oind st) (SX.b_curr_nz st)) as [e|t] eqn:Hat;
      simpl in Hemit; [done|].
    assert (SX.b_curr_nz st < length (outputv !!! SX.b_curr_oind st))%nat as Hlt.
    { unfold at_ in Hat. destruct (_ !! SX.b_curr_nz st) eqn:Hl; [|done].
      by eapply lookup_lt_Some. }
    assert (∃ x, outputv !! SX.b_curr_oind st = Some x) as [x Hx].
    { destruct (outputv !! SX.b_curr_oind st) as [x|] eqn:Hx; [by eexists|].
      rewrite list_lookup_total_alt, Hx in Hlt. simpl in Hlt. lia. }
    rewrite (list_lookup_total_correct _ _ _ Hx) in *.
    set (ae := SX.set_i2 _ (SX.set_i1 t (SX.set_i0 _ _))) in Hemit.
    assert (sx_writes (SX.b_curr_oind st) (SX.b_curr_nz st) ae) as Hae by done.
    clearbody ae.
    case_bool_decide as Hend; simpl in Hemit.
    + (* the last nonzero of this output: move on to the next nonempty one *)
      destruct (SX.count_children ae (SX.b_refcount st)) as [e|rc]; simpl in Hemit; [done|].
      inversion Hemit; subst st'; clear Hemit.
      destruct (skip_empty_spec (drop (S (SX.b_curr_oind st)) outputv)
                                (S (SX.b_curr_oind st)))
        as (m & Hskip & Hm & Hempty & Hnext).
      rewrite length_drop in Hm. apply lookup_lt_Some in Hx as Hbound.
      unfold sx_built, sx_offset. simpl. rewrite Hskip.
      split; [split; [|split; [|split]]|].
      * intros o' nz [Hp|[_ Hp]] Hnzlt; [|lia].
        destruct (decide (o' < SX.b_curr_oind st)%nat) as [Hlo|Hhi].
        { destruct (Hout o' nz) as (j & e & Hj & He); [by left|done|].
          exists j, e. split; [by apply lookup_app_l_Some|done]. }
        destruct (decide (o' = SX.b_curr_oind st)) as [->|Hne].
        { rewrite (list_lookup_total_correct _ _ _ Hx) in Hnzlt.
          destruct (decide (nz = SX.b_curr_nz st)) as [->|Hnz'].
          - exists (length (SX.b_algorithm st)), ae.
            split; [by apply list_lookup_middle|done].
          - destruct (Hout (SX.b_curr_oind st) nz) as (j & e & Hj & He).
            + right. split; [done|lia].
            + by rewrite (list_lookup_total_correct _ _ _ Hx).
            + exists j, e. split; [by apply lookup_app_l_Some|done]. }
        exfalso.
        pose proof (Hempty (o' - S (SX.b_curr_oind st))%nat ltac:(lia)) as He.
        rewrite lookup_drop in He.
        replace (S (SX.b_curr_oind st) + (o' - S (SX.b_curr_oind st)))%nat with o' in He by lia.
        rewrite (list_lookup_total_correct _ _ _ He) in Hnzlt. simpl in Hnzlt. lia.
      * intros j a Hin. destruct (Hsymb j a Hin) as (e & Hj & He). exists e.
        split; [by apply lookup_app_l_Some|done].
      * lia.
      * intros Hin. destruct Hnext as (y & Hy & Hne); [rewrite length_drop; lia|].
        rewrite lookup_drop in Hy. rewrite (list_lookup_total_correct _ _ _ Hy).
        destruct y; [done|simpl; lia].
      * rewrite (nonzeros_before_skip outputv (S (SX.b_curr_oind st)) m Hempty),
                (nonzeros_before_S _ _ _ Hx).
        case_bool_decide; lia.
    + (* the next nonzero of the same output *)
      destruct (SX.count_children ae (SX.b_refcount st)) as [e|rc]; simpl in Hemit; [done|].
      inversion Hemit; subst st'; clear Hemit.
      unfold sx_built, sx_offset. simpl.
      split; [split; [|split; [|split]]|].
      * intros o' nz Hp Hnzlt.
        destruct (decide (o' = SX.b_curr_oind st ∧ nz = SX.b_curr_nz st)) as [[-> ->]|Hne].
        -- exists (length (SX.b_algorithm st)), ae.
           split; [by apply list_lookup_middle|done].
        -- destruct (Hout o' nz) as (j & e & Hj & He); [|done|].
           { destruct Hp as [Hp|[-> Hp]]; [by left|]. right. split; [done|lia]. }
           exists j, e. split; [by apply lookup_app_l_Some|done].
      * intros j a Hin. destruct (Hsymb j a Hin) as (e & Hj & He). exists e.
        split; [by apply lookup_app_l_Some|done].
      * done.
      * intros _. rewrite (list_lookup_total_correct _ _ _ Hx). lia.
      * case_bool_decide; lia.
Qed.

Lemma sx_build_built (outputv : list (list nat)) (l : list (nat * option (SX.SXNode D)))
    (st st' : SX.build_state D) :
  foldlM (SX.emit outputv) st l = inr st' → sx_built outputv st →
  sx_built outputv st' ∧ (sx_offset outputv st + count_null l.*2 ≤ sx_offset outputv st')%nat.
Proof.
  revert st. induction l as [|it l IH]; intros st; simpl.
  - intros Hst Hb. inversion Hst; subst. split; [done|]. unfold count_null. simpl. lia.
  - destruct (SX.emit outputv st it) as [e|st1] eqn:Hemit; simpl; [done|].
    intros Hfold Hb. destruct (sx_emit_built _ _ _ _ Hemit Hb) as [Hb1 Hc1].
    destruct (IH st1 Hfold Hb1) as [Hb' Hc']. split; [done|].
    unfold count_null in *. destruct it as [idx n]. cbn [snd] in *.
    change (list_fmap (nat * option (SX.SXNode D))%type (option (SX.SXNode D)) snd l)
      with (l.*2).
    destruct n as [n|].
    + rewrite bool_decide_eq_false_2 in Hc1 by done.
      rewrite filter_cons_False by done. lia.
    + rewrite bool_decide_eq_true_2 in Hc1 by done.
      rewrite filter_cons_True by done. cbn [length]. lia.
Qed.

(** The second loop keeps every record's operation, and the output and the
    nonzero an output instruction stores to. *)
Definition sx_same_kind (e e' : SX.AlgEl D) : Prop :=
  SX.op e' = SX.op e
  ∧ (SX.op e = OP_OUTPUT → SX.i0 e' = SX.i0 e ∧ SX.i2 e' = SX.i2 e).

Lemma sx_allocate_kind (live : bool) (acc r : list (SX.AlgEl D) * SX.alloc_state)
    (it : SX.AlgEl D) :
  SX.allocate live acc it = inr r →
  ∃ it', r.1 = acc.1 ++ [it'] ∧ sx_same_kind it it'.
Proof.
  unfold SX.allocate.
  destruct (SX.release_children (ndeps (SX.op it)) it acc.2) as [e|st1]; simpl; [done|].
  destruct (SX.store_result live it st1) as [e2 st2] eqn:Hstore.
  intros Hr. inversion Hr; subst r; clear Hr. simpl. eexists. split; [done|].
  assert (SX.op e2 = SX.op it ∧ (SX.op it = OP_OUTPUT → e2 = it)) as [Hop Hout].
  { unfold SX.store_result in Hstore. case_bool_decide as Ho.
    - destruct live; [destruct (SX.a_unused st1)|]; inversion Hstore; by subst.
    - inversion Hstore; subst. split; [done|]. done. }
  unfold SX.pad_unary, SX.relocate_children. rewrite Hop.
  destruct (SX.op it) eqn:Hit; simpl.
  all: unfold sx_same_kind; case_bool_decide as Hpad; simpl; rewrite ?Hop, ?Hit;
    (split; [done|]); intros Heq; try discriminate Heq.
  all: try (destruct Hpad as [_ Hpad]; congruence).
  all: rewrite (Hout eq_refl); done.
Qed.

Lemma sx_allocate_fold_kind (live : bool) (alg : list (SX.AlgEl D))
    (acc r : list (SX.AlgEl D) * SX.alloc_state) :
  foldlM (SX.allocate live) acc alg = inr r →
  ∃ alg', r.1 = acc.1 ++ alg' ∧ Forall2 sx_same_kind alg alg'.
Proof.
  revert acc. induction alg as [|it alg IH]; intros acc; cbn [foldlM].
  - intros Hr. inversion Hr; subst. exists []. by rewrite app_nil_r.
  - destruct (SX.allocate live acc it) as [e|acc1] eqn:Halloc; simpl; [done|].
    intros Hr. destruct (sx_allocate_kind _ _ _ _ Halloc) as (it' & Hit & Hk).
    destruct (IH acc1 Hr) as (alg' & -> & Hall).
    exists (it' :: alg'). rewrite Hit, <- app_assoc. split; [done|]. by constructor.
Qed.

Lemma sx_mark_symb_loc_marks (n : nat) (symb_loc : list (nat * nat)) :
  mx_marks symb_loc.*1 (SX.mark_symb_loc n symb_loc)
  ∧ length (SX.mark_symb_loc n symb_loc) = n.
Proof. apply mx_mark_symb_loc_marks. Qed.

Lemma sx_add_input_keeps (positions : list nat) (ind : nat)
    (acc : list (SX.AlgEl D) * list Z) (it : nat * nat) :
  mx_marks positions acc.2 → (it.2 < length acc.2)%nat →
  mx_marks positions (SX.add_input ind acc it).2
  ∧ length (SX.add_input ind acc it).2 = length acc.2
  ∧ ∀ j, j ∉ positions → (SX.add_input ind acc it).1 !! j = acc.1 !! j.
Proof.
  destruct acc as [alg t], it as [nz a]. simpl. intros Hm Ha. unfold SX.add_input. simpl.
  destruct (lookup_lt_is_Some_2 t a Ha) as [v Hv].
  rewrite (list_lookup_total_correct _ _ _ Hv).
  case_bool_decide as Hpos; simpl; [|done].
  split; [|split; [by rewrite length_insert|]].
  - intros b w Hw. destruct (decide (b = a)) as [->|Hne].
    + apply list_lookup_insert_Some in Hw as [(_ & <- & _)|[? Hw]]; [by left|by apply Hm in Hw].
    + rewrite list_lookup_insert_ne in Hw by done. by apply Hm in Hw.
  - intros j Hj. apply list_lookup_alter_ne.
    destruct (Hm a v Hv) as [->|[_ Hin]]; [lia|]. by intros <-.
Qed.

Lemma sx_add_inputs_keep (positions : list nat) (inputv : list (list nat))
    (acc : list (SX.AlgEl D) * list Z) :
  mx_marks positions acc.2 →
  Forall (Forall (λ a, (a < length acc.2)%nat)) inputv →
  ∀ j, j ∉ positions → (SX.add_inputs inputv acc).1 !! j = acc.1 !! j.
Proof.
  unfold SX.add_inputs. intros Hm Hin.
  assert (∀ it, it ∈ indexed inputv → Forall (λ a, (a < length acc.2)%nat) it.2) as Hrows.
  { intros [ind row] Hit. apply elem_of_indexed in Hit.
    apply (Forall_lookup_1 _ _ _ _ Hin Hit). }
  clear Hin. revert acc Hm Hrows. generalize (indexed inputv). intros rows.
  induction rows as [|[ind row] rows IH]; intros acc Hm Hrows j Hj; cbn [foldl]; [done|].
  assert (mx_marks positions (foldl (SX.add_input ind) acc (indexed row)).2
          ∧ length (foldl (SX.add_input ind) acc (indexed row)).2 = length acc.2
          ∧ (foldl (SX.add_input ind) acc (indexed row)).1 !! j = acc.1 !! j) as (Hm' & Hlen & Hkeep).
  { pose proof (Hrows (ind, row) (list_elem_of_here _ _)) as Hrow. simpl in Hrow.
    assert (∀ it, it ∈ indexed row → (it.2 < length acc.2)%nat) as Hcells.
    { intros [nz a] Hit. apply elem_of_indexed in Hit.
      apply (Forall_lookup_1 _ _ _ _ Hrow Hit). }
    clear Hrow Hrows IH. revert acc Hm Hcells. generalize (indexed row). intros cells.
    induction cells as [|cell cells IHc]; intros acc Hm Hcells; cbn [foldl]; [done|].
    destruct (sx_add_input_keeps positions ind acc cell Hm) as (Hm1 & Hlen1 & Hkeep1).
    { apply Hcells, list_elem_of_here. }
    destruct (IHc (SX.add_input ind acc cell) Hm1) as (Hm2 & Hlen2 & Hkeep2).
    { intros it Hit. rewrite Hlen1. apply Hcells. by apply list_elem_of_further. }
    split; [done|]. split; [lia|]. rewrite Hkeep2. by apply Hkeep1. }
  cbn [fst snd]. rewrite IH; [done|done| |done].
  intros it Hit. rewrite Hlen. apply Hrows. by apply list_elem_of_further.
Qed.

(** Every nonzero of every declared output has its output instruction on a
    compiled tape. *)
Lemma sx_init_outputs (live : bool) (nodes : list (option (SX.SXNode D)))
    (inputv outputv : list (list nat)) (f : SX.compiled D) :
  SX.init live nodes inputv outputv = inr f →
  count_null nodes = sum_list_with length outputv →
  Forall (Forall (λ a, (a < length nodes)%nat)) inputv →
  ∀ o nz x, outputv !! o = Some x → (nz < length x)%nat →
            ∃ e, e ∈ SX.algorithm_ f ∧ sx_writes o nz e.
Proof.
  unfold SX.init. intros Hinit Hnull Hin o nz x Ho Hnz.
  destruct (SX.build nodes outputv) as [e|b] eqn:Hbuild; simpl in Hinit; [done|].
  unfold SX.build in Hbuild.
  destruct (skip_empty_spec outputv 0) as (m0 & Hfirst & Hm0 & Hempty0 & Hnext0).
  apply sx_build_built in Hbuild as [(Hout & Hsymb & Hle & Hcnz) Hcount].
  2:{ unfold sx_built. simpl. unfold SX.first_output. rewrite Hfirst. simpl.
      split; [|split; [by intros ?? ?%elem_of_nil|split; [lia|]]].
      - intros o' nz' [Hp|[_ Hp]] Hlt; [|lia]. exfalso.
        rewrite (list_lookup_total_correct _ _ _ (Hempty0 o' Hp)) in Hlt. simpl in Hlt. lia.
      - intros Hlt. destruct (Hnext0 Hlt) as (y & Hy & Hne).
        rewrite (list_lookup_total_correct _ _ _ Hy). destruct y; [done|simpl; lia]. }
  assert ((indexed nodes).*2 = nodes) as Hsnd.
  { unfold indexed. apply snd_zip. rewrite length_seq. lia. }
  rewrite Hsnd, Hnull in Hcount. unfold sx_offset in Hcount. simpl in Hcount.
  unfold SX.first_output in Hcount. rewrite Hfirst in Hcount. simpl in Hcount.
  pose proof (nonzeros_before_skip outputv 0 m0) as Hs. rewrite drop_0 in Hs.
  simpl in Hs. rewrite (Hs Hempty0) in Hcount. clear Hs.
  unfold nonzeros_before at 1 in Hcount. simpl in Hcount.
  (* the cursor has reached the end *)
  assert (SX.b_curr_oind b = length outputv) as Hend.
  { destruct (decide (SX.b_curr_oind b = length outputv)) as [|Hne]; [done|exfalso].
    destruct (lookup_lt_is_Some_2 outputv (SX.b_curr_oind b)) as [y Hy]; [lia|].
    pose proof (nonzeros_before_le _ _ _ Hy) as Hbound.
    unfold nonzeros_before at 2 in Hbound. rewrite firstn_all in Hbound.
    (* the cursor sits on a nonzero that is still to come *)
    pose proof (Hcnz ltac:(lia)) as Hstrict.
    rewrite (list_lookup_total_correct _ _ _ Hy) in Hstrict. lia. }
  destruct (Hout o nz) as (j & e & Hj & He).
  { left. rewrite Hend. by eapply lookup_lt_Some. }
  { by rewrite (list_lookup_total_correct _ _ _ Ho). }
  destruct (foldlM (SX.allocate live) _ (SX.b_algorithm b)) as [err|[alg a]] eqn:Halloc;
    simpl in Hinit; [done|].
  apply sx_allocate_fold_kind in Halloc as (alg' & Halg & Hkind). simpl in Halg. subst alg.
  destruct (Forall2_lookup_l _ _ _ _ _ Hkind Hj) as (e' & Hj' & [Hk1 Hk2]).
  pose proof (sx_mark_symb_loc_marks (length nodes) (SX.b_symb_loc b)) as [Hm Hlen].
  pose proof (sx_add_inputs_keep (SX.b_symb_loc b).*1 inputv
                (alg', SX.mark_symb_loc (length nodes) (SX.b_symb_loc b)) Hm) as Hkeep.
  destruct (SX.add_inputs inputv _) as [alg'' t'].
  inversion Hinit; subst f. simpl.
  destruct He as (He1 & He2 & He3).
  exists e'. split.
  - apply (list_elem_of_lookup_2 _ j). simpl in Hkeep. rewrite Hkeep; [done| |].
    + by rewrite Hlen.
    + intros ([j' a'] & -> & Hin')%list_elem_of_fmap. simpl in *.
      destruct (Hsymb _ _ Hin') as (e0 & He0 & Hop). rewrite Hj in He0.
      inversion He0; subst e0. congruence.
  - destruct (Hk2 He1) as [Hi0 Hi2]. split; [congruence|]. split; congruence.
Qed.

Variable casadi_math_fun : Operation → D → D → D.

Lemma sx_run_trace (l : list (SX.AlgEl D)) (acc : list (SX.AlgEl D) * SX.buffers D) :
  (foldl (SX.run casadi_math_fun) acc l).1 = acc.1 ++ l.
Proof.
  revert acc. induction l as [|it l IH]; intros acc; cbn [foldl].
  - by rewrite app_nil_r.
  - rewrite IH. simpl. by rewrite <- app_assoc.
Qed.

(** An output instruction stores into the nonzero it names. *)
Lemma sx_exec_writes (st : SX.buffers D) (it : SX.AlgEl D) (o nz : nat) (x : list D) :
  sx_writes o nz it → SX.output st !! o = Some x → (nz < length x)%nat →
  (SX.output (SX.exec casadi_math_fun st it) !!! o) !! nz
  = Some (SX.work_ st !!! SX.i1 it).
Proof.
  intros (Hop & <- & <-) Hx Hnz. unfold SX.exec. rewrite Hop. simpl.
  rewrite list_lookup_total_alt, list_lookup_alter_eq, Hx. simpl.
  by apply list_lookup_insert_eq.
Qed.

Lemma sx_evaluate_gate (f : SX.compiled D) (st : SX.buffers D) :
  (SX.free_vars_ f ≠ [] → SX.evaluate casadi_math_fun f st = ([], inl FREE_VARIABLE))
  ∧ (SX.free_vars_ f = [] →
     ∃ st', SX.evaluate casadi_math_fun f st = (SX.algorithm_ f, inr st')).
Proof.
  unfold SX.evaluate. split; intros Hfree.
  - by rewrite bool_decide_eq_true_2.
  - rewrite bool_decide_eq_false_2 by (by intros ?). rewrite sx_run_trace. simpl.
    by eexists.
Qed.

End SXOutputs.

Section SXFinal.

Context {D : Type} `{!Inhabited D}.
Variable casadi_math_fun : Operation → D → D → D.

#[local] Instance sx_writes_dec (o nz : nat) (e : SX.AlgEl D) : Decision (sx_writes o nz e).
Proof. unfold sx_writes. apply _. Defined.

(** No instruction changes the shape of the output buffers. *)
Lemma sx_exec_shape (st : SX.buffers D) (it : SX.AlgEl D) :
  length <$> SX.output (SX.exec casadi_math_fun st it) = length <$> SX.output st.
Proof.
  unfold SX.exec. destruct (SX.op it) eqn:Hop; cbn; try done.
  apply list_eq. intros i. rewrite !list_lookup_fmap.
  destruct (decide (i = SX.i0 it)) as [->|Hne].
  - rewrite list_lookup_alter_eq. destruct (SX.output st !! SX.i0 it); simpl; [|done].
    by rewrite length_insert.
  - by rewrite list_lookup_alter_ne.
Qed.

Lemma sx_run_shape (l : list (SX.AlgEl D)) (st : SX.buffers D) :
  length <$> SX.output (foldl (SX.exec casadi_math_fun) st l) = length <$> SX.output st.
Proof.
  revert st. induction l as [|it l IH]; intros st; cbn [foldl]; [done|].
  by rewrite IH, sx_exec_shape.
Qed.

(** An instruction other than the output instruction of a nonzero leaves
    the nonzero as it is. *)
Lemma sx_exec_keeps (st : SX.buffers D) (it : SX.AlgEl D) (o nz : nat) :
  ¬ sx_writes o nz it →
  (SX.output (SX.exec casadi_math_fun st it) !!! o) !! nz = (SX.output st !!! o) !! nz.
Proof.
  intros Hno. unfold SX.exec. destruct (SX.op it) eqn:Hop; cbn; try done.
  destruct (decide (SX.i0 it = o)) as [Ho|Ho].
  - subst o. rewrite !list_lookup_total_alt, list_lookup_alter_eq.
    destruct (SX.output st !! SX.i0 it) as [x|]; simpl; [|done].
    apply list_lookup_insert_ne. intros Hnz. apply Hno. by split.
  - by rewrite !list_lookup_total_alt, list_lookup_alter_ne.
Qed.

Lemma sx_run_keeps (l : list (SX.AlgEl D)) (st : SX.buffers D) (o nz : nat) :
  Forall (λ e, ¬ sx_writes o nz e) l →
  (SX.output (foldl (SX.exec casadi_math_fun) st l) !!! o) !! nz = (SX.output st !!! o) !! nz.
Proof.
  revert st. induction l as [|it l IH]; intros st Hl; cbn [foldl]; [done|].
  inversion Hl; subst. rewrite IH by done. by apply sx_exec_keeps.
Qed.

Lemma sx_run_exec (l : list (SX.AlgEl D)) (acc : list (SX.AlgEl D) * SX.buffers D) :
  (foldl (SX.run casadi_math_fun) acc l).2 = foldl (SX.exec casadi_math_fun) acc.2 l.
Proof. revert acc. induction l as [|it l IH]; intros acc; cbn [foldl]; [done|]. by rewrite IH. Qed.

(** After the run every declared output nonzero holds what its last output
    instruction read from the work vector. *)
Lemma sx_evaluate_outputs (live : bool) (nodes : list (option (SX.SXNode D)))
    (inputv outputv : list (list nat)) (f : SX.compiled D) (st : SX.buffers D) :
  SX.init live nodes inputv outputv = inr f →
  count_null nodes = sum_list_with length outputv →
  Forall (Forall (λ a, (a < length nodes)%nat)) inputv →
  length <$> SX.output st = length <$> outputv →
  SX.free_vars_ f = [] →
  ∃ st', SX.evaluate casadi_math_fun f st = (SX.algorithm_ f, inr st')
    ∧ st' = foldl (SX.exec casadi_math_fun) st (SX.algorithm_ f)
    ∧ ∀ o nz x, outputv !! o = Some x → (nz < length x)%nat →
        ∃ pre e post,
          SX.algorithm_ f = pre ++ e :: post ∧ sx_writes o nz e
          ∧ Forall (λ e', ¬ sx_writes o nz e') post
          ∧ (SX.output st' !!! o) !! nz
            = Some (SX.work_ (foldl (SX.exec casadi_math_fun) st pre) !!! SX.i1 e).
Proof.
  intros Hinit Hnull Hin Hshape Hfree. unfold SX.evaluate.
  rewrite bool_decide_eq_false_2 by (by intros ?). rewrite sx_run_trace, sx_run_exec.
  cbn [fst snd app].
  eexists. split; [done|]. split; [done|]. intros o nz x Ho Hnz.
  destruct (last_such (sx_writes o nz) (SX.algorithm_ f)) as (pre & e & post & Halg & He & Hpost).
  { by apply (sx_init_outputs live nodes inputv outputv f Hinit Hnull Hin o nz x). }
  exists pre, e, post. split; [done|]. split; [done|]. split; [done|].
  rewrite Halg, foldl_app. cbn [foldl].
  rewrite sx_run_keeps by done.
  assert (∃ y, SX.output (foldl (SX.exec casadi_math_fun) st pre) !! o = Some y
               ∧ length y = length x) as (y & Hy & Hlen).
  { pose proof (sx_run_shape pre st) as Hs. rewrite Hshape in Hs.
    apply (f_equal (λ l, l !! o)) in Hs. rewrite !list_lookup_fmap, Ho in Hs.
    destruct (SX.output _ !! o) as [y|]; [|done]. exists y. split; [done|].
    by inversion Hs. }
  apply (sx_exec_writes casadi_math_fun _ _ _ _ y); [done|done|lia].
Qed.

End SXFinal.

(** C1.  In either layer [evaluate] throws [FREE_VARIABLE] without having
    executed a single tape record when the list of free variables is not
    empty, and otherwise executes the whole tape, record by record, and
    returns.  On a tape compiled by [init] from a node list with one
    output sentinel per output (per output nonzero in the scalar layer)
    and with every input among the nodes, the tape holds an output
    instruction for every declared output (nonzero), and the run stores
    into every declared output buffer: the buffers that [evaluate]
    returns are those the records of the tape leave when they are executed
    one after the other, and in them every declared output (nonzero)
    holds what the last output
    instruction for it took from the work vector, as the work vector was
    after the records before that instruction. *)
Theorem evaluate_free_variable_gate :
  (∀ (D : Type) (inh : Inhabited D) (casadi_math_fun : Operation → D → D → D)
     (f : SX.compiled D) (st : SX.buffers D),
     (SX.free_vars_ f ≠ [] → SX.evaluate casadi_math_fun f st = ([], inl FREE_VARIABLE))
     ∧ (SX.free_vars_ f = [] →
        ∃ st', SX.evaluate casadi_math_fun f st = (SX.algorithm_ f, inr st')))
  ∧ (∀ (DMatrix : Type) (inh : Inhabited DMatrix) (dm_set dm_get : DMatrix → DMatrix → DMatrix)
       (evaluateD : MX.MXNode → list (option nat) → list (option nat)
                    → list DMatrix → list DMatrix)
       (f : MX.compiled) (st : MX.buffers DMatrix),
       (MX.free_vars_ f ≠ [] →
        MX.evaluate dm_set dm_get evaluateD f st = ([], inl FREE_VARIABLE))
       ∧ (MX.free_vars_ f = [] →
          ∃ st', MX.evaluate dm_set dm_get evaluateD f st = (MX.algorithm_ f, inr st')))
  ∧ (∀ (D : Type) (inh : Inhabited D) (live : bool) (nodes : list (option (SX.SXNode D)))
       (inputv outputv : list (list nat)) (f : SX.compiled D),
       SX.init live nodes inputv outputv = inr f →
       count_null nodes = sum_list_with length outputv →
       Forall (Forall (λ a, (a < length nodes)%nat)) inputv →
       ∀ o nz x, outputv !! o = Some x → (nz < length x)%nat →
                 ∃ e, e ∈ SX.algorithm_ f ∧ sx_writes o nz e)
  ∧ (∀ (live : bool) (nodes : list (option MX.MXNode)) (inputv outputv : list nat)
       (f : MX.compiled),
       MX.init live nodes inputv outputv = inr f →
       count_null nodes = length outputv →
       Forall (λ a, (a < length nodes)%nat) inputv →
       ∀ k, (k < length outputv)%nat → ∃ e, e ∈ MX.algorithm_ f ∧ mx_writes k e)
  ∧ (∀ (D : Type) (inh : Inhabited D) (casadi_math_fun : Operation → D → D → D)
       (live : bool) (nodes : list (option (SX.SXNode D)))
       (inputv outputv : list (list nat)) (f : SX.compiled D) (st : SX.buffers D),
       SX.init live nodes inputv outputv = inr f →
       count_null nodes = sum_list_with length outputv →
       Forall (Forall (λ a, (a < length nodes)%nat)) inputv →
       length <$> SX.output st = length <$> outputv →
       SX.free_vars_ f = [] →
       ∃ st', SX.evaluate casadi_math_fun f st = (SX.algorithm_ f, inr st')
         ∧ st' = foldl (SX.exec casadi_math_fun) st (SX.algorithm_ f)
         ∧ ∀ o nz x, outputv !! o = Some x → (nz < length x)%nat →
             ∃ pre e post,
               SX.algorithm_ f = pre ++ e :: post ∧ sx_writes o nz e
               ∧ Forall (λ e', ¬ sx_writes o nz e') post
               ∧ (SX.output st' !!! o) !! nz
                 = Some (SX.work_ (foldl (SX.exec casadi_math_fun) st pre) !!! SX.i1 e))
  ∧ (∀ (DMatrix : Type) (inh : Inhabited DMatrix) (dm_set dm_get : DMatrix → DMatrix → DMatrix)
       (evaluateD : MX.MXNode → list (option nat) → list (option nat)
                    → list DMatrix → list DMatrix)
       (live : bool) (nodes : list (option MX.MXNode)) (inputv outputv : list nat)
       (f : MX.compiled) (st : MX.buffers DMatrix),
       MX.init live nodes inputv outputv = inr f →
       count_null nodes = length outputv →
       Forall (λ a, (a < length nodes)%nat) inputv →
       length (MX.output st) = length outputv →
       MX.free_vars_ f = [] →
       ∃ st', MX.evaluate dm_set dm_get evaluateD f st = (MX.algorithm_ f, inr st')
         ∧ st' = foldl (MX.exec dm_set dm_get evaluateD) st (MX.algorithm_ f)
         ∧ ∀ k, (k < length outputv)%nat →
             ∃ pre e post,
               MX.algorithm_ f = pre ++ e :: post ∧ mx_stores k e
               ∧ Forall (λ e', ¬ mx_stores k e') post
               ∧ MX.output st' !! k
                 = Some (dm_get
                           (MX.work_ (foldl (MX.exec dm_set dm_get evaluateD) st pre)
                              !!! MX.front (MX.arg e))
                           (MX.output (foldl (MX.exec dm_set dm_get evaluateD) st pre) !!! k))).
Proof.
  split; [|split; [|split; [|split; [|split]]]].
  - intros. apply sx_evaluate_gate.
  - intros. apply mx_evaluate_gate.
  - intros D inh live nodes inputv outputv f. apply sx_init_outputs.
  - intros live nodes inputv outputv f. apply mx_init_outputs.
  - intros D inh casadi_math_fun live nodes inputv outputv f st.
    apply sx_evaluate_outputs.
  - intros DMatrix inh dm_set dm_get evaluateD live nodes inputv outputv f st.
    apply mx_evaluate_outputs.
Qed.
(** * C2: the spill tape *)

Lemma filter_agree {A} (P Q : A → Prop) `{!∀ x, Decision (P x)} `{!∀ x, Decision (Q x)}
    (l : list A) :
  (∀ x, x ∈ l → P x ↔ Q x) → filter P l = filter Q l.
Proof.
  induction l as [|x l IH]; intros Hl; [done|].
  rewrite !filter_cons.
  rewrite IH by (intros y Hy; apply Hl; by apply list_elem_of_further).
  pose proof (Hl x (list_elem_of_here _ _)) as Hx.
  destruct (decide (P x)), (decide (Q x)); tauto.
Qed.

(** The work slots a record stores its results into; an output
    instruction stores into none. *)
Definition written (it : MX.AlgEl) : list Z :=
  if bool_decide (MX.op it ≠ OP_OUTPUT) then filter (λ s, 0 ≤ s) (MX.res it) else [].

(** Every store of a run over the records [l], in the order they happen,
    each with the index of its record. *)
Definition stores_of (l : list (nat * MX.AlgEl)) : list (nat * Z) :=
  l ≫= λ ia, (λ s, (ia.1, s)) <$> written ia.2.

Definition stores (algorithm : list MX.AlgEl) : list (nat * Z) :=
  stores_of (indexed algorithm).

(** A store is an overwrite when an earlier store went to the same slot. *)
Definition overwrites (L : list (nat * Z)) : list (nat * Z) :=
  (filter (λ x : nat * (nat * Z), x.2.2 ∈ (take x.1 L).*2) (indexed L)).*2.

Definition slots_in_range (worksize : nat) (algorithm : list MX.AlgEl) : Prop :=
  Forall (λ it, MX.op it ≠ OP_OUTPUT →
                Forall (λ s, (Z.to_nat s < worksize)%nat) (MX.res it)) algorithm.

Lemma overwrites_snoc (L : list (nat * Z)) (x : nat * Z) :
  overwrites (L ++ [x]) = overwrites L ++ (if decide (x.2 ∈ L.*2) then [x] else []).
Proof.
  unfold overwrites. rewrite indexed_snoc, list.filter_app, fmap_app. f_equal.
  - f_equal. apply filter_agree. intros [j y] Hj. simpl.
    apply elem_of_indexed in Hj. apply lookup_lt_Some in Hj.
    by rewrite take_app_le by lia.
  - rewrite filter_cons, filter_nil. simpl. rewrite take_app_length.
    destruct (decide (x.2 ∈ L.*2)); done.
Qed.

Section SpillTape.

Context {MX : Type} `{!MX.MXOps MX}.

#[local] Existing Instance MX.MX_inhabited.

(** The marks of [in_use] are the slots stored to so far, and the tape
    holds the overwrites among the stores so far. *)
Definition tape_inv (worksize : nat) (L : list (nat * Z))
    (acc : list bool * list (nat * Z * MX)) : Prop :=
  length acc.1 = worksize
  ∧ (∀ s, 0 ≤ s → (Z.to_nat s < worksize)%nat → acc.1 !! Z.to_nat s = Some true ↔ s ∈ L.*2)
  ∧ acc.2.*1 = overwrites L.

Lemma spill_inv (worksize : nat) (L : list (nat * Z)) acc (i : nat) (s : Z) :
  tape_inv worksize L acc → 0 ≤ s → (Z.to_nat s < worksize)%nat →
  tape_inv worksize (L ++ [(i, s)]) (MX.spill i acc s).
Proof.
  intros (Hlen & Hmarks & Htape) Hs Hlt. destruct acc as [u t]. simpl in *.
  unfold MX.spill. rewrite bool_decide_eq_true_2 by done.
  assert (is_Some (u !! Z.to_nat s)) as [b Hb] by (apply lookup_lt_is_Some; lia).
  rewrite (list_lookup_total_correct _ _ _ Hb).
  unfold tape_inv. rewrite overwrites_snoc.
  destruct b; cbn [fst snd].
  - assert (s ∈ L.*2) as Hin by (by apply Hmarks).
    split; [done|]. split.
    + intros s' Hs' Hlt'. rewrite fmap_app, elem_of_app, Hmarks by done.
      simpl. rewrite list_elem_of_singleton. split; [tauto|].
      intros [?| ->]; done.
    + simpl. rewrite fmap_app, Htape. simpl.
      destruct (decide (s ∈ L.*2)); done.
  - assert (s ∉ L.*2) as Hin.
    { intros Hin. apply Hmarks in Hin; [|done..]. congruence. }
    split; [by rewrite length_insert|]. split.
    + intros s' Hs' Hlt'. rewrite fmap_app, elem_of_app. simpl.
      rewrite list_elem_of_singleton.
      destruct (decide (s' = s)) as [->|Hne].
      * rewrite list_lookup_insert_eq by lia. tauto.
      * rewrite list_lookup_insert_ne by lia. rewrite Hmarks by done. tauto.
    + simpl. rewrite Htape. destruct (decide (s ∈ L.*2)); [done|].
      by rewrite app_nil_r.
Qed.

Lemma spill_fold_inv (worksize : nat) (i : nat) (rs : list Z) :
  ∀ L acc,
    tape_inv worksize L acc →
    Forall (λ s, (Z.to_nat s < worksize)%nat) rs →
    tape_inv worksize (L ++ ((λ s, (i, s)) <$> filter (λ s, 0 ≤ s) rs))
             (foldl (MX.spill i) acc rs).
Proof.
  induction rs as [|s rs IH]; intros L acc Hinv Hrs.
  - simpl. by rewrite app_nil_r.
  - apply Forall_cons_1 in Hrs as [Hs Hrs]. cbn [foldl]. rewrite filter_cons.
    destruct (decide (0 ≤ s)) as [Hnn|Hneg].
    + rewrite fmap_cons, cons_middle, app_assoc. apply IH; [|done].
      by apply spill_inv.
    + replace (MX.spill i acc s) with acc; [by apply IH|].
      unfold MX.spill. destruct acc. by rewrite bool_decide_eq_false_2.
Qed.

Lemma spill_record_inv (worksize : nat) (l : list (nat * MX.AlgEl)) :
  ∀ L acc,
    tape_inv worksize L acc →
    slots_in_range worksize l.*2 →
    tape_inv worksize (L ++ stores_of l) (foldl MX.spill_record acc l).
Proof.
  induction l as [|[i it] l IH]; intros L acc Hinv Hl.
  - simpl. by rewrite app_nil_r.
  - rewrite fmap_cons in Hl. apply Forall_cons_1 in Hl as [Hit Hl].
    cbn [foldl]. unfold stores_of. rewrite bind_cons. fold (stores_of l).
    rewrite app_assoc. apply IH; [|done].
    unfold MX.spill_record, written. simpl in *. case_bool_decide.
    + apply spill_fold_inv; auto.
    + by rewrite app_nil_r.
Qed.

Lemma indexed_snd {A} (l : list A) : (indexed l).*2 = l.
Proof. unfold indexed. apply snd_zip. rewrite length_seq. lia. Qed.

Lemma indexed_fst {A} (l : list A) : (indexed l).*1 = seq 0 (length l).
Proof. unfold indexed. apply fst_zip. rewrite length_seq. lia. Qed.

Lemma allocTape_overwrites (algorithm : list MX.AlgEl) (worksize : nat) :
  slots_in_range worksize algorithm →
  (MX.allocTape algorithm worksize).*1 = overwrites (stores algorithm).
Proof.
  intros Hr. unfold MX.allocTape, stores.
  destruct (spill_record_inv worksize (indexed algorithm) []
              (replicate worksize false, [])) as (_ & _ & Htape); [| |exact Htape].
  - unfold tape_inv. cbn [fst snd]. split; [by rewrite length_replicate|]. split; [|done].
    intros s Hs Hlt. rewrite lookup_replicate. split.
    + intros [? _]. done.
    + intros Hin. by apply elem_of_nil in Hin.
  - by rewrite indexed_snd.
Qed.

(** What the results [rs] of one record add to the tape, and the marks
    they leave. *)
Fixpoint spilled (in_use : list bool) (rs : list Z) : list Z :=
  match rs with
  | [] => []
  | s :: rs =>
      if bool_decide (0 ≤ s) then
        if (in_use !!! Z.to_nat s : bool) then s :: spilled in_use rs
        else spilled (<[Z.to_nat s := true]> in_use) rs
      else spilled in_use rs
  end.

Fixpoint marked (in_use : list bool) (rs : list Z) : list bool :=
  match rs with
  | [] => in_use
  | s :: rs =>
      if bool_decide (0 ≤ s) then
        if (in_use !!! Z.to_nat s : bool) then marked in_use rs
        else marked (<[Z.to_nat s := true]> in_use) rs
      else marked in_use rs
  end.

Definition record_spilled (in_use : list bool) (it : MX.AlgEl) : list Z :=
  if bool_decide (MX.op it ≠ OP_OUTPUT) then spilled in_use (MX.res it) else [].

Definition record_marked (in_use : list bool) (it : MX.AlgEl) : list bool :=
  if bool_decide (MX.op it ≠ OP_OUTPUT) then marked in_use (MX.res it) else in_use.

Definition placeholders (i : nat) (slots : list Z) : list (nat * Z * MX) :=
  (λ s, (i, s, MX.mx_null)) <$> slots.

Fixpoint entries (in_use : list bool) (l : list (nat * MX.AlgEl)) : list (nat * Z * MX) :=
  match l with
  | [] => []
  | ia :: l =>
      placeholders ia.1 (record_spilled in_use ia.2) ++ entries (record_marked in_use ia.2) l
  end.

Lemma spill_fold (i : nat) (rs : list Z) :
  ∀ u t, foldl (MX.spill i) (u, t) rs = (marked u rs, t ++ placeholders i (spilled u rs)).
Proof.
  induction rs as [|s rs IH]; intros u t; cbn [foldl spilled marked].
  - unfold placeholders. simpl. by rewrite app_nil_r.
  - unfold MX.spill at 2. case_bool_decide; [|apply IH].
    destruct (u !!! Z.to_nat s); rewrite IH; [|done].
    unfold placeholders. by rewrite fmap_cons, <-app_assoc.
Qed.

Lemma spill_records (l : list (nat * MX.AlgEl)) :
  ∀ u t, (foldl MX.spill_record (u, t) l).2 = t ++ entries u l.
Proof.
  induction l as [|[i it] l IH]; intros u t; cbn [foldl entries].
  - by rewrite app_nil_r.
  - unfold MX.spill_record at 2, record_spilled, record_marked. cbn [fst snd].
    case_bool_decide.
    + rewrite spill_fold, IH, app_assoc. done.
    + rewrite IH. unfold placeholders. simpl. done.
Qed.

Lemma spilled_sublist (rs : list Z) : ∀ u, spilled u rs `sublist_of` rs.
Proof.
  induction rs as [|s rs IH]; intros u; simpl; [done|].
  case_bool_decide; [destruct (u !!! Z.to_nat s)|].
  - by apply sublist_skip.
  - by apply sublist_cons.
  - by apply sublist_cons.
Qed.

Lemma spilled_nonneg (rs : list Z) : ∀ u, Forall (λ s, 0 ≤ s) (spilled u rs).
Proof.
  induction rs as [|s rs IH]; intros u; simpl; [done|].
  case_bool_decide; [destruct (u !!! Z.to_nat s)|]; auto.
Qed.

Lemma entries_indices (l : list (nat * MX.AlgEl)) :
  ∀ u e, e ∈ entries u l → e.1.1 ∈ l.*1.
Proof.
  induction l as [|[i it] l IH]; intros u e He; simpl in *.
  - by apply elem_of_nil in He.
  - apply elem_of_app in He as [He|He].
    + unfold placeholders in He. apply list_elem_of_fmap in He as (s & -> & _).
      simpl. apply list_elem_of_here.
    + apply list_elem_of_further. by eapply IH.
Qed.

(** The forward loop meets the entries of a record in the order
    [allocTape] laid them down. *)
Lemma capture_greedy (i : nat) (sw : list MX) (rest : list Z) :
  ∀ done pend later,
    pend `sublist_of` rest →
    Forall (λ s, 0 ≤ s) pend →
    Forall (λ e : nat * Z * MX, e.1.1 ≠ i) later →
    foldl (MX.capture i sw) (done ++ placeholders i pend ++ later, length done) rest
    = (done ++ ((λ s, (i, s, sw !!! Z.to_nat s)) <$> pend) ++ later,
       (length done + length pend)%nat).
Proof.
  induction rest as [|r rest IH]; intros done pend later Hsub Hnn Hlater.
  - apply sublist_nil_r in Hsub as ->. simpl. f_equal. lia.
  - cbn [foldl]. destruct pend as [|p pend].
    + replace (MX.capture i sw (done ++ placeholders i [] ++ later, length done) r)
        with (done ++ placeholders i [] ++ later, length done).
      { apply IH; [apply sublist_nil_l|done..]. }
      unfold MX.capture, placeholders. simpl.
      destruct later as [|e later].
      * rewrite app_nil_r. rewrite (bool_decide_eq_false_2 (_ < _)%nat) by lia.
        by rewrite andb_false_r.
      * rewrite list_lookup_total_middle by done.
        apply Forall_cons_1 in Hlater as [He _].
        rewrite (bool_decide_eq_false_2 (e.1 = (i, r))).
        { by rewrite andb_false_r. }
        intros Heq. apply He. by rewrite Heq.
    + apply Forall_cons_1 in Hnn as [Hp Hnn].
      unfold placeholders. rewrite fmap_cons. fold (placeholders i pend).
      destruct (decide (r = p)) as [->|Hne].
      * unfold MX.capture at 2. cbn [app].
        rewrite list_lookup_total_middle by done. cbn [fst].
        rewrite !bool_decide_eq_true_2; [|done| |done].
        2:{ rewrite length_app. simpl. lia. }
        cbn [andb]. rewrite insert_app_r_alt by lia.
        replace (length done - length done)%nat with 0%nat by lia. cbn [insert list_insert].
        rewrite (cons_middle _ done), app_assoc.
        replace (S (length done)) with (length (done ++ [(i, p, sw !!! Z.to_nat p)]))
          by (rewrite length_app; simpl; lia).
        rewrite IH; [|by eapply sublist_cons_r in Hsub as [Hsub|(l' & [= <-] & Hsub)];
                       [etrans; [apply sublist_cons, reflexivity|done]|]|done..].
        rewrite fmap_cons, <-app_assoc. simpl. f_equal.
        rewrite length_app. simpl. lia.
      * replace (MX.capture i sw (done ++ ((i, p, MX.mx_null) :: placeholders i pend) ++ later,
                                  length done) r)
          with (done ++ ((i, p, MX.mx_null) :: placeholders i pend) ++ later, length done).
        { change ((i, p, MX.mx_null) :: placeholders i pend) with (placeholders i (p :: pend)).
          apply IH; [|by apply Forall_cons|done].
          apply sublist_cons_r in Hsub as [Hsub|(l' & [= ? ?] & Hsub)]; [done|congruence]. }
        unfold MX.capture. cbn [app].
        rewrite list_lookup_total_middle by done. cbn [fst].
        rewrite (bool_decide_eq_false_2 ((i, p) = (i, r))) by congruence.
        by rewrite andb_false_r.
Qed.

Variable create : MX.MXNode → MX.
Variable getOutput : MX.MXNode → nat → MX.
Variable evaluateMX : MX.MXNode → MX.call → list (nat * Z * MX) → @MX.mem MX → @MX.mem MX.
Variable purgeSeeds :
  list (list MX.ptr) → list (list MX.ptr) → bool → @MX.mem MX →
  list (list MX.ptr) * list (list MX.ptr) * @MX.mem MX.
Variable purge_flag : bool.

Variable f : @MX.function MX.
Variables (og : bool) (nfdir nadir : nat) (arg_ : list MX) (fseed : list (list MX)).

Definition forward : MX.fwd_state → nat * MX.AlgEl → MX.fwd_state :=
  MX.forward create getOutput evaluateMX purgeSeeds purge_flag f og nfdir nadir arg_ fseed.

(** Past the capture at its head, a record leaves the tape and its
    counter alone. *)
Lemma forward_tape (st : MX.fwd_state) (ia : nat * MX.AlgEl) :
  (MX.fw_tape (forward st ia), MX.fw_tt (forward st ia))
  = MX.capture_record nadir ia.1 ia.2 (MX.swork (MX.fw_mem st)) (MX.fw_tape st, MX.fw_tt st).
Proof.
  destruct ia as [i it]. unfold forward, MX.forward. cbn [fst snd].
  destruct (MX.capture_record _ _ _ _ _) as [tape tt_].
  repeat case_bool_decide; try done.
  unfold MX.fwd_operation. cbn [MX.fw_tape MX.fw_tt MX.fw_mem MX.fw_calls].
  destruct (MX.data it); [|done].
  destruct (negb og || bool_decide (0 < nfdir)%nat); done.
Qed.

(** The state in which the forward loop reaches record [i]. *)
Definition reached (res : list MX) (fsens : list (list MX)) (i : nat) : MX.fwd_state :=
  foldl forward (MX.forward_start f nfdir res fsens) (take i (indexed (MX.f_algorithm_ f))).

Lemma forward_captures (l : list (nat * MX.AlgEl)) :
  ∀ u done st,
    (0 < nadir)%nat →
    NoDup l.*1 →
    MX.fw_tape st = done ++ entries u l →
    MX.fw_tt st = length done →
    ∃ new,
      MX.fw_tape (foldl forward st l) = done ++ new
      ∧ MX.fw_tt (foldl forward st l) = length (done ++ new)
      ∧ new.*1 = (entries u l).*1
      ∧ Forall (λ e : nat * Z * MX,
                  ∃ l1 it l2, l = l1 ++ (e.1.1, it) :: l2
                              ∧ e.2 = MX.swork (MX.fw_mem (foldl forward st l1))
                                        !!! Z.to_nat e.1.2) new.
Proof.
  induction l as [|[i it] l IH]; intros u done st Hnadir Hnd Htape Htt.
  - exists []. simpl in *. rewrite app_nil_r in *. done.
  - rewrite fmap_cons in Hnd. cbn [fst] in Hnd.
    pose proof (NoDup_cons_1_1 _ _ Hnd) as Hi. pose proof (NoDup_cons_1_2 _ _ Hnd) as Hnd'.
    cbn [foldl entries fst snd] in *.
    pose proof (forward_tape st (i, it)) as Hstep. cbn [fst snd] in Hstep.
    set (captured := (λ s, (i, s, MX.swork (MX.fw_mem st) !!! Z.to_nat s))
                       <$> record_spilled u it).
    assert (MX.capture_record nadir i it (MX.swork (MX.fw_mem st)) (MX.fw_tape st, MX.fw_tt st)
            = (done ++ captured ++ entries (record_marked u it) l,
               (length done + length (record_spilled u it))%nat)) as Hcap.
    { rewrite Htape, Htt. unfold MX.capture_record, record_spilled, captured.
      rewrite (bool_decide_eq_true_2 (0 < nadir)%nat) by done. cbn [andb].
      unfold record_spilled. case_bool_decide.
      - apply capture_greedy; [apply spilled_sublist|apply spilled_nonneg|].
        apply list.Forall_forall. intros e He Heq. apply entries_indices in He. by rewrite Heq in He.
      - unfold placeholders. simpl. f_equal. lia. }
    rewrite Hcap in Hstep.
    pose proof (f_equal fst Hstep) as Htape'. pose proof (f_equal snd Hstep) as Htt'.
    cbn [fst snd] in Htape', Htt'. clear Hstep.
    destruct (IH (record_marked u it) (done ++ captured) (forward st (i, it)))
      as (new & Hnew & Hntt & Hkeys & Hvals); [done|done| | |].
    { by rewrite Htape', app_assoc. }
    { rewrite Htt', length_app. unfold captured. by rewrite length_fmap. }
    exists (captured ++ new). rewrite app_assoc. split; [done|]. split; [done|]. split.
    + rewrite !fmap_app, Hkeys. f_equal. unfold captured, placeholders.
      rewrite <-!list_fmap_compose. done.
    + apply Forall_app. split.
      * apply list.Forall_forall. intros e He. unfold captured in He.
        apply list_elem_of_fmap in He as (s & -> & _).
        exists [], it, l. done.
      * eapply list.Forall_impl; [exact Hvals|]. intros e (l1 & it' & l2 & -> & Hv).
        exists ((i, it) :: l1), it', l2. done.
Qed.

Lemma spill_tape_captured (res : list MX) (fsens : list (list MX)) :
  (0 < nadir)%nat →
  let fw := MX.forward_pass create getOutput evaluateMX purgeSeeds purge_flag
                            f og nfdir nadir arg_ fseed res fsens in
  (MX.fw_tape fw).*1 = (MX.allocTape (MX.f_algorithm_ f) (MX.f_worksize f)).*1
  ∧ MX.fw_tt fw = length (MX.fw_tape fw)
  ∧ ∀ k i s v, MX.fw_tape fw !! k = Some (i, s, v) →
               v = MX.swork (MX.fw_mem (reached res fsens i)) !!! Z.to_nat s.
Proof.
  intros Hnadir fw. subst fw. unfold MX.forward_pass.
  change (MX.forward create getOutput evaluateMX purgeSeeds purge_flag
                     f og nfdir nadir arg_ fseed) with forward.
  destruct (forward_captures (indexed (MX.f_algorithm_ f))
              (replicate (MX.f_worksize f) false) []
              (MX.forward_start f nfdir res fsens))
    as (new & Hnew & Hntt & Hkeys & Hvals); [done| | |done|].
  { rewrite indexed_fst. apply NoDup_seq. }
  { unfold MX.forward_start, MX.allocTape. cbn [MX.fw_tape].
    by rewrite spill_records. }
  cbn [app] in Hnew, Hntt. split; [|split].
  - rewrite Hnew, Hkeys. unfold MX.allocTape. by rewrite spill_records.
  - by rewrite Hntt, Hnew.
  - intros k i s v Hk. rewrite Hnew in Hk.
    apply (Forall_lookup_1 _ _ _ _ Hvals) in Hk as (l1 & it & l2 & Hl & Hv).
    cbn [fst snd] in *. subst v. unfold reached. rewrite Hl.
    assert (length l1 = i) as <-.
    { assert (indexed (MX.f_algorithm_ f) !! length l1 = Some (i, it)) as Hlk
        by (rewrite Hl; by apply list_lookup_middle).
      rewrite indexed_lookup in Hlk.
      destruct (MX.f_algorithm_ f !! length l1); simpl in Hlk; congruence. }
    by rewrite take_app_length.
Qed.

End SpillTape.

#[local] Existing Instance MX.MX_inhabited.

(** C2, as amended.  Let every slot a record of the tape stores into lie
    inside the work vector.  The keys of the spill tape built by
    [allocTape] are then exactly the overwrites among the stores of the
    algorithm, in order: one entry for each store into a slot that an
    earlier record stored into, whether the reverse sweep reads the old
    value again or not, none for any other store, none for an output
    instruction.  When
    adjoint directions are requested, the forward pass of [evalMX] keeps
    these keys, fills every entry, and the expression an entry
    [(i, s)] ends up with is what slot [s] held when the loop reached
    record [i]. *)
Theorem spill_tape_records_overwrites {MX : Type} `{!MX.MXOps MX}
    (create : MX.MXNode → MX) (getOutput : MX.MXNode → nat → MX)
    (evaluateMX : MX.MXNode → MX.call → list (nat * Z * MX) → MX.mem → MX.mem)
    (purgeSeeds : list (list MX.ptr) → list (list MX.ptr) → bool → MX.mem →
                  list (list MX.ptr) * list (list MX.ptr) * MX.mem)
    (purge_flag : bool) (f : MX.function) (og : bool) (nfdir nadir : nat)
    (arg_ : list MX) (fseed : list (list MX)) (res : list MX) (fsens : list (list MX)) :
  slots_in_range (MX.f_worksize f) (MX.f_algorithm_ f) →
  (0 < nadir)%nat →
  let tape := MX.allocTape (MX.f_algorithm_ f) (MX.f_worksize f) in
  let fw := MX.forward_pass create getOutput evaluateMX purgeSeeds purge_flag
                            f og nfdir nadir arg_ fseed res fsens in
  tape.*1 = overwrites (stores (MX.f_algorithm_ f))
  ∧ (MX.fw_tape fw).*1 = tape.*1
  ∧ MX.fw_tt fw = length (MX.fw_tape fw)
  ∧ ∀ k i s v,
      MX.fw_tape fw !! k = Some (i, s, v) →
      v = MX.swork (MX.fw_mem (reached create getOutput evaluateMX purgeSeeds purge_flag
                                       f og nfdir nadir arg_ fseed res fsens i))
            !!! Z.to_nat s.
Proof.
  intros Hrange Hnadir tape fw. split.
  - by apply allocTape_overwrites.
  - by apply spill_tape_captured.
Qed.

Lemma spill_tape_records_overwrites_witness :
  let tape := MX.allocTape (MX.f_algorithm_ Toy.f) (MX.f_worksize Toy.f) in
  let fw := MX.forward_pass Toy.create Toy.getOutput Toy.evaluateMX Toy.purgeSeeds true
                            Toy.f false 0 1 [Toy.sym 10 "u"; Toy.sym 11 "v"] []
                            [MX.mx_null] [] in
  tape.*1 = overwrites (stores (MX.f_algorithm_ Toy.f))
  ∧ (MX.fw_tape fw).*1 = tape.*1
  ∧ MX.fw_tt fw = length (MX.fw_tape fw)
  ∧ ∀ k i s v,
      MX.fw_tape fw !! k = Some (i, s, v) →
      v = MX.swork (MX.fw_mem (reached Toy.create Toy.getOutput Toy.evaluateMX Toy.purgeSeeds
                                       true Toy.f false 0 1
                                       [Toy.sym 10 "u"; Toy.sym 11 "v"] []
                                       [MX.mx_null] [] i))
            !!! Z.to_nat s.
Proof.
  apply spill_tape_records_overwrites; [|lia].
  unfold slots_in_range.
  match goal with |- ?P => apply (bool_decide_eq_true_1 P) end.
  vm_compute. reflexivity.
Defined.

(** On the example the tape has the single key [(3, 0)]: the call stores
    its result into the slot that still holds the first input. *)
Example spill_tape_of_call :
  overwrites (stores (MX.f_algorithm_ Toy.f)) = [(3%nat, 0)]
  ∧ (MX.fw_tape (MX.forward_pass Toy.create Toy.getOutput Toy.evaluateMX Toy.purgeSeeds true
                                 Toy.f false 0 1 [Toy.sym 10 "u"; Toy.sym 11 "v"] []
                                 [MX.mx_null] []))
    = [(3%nat, 0, Toy.sym 10 "u")].
Proof. split; vm_compute; reflexivity. Qed.

(** *** An entry the reverse sweep never reads

    Of the reverse steps only that of an operation reads the symbolic work
    vector or the tape, through the pointers to its arguments and results
    (lines 975-1043); the steps of an input instruction, of an output
    instruction and of a parameter move adjoint seeds only (lines 953-973). *)
Definition reads_on_reverse (it : MX.AlgEl) (s : Z) : Prop :=
  MX.op it ≠ OP_INPUT ∧ MX.op it ≠ OP_OUTPUT ∧ MX.op it ≠ OP_PARAMETER
  ∧ (s ∈ MX.arg it ∨ s ∈ MX.res it).

(** What slot [s] held before record [i] stored into it is needed on the
    reverse sweep when the step of that record, or of a record before it,
    reads the slot. *)
Definition needed_on_reverse (algorithm : list MX.AlgEl) (i : nat) (s : Z) : Prop :=
  ∃ j it, (j ≤ i)%nat ∧ algorithm !! j = Some it ∧ reads_on_reverse it s.

(** [(a, b) ↦ (a, F(b))]: the first input is an output as it is, and the
    second input takes its slot over. *)
Definition pass_and_call : list (option MX.MXNode) :=
  [Some Toy.parameter; None; Some Toy.parameter; Some (Toy.operation OP_CALL [2%nat]); None].

Definition pass_and_call_f : MX.function :=
  Toy.function_of pass_and_call [0%nat; 2%nat] [0%nat; 3%nat].

(** The forward pass over [pass_and_call_f] for one adjoint direction, with
    the expression [v] put in place of what the entry of the tape
    captured. *)
Definition pass_and_call_fw (v : option Toy.mx) : MX.fwd_state :=
  let fw := MX.forward_pass Toy.create Toy.getOutput Toy.evaluateMX Toy.purgeSeeds true
              pass_and_call_f false 0 1 [Toy.sym 10 "u"; Toy.sym 11 "v"] []
              [MX.mx_null; MX.mx_null] [] in
  match v with
  | None => fw
  | Some v =>
      {| MX.fw_mem := MX.fw_mem fw; MX.fw_tape := (λ e, (e.1, v)) <$> MX.fw_tape fw;
         MX.fw_tt := MX.fw_tt fw; MX.fw_res := MX.fw_res fw; MX.fw_fsens := MX.fw_fsens fw;
         MX.fw_calls := MX.fw_calls fw |}
  end.

Definition pass_and_call_ad (v : option Toy.mx) : MX.adj_state :=
  MX.reverse_pass Toy.evaluateMX Toy.purgeSeeds true pass_and_call_f 1
    [[Toy.expr 20; Toy.expr 21]] [[MX.mx_null; MX.mx_null]] (pass_and_call_fw v).

(** C2 as stated fails: the tape of [pass_and_call_f] has the entry
    [(2, 0)], for the input instruction that loads the second input into
    the slot of the first, and the forward pass captures the first input
    in it; yet the records up to that one are input and output
    instructions, whose reverse steps read no slot, and the reverse sweep
    ends with the same adjoint sensitivities, the same adjoint work vector
    and the same kernel calls whatever expression the entry holds. *)
Lemma spill_entry_never_read :
  (MX.allocTape (MX.f_algorithm_ pass_and_call_f) (MX.f_worksize pass_and_call_f)).*1
  = [(2%nat, 0)]
  ∧ MX.fw_tape (pass_and_call_fw None) = [(2%nat, 0, Toy.sym 10 "u")]
  ∧ MX.op <$> take 3 (MX.f_algorithm_ pass_and_call_f) = [OP_INPUT; OP_OUTPUT; OP_INPUT]
  ∧ ¬ needed_on_reverse (MX.f_algorithm_ pass_and_call_f) 2 0
  ∧ ∀ v, MX.ad_asens (pass_and_call_ad (Some v)) = MX.ad_asens (pass_and_call_ad None)
         ∧ MX.dwork (MX.ad_mem (pass_and_call_ad (Some v)))
           = MX.dwork (MX.ad_mem (pass_and_call_ad None))
         ∧ MX.ad_calls (pass_and_call_ad (Some v)) = MX.ad_calls (pass_and_call_ad None).
Proof.
  split; [vm_compute; reflexivity|]. split; [vm_compute; reflexivity|].
  split; [vm_compute; reflexivity|]. split.
  - intros (j & it & Hj & Hit & Hi & Ho & _).
    destruct j as [|[|[|j]]]; [| | |lia]; vm_compute in Hit; inversion Hit; subst it;
      first [by apply Hi | by apply Ho].
  - intros v. split; [|split]; vm_compute; reflexivity.
Qed.
(** * The calls of the operator kernels in [evalMX] *)

Lemma mret_inr {A} (x y : A) : mret x = (inr y : result A) → x = y.
Proof. intros Hxy. by inversion Hxy. Qed.

(** A record of the tape that is handed to an operator kernel. *)
Definition operation (it : MX.AlgEl) : Prop :=
  MX.op it ≠ OP_INPUT ∧ MX.op it ≠ OP_OUTPUT ∧ MX.op it ≠ OP_PARAMETER ∧ is_Some (MX.data it).

#[global] Instance operation_dec (it : MX.AlgEl) : Decision (operation it).
Proof. unfold operation. apply _. Defined.

Definition operations (l : list (nat * MX.AlgEl)) : list (nat * MX.AlgEl) :=
  filter (λ ia, operation ia.2) l.

Lemma operations_cons (ia : nat * MX.AlgEl) (l : list (nat * MX.AlgEl)) :
  operations (ia :: l) = (if decide (operation ia.2) then [ia] else []) ++ operations l.
Proof. unfold operations. rewrite filter_cons. by destruct (decide (operation ia.2)). Qed.

Lemma operations_nil : operations [] = [].
Proof. done. Qed.

(** The derivative vectors assembled for a record, [ndir] directions. *)
Definition seeds_of (ptrs : list Z) (ndir : nat) : list (list MX.ptr) :=
  (λ d, MX.dir_ptr d <$> ptrs) <$> seq 0 ndir.

(** [v] is the entry of a call made for the record [ia] with [ndir]
    directions, on the forward sweep or on the reverse sweep. *)
Definition called_for (fwd : bool) (ndir : nat) (ia : nat * MX.AlgEl) (v : MX.invocation)
  : Prop :=
  MX.v_forward v = fwd
  ∧ MX.v_alg_counter v = ia.1
  ∧ MX.data ia.2 = Some (MX.v_data v)
  ∧ MX.v_seed_p v = seeds_of (if fwd then MX.arg ia.2 else MX.res ia.2) ndir
  ∧ MX.v_sens_p v = seeds_of (if fwd then MX.res ia.2 else MX.arg ia.2) ndir.

(** The derivative arguments of the sweep a call belongs to. *)
Definition derivative_args (v : MX.invocation) : list (list MX.ptr) * list (list MX.ptr) :=
  if MX.v_forward v then (MX.c_fwdSeed (MX.v_call v), MX.c_fwdSens (MX.v_call v))
  else (MX.c_adjSeed (MX.v_call v), MX.c_adjSens (MX.v_call v)).

(** The seeds of direction [d] are among those assembled for the call. *)
Definition assembles (d : nat) (v : MX.invocation) : Prop :=
  ∃ k, MX.Dwork k d ∈ concat (MX.v_seed_p v).

Section CallLog.

Context {MX : Type} `{!MX.MXOps MX}.

#[local] Existing Instance MX.MX_inhabited.

Variable create : MX.MXNode → MX.
Variable getOutput : MX.MXNode → nat → MX.
Variable evaluateMX : MX.MXNode → MX.call → list (nat * Z * MX) → @MX.mem MX → @MX.mem MX.
Variable purgeSeeds :
  list (list MX.ptr) → list (list MX.ptr) → bool → @MX.mem MX →
  list (list MX.ptr) * list (list MX.ptr) * @MX.mem MX.
Variable purge_flag : bool.
Variable f : @MX.function MX.

(** [v] is the entry of a call made for the record [ia] on the forward
    sweep, with [nfdir] directions. *)
Definition fwd_invocation (og : bool) (nfdir : nat) (ia : nat * MX.AlgEl)
    (v : MX.invocation) : Prop :=
  ∃ n input_p output_p tape m,
    MX.data ia.2 = Some n
    ∧ v = (MX.fwd_call evaluateMX purgeSeeds purge_flag ia.1 n input_p output_p
             (seeds_of (MX.arg ia.2) nfdir) (seeds_of (MX.res ia.2) nfdir) og tape m).2.

(** The same on the reverse sweep, with [nadir] directions. *)
Definition adj_invocation (nadir : nat) (ia : nat * MX.AlgEl) (v : MX.invocation) : Prop :=
  ∃ n input_p output_p tape m,
    MX.data ia.2 = Some n
    ∧ v = (MX.adj_call evaluateMX purgeSeeds purge_flag ia.1 n input_p output_p
             (seeds_of (MX.res ia.2) nadir) (seeds_of (MX.arg ia.2) nadir) tape m).2.

Section Forward.

Variables (og : bool) (nfdir nadir : nat) (arg_ : list MX) (fseed : list (list MX)).

Definition fwd_step : MX.fwd_state → nat * MX.AlgEl → MX.fwd_state :=
  MX.forward create getOutput evaluateMX purgeSeeds purge_flag f og nfdir nadir arg_ fseed.

Definition fwd_called (l : list (nat * MX.AlgEl)) : list (nat * MX.AlgEl) :=
  if negb og || bool_decide (0 < nfdir)%nat then operations l else [].

Lemma forward_calls (st : MX.fwd_state) (ia : nat * MX.AlgEl) :
  ∃ new, MX.fw_calls (fwd_step st ia) = MX.fw_calls st ++ new
         ∧ Forall2 (fwd_invocation og nfdir) (fwd_called [ia]) new.
Proof.
  destruct ia as [i it]. unfold fwd_step, MX.forward, fwd_called.
  rewrite operations_cons, operations_nil, app_nil_r. cbn [fst snd].
  destruct (MX.capture_record _ _ _ _ _) as [tape tt_].
  destruct (decide (operation it)) as [(Hi & Ho & Hp & [n Hn])|Hnop].
  - rewrite !bool_decide_eq_false_2 by done.
    unfold MX.fwd_operation. rewrite Hn. cbn [MX.fw_calls MX.fw_mem MX.fw_tape].
    destruct (negb og || bool_decide (0 < nfdir)%nat); cbn [MX.fw_calls].
    + eexists. split; [done|]. apply Forall2_cons; [|done].
      unfold fwd_invocation. cbn [fst snd]. do 5 eexists. split; [done|]. reflexivity.
    + exists []. by rewrite app_nil_r.
  - exists []. rewrite app_nil_r. split; [|by destruct (negb og || _)].
    repeat case_bool_decide; try done.
    unfold MX.fwd_operation. destruct (MX.data it) as [n|] eqn:Hn; [|done].
    exfalso. apply Hnop. unfold operation. rewrite Hn. eauto.
Qed.

Lemma forward_log (l : list (nat * MX.AlgEl)) :
  ∀ st, ∃ new, MX.fw_calls (foldl fwd_step st l) = MX.fw_calls st ++ new
               ∧ Forall2 (fwd_invocation og nfdir) (fwd_called l) new.
Proof.
  induction l as [|ia l IH]; intros st.
  - exists []. rewrite app_nil_r. split; [done|]. unfold fwd_called.
    rewrite operations_nil. by destruct (negb og || _).
  - cbn [foldl]. destruct (forward_calls st ia) as (new1 & Hc1 & Hf1).
    destruct (IH (fwd_step st ia)) as (new2 & Hc2 & Hf2).
    exists (new1 ++ new2). rewrite Hc2, Hc1, app_assoc. split; [done|].
    replace (fwd_called (ia :: l)) with (fwd_called [ia] ++ fwd_called l).
    { by apply Forall2_app. }
    unfold fwd_called. rewrite (operations_cons ia l), (operations_cons ia []).
    rewrite operations_nil, app_nil_r.
    by destruct (negb og || _).
Qed.

(** Without forward directions an output instruction leaves the forward
    sensitivities alone. *)
Lemma forward_fsens (st : MX.fwd_state) (ia : nat * MX.AlgEl) :
  nfdir = 0%nat → MX.fw_fsens (fwd_step st ia) = MX.fw_fsens st.
Proof.
  intros Hn. destruct ia as [i it]. unfold fwd_step, MX.forward.
  destruct (MX.capture_record _ _ _ _ _) as [tape tt_].
  repeat case_bool_decide; try done.
  - cbn [MX.fw_fsens]. by rewrite Hn.
  - unfold MX.fwd_operation. cbn [MX.fw_fsens MX.fw_mem MX.fw_calls MX.fw_tape].
    destruct (MX.data it); [|done]. by destruct (negb og || _).
Qed.

Lemma forward_fold_fsens (l : list (nat * MX.AlgEl)) :
  nfdir = 0%nat → ∀ st, MX.fw_fsens (foldl fwd_step st l) = MX.fw_fsens st.
Proof.
  intros Hn. induction l as [|ia l IH]; intros st; [done|].
  cbn [foldl]. by rewrite IH, forward_fsens.
Qed.

(** When the outputs are known, an output instruction leaves them alone. *)
Lemma forward_res (st : MX.fwd_state) (ia : nat * MX.AlgEl) :
  og = true → MX.fw_res (fwd_step st ia) = MX.fw_res st.
Proof.
  intros Hog. destruct ia as [i it]. unfold fwd_step, MX.forward.
  destruct (MX.capture_record _ _ _ _ _) as [tape tt_].
  repeat case_bool_decide; try done.
  - cbn [MX.fw_res]. by rewrite Hog.
  - unfold MX.fwd_operation. cbn [MX.fw_fsens MX.fw_mem MX.fw_calls MX.fw_tape].
    destruct (MX.data it); [|done]. by destruct (negb og || _).
Qed.

End Forward.

Section Reverse.

Variables (nadir : nat) (tape : list (nat * Z * MX)) (aseed : list (list MX)).

Definition adj_step : MX.adj_state → nat * MX.AlgEl → MX.adj_state :=
  MX.reverse_step evaluateMX purgeSeeds purge_flag f nadir tape aseed.

Lemma reverse_calls (st : MX.adj_state) (ia : nat * MX.AlgEl) :
  ∃ new, MX.ad_calls (adj_step st ia) = MX.ad_calls st ++ new
         ∧ Forall2 (adj_invocation nadir) (operations [ia]) new.
Proof.
  destruct ia as [i it]. unfold adj_step, MX.reverse_step.
  rewrite operations_cons, operations_nil, app_nil_r. cbn [fst snd].
  destruct (if bool_decide (MX.op it ≠ OP_OUTPUT) then _ else _) as [marks tt_].
  destruct (decide (operation it)) as [(Hi & Ho & Hp & [n Hn])|Hnop].
  - rewrite !(bool_decide_eq_false_2 (MX.op it = _)) by done. rewrite Hn.
    destruct (if bool_decide (MX.op it ≠ OP_OUTPUT) then _ else _) as [sw marks'].
    cbn [MX.ad_calls]. eexists. split; [done|]. apply Forall2_cons; [|done].
    unfold adj_invocation. cbn [fst snd]. do 5 eexists. split; [done|]. reflexivity.
  - exists []. rewrite app_nil_r. split; [|done].
    repeat case_bool_decide; try done;
      try (destruct (foldl (MX.restore tape) _ _); done).
    all: destruct (MX.data it) as [n|] eqn:Hn;
      [exfalso; apply Hnop; unfold operation; rewrite Hn; eauto|].
    all: try (destruct (foldl (MX.restore tape) _ _); done).
Qed.

Lemma reverse_log (l : list (nat * MX.AlgEl)) :
  ∀ st, ∃ new, MX.ad_calls (foldl adj_step st l) = MX.ad_calls st ++ new
               ∧ Forall2 (adj_invocation nadir) (operations l) new.
Proof.
  induction l as [|ia l IH]; intros st.
  - exists []. rewrite app_nil_r. done.
  - cbn [foldl]. destruct (reverse_calls st ia) as (new1 & Hc1 & Hf1).
    destruct (IH (adj_step st ia)) as (new2 & Hc2 & Hf2).
    exists (new1 ++ new2). rewrite Hc2, Hc1, app_assoc. split; [done|].
    rewrite (operations_cons ia l). rewrite (operations_cons ia []) in Hf1.
    rewrite operations_nil, app_nil_r in Hf1.
    by apply Forall2_app.
Qed.

End Reverse.

Lemma fwd_invocation_called (og : bool) (nfdir : nat) (ia : nat * MX.AlgEl)
    (v : MX.invocation) :
  fwd_invocation og nfdir ia v → called_for true nfdir ia v.
Proof.
  intros (n & ip & op & tape & m & Hn & ->). unfold called_for, MX.fwd_call.
  case_bool_decide; [destruct (purgeSeeds _ _ _ _) as [[sp ss] m1]|]; cbn; by rewrite Hn.
Qed.

Lemma adj_invocation_called (nadir : nat) (ia : nat * MX.AlgEl) (v : MX.invocation) :
  adj_invocation nadir ia v → called_for false nadir ia v.
Proof.
  intros (n & ip & op & tape & m & Hn & ->). unfold called_for, MX.adj_call.
  case_bool_decide; [destruct (purgeSeeds _ _ _ _) as [[sp ss] m1]|]; cbn; by rewrite Hn.
Qed.

(** ** What [purgeSeeds] decides for a call node *)

(** [purgeSeeds] keeps or drops a direction as a whole. *)
Definition lockstep : Prop :=
  ∀ seed sens fwd m,
    length (purgeSeeds seed sens fwd m).1.1 = length (purgeSeeds seed sens fwd m).1.2.

(** The kernel gets no derivative arguments when both purged vectors are
    empty, else the purged ones if the flag is set and the assembled ones
    if it is not. *)
Definition dispatched (v : MX.invocation) : Prop :=
  ∃ m, let r := (purgeSeeds (MX.v_seed_p v) (MX.v_sens_p v) (MX.v_forward v) m).1 in
       MX.v_purged v = Some r
       ∧ derivative_args v
         = if bool_decide (r.1 = [] ∧ r.2 = []) then (MX.dummy_p, MX.dummy_p)
           else if purge_flag then r
           else (MX.v_seed_p v, MX.v_sens_p v).

Lemma fwd_invocation_dispatched (og : bool) (nfdir : nat) (ia : nat * MX.AlgEl)
    (v : MX.invocation) :
  lockstep → fwd_invocation og nfdir ia v →
  MX.getOp (MX.v_data v) = Some OP_CALL → dispatched v.
Proof.
  intros Hl (n & ip & op & tape & m & Hn & ->). unfold MX.fwd_call, dispatched.
  case_bool_decide as Hop; [|done]. intros _.
  pose proof (Hl (seeds_of (MX.arg ia.2) nfdir) (seeds_of (MX.res ia.2) nfdir) true m) as Hlen.
  destruct (purgeSeeds _ _ _ _) as [[sp ss] m1] eqn:Hp. cbn in *.
  exists m. rewrite Hp. cbn. split; [done|]. unfold derivative_args. cbn.
  destruct sp as [|s1 sp], ss as [|s2 ss]; cbn in Hlen; try done.
  rewrite (bool_decide_eq_false_2 (_ ∧ _)) by (by intros [? ?]).
  cbn. by destruct purge_flag.
Qed.

Lemma adj_invocation_dispatched (nadir : nat) (ia : nat * MX.AlgEl) (v : MX.invocation) :
  adj_invocation nadir ia v →
  MX.getOp (MX.v_data v) = Some OP_CALL → dispatched v.
Proof.
  intros (n & ip & op & tape & m & Hn & ->). unfold MX.adj_call, dispatched.
  case_bool_decide as Hop; [|done]. intros _.
  destruct (purgeSeeds _ _ _ _) as [[sp ss] m1] eqn:Hp. cbn in *.
  exists m. rewrite Hp. cbn. split; [done|]. unfold derivative_args. cbn.
  destruct sp as [|s1 sp], ss as [|s2 ss]; try done.
  all: rewrite (bool_decide_eq_false_2 (_ ∧ _)) by (by intros [? ?]).
  all: cbn; by destruct purge_flag.
Qed.

(** ** The calls of one [evalMX] *)

(** The number of directions the loops run with. *)
Definition directions (seed : list (list MX)) : nat :=
  if MX.skip seed then 0%nat else length seed.

Lemma evalMX_calls (arg1 res1 : list MX) (fseed fsens aseed asens : list (list MX))
    (o : MX.outcome) :
  MX.evalMX create getOutput evaluateMX purgeSeeds purge_flag f
            arg1 res1 fseed fsens aseed asens = inr o →
  ∃ fnew anew,
    MX.calls o = fnew ++ anew
    ∧ Forall2 (fwd_invocation (MX.check_output_given arg1 (MX.f_inputv_ f)) (directions fseed))
              (fwd_called (MX.check_output_given arg1 (MX.f_inputv_ f)) (directions fseed)
                          (indexed (MX.f_algorithm_ f)))
              fnew
    ∧ Forall2 (adj_invocation (directions aseed))
              (if bool_decide (0 < directions aseed)%nat
               then operations (reverse (indexed (MX.f_algorithm_ f))) else [])
              anew.
Proof.
  unfold MX.evalMX. case_bool_decide; [done|]. cbv zeta.
  fold (directions fseed). fold (directions aseed).
  set (og := MX.check_output_given arg1 (MX.f_inputv_ f)).
  set (nfdir := directions fseed). set (nadir := directions aseed).
  destruct (og && bool_decide (nfdir = 0%nat) && bool_decide (nadir = 0%nat)) eqn:Hq.
  - intros <-%mret_inr. cbn [MX.calls]. exists [], []. split; [done|].
    apply andb_true_iff in Hq as [Hq Ha]. apply andb_true_iff in Hq as [Hog Hf].
    apply bool_decide_eq_true_1 in Ha, Hf. rewrite Hog, Hf, Ha.
    unfold fwd_called. cbn. split; constructor.
  - unfold MX.forward_pass, MX.reverse_pass.
    match goal with
    | |- context [foldl (MX.forward _ _ _ _ _ _ _ _ ?nd ?a _) ?st0 _] =>
        destruct (forward_log og nfdir nd a fseed (indexed (MX.f_algorithm_ f)) st0)
          as (fnew & Hfc & Hff)
    end.
    unfold fwd_step in Hfc. cbn [MX.fw_calls MX.forward_start app] in Hfc.
    destruct (bool_decide (0 < nadir)%nat) eqn:Hna.
    + intros <-%mret_inr. cbn [MX.calls].
      match goal with
      | |- context [foldl (MX.reverse_step _ _ _ _ _ ?tp _) ?st0 _] =>
          destruct (reverse_log nadir tp aseed (reverse (indexed (MX.f_algorithm_ f))) st0)
            as (anew & Hac & Haf)
      end.
      unfold adj_step in Hac. cbn [MX.ad_calls] in Hac.
      exists fnew, anew. rewrite Hac, Hfc. done.
    + intros <-%mret_inr. cbn [MX.calls]. exists fnew, []. rewrite Hfc, app_nil_r. done.
Qed.

End CallLog.

(** Let [purgeSeeds] keep or drop each direction as a whole.  In
    every call [evalMX] makes for a call node, on the forward sweep and on
    the reverse sweep alike, the vectors [purgeSeeds] returned for the
    assembled seeds and sensitivities decide the derivative arguments: none
    when both purged vectors are empty, else the purged vectors when the
    flag is set and the assembled ones when it is not. *)
Theorem call_kernel_gets_purged_directions {MX : Type} `{!MX.MXOps MX}
    (create : MX.MXNode → MX) (getOutput : MX.MXNode → nat → MX)
    (evaluateMX : MX.MXNode → MX.call → list (nat * Z * MX) → MX.mem → MX.mem)
    (purgeSeeds : list (list MX.ptr) → list (list MX.ptr) → bool → MX.mem →
                  list (list MX.ptr) * list (list MX.ptr) * MX.mem)
    (purge_flag : bool) (f : MX.function) (arg1 res1 : list MX)
    (fseed fsens aseed asens : list (list MX)) (o : MX.outcome) :
  lockstep purgeSeeds →
  MX.evalMX create getOutput evaluateMX purgeSeeds purge_flag f
            arg1 res1 fseed fsens aseed asens = inr o →
  Forall (λ v, MX.getOp (MX.v_data v) = Some OP_CALL → dispatched purgeSeeds purge_flag v)
         (MX.calls o).
Proof.
  intros Hl Ho.
  destruct (evalMX_calls _ _ _ _ _ _ _ _ _ _ _ _ _ Ho) as (fnew & anew & -> & Hf & Ha).
  apply Forall_app. split.
  - eapply Forall2_Forall_r; [exact Hf|]. apply list.Forall_forall.
    intros ia _ v Hv Hcall. by eapply fwd_invocation_dispatched.
  - eapply Forall2_Forall_r; [exact Ha|]. apply list.Forall_forall.
    intros ia _ v Hv Hcall. by eapply adj_invocation_dispatched.
Qed.

Lemma call_kernel_gets_purged_directions_witness :
  ∃ o, MX.evalMX Toy.create Toy.getOutput Toy.evaluateMX Toy.purgeSeeds true Toy.f
                 [Toy.sym 10 "u"; Toy.sym 11 "v"] []
                 [[Toy.expr 20; Toy.expr 21];
                  [MX.mx_sparse (2%nat, 1%nat); MX.mx_sparse (2%nat, 1%nat)]] []
                 [[Toy.expr 30]] [] = inr o
       ∧ Forall (λ v, MX.getOp (MX.v_data v) = Some OP_CALL →
                      dispatched Toy.purgeSeeds true v)
                (MX.calls o).
Proof.
  eexists. split; [vm_compute; reflexivity|].
  apply (call_kernel_gets_purged_directions Toy.create Toy.getOutput Toy.evaluateMX
           Toy.purgeSeeds true Toy.f
           [Toy.sym 10 "u"; Toy.sym 11 "v"] []
           [[Toy.expr 20; Toy.expr 21];
            [MX.mx_sparse (2%nat, 1%nat); MX.mx_sparse (2%nat, 1%nat)]] []
           [[Toy.expr 30]] []).
  - intros seed sens fwd m. unfold Toy.purgeSeeds. cbn [fst snd].
    by rewrite !length_fmap.
  - vm_compute. reflexivity.
Defined.

(** On the example the call node sits at record 3.  Of the two forward
    directions the second has empty seeds all along; the kernel of the
    call node is handed the first one only, and the one adjoint
    direction on the way back. *)
Example call_of_sum_dispatch :
  match MX.evalMX Toy.create Toy.getOutput Toy.evaluateMX Toy.purgeSeeds true Toy.f
                  [Toy.sym 10 "u"; Toy.sym 11 "v"] []
                  [[Toy.expr 20; Toy.expr 21];
                   [MX.mx_sparse (2%nat, 1%nat); MX.mx_sparse (2%nat, 1%nat)]] []
                  [[Toy.expr 30]] [] with
  | inr o => (λ v, (MX.v_alg_counter v, MX.v_forward v, derivative_args v))
             <$> filter (λ v, MX.getOp (MX.v_data v) = Some OP_CALL) (MX.calls o)
  | inl _ => []
  end
  = [(3%nat, true, ([[MX.Dwork 2 0]], [[MX.Dwork 0 0]]));
     (3%nat, false, ([[MX.Dwork 0 0]], [[MX.Dwork 2 0]]))].
Proof. vm_compute. reflexivity. Qed.

(** ** Skipping directions *)

(** No call of the sweep assembles the seeds of direction [d]. *)
Definition skipped {MX : Type} (fwd : bool) (d : nat) (o : @MX.outcome MX) : Prop :=
  ∀ v, v ∈ MX.calls o → MX.v_forward v = fwd → ¬ assembles d v.

Lemma seeds_of_none (ptrs : list Z) : seeds_of ptrs 0 = [].
Proof. done. Qed.

Section Outcome.

Context {MX : Type} `{!MX.MXOps MX}.

#[local] Existing Instance MX.MX_inhabited.

Variable create : MX.MXNode → MX.
Variable getOutput : MX.MXNode → nat → MX.
Variable evaluateMX : MX.MXNode → MX.call → list (nat * Z * MX) → @MX.mem MX → @MX.mem MX.
Variable purgeSeeds :
  list (list MX.ptr) → list (list MX.ptr) → bool → @MX.mem MX →
  list (list MX.ptr) * list (list MX.ptr) * @MX.mem MX.
Variable purge_flag : bool.
Variable f : @MX.function MX.

(** Structural zeros of the shapes [sp], one for each of [n] matrices. *)
Definition zeros (sp : list MX.Sparsity) (n : nat) : list MX :=
  (λ i, MX.mx_sparse (MX.sp_shape (sp !!! i))) <$> seq 0 n.

Lemma allocate_sens_skip (ndir n : nat) (sp : list MX.Sparsity) (sens : list (list MX)) :
  MX.allocate_sens true ndir n sp sens = replicate ndir (zeros sp n).
Proof.
  unfold MX.allocate_sens. erewrite const_fmap; [by rewrite length_resize|].
  intros i s _. cbn.
  rewrite (imap_seq_0 _ (λ i, MX.mx_sparse (MX.sp_shape (sp !!! i)))).
  by rewrite length_resize.
Qed.

Lemma evalMX_fsens_skip (arg1 res1 : list MX) (fseed fsens aseed asens : list (list MX))
    (o : MX.outcome) :
  MX.evalMX create getOutput evaluateMX purgeSeeds purge_flag f
            arg1 res1 fseed fsens aseed asens = inr o →
  MX.skip fseed = true →
  MX.fsens o = replicate (length fseed)
                         (zeros (MX.output_sp f) (length (MX.f_outputv_ f))).
Proof.
  intros Ho Hs. rewrite <-allocate_sens_skip with (sens := fsens).
  unfold MX.evalMX in Ho. case_bool_decide; [done|]. cbv zeta in Ho. rewrite Hs in Ho.
  destruct (_ && _ && _) in Ho; [by apply mret_inr in Ho as <-|].
  unfold MX.forward_pass in Ho.
  destruct (bool_decide (0 < _)%nat) in Ho; apply mret_inr in Ho as <-; cbn [MX.fsens].
  all: by rewrite (forward_fold_fsens create getOutput evaluateMX purgeSeeds purge_flag f).
Qed.

Lemma evalMX_asens_skip (arg1 res1 : list MX) (fseed fsens aseed asens : list (list MX))
    (o : MX.outcome) :
  MX.evalMX create getOutput evaluateMX purgeSeeds purge_flag f
            arg1 res1 fseed fsens aseed asens = inr o →
  MX.skip aseed = true →
  MX.asens o = replicate (length aseed)
                         (zeros (MX.input_sp f) (length (MX.f_inputv_ f))).
Proof.
  intros Ho Hs. rewrite <-allocate_sens_skip with (sens := asens).
  unfold MX.evalMX in Ho. case_bool_decide; [done|]. cbv zeta in Ho. rewrite Hs in Ho.
  destruct (_ && _ && _) in Ho; [by apply mret_inr in Ho as <-|].
  rewrite (bool_decide_eq_false_2 (0 < 0)%nat) in Ho by lia.
  by apply mret_inr in Ho as <-.
Qed.

(** ** Known outputs *)




End Outcome.

(** Skipping, as the code has it.  When every seed of every forward direction
    is structurally empty, no call on the forward sweep assembles the
    seeds of any direction, and every direction returns structural zeros
    of the shapes of the output buffers as its forward sensitivities.
    When every seed of every adjoint direction is structurally empty, no
    call is made on the reverse sweep and every direction returns
    structural zeros of the shapes of the input buffers. *)
Theorem all_empty_directions_skipped {MX : Type} `{!MX.MXOps MX}
    (create : MX.MXNode → MX) (getOutput : MX.MXNode → nat → MX)
    (evaluateMX : MX.MXNode → MX.call → list (nat * Z * MX) → MX.mem → MX.mem)
    (purgeSeeds : list (list MX.ptr) → list (list MX.ptr) → bool → MX.mem →
                  list (list MX.ptr) * list (list MX.ptr) * MX.mem)
    (purge_flag : bool) (f : MX.function) (arg1 res1 : list MX)
    (fseed fsens aseed asens : list (list MX)) (o : MX.outcome) :
  MX.evalMX create getOutput evaluateMX purgeSeeds purge_flag f
            arg1 res1 fseed fsens aseed asens = inr o →
  (MX.skip fseed = true →
   (∀ d, skipped true d o)
   ∧ MX.fsens o = replicate (length fseed)
                            (zeros (MX.output_sp f) (length (MX.f_outputv_ f))))
  ∧ (MX.skip aseed = true →
     (∀ v, v ∈ MX.calls o → MX.v_forward v = true)
     ∧ MX.asens o = replicate (length aseed)
                              (zeros (MX.input_sp f) (length (MX.f_inputv_ f)))).
Proof.
  intros Ho.
  destruct (evalMX_calls _ _ _ _ _ _ _ _ _ _ _ _ _ Ho) as (fnew & anew & Hc & Hf & Ha).
  split; intros Hs.
  - split; [|by eapply evalMX_fsens_skip].
    intros d v Hv Hfwd [k Hk]. rewrite Hc in Hv.
    unfold directions in Hf. rewrite Hs in Hf.
    apply elem_of_app in Hv as [Hv|Hv].
    + apply list_elem_of_lookup in Hv as [i Hv].
      destruct (Forall2_lookup_r _ _ _ _ _ Hf Hv) as (ia & _ & Hia).
      apply fwd_invocation_called in Hia as (_ & _ & _ & Hseed & _).
      rewrite Hseed, seeds_of_none in Hk. by apply elem_of_nil in Hk.
    + apply list_elem_of_lookup in Hv as [i Hv].
      destruct (Forall2_lookup_r _ _ _ _ _ Ha Hv) as (ia & _ & Hia).
      apply adj_invocation_called in Hia as (Hadj & _). congruence.
  - split; [|by eapply evalMX_asens_skip].
    intros v Hv. rewrite Hc in Hv.
    unfold directions in Ha. rewrite Hs in Ha.
    rewrite (bool_decide_eq_false_2 (0 < 0)%nat) in Ha by lia.
    apply Forall2_nil_inv_l in Ha as ->. rewrite app_nil_r in Hv.
    apply list_elem_of_lookup in Hv as [i Hv].
    destruct (Forall2_lookup_r _ _ _ _ _ Hf Hv) as (ia & _ & Hia).
    by apply fwd_invocation_called in Hia as (? & _).
Qed.

Lemma all_empty_directions_skipped_witness :
  ∃ o, MX.evalMX Toy.create Toy.getOutput Toy.evaluateMX Toy.purgeSeeds true Toy.f
                 [Toy.sym 10 "u"; Toy.sym 11 "v"] []
                 [[MX.mx_sparse (2%nat, 1%nat); MX.mx_sparse (2%nat, 1%nat)];
                  [MX.mx_sparse (2%nat, 1%nat); MX.mx_sparse (2%nat, 1%nat)]] []
                 [[MX.mx_sparse (2%nat, 1%nat)]] [] = inr o
       ∧ ((∀ d, skipped true d o)
          ∧ MX.fsens o = replicate 2 (zeros (MX.output_sp Toy.f)
                                            (length (MX.f_outputv_ Toy.f))))
       ∧ ((∀ v, v ∈ MX.calls o → MX.v_forward v = true)
          ∧ MX.asens o = replicate 1 (zeros (MX.input_sp Toy.f)
                                            (length (MX.f_inputv_ Toy.f)))).
Proof.
  eexists. split; [vm_compute; reflexivity|].
  match goal with
  | |- context [skipped true _ ?o] =>
      destruct (all_empty_directions_skipped Toy.create Toy.getOutput Toy.evaluateMX
                  Toy.purgeSeeds true Toy.f
                  [Toy.sym 10 "u"; Toy.sym 11 "v"] []
                  [[MX.mx_sparse (2%nat, 1%nat); MX.mx_sparse (2%nat, 1%nat)];
                   [MX.mx_sparse (2%nat, 1%nat); MX.mx_sparse (2%nat, 1%nat)]] []
                  [[MX.mx_sparse (2%nat, 1%nat)]] [] o) as [Hf Ha]
  end.
  - vm_compute. reflexivity.
  - split; [apply Hf|apply Ha]; reflexivity.
Defined.


(** ** The claims on the calls *)




(** * C4: known outputs *)

Section SXKnown.

Context {D E : Type} `{!Inhabited D} `{!SX.SXOps E}.

#[local] Existing Instance SX.E_inhabited.

Lemma sx_check_row_true (given declared : list E) :
  Forall2 (λ a x, SX.sx_isEqual a x 2 = true) given declared →
  SX.check_row given declared true = inr true.
Proof.
  intros Heq. unfold SX.check_row.
  assert (∀ i a, given !! i = Some a →
                 ∃ x, declared !! i = Some x ∧ SX.sx_isEqual a x 2 = true) as Hall.
  { intros i a Ha. destruct (Forall2_lookup_l _ _ _ _ _ Heq Ha) as (x & Hx & Hax). eauto. }
  clear Heq. induction given as [|a given IH] using rev_ind; [done|].
  rewrite indexed_snoc, foldlM_app. rewrite IH.
  - cbn. destruct (Hall (length given) a) as (x & Hx & Hax); [by apply list_lookup_middle|].
    unfold at_. rewrite Hx. cbn. by rewrite Hax.
  - intros i b Hb. apply Hall. by apply lookup_app_l_Some.
Qed.

Lemma sx_check_output_given_true (arg1 inputv : list (list E)) :
  Forall2 (Forall2 (λ a x, SX.sx_isEqual a x 2 = true)) arg1 inputv →
  SX.check_output_given arg1 inputv = inr true.
Proof.
  intros Heq. unfold SX.check_output_given.
  assert (∀ i a, arg1 !! i = Some a →
                 Forall2 (λ a x, SX.sx_isEqual a x 2 = true) a (inputv !!! i)) as Hall.
  { intros i a Ha. destruct (Forall2_lookup_l _ _ _ _ _ Heq Ha) as (x & Hx & Hax).
    by rewrite (list_lookup_total_correct _ _ _ Hx). }
  clear Heq. induction arg1 as [|a arg1 IH] using rev_ind; [done|].
  rewrite indexed_snoc, foldlM_app. rewrite IH.
  - cbn [mbind result_bind foldlM fst snd].
    rewrite sx_check_row_true by (apply Hall; by apply list_lookup_middle). done.
  - intros i b Hb. apply Hall. by apply lookup_app_l_Some.
Qed.





End SXKnown.

Section SXEqual.

Context {D E : Type} `{!Inhabited D} `{!SX.SXOps E}.

#[local] Existing Instance SX.E_inhabited.



End SXEqual.





(** The two examples called on their own inputs, with one forward and one
    adjoint direction: the stored outputs come back, the matrix layer
    calls its two kernels on the way forth and on the way back, and the
    scalar layer runs its two sweeps. *)
Example known_outputs_of_call :
  match MX.evalMX Toy.create Toy.getOutput Toy.evaluateMX Toy.purgeSeeds true Toy.f
                  (MX.f_inputv_ Toy.f) []
                  [[Toy.expr 20; Toy.expr 21]] [] [[Toy.expr 30]] [] with
  | inr o => Some (MX.res1 o, (λ v, (MX.v_alg_counter v, MX.v_forward v)) <$> MX.calls o)
  | inl _ => None
  end
  = Some (MX.f_outputv_ Toy.f,
          [(2%nat, true); (3%nat, true); (3%nat, false); (2%nat, false)]).
Proof. vm_compute. reflexivity. Qed.

Example known_outputs_of_square :
  match SX.evalSXsparse Toy.sx_f [[3; 4]] [[0]] [[[1; 0]]] [[[0]]] [[[1]]] [[[0; 0]]] with
  | inr o => Some (SX.res1 o, SX.sweeps o)
  | inl _ => None
  end
  = Some (SX.s_outputv_ Toy.sx_f, [SX.FwdSweep 0; SX.AdjSweep 0]).
Proof. vm_compute. reflexivity. Qed.
(** * Sparsity propagation in the scalar layer *)

Section SXSparsity.

Context {D : Type}.

(** The elements of the work vector a record reads on the forward sweep,
    and the one it writes. *)
Definition sp_reads (it : SX.AlgEl D) : list nat :=
  match SX.op it with
  | OP_CONST | OP_PARAMETER | OP_INPUT => []
  | OP_OUTPUT => [SX.i1 it]
  | _ => [SX.i1 it; SX.i2 it]
  end.

Definition sp_writes (it : SX.AlgEl D) : list nat :=
  match SX.op it with
  | OP_OUTPUT => []
  | _ => [SX.i0 it]
  end.

(** The elements whose content on entry the records of [algorithm] read:
    an element is live before a record if the record reads it, or if it is
    live after the record and the record does not write it. *)
Definition live_in (algorithm : list (SX.AlgEl D)) : gset nat :=
  foldr (λ it live, (live ∖ list_to_set (sp_writes it)) ∪ list_to_set (sp_reads it))
        ∅ algorithm.

(** ** The reverse sweep hands the work vector back cleared *)

Definition zero_outside (live : gset nat) (w : list Z) : Prop :=
  ∀ s x, w !! s = Some x → s ∉ live → x = 0.

Lemma zero_outside_insert (live live' : gset nat) (w : list Z) (i : nat) (x : Z) :
  zero_outside live w → live ∖ {[i]} ⊆ live' → (i ∉ live' → x = 0) →
  zero_outside live' (<[i := x]> w).
Proof.
  intros Hw Hsub Hx s y Hs Hl. destruct (decide (s = i)) as [->|Hne].
  - apply lookup_lt_Some in Hs as Hlt. rewrite length_insert in Hlt.
    rewrite list_lookup_insert_eq in Hs by done. simplify_eq. auto.
  - rewrite list_lookup_insert_ne in Hs by done. apply (Hw s y Hs). set_solver.
Qed.

Lemma sp_adj_clears (it : SX.AlgEl D) (live : gset nat) (st : SX.bvecs) :
  zero_outside live (SX.iwork st) →
  zero_outside ((live ∖ list_to_set (sp_writes it)) ∪ list_to_set (sp_reads it))
               (SX.iwork (SX.sp_adj st it)).
Proof.
  intros Hw. unfold SX.sp_adj, sp_writes, sp_reads.
  destruct (SX.op it); cbn [SX.iwork].
  1-2, 4: by (eapply zero_outside_insert; [exact Hw|set_solver|]).
  1: by (eapply zero_outside_insert; [exact Hw|set_solver|set_solver]).
  all: eapply (zero_outside_insert ((live ∖ {[SX.i0 it]}) ∪ {[SX.i1 it]}));
         [|set_solver|set_solver].
  all: eapply (zero_outside_insert (live ∖ {[SX.i0 it]})); [|set_solver|set_solver].
  all: by (eapply zero_outside_insert; [exact Hw|set_solver|]).
Qed.

Lemma sp_adj_fold_clears (algorithm : list (SX.AlgEl D)) (st : SX.bvecs) :
  zero_outside ∅ (SX.iwork st) →
  zero_outside (live_in algorithm) (SX.iwork (foldl SX.sp_adj st (reverse algorithm))).
Proof.
  intros Hw. induction algorithm as [|it l IH]; [done|].
  rewrite reverse_cons, foldl_app. cbn [foldl live_in foldr].
  by apply sp_adj_clears.
Qed.

(** ** The forward sweep does not read what the work vector held *)

Definition agree_on (live : gset nat) (w1 w2 : list Z) : Prop :=
  length w1 = length w2 ∧ ∀ s, s ∈ live → w1 !! s = w2 !! s.

Lemma agree_on_total (live : gset nat) (w1 w2 : list Z) (s : nat) :
  agree_on live w1 w2 → s ∈ live → w1 !!! s = w2 !!! s.
Proof. intros [_ Hw] Hs. rewrite !list_lookup_total_alt. by rewrite Hw. Qed.

Lemma agree_on_insert (live live' : gset nat) (w1 w2 : list Z) (i : nat) (x : Z) :
  agree_on live w1 w2 → live' ∖ {[i]} ⊆ live →
  agree_on live' (<[i := x]> w1) (<[i := x]> w2).
Proof.
  intros [Hlen Hw] Hsub. split; [by rewrite !length_insert|].
  intros s Hs. destruct (decide (s = i)) as [->|Hne].
  - destruct (decide (i < length w1)%nat).
    + rewrite !list_lookup_insert_eq by lia. done.
    + rewrite !list_insert_ge by lia. rewrite !lookup_ge_None_2 by lia. done.
  - rewrite !list_lookup_insert_ne by done. apply Hw. set_solver.
Qed.

Lemma sp_fwd_agrees (it : SX.AlgEl D) (live : gset nat) (st1 st2 : SX.bvecs) :
  agree_on ((live ∖ list_to_set (sp_writes it)) ∪ list_to_set (sp_reads it))
           (SX.iwork st1) (SX.iwork st2) →
  SX.sp_input st1 = SX.sp_input st2 →
  SX.sp_output st1 = SX.sp_output st2 →
  agree_on live (SX.iwork (SX.sp_fwd st1 it)) (SX.iwork (SX.sp_fwd st2 it))
  ∧ SX.sp_input (SX.sp_fwd st1 it) = SX.sp_input (SX.sp_fwd st2 it)
  ∧ SX.sp_output (SX.sp_fwd st1 it) = SX.sp_output (SX.sp_fwd st2 it).
Proof.
  intros Hw Hin Hout. unfold SX.sp_fwd. revert Hw. unfold sp_writes, sp_reads.
  destruct (SX.op it); cbn [SX.iwork SX.sp_input SX.sp_output]; intros Hw.
  all: rewrite ?Hin, ?Hout.
  all: try rewrite (agree_on_total _ _ _ (SX.i1 it) Hw) by set_solver.
  all: try rewrite (agree_on_total _ _ _ (SX.i2 it) Hw) by set_solver.
  all: split; [|done].
  all: try (eapply agree_on_insert; [exact Hw|set_solver]).
  all: destruct Hw as [Hlen Hw]; split; [done|]; intros s Hs; apply Hw; set_solver.
Qed.

Lemma sp_fwd_fold_agrees (algorithm : list (SX.AlgEl D)) :
  ∀ st1 st2,
    agree_on (live_in algorithm) (SX.iwork st1) (SX.iwork st2) →
    SX.sp_input st1 = SX.sp_input st2 →
    SX.sp_output st1 = SX.sp_output st2 →
    SX.sp_output (foldl SX.sp_fwd st1 algorithm) = SX.sp_output (foldl SX.sp_fwd st2 algorithm).
Proof.
  induction algorithm as [|it l IH]; intros st1 st2 Hw Hin Hout; [done|].
  cbn [foldl]. cbn [live_in foldr] in Hw.
  destruct (sp_fwd_agrees it _ st1 st2 Hw Hin Hout) as (Hw' & Hin' & Hout').
  by apply IH.
Qed.

End SXSparsity.

(** On a tape that writes every element of the work vector before it
    reads it, a backward sweep started on a cleared work vector ends on a
    cleared work vector; in particular [spInit] followed by the backward
    sweep does, whatever the work vector held. *)
Theorem reverse_sweep_clears_work {D : Type} (algorithm : list (SX.AlgEl D))
    (st : SX.bvecs) :
  live_in algorithm = ∅ →
  (Forall (λ x, x = 0) (SX.iwork st) →
   Forall (λ x, x = 0) (SX.iwork (SX.spEvaluate false algorithm st)))
  ∧ Forall (λ x, x = 0)
           (SX.iwork (SX.spEvaluate false algorithm
                        {| SX.iwork := SX.spInit false (SX.iwork st);
                           SX.sp_input := SX.sp_input st;
                           SX.sp_output := SX.sp_output st |})).
Proof.
  intros Hlive.
  assert (∀ st', Forall (λ x, x = 0) (SX.iwork st') →
                 Forall (λ x, x = 0) (SX.iwork (SX.spEvaluate false algorithm st'))) as Hz.
  { intros st' Hw. unfold SX.spEvaluate. cbn [negb].
    pose proof (sp_adj_fold_clears algorithm st') as Hc. rewrite Hlive in Hc.
    apply Forall_lookup_2. intros s x Hs. eapply Hc; [|exact Hs|set_solver].
    intros s' x' Hs' _. by apply (Forall_lookup_1 _ _ _ _ Hw Hs'). }
  split; [apply Hz|]. apply Hz. cbn [SX.iwork SX.spInit negb].
  by apply (Forall_replicate (λ x : Z, x = 0)).
Qed.

Lemma reverse_sweep_clears_work_witness :
  Forall (λ x, x = 0)
         (SX.iwork (SX.spEvaluate false (SX.s_algorithm_ Toy.sx_f)
                      {| SX.iwork := SX.spInit false [5; 6];
                         SX.sp_input := [[0; 0]];
                         SX.sp_output := [[3]] |})).
Proof.
  apply (reverse_sweep_clears_work (SX.s_algorithm_ Toy.sx_f)
           {| SX.iwork := [5; 6]; SX.sp_input := [[0; 0]]; SX.sp_output := [[3]] |}).
  vm_compute. reflexivity.
Defined.

(** On such a tape the outputs of a forward sweep do not depend on what
    the work vector held on entry. *)
Theorem forward_sweep_ignores_work {D : Type} (algorithm : list (SX.AlgEl D))
    (st : SX.bvecs) (iwork' : list Z) :
  live_in algorithm = ∅ →
  length iwork' = length (SX.iwork st) →
  SX.sp_output (SX.spEvaluate true algorithm
                  {| SX.iwork := iwork'; SX.sp_input := SX.sp_input st;
                     SX.sp_output := SX.sp_output st |})
  = SX.sp_output (SX.spEvaluate true algorithm st).
Proof.
  intros Hlive Hlen. unfold SX.spEvaluate. apply sp_fwd_fold_agrees; [|done..].
  rewrite Hlive. split; [done|]. intros s Hs. set_solver.
Qed.

Lemma forward_sweep_ignores_work_witness :
  SX.sp_output (SX.spEvaluate true (SX.s_algorithm_ Toy.sx_f)
                  {| SX.iwork := [7; 9]; SX.sp_input := [[1; 2]]; SX.sp_output := [[0]] |})
  = SX.sp_output (SX.spEvaluate true (SX.s_algorithm_ Toy.sx_f)
                    {| SX.iwork := [0; 0]; SX.sp_input := [[1; 2]];
                       SX.sp_output := [[0]] |}).
Proof.
  apply (forward_sweep_ignores_work (SX.s_algorithm_ Toy.sx_f)
           {| SX.iwork := [0; 0]; SX.sp_input := [[1; 2]]; SX.sp_output := [[0]] |}
           [7; 9]).
  - vm_compute. reflexivity.
  - reflexivity.
Defined.
(** * The checks at the head of the symbolic evaluators *)

Section MXChecks.

Context {MX : Type} `{!MX.MXOps MX}.

#[local] Existing Instance MX.MX_inhabited.

(** The loop that stops at the first mismatch computes the conjunction of
    the comparisons. *)
Lemma mx_check_output_given_spec (arg1 inputv : list MX) :
  MX.check_output_given arg1 inputv = true
  ↔ ∀ i a, arg1 !! i = Some a → MX.mx_isEqual a (inputv !!! i) 2 = true.
Proof.
  unfold MX.check_output_given.
  induction arg1 as [|a arg1 IH] using rev_ind.
  - split; [|done]. intros _ i a Ha. by rewrite lookup_nil in Ha.
  - rewrite indexed_snoc, foldl_app. cbn [foldl fst snd].
    destruct (foldl _ true (indexed arg1)) eqn:Hpre.
    + split.
      * intros Hlast i b Hb. apply lookup_app_Some in Hb as [Hb|[Hge Hb]].
        { by apply IH. }
        apply list_lookup_singleton_Some in Hb as [Hi ->].
        by replace i with (length arg1) by lia.
      * intros Hall. apply Hall. by apply list_lookup_middle.
    + split; [done|]. intros Hall. apply IH. intros i b Hb.
      apply Hall. by apply lookup_app_l_Some.
Qed.

End MXChecks.

#[local] Existing Instance MX.MX_inhabited.

(** [symbolicOutput] gives back the stored outputs exactly when every
    argument it is given equals, to depth 2, the stored input at its
    position; it does not ask for all the inputs, so an empty argument
    list gets the stored outputs.  Otherwise it returns what the base
    class returns. *)
Theorem symbolicOutput_of_stored_inputs {MX : Type} `{!MX.MXOps MX}
    (base : list MX → list MX) (f : MX.function) (arg : list MX) :
  (length arg ≤ length (MX.f_inputv_ f))%nat →
  MX.symbolicOutput base f arg
  = if bool_decide (Forall2 (λ a x, MX.mx_isEqual a x 2 = true)
                            arg (take (length arg) (MX.f_inputv_ f)))
    then MX.f_outputv_ f else base arg.
Proof.
  intros Hlen. unfold MX.symbolicOutput. cbv zeta.
  pose proof (mx_check_output_given_spec arg (MX.f_inputv_ f)) as Hspec.
  case_bool_decide as Heq.
  - rewrite (proj2 Hspec); [done|]. intros i a Ha.
    destruct (Forall2_lookup_l _ _ _ _ _ Heq Ha) as (x & Hx & Hax).
    apply lookup_take_Some in Hx as [Hx _].
    by rewrite (list_lookup_total_correct _ _ _ Hx).
  - destruct (MX.check_output_given arg (MX.f_inputv_ f)) eqn:Hog; [|done].
    exfalso. apply Heq. apply Forall2_same_length_lookup_2.
    + rewrite length_take. lia.
    + intros i a x Ha Hx. apply lookup_take_Some in Hx as [Hx _].
      rewrite <-(list_lookup_total_correct _ _ _ Hx). by apply Hspec.
Qed.

Lemma symbolicOutput_of_stored_inputs_witness :
  MX.symbolicOutput (λ _, []) Toy.f [] = MX.f_outputv_ Toy.f
  ∧ MX.symbolicOutput (λ _, []) Toy.f [Toy.sym 0 "a"] = MX.f_outputv_ Toy.f
  ∧ MX.symbolicOutput (λ _, []) Toy.f [Toy.sym 7 "a"] = [].
Proof.
  split; [|split].
  - rewrite (symbolicOutput_of_stored_inputs (λ _, []) Toy.f []); [done|cbn; lia].
  - rewrite (symbolicOutput_of_stored_inputs (λ _, []) Toy.f [Toy.sym 0 "a"]);
      [done|cbn; lia].
  - rewrite (symbolicOutput_of_stored_inputs (λ _, []) Toy.f [Toy.sym 7 "a"]);
      [done|cbn; lia].
Defined.

Section SXChecks.

Context {D E : Type} `{!Inhabited D} `{!SX.SXOps E}.

#[local] Existing Instance SX.E_inhabited.

Lemma sx_check_row_false (given declared : list E) :
  SX.check_row given declared false = inr false.
Proof.
  unfold SX.check_row. induction (indexed given) as [|it l IH]; [done|].
  cbn [foldlM]. cbn [mbind result_bind mret result_ret]. exact IH.
Qed.

Lemma sx_check_row_snoc (given declared : list E) (a : E) (og : bool) :
  SX.check_row (given ++ [a]) declared og
  = SX.check_row given declared og ≫= λ b : bool,
      if b then at_ declared (length given) ≫= λ x, mret (SX.sx_isEqual a x 2)
      else mret false.
Proof.
  unfold SX.check_row. rewrite indexed_snoc, foldlM_app.
  destruct (foldlM _ og (indexed given)) as [e|b]; [done|].
  cbn [mbind result_bind foldlM fst snd].
  destruct b; [|done]. by destruct (at_ declared (length given)).
Qed.

(** A row that fits its declared row is compared without a throw. *)
Lemma sx_check_row_fits (given declared : list E) (og : bool) :
  (length given ≤ length declared)%nat →
  ∃ b, SX.check_row given declared og = inr b.
Proof.
  induction given as [|a given IH] using rev_ind; intros Hlen.
  - by exists og.
  - rewrite length_app in Hlen. cbn in Hlen. rewrite sx_check_row_snoc.
    destruct IH as [b ->]; [lia|]. cbn [mbind result_bind].
    destruct b; [|by eexists].
    unfold at_. destruct (lookup_lt_is_Some_2 declared (length given)) as [x ->]; [lia|].
    by eexists.
Qed.

Lemma sx_check_row_throws (given declared : list E) (og : bool) (e : error) :
  SX.check_row given declared og = inl e →
  e = OUT_OF_RANGE ∧ (length declared < length given)%nat.
Proof.
  intros He. destruct (decide (length given ≤ length declared)%nat) as [Hle|Hgt].
  - destruct (sx_check_row_fits given declared og Hle) as [b Hb]. congruence.
  - split; [|lia]. clear Hgt. revert e He.
    induction given as [|a given IH] using rev_ind; intros e He; [done|].
    rewrite sx_check_row_snoc in He.
    destruct (SX.check_row given declared og) as [e'|b] eqn:Hpre.
    + cbn in He. simplify_eq. by apply IH.
    + cbn [mbind result_bind] in He. destruct b; [|done].
      unfold at_ in He. destruct (declared !! length given); cbn in He;
        [done|by inversion He].
Qed.

(** A row of which the declared row is an equal proper prefix throws. *)
Lemma sx_check_row_past_end (given declared : list E) :
  Forall2 (λ a x, SX.sx_isEqual a x 2 = true) (take (length declared) given) declared →
  (length declared < length given)%nat →
  SX.check_row given declared true = inl OUT_OF_RANGE.
Proof.
  intros Heq Hlt.
  rewrite <-(take_drop (length declared) given).
  destruct (drop (length declared) given) as [|a rest] eqn:Hdrop.
  { apply (f_equal length) in Hdrop. rewrite length_drop in Hdrop. cbn in Hdrop. lia. }
  pose proof (sx_check_row_true _ _ Heq) as Hpre.
  assert (length (take (length declared) given) = length declared) as Hlen
    by (rewrite length_take; lia).
  generalize dependent (take (length declared) given). intros pre Heq Hpre Hlen.
  assert (SX.check_row (pre ++ [a]) declared true = inl OUT_OF_RANGE) as Hone.
  { rewrite sx_check_row_snoc, Hpre. cbn [mbind result_bind].
    unfold at_. rewrite lookup_ge_None_2 by lia. done. }
  clear Hdrop. induction rest as [|b rest IH] using rev_ind; [done|].
  replace (pre ++ a :: rest ++ [b]) with ((pre ++ a :: rest) ++ [b])
    by (by rewrite <-app_assoc).
  rewrite sx_check_row_snoc, IH. done.
Qed.

Lemma sx_check_output_given_snoc (arg1 inputv : list (list E)) (a : list E) :
  SX.check_output_given (arg1 ++ [a]) inputv
  = SX.check_output_given arg1 inputv ≫= λ og : bool,
      if og then SX.check_row a (inputv !!! length arg1) og else mret false.
Proof.
  unfold SX.check_output_given. rewrite indexed_snoc, foldlM_app.
  destruct (foldlM _ true (indexed arg1)) as [e|b]; [done|].
  cbn [mbind result_bind foldlM fst snd].
  destruct b; [|done]. by destruct (SX.check_row a _ true).
Qed.

Lemma sx_check_output_given_throws (arg1 inputv : list (list E)) (e : error) :
  SX.check_output_given arg1 inputv = inl e →
  e = OUT_OF_RANGE
  ∧ ∃ i a, arg1 !! i = Some a ∧ (length (inputv !!! i) < length a)%nat.
Proof.
  revert e. induction arg1 as [|a arg1 IH] using rev_ind; intros e He; [done|].
  rewrite sx_check_output_given_snoc in He.
  destruct (SX.check_output_given arg1 inputv) as [e'|og] eqn:Hpre.
  - cbn in He. simplify_eq. destruct (IH e eq_refl) as (-> & i & b & Hb & Hlt).
    split; [done|]. exists i, b. split; [by apply lookup_app_l_Some|done].
  - cbn [mbind result_bind] in He. destruct og; [|done].
    apply sx_check_row_throws in He as [-> Hlt]. split; [done|].
    exists (length arg1), a. split; [by apply list_lookup_middle|done].
Qed.

Lemma sx_check_output_given_prefix (arg1 inputv : list (list E)) :
  (∀ i r, arg1 !! i = Some r →
          Forall2 (λ a x, SX.sx_isEqual a x 2 = true) r (inputv !!! i)) →
  SX.check_output_given arg1 inputv = inr true.
Proof.
  induction arg1 as [|a arg1 IH] using rev_ind; intros Hall; [done|].
  rewrite sx_check_output_given_snoc, IH.
  - cbn [mbind result_bind]. apply sx_check_row_true, Hall. by apply list_lookup_middle.
  - intros i r Hr. apply Hall. by apply lookup_app_l_Some.
Qed.

Lemma sx_check_output_given_error_stays (arg1 post inputv : list (list E)) (e : error) :
  SX.check_output_given arg1 inputv = inl e →
  SX.check_output_given (arg1 ++ post) inputv = inl e.
Proof.
  intros He. induction post as [|b post IH] using rev_ind; [by rewrite app_nil_r|].
  rewrite app_assoc, sx_check_output_given_snoc, IH. done.
Qed.

End SXChecks.

(** Given no more arguments than there are declared inputs (an argument
    past them is compared with [inputv_[i]] read past the end of
    [inputv_], an unchecked access), [evalSXsparse] of the scalar layer
    throws nothing but the [std::out_of_range] of the checked access
    [inputv_[i].at(j)], and only when some argument has more nonzeros than
    the input declared at its position.  It does throw when the
    arguments before are equal to the declared inputs and the declared
    input is an equal proper prefix of the argument. *)
Theorem evalSXsparse_throws_out_of_range {D E : Type} `{!Inhabited D} `{!SX.SXOps E}
    (f : SX.symbolic D E) (arg1 res1 : list (list E))
    (fseed fsens aseed asens : list (list (list E))) :
  (length arg1 ≤ length (SX.s_inputv_ f))%nat →
  (∀ e, SX.evalSXsparse f arg1 res1 fseed fsens aseed asens = inl e →
        e = OUT_OF_RANGE
        ∧ ∃ i a x, arg1 !! i = Some a ∧ SX.s_inputv_ f !! i = Some x
                   ∧ (length x < length a)%nat)
  ∧ (∀ pre a post x,
       arg1 = pre ++ a :: post →
       SX.s_inputv_ f !! length pre = Some x →
       (∀ i r, pre !! i = Some r →
               Forall2 (λ a x, SX.sx_isEqual a x 2 = true) r (SX.s_inputv_ f !!! i)) →
       Forall2 (λ a x, SX.sx_isEqual a x 2 = true) (take (length x) a) x →
       (length x < length a)%nat →
       SX.evalSXsparse f arg1 res1 fseed fsens aseed asens = inl OUT_OF_RANGE).
Proof.
  intros Hlen. split.
  - intros e He. unfold SX.evalSXsparse in He.
    destruct (SX.check_output_given arg1 (SX.s_inputv_ f)) as [e'|og] eqn:Hc; [|done].
    cbn in He. simplify_eq.
    apply sx_check_output_given_throws in Hc as (-> & i & a & Ha & Hlt). split; [done|].
    destruct (lookup_lt_is_Some_2 (SX.s_inputv_ f) i) as [x Hx].
    { apply lookup_lt_Some in Ha. lia. }
    exists i, a, x. by rewrite (list_lookup_total_correct _ _ _ Hx) in Hlt.
  - intros pre a post x -> Hx Hpre Heq Hlt. unfold SX.evalSXsparse.
    replace (pre ++ a :: post) with ((pre ++ [a]) ++ post) by (by rewrite <-app_assoc).
    rewrite (sx_check_output_given_error_stays _ _ _ OUT_OF_RANGE); [done|].
    rewrite sx_check_output_given_snoc, (sx_check_output_given_prefix _ _ Hpre).
    cbn [mbind result_bind]. rewrite (list_lookup_total_correct _ _ _ Hx).
    by apply sx_check_row_past_end.
Qed.

Lemma evalSXsparse_throws_out_of_range_witness :
  SX.evalSXsparse Toy.sx_f [[3; 4; 5]] [[0]] [] [] [] [] = inl OUT_OF_RANGE.
Proof.
  destruct (evalSXsparse_throws_out_of_range Toy.sx_f [[3; 4; 5]] [[0]] [] [] [] [])
    as [_ H]; [cbn; lia|].
  apply (H [] [3; 4; 5] [] [3; 4]); [done|done| | |cbn; lia].
  - intros i r Hr. by rewrite lookup_nil in Hr.
  - by repeat constructor.
Defined.
(** * Duplicate inputs in the constructor of the scalar layer *)

Lemma foldl_concat {A B} (f : A → B → A) (a : A) (ls : list (list B)) :
  foldl (λ st l, foldl f st l) a ls = foldl f a (concat ls).
Proof.
  revert a. induction ls as [|l ls IH]; intros a; [done|].
  cbn [foldl concat]. by rewrite foldl_app, IH.
Qed.

(** What the marking loop has seen after the elements [l]: an element is
    flagged when it was met before or carried a scratch field that was not
    cleared; every element met is left marked. *)
Lemma sx_mark_elements (l : list nat) (b : bool) (t : nat → Z) :
  ((foldl SX.mark_element (b, t) l).1 = true
   ↔ b = true ∨ ¬ NoDup l ∨ Exists (λ a, t a ≠ 0) l)
  ∧ ∀ a, (foldl SX.mark_element (b, t) l).2 a = if bool_decide (a ∈ l) then 1 else t a.
Proof.
  induction l as [|x l IH] using rev_ind.
  - cbn. split.
    + split; [by left|]. intros [?|[Hnd|Hex]]; [done| |].
      * exfalso. apply Hnd. constructor.
      * by apply Exists_nil in Hex.
    + intros a. rewrite bool_decide_eq_false_2; [done|]. by intros ?%elem_of_nil.
  - rewrite foldl_app. cbn [foldl]. destruct IH as [Hflag Htemp].
    unfold SX.mark_element at 1 3. cbn [fst snd]. split.
    + split.
      * intros [Hb|Hx]%orb_true_iff.
        -- apply Hflag in Hb as [?|[Hnd|Hex]]; [by left| |].
           ++ right. left. intros [? _]%list.NoDup_app. done.
           ++ right. right. apply list.Exists_app. by left.
        -- apply bool_decide_eq_true in Hx. rewrite Htemp in Hx.
           case_bool_decide as Hin.
           ++ right. left. intros (_ & Hd & _)%list.NoDup_app.
              apply (Hd x Hin). by apply list_elem_of_singleton.
           ++ right. right. apply list.Exists_app. right. by apply Exists_cons_hd.
      * intros Hc. apply orb_true_iff.
        destruct (decide (x ∈ l)) as [Hin|Hout].
        { right. apply bool_decide_eq_true. rewrite Htemp.
          by rewrite bool_decide_eq_true_2. }
        destruct Hc as [Hb|[Hnd|Hex]].
        -- left. apply Hflag. by left.
        -- destruct (decide (NoDup l)) as [Hl|Hl].
           ++ exfalso. apply Hnd. apply list.NoDup_app. split; [done|].
              split; [|apply list.NoDup_singleton].
              intros y Hy ->%list_elem_of_singleton. done.
           ++ left. apply Hflag. right. by left.
        -- apply list.Exists_app in Hex as [Hex|Hex].
           ++ left. apply Hflag. right. by right.
           ++ right. apply bool_decide_eq_true. rewrite Htemp.
              rewrite bool_decide_eq_false_2 by done.
              apply Exists_cons in Hex as [Hex|Hex]; [done|by apply Exists_nil in Hex].
    + intros a. unfold insert, fn_insert.
      destruct (decide (x = a)) as [->|Hne].
      * rewrite bool_decide_eq_true_2; [done|]. apply elem_of_app. right.
        by apply list_elem_of_singleton.
      * rewrite Htemp. apply (f_equal (λ c : bool, if c then 1 else t a)), bool_decide_ext.
        rewrite elem_of_app, list_elem_of_singleton. naive_solver.
Qed.

Lemma sx_reset_elements (l : list nat) (t : nat → Z) :
  ∀ a, foldl (λ t a, <[a := 0]> t) t l a = if bool_decide (a ∈ l) then 0 else t a.
Proof.
  induction l as [|x l IH] using rev_ind; intros a.
  - rewrite bool_decide_eq_false_2; [done|]. by intros ?%elem_of_nil.
  - rewrite foldl_app. cbn [foldl]. unfold insert, fn_insert.
    destruct (decide (x = a)) as [->|Hne].
    + rewrite bool_decide_eq_true_2; [done|]. apply elem_of_app. right.
      by apply list_elem_of_singleton.
    + rewrite IH. apply (f_equal (λ b : bool, if b then 0 else t a)), bool_decide_ext.
      rewrite elem_of_app, list_elem_of_singleton. naive_solver.
Qed.

(** The constructor of the scalar layer reports dependent inputs exactly
    when an element occurs twice among the inputs or the scratch field of
    an input element was not cleared on entry.  When it returns, it has
    stored the expressions as given, the scratch field of every input
    element is cleared and no other scratch field has changed. *)
Theorem sx_constructor_duplicates (inputv outputv : list (list nat)) (temp : nat → Z) :
  (SX.SXFunctionInternal_new inputv outputv temp = inl DUPLICATE_INPUT
   ↔ ¬ NoDup (concat inputv) ∨ Exists (λ a, temp a ≠ 0) (concat inputv))
  ∧ ∀ this temp',
      SX.SXFunctionInternal_new inputv outputv temp = inr (this, temp') →
      this = {| SX.inputv_ := inputv; SX.outputv_ := outputv |}
      ∧ ∀ a, temp' a = if bool_decide (a ∈ concat inputv) then 0 else temp a.
Proof.
  unfold SX.SXFunctionInternal_new, SX.XFunctionInternal_new, SX.mark_inputs, SX.reset_inputs.
  cbn [SX.inputv_ SX.outputv_]. rewrite !foldl_concat.
  destruct (sx_mark_elements (concat inputv) false temp) as [Hflag Htemp].
  destruct (foldl SX.mark_element (false, temp) (concat inputv)) as [dup t1].
  cbn [fst snd] in *. split.
  - destruct dup.
    + split; [|done]. intros _. destruct (proj1 Hflag eq_refl) as [?|?]; done.
    + split.
      * intros Hr. by case_bool_decide.
      * intros Hd. exfalso. assert (false = true); [|done]. apply Hflag. by right.
  - intros this temp' Hr. destruct dup; [done|].
    case_bool_decide; [done|]. inversion Hr; subst. split; [done|].
    intros a. rewrite (foldl_concat (λ (t : nat → Z) (a : nat), <[a := 0]> t)).
    rewrite sx_reset_elements, Htemp.
    by case_bool_decide.
Qed.

Example sx_constructor_rejects_repeated_element :
  SX.SXFunctionInternal_new [[0%nat; 1%nat]; [1%nat]] [[3%nat]] (λ _, 0)
  = inl DUPLICATE_INPUT.
Proof. vm_compute. reflexivity. Qed.
(** * The scalar layer computes the expressions it was compiled from *)

Lemma foldlM_fmap {A B C} (f : A → B → result A) (g : C → B) (a : A) (l : list C) :
  foldlM f a (g <$> l) = foldlM (λ a c, f a (g c)) a l.
Proof.
  revert a. induction l as [|c l IH]; intros a; [done|].
  cbn [fmap list_fmap foldlM]. destruct (f a (g c)) as [e|a']; [done|]. cbn. apply IH.
Qed.

Lemma ndeps_le (o : Operation) : (ndeps o ≤ 2)%nat.
Proof. destruct o; cbn; lia. Qed.

(** The number of times [j] occurs in [l]. *)
Definition occurrences (j : nat) (l : list nat) : nat :=
  length (filter (λ c, c = j) l).

Lemma occurrences_app (j : nat) (l1 l2 : list nat) :
  occurrences j (l1 ++ l2) = (occurrences j l1 + occurrences j l2)%nat.
Proof. unfold occurrences. by rewrite list.filter_app, length_app. Qed.

Lemma occurrences_cons (j c : nat) (l : list nat) :
  occurrences j (c :: l) = ((if decide (c = j) then 1 else 0) + occurrences j l)%nat.
Proof. unfold occurrences. rewrite filter_cons. by destruct (decide (c = j)). Qed.

Lemma occurrences_reverse (j : nat) (l : list nat) :
  occurrences j (reverse l) = occurrences j l.
Proof.
  induction l as [|c l IH]; [done|].
  rewrite reverse_cons, occurrences_app, IH, !occurrences_cons. cbn. lia.
Qed.

Lemma occurrences_pos (j : nat) (l : list nat) : j ∈ l ↔ (0 < occurrences j l)%nat.
Proof.
  induction l as [|c l IH].
  - split; [by intros ?%elem_of_nil|cbn; lia].
  - rewrite occurrences_cons, elem_of_cons, IH. destruct (decide (c = j)); naive_solver lia.
Qed.

Section SXCount.

Context {D : Type} `{!Inhabited D}.

(** The operands of an instruction, as the two loops of [init] walk
    them: [i1] for the first, [i2] for the second. *)
Definition children (e : SX.AlgEl D) : list nat :=
  SX.child e <$> seq 0 (ndeps (SX.op e)).

(** The number of operand positions of the instructions [l] that name
    the node [j]. *)
Definition uses (l : list (SX.AlgEl D)) (j : nat) : nat :=
  occurrences j (l ≫= children).

Lemma uses_app (l1 l2 : list (SX.AlgEl D)) (j : nat) :
  uses (l1 ++ l2) j = (uses l1 j + uses l2 j)%nat.
Proof. unfold uses. by rewrite bind_app, occurrences_app. Qed.

Lemma uses_cons (e : SX.AlgEl D) (l : list (SX.AlgEl D)) (j : nat) :
  uses (e :: l) j = (occurrences j (children e) + uses l j)%nat.
Proof. unfold uses. by rewrite bind_cons, occurrences_app. Qed.

(** ** Counting the references (lines 428-434) *)

Definition count_one (rc : list Z) (c : nat) : result (list Z) :=
  v ← at_ rc c; mret (<[c := v + 1]> rc).

Lemma count_one_spec (rc rc' : list Z) (c : nat) :
  count_one rc c = inr rc' →
  (c < length rc)%nat ∧ length rc' = length rc
  ∧ ∀ j, (j < length rc)%nat →
         rc' !!! j = rc !!! j + Z.of_nat (if decide (c = j) then 1 else 0).
Proof.
  unfold count_one, at_. destruct (rc !! c) as [v|] eqn:Hc; cbn; [|done].
  intros Hr. inversion Hr; subst rc'; clear Hr.
  apply lookup_lt_Some in Hc as Hlt. split; [done|]. split; [by rewrite length_insert|].
  intros j Hj. destruct (decide (c = j)) as [->|Hne].
  - rewrite list_lookup_total_insert_eq by done.
    rewrite (list_lookup_total_correct _ _ _ Hc). lia.
  - rewrite list_lookup_total_insert_ne by done. lia.
Qed.

Lemma count_many_spec (cs : list nat) :
  ∀ rc rc', foldlM count_one rc cs = inr rc' →
            Forall (λ c, (c < length rc)%nat) cs ∧ length rc' = length rc
            ∧ ∀ j, (j < length rc)%nat → rc' !!! j = rc !!! j + Z.of_nat (occurrences j cs).
Proof.
  induction cs as [|c cs IH]; intros rc rc' Hr.
  - inversion Hr; subst. split; [done|]. split; [done|]. intros j _. cbn. lia.
  - cbn [foldlM] in Hr. destruct (count_one rc c) as [e|rc1] eqn:H1; [done|].
    cbn in Hr. apply count_one_spec in H1 as (Hc & Hlen1 & Hv1).
    apply IH in Hr as (Hcs & Hlen & Hv). rewrite Hlen1 in *.
    split; [by constructor|]. split; [done|].
    intros j Hj. rewrite Hv, Hv1, occurrences_cons by done.
    destruct (decide (c = j)); lia.
Qed.

Lemma count_children_spec (e : SX.AlgEl D) (rc rc' : list Z) :
  SX.count_children e rc = inr rc' →
  Forall (λ c, (c < length rc)%nat) (children e) ∧ length rc' = length rc
  ∧ ∀ j, (j < length rc)%nat →
         rc' !!! j = rc !!! j + Z.of_nat (occurrences j (children e)).
Proof.
  intros Hr. apply count_many_spec. unfold children. rewrite foldlM_fmap. exact Hr.
Qed.

Lemma count_many_returns (cs : list nat) :
  ∀ rc, Forall (λ c, (c < length rc)%nat) cs → ∃ rc', foldlM count_one rc cs = inr rc'.
Proof.
  induction cs as [|c cs IH]; intros rc Hcs; [by eexists|].
  apply Forall_cons_1 in Hcs as [Hc Hcs]. cbn [foldlM].
  assert (∃ rc1, count_one rc c = inr rc1 ∧ length rc1 = length rc) as (rc1 & -> & Hl).
  { unfold count_one, at_. destruct (lookup_lt_is_Some_2 rc c Hc) as [v Hv].
    rewrite Hv. cbn. eexists. split; [done|]. by rewrite length_insert. }
  cbn [mbind result_bind]. apply IH. by rewrite Hl.
Qed.

Lemma count_children_returns (e : SX.AlgEl D) (rc : list Z) :
  Forall (λ c, (c < length rc)%nat) (children e) → ∃ rc', SX.count_children e rc = inr rc'.
Proof.
  intros Hcs. destruct (count_many_returns _ rc Hcs) as [rc' Hrc']. exists rc'.
  unfold children in Hrc'. rewrite foldlM_fmap in Hrc'. exact Hrc'.
Qed.

End SXCount.

(** ** The instruction sequence of the first loop *)

Lemma count_null_snoc {A} (l : list (option A)) (x : option A) :
  count_null (l ++ [x]) = (count_null l + (if bool_decide (x = None) then 1 else 0))%nat.
Proof.
  unfold count_null. rewrite list.filter_app, length_app. f_equal.
  destruct x; [by rewrite filter_cons_False|by rewrite filter_cons_True].
Qed.

Lemma concat_length_nonzeros (ls : list (list nat)) :
  length (concat ls) = sum_list_with length ls.
Proof. induction ls as [|l ls IH]; [done|]. cbn. rewrite length_app, IH. done. Qed.

(** The nonzeros of all outputs in one row: the nonzero [nz] of the
    output [o] is found after those of the outputs before [o]. *)
Lemma concat_lookup_nonzero (outputv : list (list nat)) (o nz t : nat) (x : list nat) :
  outputv !! o = Some x → x !! nz = Some t →
  concat outputv !! (nonzeros_before outputv o + nz)%nat = Some t.
Proof.
  intros Ho Hnz.
  replace (concat outputv) with (concat (take o outputv) ++ x ++ concat (drop (S o) outputv))
    by (by rewrite <- concat_cons, <- concat_app, take_drop_middle).
  unfold nonzeros_before.
  rewrite lookup_app_r by (rewrite concat_length_nonzeros; lia).
  rewrite concat_length_nonzeros.
  replace (_ + nz - _)%nat with nz by lia.
  by apply lookup_app_l_Some.
Qed.

Lemma lookup_singleton_inv {A} (x y : A) (i : nat) :
  [x] !! i = Some y → i = 0%nat ∧ y = x.
Proof. destruct i as [|i]; cbn; intros Hi; [by inversion Hi|by destruct i]. Qed.

Section SXBuild.

Context {D : Type} `{!Inhabited D}.

(** The cursor of the first loop stands on a nonzero, or past the last
    output. *)
Definition cursor_ok (outputv : list (list nat)) (st : SX.build_state D) : Prop :=
  (SX.b_curr_oind st ≤ length outputv)%nat
  ∧ ((SX.b_curr_oind st < length outputv)%nat →
     (SX.b_curr_nz st < length (outputv !!! SX.b_curr_oind st))%nat).

(** What [emit] appends for the node [n] at position [idx]. *)
Lemma emit_record (outputv : list (list nat)) (st st' : SX.build_state D)
    (idx : nat) (n : option (SX.SXNode D)) :
  SX.emit outputv st (idx, n) = inr st' →
  (∀ nd, n = Some nd → SX.getOp nd ≠ OP_OUTPUT) →
  cursor_ok outputv st →
  ∃ ae,
    SX.b_algorithm st' = SX.b_algorithm st ++ [ae]
    ∧ SX.count_children ae (SX.b_refcount st) = inr (SX.b_refcount st')
    ∧ SX.b_symb_loc st'
      = SX.b_symb_loc st ++ (if bool_decide (SX.op ae = OP_PARAMETER)
                             then [(length (SX.b_algorithm st), idx)] else [])
    ∧ cursor_ok outputv st'
    ∧ match n with
      | Some nd =>
          SX.op ae = SX.getOp nd ∧ SX.i0 ae = idx
          ∧ (SX.getOp nd = OP_CONST → SX.d ae = SX.getValue nd)
          ∧ (SX.is_builtin (SX.getOp nd) = true →
             SX.i1 ae = SX.dep0 nd ∧ SX.i2 ae = SX.dep1 nd)
          ∧ sx_offset outputv st' = sx_offset outputv st
      | None =>
          SX.op ae = OP_OUTPUT
          ∧ concat outputv !! sx_offset outputv st = Some (SX.i1 ae)
          ∧ (outputv !!! SX.i0 ae) !! SX.i2 ae = Some (SX.i1 ae)
          ∧ sx_offset outputv st' = S (sx_offset outputv st)
      end.
Proof.
  intros Hemit Hnd [Hle Hnz]. unfold SX.emit in Hemit. destruct n as [nd|].
  - specialize (Hnd nd eq_refl). cbn [from_option] in Hemit.
    destruct (SX.getOp nd) eqn:Ho; [| |done|..];
      cbn [mbind result_bind mret result_ret] in Hemit;
      (destruct (SX.count_children _ (SX.b_refcount st)) as [err|rc] eqn:Hc;
         cbn in Hemit; [done|]);
      inversion Hemit; subst st'; clear Hemit;
      (eexists; split; [reflexivity|]; split; [exact Hc|]);
      cbn; rewrite ?app_nil_r; done.
  - cbn [from_option mbind result_bind mret result_ret] in Hemit.
    destruct (at_ (outputv !!! SX.b_curr_oind st) (SX.b_curr_nz st)) as [err|t] eqn:Hat;
      cbn [mbind result_bind mret result_ret] in Hemit; [done|].
    unfold at_ in Hat. destruct (_ !! SX.b_curr_nz st) as [t'|] eqn:Hl; [|done].
    inversion Hat; subst t'; clear Hat.
    apply lookup_lt_Some in Hl as Hlt.
    assert (∃ x, outputv !! SX.b_curr_oind st = Some x) as [x Hx].
    { destruct (outputv !! SX.b_curr_oind st) as [x|] eqn:Hx; [by eexists|].
      rewrite list_lookup_total_alt, Hx in Hlt. simpl in Hlt. lia. }
    rewrite (list_lookup_total_correct _ _ _ Hx) in *.
    apply lookup_lt_Some in Hx as Hbound.
    case_bool_decide as Hend; cbn [mbind result_bind mret result_ret] in Hemit;
      (destruct (SX.count_children _ (SX.b_refcount st)) as [err|rc] eqn:Hc;
         cbn in Hemit; [done|]);
      inversion Hemit; subst st'; clear Hemit;
      (eexists; split; [reflexivity|]; split; [exact Hc|]);
      cbn; rewrite ?app_nil_r; (split; [done|]).
    + destruct (skip_empty_spec (drop (S (SX.b_curr_oind st)) outputv)
                                (S (SX.b_curr_oind st)))
        as (m & Hskip & Hm & Hempty & Hnext).
      rewrite length_drop in Hm. unfold cursor_ok, sx_offset. cbn. rewrite Hskip.
      split; [split; [lia|]|].
      * intros Hin. destruct Hnext as (y & Hy & Hne); [rewrite length_drop; lia|].
        rewrite lookup_drop in Hy. rewrite (list_lookup_total_correct _ _ _ Hy).
        destruct y; [done|simpl; lia].
      * split; [done|]. split; [by apply concat_lookup_nonzero with x|].
        rewrite (list_lookup_total_correct _ _ _ Hx). split; [done|].
        pose proof (nonzeros_before_skip outputv (S (SX.b_curr_oind st)) m Hempty) as Hs.
        pose proof (nonzeros_before_S _ _ _ Hx) as HS.
        unfold nonzeros_before in *. lia.
    + unfold cursor_ok, sx_offset. cbn.
      rewrite (list_lookup_total_correct _ _ _ Hx).
      split; [split; [done|lia]|].
      split; [done|]. split; [by apply concat_lookup_nonzero with x|].
      split; [done|]. unfold nonzeros_before. lia.
Qed.

(** What the first loop stores in the record for the node at position
    [k]: a node gives its operation, its own position and the positions of
    its dependencies; an output sentinel gives the next nonzero of the
    outputs, taken in order. *)
Definition record_of (nodes : list (option (SX.SXNode D))) (outputv : list (list nat))
    (k : nat) (e : SX.AlgEl D) : Prop :=
  match nodes !! k with
  | Some (Some nd) =>
      SX.op e = SX.getOp nd ∧ SX.i0 e = k
      ∧ (SX.getOp nd = OP_CONST → SX.d e = SX.getValue nd)
      ∧ (SX.is_builtin (SX.getOp nd) = true →
         SX.i1 e = SX.dep0 nd ∧ SX.i2 e = SX.dep1 nd)
  | Some None =>
      SX.op e = OP_OUTPUT
      ∧ concat outputv !! count_null (take k nodes) = Some (SX.i1 e)
      ∧ (outputv !!! SX.i0 e) !! SX.i2 e = Some (SX.i1 e)
  | None => False
  end.

Lemma record_of_snoc (nodes : list (option (SX.SXNode D))) (n : option (SX.SXNode D))
    (outputv : list (list nat)) (k : nat) (e : SX.AlgEl D) :
  (k < length nodes)%nat → record_of nodes outputv k e →
  record_of (nodes ++ [n]) outputv k e.
Proof.
  intros Hk. unfold record_of.
  rewrite lookup_app_l by done. rewrite take_app_le by lia. done.
Qed.

Record built (N : nat) (nodes : list (option (SX.SXNode D))) (outputv : list (list nat))
    (st : SX.build_state D) : Prop := {
  built_length : length (SX.b_algorithm st) = length nodes;
  built_record : ∀ k e, SX.b_algorithm st !! k = Some e → record_of nodes outputv k e;
  built_refcount_length : length (SX.b_refcount st) = N;
  built_refcount : ∀ j, (j < N)%nat →
                        SX.b_refcount st !!! j = Z.of_nat (uses (SX.b_algorithm st) j);
  built_children : ∀ k e c, SX.b_algorithm st !! k = Some e → c ∈ children e → (c < N)%nat;
  built_symb : ∀ j a, (j, a) ∈ SX.b_symb_loc st
                      ↔ j = a ∧ ∃ e, SX.b_algorithm st !! a = Some e
                                     ∧ SX.op e = OP_PARAMETER;
  built_cursor : cursor_ok outputv st;
  built_offset : sx_offset outputv st = count_null nodes;
}.

Lemma build_prefix (N : nat) (outputv : list (list nat))
    (pre : list (option (SX.SXNode D))) :
  ∀ st,
    (∀ nd, Some nd ∈ pre → SX.getOp nd ≠ OP_OUTPUT) →
    foldlM (SX.emit outputv)
           {| SX.b_algorithm := []; SX.b_symb_loc := [];
              SX.b_curr_oind := SX.first_output outputv; SX.b_curr_nz := 0;
              SX.b_refcount := replicate N 0 |}
           (indexed pre) = inr st →
    built N pre outputv st.
Proof.
  induction pre as [|n pre IH] using rev_ind; intros st Hops Hfold.
  - inversion Hfold; subst st; clear Hfold.
    destruct (skip_empty_spec outputv 0) as (m0 & Hfirst & Hm0 & Hempty0 & Hnext0).
    split; cbn.
    + done.
    + intros k e Hk. by rewrite lookup_nil in Hk.
    + by rewrite length_replicate.
    + intros j Hj. by rewrite lookup_total_replicate_2.
    + intros k e c Hk. by rewrite lookup_nil in Hk.
    + intros j a. split; [by intros ?%elem_of_nil|].
      intros (_ & e & He & _). by rewrite lookup_nil in He.
    + unfold cursor_ok, SX.first_output. cbn. rewrite Hfirst. cbn. split; [lia|].
      intros Hlt. destruct (Hnext0 Hlt) as (y & Hy & Hne).
      rewrite (list_lookup_total_correct _ _ _ Hy). destruct y; [done|simpl; lia].
    + unfold sx_offset, SX.first_output. cbn. rewrite Hfirst. cbn.
      pose proof (nonzeros_before_skip outputv 0 m0) as Hs. rewrite drop_0 in Hs.
      cbn in Hs. rewrite (Hs Hempty0). unfold nonzeros_before. cbn. done.
  - rewrite indexed_snoc, foldlM_app in Hfold.
    destruct (foldlM _ _ (indexed pre)) as [err|mid] eqn:Hmid;
      cbn [mbind result_bind] in Hfold; [done|].
    cbn [foldlM] in Hfold.
    destruct (SX.emit outputv mid (length pre, n)) as [err|st1] eqn:Hemit;
      cbn [mbind result_bind] in Hfold; [done|].
    inversion Hfold; subst st1; clear Hfold.
    specialize (IH mid). destruct IH as [Hlen Hrec Hrl Hrc Hch Hsy Hcur Hoff].
    { intros nd Hnd. apply Hops. apply elem_of_app. by left. }
    { done. }
    apply emit_record in Hemit as (ae & Halg & Hcount & Hsymb & Hcur' & Hn); [| |done].
    2:{ intros nd ->. apply Hops. apply elem_of_app. right. apply list_elem_of_here. }
    apply count_children_spec in Hcount as (Hcs & Hrl' & Hrc').
    rewrite Hrl in *.
    split.
    + rewrite Halg, !length_app, Hlen. done.
    + intros k e Hk. rewrite Halg in Hk.
      apply lookup_app_Some in Hk as [Hk|[Hge Hk]].
      * apply record_of_snoc; [|by apply Hrec]. rewrite <- Hlen. by eapply lookup_lt_Some.
      * destruct (lookup_singleton_inv _ _ _ Hk) as [Hk0 ->].
        assert (k = length pre) as -> by lia.
        unfold record_of. rewrite list_lookup_middle by done.
        rewrite take_app_length. destruct n as [nd|].
        -- destruct Hn as (? & ? & ? & ? & ?). done.
        -- destruct Hn as (? & ? & ? & ?). rewrite <- Hoff. done.
    + done.
    + intros j Hj. rewrite Hrc' by done. rewrite Hrc by done.
      rewrite Halg, uses_app, (uses_cons ae []). unfold uses at 3. cbn. lia.
    + intros k e c Hk Hc. rewrite Halg in Hk.
      apply lookup_app_Some in Hk as [Hk|[Hge Hk]]; [by eapply Hch|].
      destruct (lookup_singleton_inv _ _ _ Hk) as [Hk0 ->].
      rewrite list.Forall_forall in Hcs. by apply Hcs.
    + intros j a. rewrite Hsymb, Halg, elem_of_app, Hsy. split.
      * intros [(-> & e & He & Hop)|Hin].
        -- split; [done|]. exists e. split; [by apply lookup_app_l_Some|done].
        -- case_bool_decide as Hpar; [|by apply elem_of_nil in Hin].
           apply list_elem_of_singleton in Hin. inversion Hin; subst j a. rewrite Hlen.
           split; [done|]. exists ae. split; [|done].
           rewrite <- Hlen. by apply list_lookup_middle.
      * intros (-> & e & He & Hop).
        apply lookup_app_Some in He as [He|[Hge He]]; [left; eauto|].
        destruct (lookup_singleton_inv _ _ _ He) as [Hk0 ->].
        right. rewrite bool_decide_eq_true_2 by done.
        assert (a = length (SX.b_algorithm mid)) as -> by lia.
        rewrite Hlen. apply list_elem_of_here.
    + done.
    + rewrite count_null_snoc. destruct n as [nd|].
      * destruct Hn as (? & ? & ? & ? & ->). rewrite Hoff.
        rewrite bool_decide_eq_false_2 by done. lia.
      * destruct Hn as (? & ? & ? & ->). rewrite Hoff.
        rewrite bool_decide_eq_true_2 by done. lia.
Qed.

(** [emit] returns when the cursor has an output nonzero left for a
    sentinel and the record's operands are positions of the node list. *)
Definition deps_below (N : nat) (nd : SX.SXNode D) : Prop :=
  SX.getOp nd ≠ OP_OUTPUT
  ∧ ((0 < ndeps (SX.getOp nd))%nat → (SX.dep0 nd < N)%nat)
  ∧ ((1 < ndeps (SX.getOp nd))%nat → (SX.dep1 nd < N)%nat).

Lemma emit_returns (outputv : list (list nat)) (st : SX.build_state D)
    (idx : nat) (n : option (SX.SXNode D)) :
  cursor_ok outputv st →
  match n with
  | Some nd => deps_below (length (SX.b_refcount st)) nd
  | None =>
      ∃ t, concat outputv !! sx_offset outputv st = Some t
           ∧ (t < length (SX.b_refcount st))%nat
  end →
  ∃ st', SX.emit outputv st (idx, n) = inr st'.
Proof.
  intros [Hle Hnz] Hn. unfold SX.emit. destruct n as [nd|]; cbn [from_option].
  - destruct Hn as (Hop & Hdep0 & Hdep1).
    assert (∀ ae : SX.AlgEl D,
              SX.op ae = SX.getOp nd →
              (ndeps (SX.op ae) = 0%nat ∨ SX.i1 ae = SX.dep0 nd) →
              (ndeps (SX.op ae) ≤ 1 ∨ SX.i2 ae = SX.dep1 nd)%nat →
              ∃ rc, SX.count_children ae (SX.b_refcount st) = inr rc) as Hcount.
    { intros ae Hae H1 H2. apply count_children_returns. unfold children.
      pose proof (ndeps_le (SX.op ae)) as Hle2. rewrite <- Hae in Hdep0, Hdep1.
      destruct (ndeps (SX.op ae)) as [|[|[|k]]]; [done| | |lia].
      - cbn. constructor; [|done].
        change (SX.i1 ae < length (SX.b_refcount st))%nat.
        destruct H1 as [Hz|Heq]; [done|]. rewrite Heq. apply Hdep0. lia.
      - cbn. constructor; [|constructor; [|done]].
        + change (SX.i1 ae < length (SX.b_refcount st))%nat.
          destruct H1 as [Hz|Heq]; [done|]. rewrite Heq. apply Hdep0. lia.
        + change (SX.i2 ae < length (SX.b_refcount st))%nat.
          destruct H2 as [Hz|Heq]; [lia|]. rewrite Heq. apply Hdep1. lia. }
    destruct (SX.getOp nd) eqn:Ho; [| |done|..];
      cbn [mbind result_bind mret result_ret];
      match goal with
      | |- ∃ st', (SX.count_children ?ae _ ≫= _) = _ =>
          destruct (Hcount ae) as [rc Hrc];
            [done|cbn; first [by left|by right|left; lia|right; lia]..
            |rewrite Hrc; cbn; by eexists]
      end.
  - destruct Hn as (t & Ht & HtN). cbn [mbind result_bind mret result_ret].
    assert (SX.b_curr_oind st < length outputv)%nat as Hin.
    { destruct (decide (SX.b_curr_oind st < length outputv)%nat) as [|Hge]; [done|exfalso].
      apply lookup_lt_Some in Ht. rewrite concat_length_nonzeros in Ht.
      unfold sx_offset, nonzeros_before in Ht.
      rewrite take_ge in Ht by lia. lia. }
    specialize (Hnz Hin).
    destruct (lookup_lt_is_Some_2 outputv _ Hin) as [x Hx].
    rewrite (list_lookup_total_correct _ _ _ Hx) in *.
    destruct (lookup_lt_is_Some_2 x _ Hnz) as [t' Ht'].
    pose proof (concat_lookup_nonzero _ _ _ _ _ Hx Ht') as Hcat.
    unfold sx_offset in Ht. rewrite Hcat in Ht. inversion Ht; subst t'; clear Ht.
    unfold at_. rewrite Ht'. cbn [mbind result_bind mret result_ret].
    assert (∀ ae : SX.AlgEl D,
              SX.op ae = OP_OUTPUT → SX.i1 ae = t →
              ∃ rc, SX.count_children ae (SX.b_refcount st) = inr rc) as Hcount.
    { intros ae Hop Hi1. apply count_children_returns. unfold children. rewrite Hop. cbn.
      constructor; [|done]. change (SX.i1 ae < length (SX.b_refcount st))%nat.
      by rewrite Hi1. }
    case_bool_decide; cbn [mbind result_bind mret result_ret];
      match goal with
      | |- ∃ st', (SX.count_children ?ae _ ≫= _) = _ =>
          destruct (Hcount ae) as [rc Hrc]; [done|done|]; rewrite Hrc; cbn; by eexists
      end.
Qed.

Lemma build_returns (N : nat) (outputv : list (list nat))
    (pre : list (option (SX.SXNode D))) :
  (∀ k n, pre !! k = Some n →
          match n with
          | Some nd => deps_below N nd
          | None => ∃ t, concat outputv !! count_null (take k pre) = Some t ∧ (t < N)%nat
          end) →
  ∃ st, foldlM (SX.emit outputv)
               {| SX.b_algorithm := []; SX.b_symb_loc := [];
                  SX.b_curr_oind := SX.first_output outputv; SX.b_curr_nz := 0;
                  SX.b_refcount := replicate N 0 |}
               (indexed pre) = inr st.
Proof.
  induction pre as [|n pre IH] using rev_ind; intros Hpre; [by eexists|].
  destruct IH as [mid Hmid].
  { intros k n' Hk. apply lookup_lt_Some in Hk as Hlt.
    specialize (Hpre k n'). rewrite lookup_app_l, take_app_le in Hpre by lia.
    by apply Hpre. }
  destruct (build_prefix N outputv pre mid) as [Hlen Hrec Hrl Hrc Hch Hsy Hcur Hoff];
    [|exact Hmid|].
  { intros nd [k Hk]%list_elem_of_lookup. apply lookup_lt_Some in Hk as Hlt.
    specialize (Hpre k (Some nd)). rewrite lookup_app_l in Hpre by lia.
    by destruct (Hpre Hk) as [? _]. }
  specialize (Hpre (length pre) n (list_lookup_middle _ _ _ _ eq_refl)).
  rewrite take_app_length in Hpre.
  destruct (emit_returns outputv mid (length pre) n Hcur) as [st' Hst'].
  { rewrite Hrl, Hoff. exact Hpre. }
  exists st'. rewrite indexed_snoc, foldlM_app, Hmid. cbn [mbind result_bind foldlM].
  by rewrite Hst'.
Qed.

End SXBuild.

(** ** Places in the work vector (the second loop) *)

Section SXAllocate.

Context {D : Type} `{!Inhabited D}.

(** One turn of the loop of lines 454-460. *)
Definition release_one (st : SX.alloc_state) (ch_ind : nat) : result SX.alloc_state :=
  v ← at_ (SX.a_refcount st) ch_ind;
  let remaining := v - 1 in
  mret {| SX.a_refcount := <[ch_ind := remaining]> (SX.a_refcount st);
          SX.a_place := SX.a_place st;
          SX.a_unused := if bool_decide (remaining = 0)
                         then (SX.a_place st !!! ch_ind) :: SX.a_unused st
                         else SX.a_unused st;
          SX.a_worksize := SX.a_worksize st |}.

Lemma release_children_fold (c : nat) (e : SX.AlgEl D) (st : SX.alloc_state) :
  SX.release_children c e st
  = foldlM release_one st (reverse (SX.child e <$> seq 0 c)).
Proof.
  revert st. induction c as [|c IH]; intros st; [done|].
  rewrite seq_S, fmap_app, reverse_app. cbn [fmap list_fmap reverse rev_append app].
  cbn [app foldlM SX.release_children]. change (0 + c)%nat with c.
  destruct (release_one st (SX.child e c)) as [err|a1] eqn:H1; unfold release_one in H1;
    destruct (at_ (SX.a_refcount st) (SX.child e c)) as [err'|v];
    cbn [mbind result_bind mret result_ret] in *; inversion H1; subst; [done|].
  apply IH.
Qed.

(** The state of the allocator: [has] tells which nodes have been given
    a place, [need] how many operand positions are still to read each
    node.  A node is live when it has a place and is still needed; live
    nodes sit in different slots below [worksize], and no slot on the
    stack of free slots holds a live node. *)
Record allocated (N : nat) (has : nat → Prop) (need : nat → nat) (a : SX.alloc_state)
  : Prop := {
  al_has : ∀ j, has j → (j < N)%nat;
  al_refcount_length : length (SX.a_refcount a) = N;
  al_refcount : ∀ j, (j < N)%nat → SX.a_refcount a !!! j = Z.of_nat (need j);
  al_place_length : length (SX.a_place a) = N;
  al_range : ∀ j, has j → (0 < need j)%nat → (SX.a_place a !!! j < SX.a_worksize a)%nat;
  al_inj : ∀ j j', has j → has j' → (0 < need j)%nat → (0 < need j')%nat →
                   SX.a_place a !!! j = SX.a_place a !!! j' → j = j';
  al_unused_nodup : NoDup (SX.a_unused a);
  al_unused_range : ∀ s, s ∈ SX.a_unused a → (s < SX.a_worksize a)%nat;
  al_unused_free : ∀ j, has j → (0 < need j)%nat → SX.a_place a !!! j ∉ SX.a_unused a;
}.

Lemma allocated_ext (N : nat) (has has' : nat → Prop) (need need' : nat → nat)
    (a : SX.alloc_state) :
  (∀ j, has' j ↔ has j) → (∀ j, need' j = need j) →
  allocated N has need a → allocated N has' need' a.
Proof.
  intros Hh Hn [H1 H2 H3 H4 H5 H6 H7 H8 H9]. split; try done.
  - intros j ?%Hh. by apply H1.
  - intros j Hj. rewrite Hn. by apply H3.
  - intros j ?%Hh. rewrite Hn. by apply H5.
  - intros j j' ?%Hh ?%Hh. rewrite !Hn. by apply H6.
  - intros j ?%Hh. rewrite Hn. by apply H9.
Qed.

Lemma release_one_spec (N : nat) (has : nat → Prop) (need need' : nat → nat)
    (a : SX.alloc_state) (ch : nat) :
  allocated N has need a → has ch →
  (∀ j, need j = (need' j + (if decide (ch = j) then 1 else 0))%nat) →
  ∃ a', release_one a ch = inr a' ∧ allocated N has need' a'
        ∧ SX.a_place a' = SX.a_place a ∧ SX.a_worksize a' = SX.a_worksize a.
Proof.
  intros [H1 H2 H3 H4 H5 H6 H7 H8 H9] Hch Hneed.
  pose proof (H1 ch Hch) as HchN.
  assert (0 < need ch)%nat as Hpos by (rewrite Hneed; destruct (decide (ch = ch)); [lia|done]).
  assert (Z.of_nat (need ch) - 1 = Z.of_nat (need' ch)) as Hrem
    by (rewrite (Hneed ch); destruct (decide (ch = ch)); [lia|done]).
  assert (∀ j, (0 < need' j)%nat → (0 < need j)%nat) as Hmono by (intros j; rewrite (Hneed j); lia).
  unfold release_one, at_.
  destruct (lookup_lt_is_Some_2 (SX.a_refcount a) ch) as [v Hv]; [lia|].
  rewrite Hv. cbn [mbind result_bind mret result_ret].
  assert (v = Z.of_nat (need ch)) as ->
    by (rewrite <- (H3 ch HchN); by rewrite (list_lookup_total_correct _ _ _ Hv)).
  eexists. split; [done|]. split; [|done]. rewrite Hrem. split; cbn.
  - done.
  - by rewrite length_insert.
  - intros j Hj. destruct (decide (ch = j)) as [->|Hne].
    + by rewrite list_lookup_total_insert_eq by lia.
    + rewrite list_lookup_total_insert_ne by done. rewrite H3 by done.
      rewrite (Hneed j). destruct (decide (ch = j)); [done|]. f_equal. lia.
  - done.
  - intros j Hj Hp. apply H5; auto.
  - intros j j' Hj Hj' Hp Hp'. apply H6; auto.
  - case_bool_decide as Hz; [|done]. apply list.NoDup_cons. split; [by apply H9|done].
  - intros s. case_bool_decide as Hz; [|by apply H8].
    intros [->|Hs]%elem_of_cons; [by apply H5|by apply H8].
  - intros j Hj Hp. case_bool_decide as Hz; [|by apply H9; auto].
    apply not_elem_of_cons. split; [|by apply H9; auto].
    intros Heq. apply H6 in Heq; auto. subst j. lia.
Qed.

Lemma release_fold_spec (N : nat) (has : nat → Prop) (r : nat → nat) (l : list nat) :
  ∀ a need,
    allocated N has need a → Forall has l →
    (∀ j, need j = (r j + occurrences j l)%nat) →
    ∃ a', foldlM release_one a l = inr a' ∧ allocated N has r a'
          ∧ SX.a_place a' = SX.a_place a ∧ SX.a_worksize a' = SX.a_worksize a.
Proof.
  induction l as [|ch l IH]; intros a need Ha Hl Hneed.
  - exists a. split; [done|]. split; [|done].
    eapply allocated_ext; [| |exact Ha]; [done|]. intros j. rewrite Hneed. cbn. lia.
  - apply Forall_cons_1 in Hl as [Hch Hl].
    destruct (release_one_spec N has need (λ j, (r j + occurrences j l)%nat) a ch Ha Hch)
      as (a1 & H1 & Ha1 & Hp1 & Hw1).
    { intros j. rewrite Hneed, occurrences_cons. destruct (decide (ch = j)); lia. }
    destruct (IH a1 _ Ha1 Hl (λ j, eq_refl)) as (a' & H' & Ha' & Hp' & Hw').
    exists a'. cbn [foldlM]. rewrite H1. cbn [mbind result_bind].
    split; [done|]. split; [done|]. split; congruence.
Qed.

(** Lines 462-472: the result goes to a slot that holds no live node. *)
Lemma store_result_spec (N : nat) (has : nat → Prop) (need : nat → nat)
    (a : SX.alloc_state) (live_variables : bool) (e : SX.AlgEl D) (k : nat) :
  allocated N has need a → SX.op e ≠ OP_OUTPUT → SX.i0 e = k → (k < N)%nat → ¬ has k →
  ∃ s a', SX.store_result live_variables e a = (SX.set_i0 s e, a')
          ∧ allocated N (λ j, has j ∨ j = k) need a'
          ∧ SX.a_place a' = <[k := s]> (SX.a_place a)
          ∧ (s < SX.a_worksize a')%nat
          ∧ (SX.a_worksize a ≤ SX.a_worksize a')%nat
          ∧ (∀ j, has j → (0 < need j)%nat → SX.a_place a !!! j ≠ s).
Proof.
  intros [H1 H2 H3 H4 H5 H6 H7 H8 H9] Hop Hi0 Hk Hnew.
  assert (∀ j, has j → j ≠ k) as Hne by (intros j Hj ->; done).
  unfold SX.store_result. rewrite bool_decide_eq_true_2 by done. rewrite Hi0.
  assert (allocated N (λ j, has j ∨ j = k) need
            {| SX.a_refcount := SX.a_refcount a;
               SX.a_place := <[k := SX.a_worksize a]> (SX.a_place a);
               SX.a_unused := SX.a_unused a;
               SX.a_worksize := S (SX.a_worksize a) |}) as Hfresh.
  { split; cbn.
    - intros j [Hj| ->]; auto.
    - done.
    - done.
    - by rewrite length_insert.
    - intros j [Hj| ->] Hp.
      + rewrite list_lookup_total_insert_ne by (by apply not_eq_sym, Hne).
        specialize (H5 j Hj Hp). lia.
      + rewrite list_lookup_total_insert_eq by lia. lia.
    - intros j j' [Hj| ->] [Hj'| ->] Hp Hp'; [| | |done].
      + rewrite !list_lookup_total_insert_ne by (by apply not_eq_sym, Hne). by apply H6.
      + rewrite list_lookup_total_insert_eq by lia.
        rewrite list_lookup_total_insert_ne by (by apply not_eq_sym, Hne).
        specialize (H5 j Hj Hp). lia.
      + rewrite list_lookup_total_insert_eq by lia.
        rewrite list_lookup_total_insert_ne by (by apply not_eq_sym, Hne).
        specialize (H5 j' Hj' Hp'). lia.
    - done.
    - intros s Hs%H8. lia.
    - intros j [Hj| ->] Hp.
      + rewrite list_lookup_total_insert_ne by (by apply not_eq_sym, Hne). by apply H9.
      + rewrite list_lookup_total_insert_eq by lia. intros Hin%H8. lia. }
  assert (∀ j, has j → (0 < need j)%nat → SX.a_place a !!! j ≠ SX.a_worksize a) as Hfar.
  { intros j Hj Hp. specialize (H5 j Hj Hp). lia. }
  destruct live_variables; [destruct (SX.a_unused a) as [|top rest] eqn:Hun|].
  2:{ exists top. eexists. split; [done|]. cbn.
      assert (∀ j, has j → (0 < need j)%nat → SX.a_place a !!! j ≠ top) as Hfree.
      { intros j Hj Hp Heq. apply (H9 j Hj Hp). rewrite Heq. apply list_elem_of_here. }
      apply list.NoDup_cons in H7 as [Hnotin Hnd].
      assert (top < SX.a_worksize a)%nat as Htop by apply H8, list_elem_of_here.
      split; [|split; [done|split; [done|split; [lia|done]]]].
      split; cbn.
      - intros j [Hj| ->]; auto.
      - done.
      - done.
      - by rewrite length_insert.
      - intros j [Hj| ->] Hp.
        + rewrite list_lookup_total_insert_ne by (by apply not_eq_sym, Hne). by apply H5.
        + by rewrite list_lookup_total_insert_eq by lia.
      - intros j j' [Hj| ->] [Hj'| ->] Hp Hp'; [| | |done].
        + rewrite !list_lookup_total_insert_ne by (by apply not_eq_sym, Hne). by apply H6.
        + rewrite list_lookup_total_insert_eq by lia.
          rewrite list_lookup_total_insert_ne by (by apply not_eq_sym, Hne).
          intros Heq. by apply Hfree in Heq.
        + rewrite list_lookup_total_insert_eq by lia.
          rewrite list_lookup_total_insert_ne by (by apply not_eq_sym, Hne).
          intros Heq. symmetry in Heq. by apply Hfree in Heq.
      - done.
      - intros s Hs. apply H8. by apply list_elem_of_further.
      - intros j [Hj| ->] Hp.
        + rewrite list_lookup_total_insert_ne by (by apply not_eq_sym, Hne).
          intros Hin. apply (H9 j Hj Hp). by apply list_elem_of_further.
        + by rewrite list_lookup_total_insert_eq by lia. }
  all: exists (SX.a_worksize a); eexists; (split; [done|]); cbn;
    (split; [exact Hfresh|]); (split; [done|]); split; [lia|]; split; [lia|done].
Qed.

End SXAllocate.

(** ** Output buffers *)

Lemma cell_update_eq {A} `{!Inhabited A} (out : list (list A)) (o nz : nat) (v : A) :
  (nz < length (out !!! o))%nat →
  (alter (λ r, <[nz := v]> r) o out !!! o) !! nz = Some v.
Proof.
  intros Hnz. destruct (out !! o) as [x|] eqn:Ho.
  - rewrite (list_lookup_total_correct _ _ _ Ho) in Hnz.
    rewrite list_lookup_total_alt, list_lookup_alter_eq, Ho. cbn.
    by apply list_lookup_insert_eq.
  - rewrite list_lookup_total_alt, Ho in Hnz. cbn in Hnz. lia.
Qed.

Lemma cell_update_ne {A} `{!Inhabited A} (out : list (list A)) (o nz o' nz' : nat) (v : A) :
  (o', nz') ≠ (o, nz) →
  (alter (λ r, <[nz := v]> r) o out !!! o') !! nz' = (out !!! o') !! nz'.
Proof.
  intros Hne. destruct (decide (o' = o)) as [->|Ho].
  - rewrite !list_lookup_total_alt, list_lookup_alter_eq.
    destruct (out !! o) as [x|]; cbn; [|done].
    apply list_lookup_insert_ne. congruence.
  - by rewrite !list_lookup_total_alt, list_lookup_alter_ne by done.
Qed.

Lemma cell_update_shape {A} (out : list (list A)) (o nz : nat) (v : A) :
  length <$> alter (λ r, <[nz := v]> r) o out = length <$> out.
Proof.
  apply list_eq. intros i. rewrite !list_lookup_fmap.
  destruct (decide (i = o)) as [->|Hne].
  - rewrite list_lookup_alter_eq. destruct (out !! o); cbn; [|done].
    by rewrite length_insert.
  - by rewrite list_lookup_alter_ne by done.
Qed.

Lemma same_shape_row {A B} `{!Inhabited A} `{!Inhabited B}
    (l1 : list (list A)) (l2 : list (list B)) (o : nat) :
  length <$> l1 = length <$> l2 → length (l1 !!! o) = length (l2 !!! o).
Proof.
  intros Hs. apply (f_equal (λ l, l !! o)) in Hs. rewrite !list_lookup_fmap in Hs.
  rewrite !list_lookup_total_alt.
  destruct (l1 !! o), (l2 !! o); cbn in *; congruence.
Qed.

(** ** Running the tape next to the allocator *)

Section SXSimulate.

Context {D : Type} `{!Inhabited D}.

Variable casadi_math_fun : Operation → D → D → D.
Variable env : nat → D.
Variable vals : list D.
Variable inputv outputv : list (list nat).
Variable B : list (SX.AlgEl D).
Variable live_variables : bool.
Variable st0 : SX.buffers D.

(** The operations of a scalar expression graph, and the output sentinel. *)
Definition tape_op (o : Operation) : bool :=
  match o with
  | OP_CONST | OP_PARAMETER | OP_OUTPUT | OP_UNARY _ | OP_BINARY _ => true
  | _ => false
  end.

(** The value of the instruction at position [k], given the values of the
    earlier ones; a unary operation is handed its operand twice. *)
Definition instr_value (k : nat) (e : SX.AlgEl D) : D :=
  match SX.op e with
  | OP_CONST => SX.d e
  | OP_PARAMETER => env k
  | OP_BINARY _ => casadi_math_fun (SX.op e) (vals !!! SX.i1 e) (vals !!! SX.i2 e)
  | _ => casadi_math_fun (SX.op e) (vals !!! SX.i1 e) (vals !!! SX.i1 e)
  end.

Hypothesis B_ops : ∀ k e, B !! k = Some e → tape_op (SX.op e) = true.
Hypothesis B_i0 : ∀ k e, B !! k = Some e → SX.op e ≠ OP_OUTPUT → SX.i0 e = k.
Hypothesis B_children :
  ∀ k e c, B !! k = Some e → c ∈ children e →
           (c < k)%nat ∧ ∃ ec, B !! c = Some ec ∧ SX.op ec ≠ OP_OUTPUT.
Hypothesis B_out :
  ∀ k e, B !! k = Some e → SX.op e = OP_OUTPUT →
         (outputv !!! SX.i0 e) !! SX.i2 e = Some (SX.i1 e).
Hypothesis B_vals :
  ∀ k e, B !! k = Some e → SX.op e ≠ OP_OUTPUT → vals !!! k = instr_value k e.
Hypothesis st0_input :
  ∀ ind nz a, (inputv !!! ind) !! nz = Some a → (SX.input st0 !!! ind) !!! nz = env a.
Hypothesis st0_output : length <$> SX.output st0 = length <$> outputv.

(** The nodes that have a place once the first [k] instructions are
    allocated. *)
Definition has (k j : nat) : Prop :=
  (j < k)%nat ∧ ∃ e, B !! j = Some e ∧ SX.op e ≠ OP_OUTPUT.

(** The record of the finished tape for the allocated record [e] at
    position [k]: the record itself, or an input instruction into the same
    slot when [e] stands for a symbol that is among the inputs. *)
Definition final_of (k : nat) (e e' : SX.AlgEl D) : Prop :=
  (SX.op e ≠ OP_PARAMETER ∧ e' = e)
  ∨ (SX.op e = OP_PARAMETER ∧ SX.op e' = OP_INPUT ∧ SX.i0 e' = SX.i0 e
     ∧ (inputv !!! SX.i1 e') !! SX.i2 e' = Some k).

Definition related (alg alg' : list (SX.AlgEl D)) : Prop :=
  length alg' = length alg
  ∧ ∀ j e e', alg !! j = Some e → alg' !! j = Some e' → final_of j e e'.

Lemma related_snoc (alg alg' : list (SX.AlgEl D)) (e : SX.AlgEl D) :
  related (alg ++ [e]) alg' →
  ∃ alg1 e', alg' = alg1 ++ [e'] ∧ related alg alg1 ∧ final_of (length alg) e e'.
Proof.
  intros [Hlen Hrel]. rewrite length_app in Hlen. cbn in Hlen.
  destruct alg' as [|e' alg1 _] using rev_ind; [cbn in Hlen; lia|].
  rewrite length_app in Hlen. cbn in Hlen.
  exists alg1, e'. split; [done|]. split; [split; [lia|]|].
  - intros j x x' Hx Hx'. apply (Hrel j); [by apply lookup_app_l_Some|by apply lookup_app_l_Some].
  - apply (Hrel (length alg)); [by apply list_lookup_middle|].
    apply list_lookup_middle. lia.
Qed.

(** What running the finished tape [alg'] has achieved: every live node's
    value is in its place, and every output instruction run so far has
    stored the value of the node it outputs. *)
Definition holds (place : list nat) (need : nat → nat) (k : nat)
    (alg' : list (SX.AlgEl D)) : Prop :=
  let st := foldl (SX.exec casadi_math_fun) st0 alg' in
  length (SX.work_ st) = length (SX.work_ st0)
  ∧ SX.input st = SX.input st0
  ∧ length <$> SX.output st = length <$> SX.output st0
  ∧ (∀ j, has k j → (0 < need j)%nat →
          SX.work_ st !!! (place !!! j) = vals !!! j)
  ∧ (∀ e', e' ∈ alg' → SX.op e' = OP_OUTPUT →
           ∀ t, (outputv !!! SX.i0 e') !! SX.i2 e' = Some t →
                (SX.output st !!! SX.i0 e') !! SX.i2 e' = Some (vals !!! t)).

Lemma holds_write (place place2 : list nat) (need need' : nat → nat) (k : nat)
    (alg1 : list (SX.AlgEl D)) (e' : SX.AlgEl D) (s : nat) :
  holds place need k alg1 →
  SX.op e' ≠ OP_OUTPUT →
  (let st := foldl (SX.exec casadi_math_fun) st0 alg1 in
   SX.exec casadi_math_fun st e'
   = {| SX.work_ := <[s := vals !!! k]> (SX.work_ st);
        SX.input := SX.input st; SX.output := SX.output st |}) →
  (s < length (SX.work_ st0))%nat →
  place2 !!! k = s →
  (∀ j, has (S k) j → (0 < need' j)%nat →
        j = k ∨ (has k j ∧ (0 < need j)%nat
                 ∧ place2 !!! j = place !!! j
                 ∧ place !!! j ≠ s)) →
  holds place2 need' (S k) (alg1 ++ [e']).
Proof.
  unfold holds. intros (Hw & Hin & Hsh & Hlive & Hout) Hop Hexec Hs Hplace Hold.
  rewrite foldl_app. cbn [foldl]. cbn zeta in Hexec. rewrite Hexec. cbn.
  split; [by rewrite length_insert|]. split; [done|]. split; [done|]. split.
  - intros j Hj Hp. destruct (Hold j Hj Hp) as [->|(Hj' & Hp' & Hsame & Hne)].
    + rewrite Hplace. apply list_lookup_total_insert_eq. lia.
    + rewrite Hsame. rewrite list_lookup_total_insert_ne by done. by apply Hlive.
  - intros e'' [Hin'|Hin']%elem_of_app Hop'' t Ht; [by apply Hout|].
    apply list_elem_of_singleton in Hin'. by subst e''.
Qed.

Lemma holds_output (place : list nat) (need need' : nat → nat) (k : nat)
    (alg1 : list (SX.AlgEl D)) (e' : SX.AlgEl D) (t : nat) :
  holds place need k alg1 →
  SX.op e' = OP_OUTPUT →
  (outputv !!! SX.i0 e') !! SX.i2 e' = Some t →
  SX.work_ (foldl (SX.exec casadi_math_fun) st0 alg1) !!! SX.i1 e' = vals !!! t →
  (∀ j, has (S k) j → (0 < need' j)%nat → has k j ∧ (0 < need j)%nat) →
  holds place need' (S k) (alg1 ++ [e']).
Proof.
  unfold holds. intros (Hw & Hin & Hsh & Hlive & Hout) Hop Ht Hval Hold.
  rewrite foldl_app. cbn [foldl].
  set (st := foldl (SX.exec casadi_math_fun) st0 alg1) in *.
  assert (SX.exec casadi_math_fun st e'
          = {| SX.work_ := SX.work_ st; SX.input := SX.input st;
               SX.output := alter (λ o, <[SX.i2 e' := SX.work_ st !!! SX.i1 e']> o)
                                  (SX.i0 e') (SX.output st) |}) as Hexec
    by (unfold SX.exec; by rewrite Hop).
  rewrite Hexec. cbn.
  split; [done|]. split; [done|]. split; [by rewrite cell_update_shape|]. split.
  - intros j Hj Hp. destruct (Hold j Hj Hp). by apply Hlive.
  - assert (SX.i2 e' < length (SX.output st !!! SX.i0 e'))%nat as Hcell.
    { rewrite (same_shape_row _ outputv) by congruence. by eapply lookup_lt_Some. }
    intros e'' Hin' Hop'' t'' Ht''.
    destruct (decide ((SX.i0 e'', SX.i2 e'') = (SX.i0 e', SX.i2 e'))) as [Heq|Hne].
    + inversion Heq as [[H0 H2]]. rewrite H0, H2 in *.
      rewrite cell_update_eq by done. rewrite Hval. congruence.
    + rewrite cell_update_ne by done.
      apply elem_of_app in Hin' as [Hin'|Hin']; [by apply Hout|].
      apply list_elem_of_singleton in Hin'. by subst e''.
Qed.

Variable N : nat.
Hypothesis B_length : length B = N.

(** The second loop after the instructions [pre], with [rest] to come. *)
Definition sim (pre rest alg : list (SX.AlgEl D)) (a : SX.alloc_state) : Prop :=
  length alg = length pre
  ∧ allocated N (has (length pre)) (uses rest) a
  ∧ ∀ alg', related alg alg' → (SX.a_worksize a ≤ length (SX.work_ st0))%nat →
            holds (SX.a_place a) (uses rest) (length pre) alg'.

Lemma relocated (place : list nat) (e : SX.AlgEl D) :
  let e3 := SX.pad_unary (SX.relocate_children place e) in
  SX.op e3 = SX.op e ∧ SX.i0 e3 = SX.i0 e ∧ SX.d e3 = SX.d e
  ∧ match SX.op e with
    | OP_CONST | OP_PARAMETER | OP_INPUT => True
    | OP_BINARY _ => SX.i1 e3 = place !!! SX.i1 e ∧ SX.i2 e3 = place !!! SX.i2 e
    | OP_OUTPUT => SX.i1 e3 = place !!! SX.i1 e ∧ SX.i2 e3 = SX.i2 e
    | _ => SX.i1 e3 = place !!! SX.i1 e ∧ SX.i2 e3 = place !!! SX.i1 e
    end.
Proof.
  destruct e as [o x0 x1 x2 v]. unfold SX.pad_unary, SX.relocate_children.
  destruct o; cbn; case_bool_decide as Hp; cbn; try done; naive_solver.
Qed.

Lemma has_S_output (k j : nat) (e : SX.AlgEl D) :
  B !! k = Some e → SX.op e = OP_OUTPUT → has (S k) j ↔ has k j.
Proof.
  intros Hk Hop. unfold has. split; intros (Hlt & ej & Hej & Hoj).
  - split; [|eauto]. destruct (decide (j = k)) as [->|]; [|lia]. congruence.
  - split; [lia|eauto].
Qed.

Lemma has_S_node (k j : nat) (e : SX.AlgEl D) :
  B !! k = Some e → SX.op e ≠ OP_OUTPUT → has (S k) j ↔ has k j ∨ j = k.
Proof.
  intros Hk Hop. unfold has. split.
  - intros (Hlt & ej & Hej & Hoj). destruct (decide (j = k)) as [->|]; [by right|].
    left. split; [lia|eauto].
  - intros [(Hlt & ej & Hej & Hoj)| ->]; (split; [lia|eauto]).
Qed.

Lemma allocate_step (pre rest alg : list (SX.AlgEl D)) (e : SX.AlgEl D)
    (a : SX.alloc_state) (r : list (SX.AlgEl D) * SX.alloc_state) :
  pre ++ e :: rest = B →
  sim pre (e :: rest) alg a →
  SX.allocate live_variables (alg, a) e = inr r →
  sim (pre ++ [e]) rest r.1 r.2.
Proof.
  intros HB (Hlen & Hal & Hsim) Halloc.
  assert (B !! length pre = Some e) as Hk by (rewrite <- HB; by apply list_lookup_middle).
  assert (length pre < N)%nat as HkN by (rewrite <- B_length; by eapply lookup_lt_Some).
  assert (Forall (has (length pre)) (reverse (children e))) as Hch.
  { apply list.Forall_forall. intros c Hc. rewrite elem_of_reverse in Hc.
    destruct (B_children _ _ _ Hk Hc) as [Hlt Hec]. by split. }
  unfold SX.allocate in Halloc. cbn [fst snd] in Halloc.
  rewrite release_children_fold in Halloc.
  destruct (release_fold_spec N _ (uses rest) _ a (uses (e :: rest)) Hal Hch)
    as (a1 & Hrel & Hal1 & Hp1 & Hw1).
  { intros j. rewrite uses_cons, occurrences_reverse. lia. }
  change (SX.child e <$> seq 0 (ndeps (SX.op e))) with (children e) in Halloc.
  rewrite Hrel in Halloc. cbn [mbind result_bind] in Halloc.
  assert (∀ alg1, related alg alg1 → (SX.a_worksize a ≤ length (SX.work_ st0))%nat →
          ∀ c, c ∈ children e →
               SX.work_ (foldl (SX.exec casadi_math_fun) st0 alg1) !!! (SX.a_place a !!! c)
               = vals !!! c) as Hread.
  { intros alg1 Hr Hws c Hc. destruct (Hsim alg1 Hr Hws) as (_ & _ & _ & Hlive & _).
    apply Hlive.
    - destruct (B_children _ _ _ Hk Hc). by split.
    - rewrite uses_cons. apply occurrences_pos in Hc. lia. }
  assert (length (pre ++ [e]) = S (length pre)) as HS
    by (rewrite length_app; cbn; lia).
  destruct (decide (SX.op e = OP_OUTPUT)) as [Hout|Hnout].
  - (* an output instruction *)
    unfold SX.store_result in Halloc.
    rewrite bool_decide_eq_false_2 in Halloc by (by intros ?).
    inversion Halloc; subst r; clear Halloc. cbn [fst snd].
    destruct (relocated (SX.a_place a1) e) as (Hop3 & Hi03 & Hd3 & Hrest).
    rewrite Hout in Hrest. destruct Hrest as [Hi1 Hi2]. rewrite Hp1 in *.
    split; [by rewrite !length_app, Hlen|]. rewrite HS. split.
    + eapply allocated_ext; [| |exact Hal1]; [|done].
      intros j. by eapply has_S_output.
    + intros alg' Hr Hws. apply related_snoc in Hr as (alg1 & e' & -> & Hr1 & Hfin).
      rewrite Hlen in Hfin. destruct Hfin as [[_ ->]|[Hpar _]]; [|congruence].
      rewrite Hp1.
      apply (holds_output (SX.a_place a) (uses (e :: rest)) (uses rest) (length pre)
               alg1 _ (SX.i1 e)).
      * apply Hsim; [done|lia].
      * congruence.
      * rewrite Hi03, Hi2. by apply (B_out (length pre)).
      * rewrite Hi1. apply Hread; [done|lia|].
        unfold children. rewrite Hout. cbn. apply list_elem_of_here.
      * intros j Hj Hp. split; [by eapply has_S_output|]. rewrite uses_cons. lia.
  - (* a node *)
    destruct (store_result_spec N _ (uses rest) a1 live_variables e (length pre)
                Hal1 Hnout (B_i0 _ _ Hk Hnout) HkN)
      as (s & a2 & Hstore & Hal2 & Hp2 & Hs2 & Hw2 & Hfree).
    { intros [Hlt _]. lia. }
    rewrite Hstore in Halloc. inversion Halloc; subst r; clear Halloc. cbn [fst snd].
    destruct (relocated (SX.a_place a2) (SX.set_i0 s e)) as (Hop3 & Hi03 & Hd3 & Hrest).
    cbn [SX.set_i0 SX.op SX.i0 SX.i1 SX.i2 SX.d] in Hop3, Hi03, Hd3, Hrest.
    split; [by rewrite !length_app, Hlen|]. rewrite HS. split.
    + eapply allocated_ext; [| |exact Hal2]; [|done].
      intros j. by eapply has_S_node.
    + intros alg' Hr Hws. apply related_snoc in Hr as (alg1 & e' & -> & Hr1 & Hfin).
      rewrite Hlen in Hfin.
      assert (∀ c, (c < length pre)%nat → SX.a_place a2 !!! c = SX.a_place a !!! c) as Hsame.
      { intros c Hc. rewrite Hp2, Hp1. apply list_lookup_total_insert_ne. lia. }
      assert (∀ c, c ∈ children e → (c < length pre)%nat) as Hlt.
      { intros c Hc. by destruct (B_children _ _ _ Hk Hc). }
      pose proof (Hsim alg1 Hr1 ltac:(lia)) as Hholds.
      pose proof (Hread alg1 Hr1 ltac:(lia)) as Hrd.
      apply (holds_write (SX.a_place a) (SX.a_place a2) (uses (e :: rest)) (uses rest)
               (length pre) alg1 e' s); [done| | |lia| |].
      * destruct Hfin as [[_ ->]|(_ & Hin & _)]; congruence.
      * cbn zeta. destruct Hholds as (_ & Hinp & _).
        set (st := foldl (SX.exec casadi_math_fun) st0 alg1) in *.
        rewrite (B_vals _ _ Hk Hnout). unfold instr_value.
        pose proof (B_ops _ _ Hk) as Hops.
        unfold SX.exec.
        destruct (SX.op e) eqn:Hoe; try done.
        -- destruct Hfin as [[_ ->]|(Hpar & _)]; [|congruence].
           rewrite Hop3. by rewrite Hi03, Hd3.
        -- destruct Hfin as [[Hpar _]|(_ & Hin & Hi0 & Hsym)]; [congruence|].
           rewrite Hin, Hi0, Hi03, Hinp.
           by rewrite (st0_input _ _ _ Hsym).
        -- destruct Hfin as [[_ ->]|(Hpar & _)]; [|congruence].
           rewrite Hop3. cbn [SX.is_builtin]. destruct Hrest as [-> ->]. rewrite Hi03.
           assert (SX.i1 e ∈ children e) as Hc1
             by (unfold children; rewrite Hoe; cbn; apply list_elem_of_here).
           by rewrite (Hsame _ (Hlt _ Hc1)), (Hrd _ Hc1).
        -- destruct Hfin as [[_ ->]|(Hpar & _)]; [|congruence].
           rewrite Hop3. cbn [SX.is_builtin]. destruct Hrest as [-> ->]. rewrite Hi03.
           assert (SX.i1 e ∈ children e) as Hc1
             by (unfold children; rewrite Hoe; cbn; apply list_elem_of_here).
           assert (SX.i2 e ∈ children e) as Hc2
             by (unfold children; rewrite Hoe; cbn;
                 apply list_elem_of_further, list_elem_of_here).
           by rewrite (Hsame _ (Hlt _ Hc1)), (Hsame _ (Hlt _ Hc2)), (Hrd _ Hc1), (Hrd _ Hc2).
      * rewrite Hp2. apply list_lookup_total_insert_eq.
        destruct Hal1 as [_ _ _ Hpl _ _ _ _ _]. lia.
      * intros j Hj Hp. apply (has_S_node _ _ _ Hk Hnout) in Hj as [Hj| ->]; [right|by left].
        split; [done|]. split; [rewrite uses_cons; lia|].
        split; [apply Hsame; by destruct Hj|]. rewrite <- Hp1. by apply Hfree.
Qed.

Lemma allocate_returns (pre rest alg : list (SX.AlgEl D)) (e : SX.AlgEl D)
    (a : SX.alloc_state) :
  pre ++ e :: rest = B →
  sim pre (e :: rest) alg a →
  ∃ r, SX.allocate live_variables (alg, a) e = inr r.
Proof.
  intros HB (Hlen & Hal & _).
  assert (B !! length pre = Some e) as Hk by (rewrite <- HB; by apply list_lookup_middle).
  assert (Forall (has (length pre)) (reverse (children e))) as Hch.
  { apply list.Forall_forall. intros c Hc. rewrite elem_of_reverse in Hc.
    destruct (B_children _ _ _ Hk Hc) as [Hlt Hec]. by split. }
  destruct (release_fold_spec N _ (uses rest) _ a (uses (e :: rest)) Hal Hch)
    as (a1 & Hrel & _).
  { intros j. rewrite uses_cons, occurrences_reverse. lia. }
  unfold SX.allocate. cbn [fst snd]. rewrite release_children_fold.
  change (SX.child e <$> seq 0 (ndeps (SX.op e))) with (children e).
  rewrite Hrel. cbn [mbind result_bind].
  destruct (SX.store_result live_variables e a1). by eexists.
Qed.

Lemma allocate_fold (rc0 : list Z) (pre : list (SX.AlgEl D)) :
  length rc0 = N → (∀ j, (j < N)%nat → rc0 !!! j = Z.of_nat (uses B j)) →
  ∀ rest r,
    pre ++ rest = B →
    foldlM (SX.allocate live_variables)
           ([], {| SX.a_refcount := rc0; SX.a_place := replicate N 0%nat;
                   SX.a_unused := []; SX.a_worksize := 0 |}) pre = inr r →
    sim pre rest r.1 r.2.
Proof.
  intros Hrl Hrc. induction pre as [|e pre IH] using rev_ind; intros rest r HB Hfold.
  - inversion Hfold; subst r; clear Hfold. cbn in HB. subst rest. cbn [fst snd].
    split; [done|]. split.
    + split; cbn; try done.
      * intros j [Hj _]. lia.
      * by rewrite length_replicate.
      * intros j [Hj _]. lia.
      * intros j j' [Hj _]. lia.
      * apply NoDup_nil_2.
      * intros s Hs. by apply elem_of_nil in Hs.
      * intros j [Hj _]. lia.
    + intros alg' [Hlen _] _. destruct alg'; [|done]. unfold holds. cbn.
      split; [done|]. split; [done|]. split; [done|]. split.
      * intros j [Hj _]. lia.
      * intros e' He'. by apply elem_of_nil in He'.
  - rewrite foldlM_app in Hfold.
    destruct (foldlM _ _ pre) as [err|[alg a]] eqn:Hmid; cbn [mbind result_bind] in Hfold;
      [done|].
    cbn [foldlM] in Hfold.
    destruct (SX.allocate live_variables (alg, a) e) as [err|r1] eqn:Halloc;
      cbn [mbind result_bind] in Hfold; [done|].
    inversion Hfold; subst r1; clear Hfold.
    rewrite <- app_assoc in HB. cbn [app] in HB.
    apply (allocate_step pre rest alg e a r HB); [|done].
    apply (IH (e :: rest) (alg, a)); done.
Qed.

Lemma allocate_fold_returns (rc0 : list Z) (pre : list (SX.AlgEl D)) :
  length rc0 = N → (∀ j, (j < N)%nat → rc0 !!! j = Z.of_nat (uses B j)) →
  ∀ rest,
    pre ++ rest = B →
    ∃ r, foldlM (SX.allocate live_variables)
                ([], {| SX.a_refcount := rc0; SX.a_place := replicate N 0%nat;
                        SX.a_unused := []; SX.a_worksize := 0 |}) pre = inr r.
Proof.
  intros Hrl Hrc. induction pre as [|e pre IH] using rev_ind; intros rest HB;
    [by eexists|].
  rewrite <- app_assoc in HB. cbn [app] in HB.
  destruct (IH (e :: rest) HB) as [[alg a] Hmid].
  pose proof (allocate_fold rc0 pre Hrl Hrc (e :: rest) (alg, a) HB Hmid) as Hsim.
  destruct (allocate_returns pre rest alg e a HB Hsim) as [r Hr].
  exists r. rewrite foldlM_app, Hmid. cbn [mbind result_bind foldlM]. by rewrite Hr.
Qed.

(** The finished tape, run from [st0], stores into every output nonzero
    it writes the value of the node declared there. *)
Lemma allocated_tape_runs (rc0 : list Z) (r : list (SX.AlgEl D) * SX.alloc_state)
    (alg' : list (SX.AlgEl D)) :
  length rc0 = N → (∀ j, (j < N)%nat → rc0 !!! j = Z.of_nat (uses B j)) →
  foldlM (SX.allocate live_variables)
         ([], {| SX.a_refcount := rc0; SX.a_place := replicate N 0%nat;
                 SX.a_unused := []; SX.a_worksize := 0 |}) B = inr r →
  related r.1 alg' →
  (SX.a_worksize r.2 ≤ length (SX.work_ st0))%nat →
  ∀ e', e' ∈ alg' → SX.op e' = OP_OUTPUT →
        ∀ t, (outputv !!! SX.i0 e') !! SX.i2 e' = Some t →
             (SX.output (foldl (SX.exec casadi_math_fun) st0 alg') !!! SX.i0 e') !! SX.i2 e'
             = Some (vals !!! t).
Proof.
  intros Hrl Hrc Hfold Hr Hws.
  destruct (allocate_fold rc0 B Hrl Hrc [] r (app_nil_r B) Hfold) as (_ & _ & Hsim).
  destruct (Hsim alg' Hr Hws) as (_ & _ & _ & _ & Hout). exact Hout.
Qed.

End SXSimulate.

(** ** The input instructions and the free variables *)

Lemma foldl_inv_mem {A B} (P : A → Prop) (f : A → B → A) (l : list B) (a : A) :
  (∀ a b, b ∈ l → P a → P (f a b)) → P a → P (foldl f a l).
Proof.
  revert a. induction l as [|b l IH]; intros a Hstep Ha; [done|]. cbn [foldl].
  apply IH.
  - intros a' b' Hb'. apply Hstep. by apply list_elem_of_further.
  - apply Hstep; [apply list_elem_of_here|done].
Qed.

(** A loop that keeps [J], establishes [R b] in the turn for [b] and
    never undoes an [R]. *)
Lemma foldl_inv_each {A B} (J : A → Prop) (R : B → A → Prop) (f : A → B → A)
    (l : list B) (a : A) :
  (∀ a b, b ∈ l → J a → J (f a b) ∧ R b (f a b)) →
  (∀ a b b', b ∈ l → J a → R b' a → R b' (f a b)) →
  J a → J (foldl f a l) ∧ ∀ b, b ∈ l → R b (foldl f a l).
Proof.
  revert a. induction l as [|b l IH]; intros a Hstep Hkeep Ha.
  - split; [done|]. intros b Hb. by apply elem_of_nil in Hb.
  - cbn [foldl]. destruct (Hstep a b (list_elem_of_here _ _) Ha) as [Ha1 Hb1].
    destruct (IH (f a b)) as [HJ HR].
    + intros a' b' Hb'. apply Hstep. by apply list_elem_of_further.
    + intros a' b' b'' Hb'. apply Hkeep. by apply list_elem_of_further.
    + done.
    + split; [done|]. intros b' [->|Hb']%elem_of_cons; [|by apply HR].
      apply (foldl_inv_mem (λ a, J a ∧ R b a)); [|done].
      intros a' b' Hb' [HJ' HR']. split.
      * apply Hstep; [by apply list_elem_of_further|done].
      * apply Hkeep; [by apply list_elem_of_further|done|done].
Qed.

Lemma elem_of_concat {A} (x : A) (ls : list (list A)) :
  x ∈ concat ls ↔ ∃ l, l ∈ ls ∧ x ∈ l.
Proof.
  induction ls as [|l ls IH]; cbn.
  - split; [by intros ?%elem_of_nil|]. intros (l & Hl & _). by apply elem_of_nil in Hl.
  - rewrite elem_of_app, IH. split.
    + intros [Hx|(l' & Hl' & Hx)].
      * exists l. split; [apply list_elem_of_here|done].
      * exists l'. split; [by apply list_elem_of_further|done].
    + intros (l' & [->|Hl']%elem_of_cons & Hx); [by left|]. right. eauto.
Qed.

Lemma mark_symb_loc_spec (n : nat) (symb_loc : list (nat * nat)) :
  (∀ it, it ∈ symb_loc → it.1 = it.2) →
  length (SX.mark_symb_loc n symb_loc) = n
  ∧ ∀ a, (a < n)%nat →
         SX.mark_symb_loc n symb_loc !!! a
         = if bool_decide (a ∈ symb_loc.*2) then Z.of_nat a + 1 else 0.
Proof.
  unfold SX.mark_symb_loc. intros Hdiag.
  assert (∀ temp : list Z,
            length (foldl (λ temp it, <[it.2 := Z.of_nat it.1 + 1]> temp) temp symb_loc)
            = length temp
            ∧ ∀ a, (a < length temp)%nat →
                   foldl (λ temp it, <[it.2 := Z.of_nat it.1 + 1]> temp) temp symb_loc !!! a
                   = if bool_decide (a ∈ symb_loc.*2) then Z.of_nat a + 1 else temp !!! a)
    as Hgen.
  { induction symb_loc as [|it l IH]; intros temp; cbn [foldl].
    - split; [done|]. intros a Ha. rewrite bool_decide_eq_false_2; [done|].
      cbn. apply not_elem_of_nil.
    - destruct IH with (temp := <[it.2 := Z.of_nat it.1 + 1]> temp) as [Hlen Hval].
      { intros it' Hit'. apply Hdiag. by apply list_elem_of_further. }
      rewrite length_insert in Hlen, Hval. split; [done|].
      intros a Ha. rewrite Hval by done. rewrite fmap_cons.
      destruct (decide (a ∈ l.*2)) as [Hin|Hnin].
      + rewrite !bool_decide_eq_true_2; [done| |done]. by apply list_elem_of_further.
      + rewrite (bool_decide_eq_false_2 (a ∈ l.*2)) by done.
        destruct (decide (a = it.2)) as [->|Hne].
        * rewrite bool_decide_eq_true_2 by apply list_elem_of_here.
          rewrite list_lookup_total_insert_eq by done.
          rewrite (Hdiag it (list_elem_of_here _ _)). done.
        * rewrite bool_decide_eq_false_2.
          -- by rewrite list_lookup_total_insert_ne by done.
          -- intros [?|?]%elem_of_cons; done. }
  destruct (Hgen (replicate n 0)) as [Hlen Hval]. rewrite length_replicate in Hlen, Hval.
  split; [done|]. intros a Ha. rewrite Hval by done.
  by rewrite lookup_total_replicate_2.
Qed.

Lemma locate_free_none (symb_loc : list (nat * nat)) (temp : list Z) :
  (∀ it, it ∈ symb_loc → temp !!! it.2 = 0) → SX.locate_free symb_loc temp = [].
Proof.
  intros Hz. unfold SX.locate_free.
  assert (foldl (λ (acc : list nat * list Z) (it : nat * nat),
                   if bool_decide (acc.2 !!! it.2 ≠ 0)
                   then (acc.1 ++ [it.2], <[it.2 := 0]> acc.2)
                   else acc) ([], temp) symb_loc = ([], temp)) as ->; [|done].
  apply (foldl_inv_mem (λ acc, acc = ([], temp))); [|done].
  intros acc it Hit ->. cbn [fst snd].
  rewrite bool_decide_eq_false_2; [done|]. intros Hne. apply Hne. by apply Hz.
Qed.

Section SXInputs.

Context {D : Type} `{!Inhabited D}.

Variable inputv : list (list nat).
Variable alg : list (SX.AlgEl D).

(** The state of the loop of lines 516-535 for the node [a]: still
    marked and its record untouched, or unmarked and its record final. *)
Definition input_state (acc : list (SX.AlgEl D) * list Z) (a : nat) : Prop :=
  ∃ e, alg !! a = Some e
       ∧ ((acc.2 !!! a = Z.of_nat a + 1 ∧ SX.op e = OP_PARAMETER ∧ acc.1 !! a = Some e)
          ∨ (acc.2 !!! a = 0 ∧ ∃ e', acc.1 !! a = Some e' ∧ final_of inputv a e e')).

Definition inputs_inv (acc : list (SX.AlgEl D) * list Z) : Prop :=
  length acc.2 = length alg ∧ length acc.1 = length alg
  ∧ ∀ a, (a < length alg)%nat → input_state acc a.

Lemma add_input_inv (ind nz a : nat) (acc : list (SX.AlgEl D) * list Z) :
  (inputv !!! ind) !! nz = Some a → (a < length alg)%nat →
  inputs_inv acc →
  inputs_inv (SX.add_input ind acc (nz, a))
  ∧ (SX.add_input ind acc (nz, a)).2 !!! a = 0
  ∧ ∀ b, acc.2 !!! b = 0 → (SX.add_input ind acc (nz, a)).2 !!! b = 0.
Proof.
  intros Hcell Ha (Hlt & Hla & Hst). unfold SX.add_input.
  destruct (Hst a Ha) as (e & He & [(Hmark & Hop & Hcur)|(Hzero & e' & Hcur & Hfin)]).
  - rewrite Hmark. rewrite bool_decide_eq_true_2 by lia.
    replace (Z.to_nat (Z.of_nat a + 1 - 1)) with a by lia.
    unfold inputs_inv, input_state. cbn [fst snd].
    split; [|split].
    + split; [by rewrite length_insert|]. split; [by rewrite length_alter|].
      intros b Hb. destruct (decide (b = a)) as [->|Hne].
      * exists e. split; [done|]. right.
        rewrite list_lookup_total_insert_eq by lia. split; [done|].
        eexists. rewrite list_lookup_alter_eq, Hcur. cbn. split; [done|].
        right. done.
      * destruct (Hst b Hb) as (eb & Heb & Hb'). exists eb. split; [done|].
        rewrite list_lookup_total_insert_ne by done.
        by rewrite list_lookup_alter_ne by done.
    + apply list_lookup_total_insert_eq. lia.
    + intros b Hb. destruct (decide (b = a)) as [->|Hne].
      * apply list_lookup_total_insert_eq. lia.
      * by rewrite list_lookup_total_insert_ne by done.
  - rewrite Hzero. rewrite bool_decide_eq_false_2 by lia. done.
Qed.

Lemma add_inputs_inv (acc : list (SX.AlgEl D) * list Z) :
  Forall (Forall (λ a, (a < length alg)%nat)) inputv →
  inputs_inv acc →
  inputs_inv (SX.add_inputs inputv acc)
  ∧ ∀ a, a ∈ concat inputv → (SX.add_inputs inputv acc).2 !!! a = 0.
Proof.
  intros Hrange Hacc. unfold SX.add_inputs.
  destruct (foldl_inv_each inputs_inv
              (λ (it : nat * list nat) acc, ∀ a, a ∈ it.2 → acc.2 !!! a = 0)
              (λ acc it, foldl (SX.add_input it.1) acc (indexed it.2))
              (indexed inputv) acc) as [HJ HR]; [| |done|].
  - intros acc1 [ind row] Hrow%elem_of_indexed Hacc1. cbn [fst snd].
    destruct (foldl_inv_each inputs_inv
                (λ (c : nat * nat) acc, acc.2 !!! c.2 = 0)
                (SX.add_input ind) (indexed row) acc1) as [HJ HR]; [| |done|].
    + intros acc2 [nz a] Hc%elem_of_indexed Hacc2.
      destruct (add_input_inv ind nz a acc2) as (H1 & H2 & _); [| |done|done].
      * by rewrite (list_lookup_total_correct _ _ _ Hrow).
      * apply (Forall_lookup_1 _ _ _ _ (Forall_lookup_1 _ _ _ _ Hrange Hrow) Hc).
    + intros acc2 [nz a] c' Hc%elem_of_indexed Hacc2 Hz.
      destruct (add_input_inv ind nz a acc2) as (_ & _ & H3); [| |done|by apply H3].
      * by rewrite (list_lookup_total_correct _ _ _ Hrow).
      * apply (Forall_lookup_1 _ _ _ _ (Forall_lookup_1 _ _ _ _ Hrange Hrow) Hc).
    + split; [done|]. intros a [nz Hnz]%list_elem_of_lookup.
      apply (HR (nz, a)). by apply elem_of_indexed.
  - intros acc1 [ind row] [ind' row'] Hrow%elem_of_indexed Hacc1 Hz a Ha. cbn [fst snd] in *.
    apply (foldl_inv_mem (λ acc, inputs_inv acc ∧ acc.2 !!! a = 0)); [|by auto].
    intros acc2 [nz b] Hc%elem_of_indexed [Hacc2 Hz2].
    destruct (add_input_inv ind nz b acc2) as (H1 & _ & H3); [| |done|by auto].
    + by rewrite (list_lookup_total_correct _ _ _ Hrow).
    + apply (Forall_lookup_1 _ _ _ _ (Forall_lookup_1 _ _ _ _ Hrange Hrow) Hc).
  - split; [done|]. intros a (row & Hrow & Ha)%elem_of_concat.
    apply list_elem_of_lookup in Hrow as [ind Hind].
    apply (HR (ind, row)); [by apply elem_of_indexed|done].
Qed.

End SXInputs.

(** ** The values of an expression graph *)

Section SXValues.

Context {D : Type} `{!Inhabited D}.

Variable casadi_math_fun : Operation → D → D → D.

(** What the symbols stand for: [env a] is the value of the symbol at
    position [a] of the node list. *)
Variable env : nat → D.

(** The value of the node at position [k], given the values of the nodes
    before it: a constant is its value, a symbol is what [env] says, an
    elementary operation applies the built-in function to the values of
    its dependencies (a unary one is handed its operand twice, as
    lines 483-487 arrange). *)
Definition node_value (vals : list D) (k : nat) (n : option (SX.SXNode D)) : D :=
  match n with
  | None => inhabitant
  | Some nd =>
      match SX.getOp nd with
      | OP_CONST => SX.getValue nd
      | OP_PARAMETER => env k
      | OP_BINARY _ =>
          casadi_math_fun (SX.getOp nd) (vals !!! SX.dep0 nd) (vals !!! SX.dep1 nd)
      | _ => casadi_math_fun (SX.getOp nd) (vals !!! SX.dep0 nd) (vals !!! SX.dep0 nd)
      end
  end.

(** The values of all nodes of a sorted node list, first to last. *)
Definition values (nodes : list (option (SX.SXNode D))) : list D :=
  foldl (λ vals n, vals ++ [node_value vals (length vals) n]) [] nodes.

Lemma values_length (nodes : list (option (SX.SXNode D))) :
  length (values nodes) = length nodes.
Proof.
  induction nodes as [|n nodes IH] using rev_ind; [done|].
  unfold values in *. rewrite foldl_app. cbn [foldl]. rewrite !length_app, IH. done.
Qed.

Lemma values_snoc (nodes : list (option (SX.SXNode D))) (n : option (SX.SXNode D)) :
  values (nodes ++ [n]) = values nodes ++ [node_value (values nodes) (length nodes) n].
Proof.
  unfold values at 1. rewrite foldl_app. cbn [foldl]. fold (values nodes).
  by rewrite values_length.
Qed.

Lemma values_prefix (pre rest : list (option (SX.SXNode D))) (c : nat) :
  (c < length pre)%nat → values (pre ++ rest) !!! c = values pre !!! c.
Proof.
  intros Hc. induction rest as [|n rest IH] using rev_ind; [by rewrite app_nil_r|].
  rewrite app_assoc, values_snoc. rewrite lookup_total_app_l; [done|].
  rewrite values_length, length_app. lia.
Qed.

Lemma values_lookup (nodes : list (option (SX.SXNode D))) (k : nat)
    (n : option (SX.SXNode D)) :
  nodes !! k = Some n →
  values nodes !!! k = node_value (values (take k nodes)) k n.
Proof.
  intros Hk. apply lookup_lt_Some in Hk as Hlt.
  rewrite <- (take_drop_middle _ _ _ Hk) at 1.
  rewrite (cons_middle n), app_assoc.
  rewrite values_prefix by (rewrite length_app, length_take; cbn; lia).
  rewrite values_snoc. rewrite length_take, Nat.min_l by lia.
  apply list_lookup_total_middle. rewrite values_length, length_take. lia.
Qed.

Lemma values_before (nodes : list (option (SX.SXNode D))) (k c : nat) :
  (c < k)%nat → (k ≤ length nodes)%nat →
  values (take k nodes) !!! c = values nodes !!! c.
Proof.
  intros Hc Hk. rewrite <- (take_drop k nodes) at 2.
  rewrite values_prefix; [done|]. rewrite length_take. lia.
Qed.

(** ** Sorted node lists *)

(** The operations of scalar nodes. *)
Definition scalar_op (o : Operation) : bool :=
  match o with
  | OP_CONST | OP_PARAMETER | OP_UNARY _ | OP_BINARY _ => true
  | _ => false
  end.

Definition deps (nd : SX.SXNode D) : list nat :=
  match SX.getOp nd with
  | OP_UNARY _ => [SX.dep0 nd]
  | OP_BINARY _ => [SX.dep0 nd; SX.dep1 nd]
  | _ => []
  end.

Definition is_node (nodes : list (option (SX.SXNode D))) (c : nat) : bool :=
  match nodes !! c with
  | Some (Some _) => true
  | _ => false
  end.

Definition defined_before (nodes : list (option (SX.SXNode D))) (k c : nat) : bool :=
  bool_decide (c < k)%nat && is_node nodes c.

(** A node comes after the nodes it depends on; the [j]-th output
    sentinel comes after the node of the [j]-th nonzero of the outputs. *)
Definition sorted_at (nodes : list (option (SX.SXNode D))) (outputv : list (list nat))
    (it : nat * option (SX.SXNode D)) : bool :=
  match it.2 with
  | Some nd => scalar_op (SX.getOp nd) && forallb (defined_before nodes it.1) (deps nd)
  | None =>
      match concat outputv !! count_null (take it.1 nodes) with
      | Some t => defined_before nodes it.1 t
      | None => false
      end
  end.

(** The node list is topologically sorted and holds one output sentinel
    for every nonzero of the outputs. *)
Definition well_sorted (nodes : list (option (SX.SXNode D))) (outputv : list (list nat))
  : bool :=
  forallb (sorted_at nodes outputv) (indexed nodes)
  && bool_decide (count_null nodes = length (concat outputv)).

(** Every input is one of the nodes, and every symbol among the nodes is
    one of the inputs. *)
Definition closed (nodes : list (option (SX.SXNode D))) (inputv : list (list nat)) : bool :=
  forallb (forallb (λ a, bool_decide (a < length nodes)%nat)) inputv
  && forallb (λ it : nat * option (SX.SXNode D),
                match it.2 with
                | Some nd => if bool_decide (SX.getOp nd = OP_PARAMETER)
                             then bool_decide (it.1 ∈ concat inputv) else true
                | None => true
                end) (indexed nodes).

Lemma well_sorted_at (nodes : list (option (SX.SXNode D))) (outputv : list (list nat))
    (k : nat) (n : option (SX.SXNode D)) :
  well_sorted nodes outputv = true → nodes !! k = Some n →
  sorted_at nodes outputv (k, n) = true.
Proof.
  unfold well_sorted. intros [Hall _]%andb_true_iff Hk.
  rewrite forallb_forall in Hall. apply Hall.
  apply list_elem_of_In. by apply elem_of_indexed.
Qed.

Lemma defined_before_spec (nodes : list (option (SX.SXNode D))) (k c : nat) :
  defined_before nodes k c = true → (c < k)%nat ∧ ∃ nd, nodes !! c = Some (Some nd).
Proof.
  unfold defined_before, is_node. intros [Hlt Hn]%andb_true_iff.
  rewrite bool_decide_eq_true in Hlt. split; [done|].
  destruct (nodes !! c) as [[nd|]|]; [by eexists|done|done].
Qed.

Lemma closed_spec (nodes : list (option (SX.SXNode D))) (inputv : list (list nat)) :
  closed nodes inputv = true →
  Forall (Forall (λ a, (a < length nodes)%nat)) inputv
  ∧ ∀ a nd, nodes !! a = Some (Some nd) → SX.getOp nd = OP_PARAMETER → a ∈ concat inputv.
Proof.
  unfold closed. intros [Hin Hsym]%andb_true_iff. split.
  - rewrite forallb_forall in Hin. apply list.Forall_forall. intros row Hrow.
    apply list_elem_of_In, Hin in Hrow. rewrite forallb_forall in Hrow.
    apply list.Forall_forall. intros a Ha. apply list_elem_of_In, Hrow in Ha.
    by rewrite bool_decide_eq_true in Ha.
  - intros a nd Ha Hop. rewrite forallb_forall in Hsym.
    specialize (Hsym (a, Some nd)). cbn [fst snd] in Hsym.
    rewrite (bool_decide_eq_true_2 _ Hop) in Hsym.
    rewrite <- bool_decide_eq_true. apply Hsym, list_elem_of_In. by apply elem_of_indexed.
Qed.

End SXValues.

(** ** The compiled tape computes the values of the outputs *)

Section SXCorrect.

Context {D : Type} `{!Inhabited D}.

Variable casadi_math_fun : Operation → D → D → D.
Variable env : nat → D.

Lemma sx_run_state (l : list (SX.AlgEl D)) (acc : list (SX.AlgEl D) * SX.buffers D) :
  (foldl (SX.run casadi_math_fun) acc l).2 = foldl (SX.exec casadi_math_fun) acc.2 l.
Proof. revert acc. induction l as [|it l IH]; intros acc; cbn [foldl]; [done|]. by rewrite IH. Qed.

(** On a sorted node list the first loop emits, for every node, a record
    that names the node's own position and those of its dependencies,
    all of them earlier. *)
Lemma sx_sorted_records (nodes : list (option (SX.SXNode D))) (outputv : list (list nat))
    (b : SX.build_state D) :
  SX.build nodes outputv = inr b →
  well_sorted nodes outputv = true →
  built (length nodes) nodes outputv b
  ∧ (∀ k e, SX.b_algorithm b !! k = Some e → tape_op (SX.op e) = true)
  ∧ (∀ k e, SX.b_algorithm b !! k = Some e → SX.op e ≠ OP_OUTPUT → SX.i0 e = k)
  ∧ (∀ k e c, SX.b_algorithm b !! k = Some e → c ∈ children e →
              (c < k)%nat ∧ ∃ ec, SX.b_algorithm b !! c = Some ec ∧ SX.op ec ≠ OP_OUTPUT)
  ∧ (∀ k e, SX.b_algorithm b !! k = Some e → SX.op e = OP_OUTPUT →
            (outputv !!! SX.i0 e) !! SX.i2 e = Some (SX.i1 e))
  ∧ (∀ k e, SX.b_algorithm b !! k = Some e → SX.op e ≠ OP_OUTPUT →
            values casadi_math_fun env nodes !!! k
            = instr_value casadi_math_fun env (values casadi_math_fun env nodes) k e).
Proof.
  intros Hbuild Hsorted.
  assert (∀ k nd, nodes !! k = Some (Some nd) →
                  scalar_op (SX.getOp nd) = true
                  ∧ ∀ c, c ∈ deps nd → (c < k)%nat ∧ ∃ ndc, nodes !! c = Some (Some ndc))
    as Hnd.
  { intros k nd Hk. pose proof (well_sorted_at _ _ _ _ Hsorted Hk) as Hs.
    unfold sorted_at in Hs. cbn [fst snd] in Hs. apply andb_true_iff in Hs as [Hop Hdeps].
    split; [done|]. intros c Hc. rewrite forallb_forall in Hdeps.
    apply defined_before_spec, Hdeps, list_elem_of_In, Hc. }
  assert (∀ k t, nodes !! k = Some None →
                 concat outputv !! count_null (take k nodes) = Some t →
                 (t < k)%nat ∧ ∃ ndc, nodes !! t = Some (Some ndc)) as Hsent.
  { intros k t Hk Ht. pose proof (well_sorted_at _ _ _ _ Hsorted Hk) as Hs.
    unfold sorted_at in Hs. cbn [fst snd] in Hs. rewrite Ht in Hs.
    by apply defined_before_spec. }
  destruct (build_prefix (length nodes) outputv nodes b)
    as [Hlen Hrec Hrl Hrc Hch Hsy Hcur Hoff]; [|exact Hbuild|].
  { intros nd [k Hk]%list_elem_of_lookup. destruct (Hnd k nd Hk) as [Hs _].
    intros Hop. by rewrite Hop in Hs. }
  set (B := SX.b_algorithm b) in *.
  set (vals := values casadi_math_fun env nodes).
  (* the records of the first loop *)
  assert (∀ c ndc, nodes !! c = Some (Some ndc) →
                   ∃ ec, B !! c = Some ec ∧ SX.op ec = SX.getOp ndc) as Hnode.
  { intros c ndc Hc. destruct (lookup_lt_is_Some_2 B c) as [ec Hec].
    { rewrite Hlen. by eapply lookup_lt_Some. }
    exists ec. split; [done|]. specialize (Hrec c ec Hec). unfold record_of in Hrec.
    rewrite Hc in Hrec. by destruct Hrec. }
  assert (∀ c ndc, nodes !! c = Some (Some ndc) →
                   ∃ ec, B !! c = Some ec ∧ SX.op ec ≠ OP_OUTPUT) as Hnode'.
  { intros c ndc Hc. destruct (Hnode c ndc Hc) as (ec & Hec & Hop). exists ec.
    split; [done|]. rewrite Hop. destruct (Hnd c ndc Hc) as [Hs _].
    intros Heq. by rewrite Heq in Hs. }
  assert (∀ k e, B !! k = Some e → tape_op (SX.op e) = true) as B_ops.
  { intros k e Hk. specialize (Hrec k e Hk). unfold record_of in Hrec.
    destruct (nodes !! k) as [[nd|]|] eqn:Hn; [| |done].
    - destruct Hrec as (Hop & _). rewrite Hop. destruct (Hnd k nd Hn) as [Hs _].
      by destruct (SX.getOp nd).
    - destruct Hrec as (Hop & _). by rewrite Hop. }
  assert (∀ k e, B !! k = Some e → SX.op e ≠ OP_OUTPUT → SX.i0 e = k) as B_i0.
  { intros k e Hk Hop. specialize (Hrec k e Hk). unfold record_of in Hrec.
    destruct (nodes !! k) as [[nd|]|] eqn:Hn; [| |done].
    - by destruct Hrec as (_ & ? & _).
    - by destruct Hrec as (? & _). }
  assert (∀ k e c, B !! k = Some e → c ∈ children e →
                   (c < k)%nat ∧ ∃ ec, B !! c = Some ec ∧ SX.op ec ≠ OP_OUTPUT)
    as B_children.
  { intros k e c Hk Hc. specialize (Hrec k e Hk). unfold record_of in Hrec.
    destruct (nodes !! k) as [[nd|]|] eqn:Hn; [| |done].
    - destruct Hrec as (Hop & _ & _ & Hdep). destruct (Hnd k nd Hn) as [Hs Hdeps].
      assert (c ∈ deps nd) as Hc'.
      { unfold children in Hc. unfold deps. rewrite Hop in Hc.
        destruct (SX.getOp nd) eqn:Hg; try done; cbn in Hc;
          destruct (Hdep eq_refl) as [H1 H2]; rewrite <- ?H1, <- ?H2; exact Hc. }
      destruct (Hdeps c Hc') as (Hlt & ndc & Hndc). split; [done|]. by eapply Hnode'.
    - destruct Hrec as (Hop & Hcat & _).
      unfold children in Hc. rewrite Hop in Hc. cbn in Hc.
      apply list_elem_of_singleton in Hc. subst c.
      destruct (Hsent k _ Hn Hcat) as (Hlt & ndc & Hndc). split; [done|]. by eapply Hnode'. }
  assert (∀ k e, B !! k = Some e → SX.op e = OP_OUTPUT →
                 (outputv !!! SX.i0 e) !! SX.i2 e = Some (SX.i1 e)) as B_out.
  { intros k e Hk Hop. specialize (Hrec k e Hk). unfold record_of in Hrec.
    destruct (nodes !! k) as [[nd|]|] eqn:Hn; [| |done].
    - destruct Hrec as (Hop' & _). destruct (Hnd k nd Hn) as [Hs _].
      rewrite <- Hop', Hop in Hs. done.
    - by destruct Hrec as (_ & _ & ?). }
  assert (∀ k e, B !! k = Some e → SX.op e ≠ OP_OUTPUT →
                 vals !!! k = instr_value casadi_math_fun env vals k e) as B_vals.
  { intros k e Hk Hop. specialize (Hrec k e Hk). unfold record_of in Hrec.
    destruct (nodes !! k) as [[nd|]|] eqn:Hn; [| |done].
    2:{ by destruct Hrec as (? & _). }
    destruct Hrec as (Hop' & _ & Hconst & Hdep). destruct (Hnd k nd Hn) as [Hs Hdeps].
    apply lookup_lt_Some in Hn as Hlt.
    unfold vals at 1. rewrite (values_lookup _ _ _ _ _ Hn).
    unfold node_value, instr_value. rewrite Hop'. unfold deps in Hdeps.
    destruct (SX.getOp nd) eqn:Hg; try done.
    - by rewrite Hconst.
    - destruct (Hdep eq_refl) as [-> _].
      destruct (Hdeps (SX.dep0 nd)) as [H0 _]; [apply list_elem_of_here|].
      rewrite values_before by lia. done.
    - destruct (Hdep eq_refl) as [-> ->].
      destruct (Hdeps (SX.dep0 nd)) as [H0 _]; [apply list_elem_of_here|].
      destruct (Hdeps (SX.dep1 nd)) as [H1 _];
        [apply list_elem_of_further, list_elem_of_here|].
      rewrite !values_before by lia. done. }
  split; [by split|]. done.
Qed.

Lemma sx_tape_values (live_variables : bool) (nodes : list (option (SX.SXNode D)))
    (inputv outputv : list (list nat)) (f : SX.compiled D) (st : SX.buffers D) :
  SX.init live_variables nodes inputv outputv = inr f →
  well_sorted nodes outputv = true →
  closed nodes inputv = true →
  (∀ ind nz a, (inputv !!! ind) !! nz = Some a → (SX.input st !!! ind) !!! nz = env a) →
  length <$> SX.output st = length <$> outputv →
  (SX.worksize f ≤ length (SX.work_ st))%nat →
  SX.free_vars_ f = []
  ∧ ∀ o nz t, (outputv !!! o) !! nz = Some t →
              (SX.output (foldl (SX.exec casadi_math_fun) st (SX.algorithm_ f)) !!! o) !! nz
              = Some (values casadi_math_fun env nodes !!! t).
Proof.
  intros Hinit Hsorted Hclosed Hinp Hshape Hws. pose proof Hinit as Hinit0.
  destruct (closed_spec _ _ Hclosed) as [Hrange Hsym].
  assert (count_null nodes = sum_list_with length outputv) as Hnull.
  { unfold well_sorted in Hsorted. apply andb_true_iff in Hsorted as [_ Hc].
    rewrite bool_decide_eq_true in Hc. by rewrite <- concat_length_nonzeros. }
  unfold SX.init in Hinit.
  destruct (SX.build nodes outputv) as [err|b] eqn:Hbuild;
    cbn [mbind result_bind] in Hinit; [done|].
  destruct (foldlM (SX.allocate live_variables) _ (SX.b_algorithm b)) as [err|[alg a]]
    eqn:Halloc; cbn [mbind result_bind] in Hinit; [done|].
  destruct (SX.add_inputs inputv _) as [alg' temp'] eqn:Hadd.
  inversion Hinit; subst f; clear Hinit. cbn [SX.algorithm_ SX.worksize SX.free_vars_] in *.
  destruct (sx_sorted_records nodes outputv b Hbuild Hsorted)
    as ([Hlen Hrec Hrl Hrc Hch Hsy Hcur Hoff] & B_ops & B_i0 & B_children & B_out & B_vals).
  set (B := SX.b_algorithm b) in *.
  set (vals := values casadi_math_fun env nodes) in *.
  (* the second loop keeps the operations *)
  destruct (sx_allocate_fold_kind _ _ _ _ Halloc) as (alg0 & Halg & Hkind).
  cbn in Halg. subst alg0. apply Forall2_length in Hkind as Hlen2.
  assert (∀ j e, alg !! j = Some e → SX.op e = OP_PARAMETER ↔ (j, j) ∈ SX.b_symb_loc b)
    as Hpar.
  { intros j e Hj. destruct (Forall2_lookup_r _ _ _ _ _ Hkind Hj) as (eB & HeB & [Hk _]).
    rewrite Hsy. split.
    - intros Hop. split; [done|]. exists eB. split; [done|congruence].
    - intros (_ & eB' & HeB' & Hop). congruence. }
  assert (∀ j e, alg !! j = Some e → SX.op e = OP_PARAMETER → j ∈ concat inputv) as Hpin.
  { intros j e Hj Hop. destruct (Forall2_lookup_r _ _ _ _ _ Hkind Hj) as (eB & HeB & [Hk _]).
    specialize (Hrec j eB HeB). unfold record_of in Hrec.
    destruct (nodes !! j) as [[nd|]|] eqn:Hn; [| |done].
    - destruct Hrec as (Hop' & _). apply (Hsym j nd Hn). congruence.
    - destruct Hrec as (Hop' & _). congruence. }
  (* the input instructions *)
  destruct (mark_symb_loc_spec (length nodes) (SX.b_symb_loc b)) as [Hml Hmv].
  { intros [j a0] Hit. apply Hsy in Hit as [-> _]. done. }
  destruct (add_inputs_inv inputv alg
              (alg, SX.mark_symb_loc (length nodes) (SX.b_symb_loc b))) as [Hinv Hzero].
  { by rewrite <- Hlen2, Hlen. }
  { split; [cbn; by rewrite Hml, <- Hlen2, Hlen|]. split; [done|].
    intros j Hj. destruct (lookup_lt_is_Some_2 alg j Hj) as [e He].
    exists e. split; [done|]. cbn [fst snd].
    rewrite Hmv by (by rewrite <- Hlen, Hlen2).
    destruct (decide (SX.op e = OP_PARAMETER)) as [Hop|Hop].
    - left. rewrite bool_decide_eq_true_2; [done|].
      apply list_elem_of_fmap. exists (j, j). split; [done|]. by apply (Hpar j e).
    - right. rewrite bool_decide_eq_false_2.
      + split; [done|]. exists e. split; [done|]. by left.
      + intros ([j' a0] & -> & Hin)%list_elem_of_fmap. cbn in Hop.
        apply Hop, (Hpar a0 e He). apply Hsy in Hin as Hin'. destruct Hin' as [-> _].
        done. }
  rewrite Hadd in Hinv, Hzero. cbn [fst snd] in Hzero.
  split.
  - apply locate_free_none. intros [j a0] Hit. cbn [snd].
    apply Hsy in Hit as (-> & eB & HeB & Hop). apply Hzero.
    destruct (Forall2_lookup_l _ _ _ _ _ Hkind HeB) as (e & He & [Hk _]).
    apply (Hpin a0 e He). congruence.
  - assert (related inputv alg alg') as Hrel.
    { destruct Hinv as (_ & Hl & Hst). cbn [fst snd] in Hl, Hst. split; [done|].
      intros j e e' He He'.
      destruct (Hst j) as (e0 & He0 & [(Hmark & Hop & _)|(_ & e1 & He1 & Hfin)]).
      - by eapply lookup_lt_Some.
      - exfalso. cbn [snd] in Hmark. rewrite Hzero in Hmark; [lia|]. by apply (Hpin j e0).
      - cbn [fst] in He1. congruence. }
    intros o nz t Ht.
    destruct (outputv !! o) as [x|] eqn:Hx;
      [|by rewrite list_lookup_total_alt, Hx in Ht].
    rewrite (list_lookup_total_correct _ _ _ Hx) in Ht.
    destruct (sx_init_outputs live_variables nodes inputv outputv _ Hinit0 Hnull Hrange
                o nz x Hx) as (e' & He' & (Hop & <- & <-)); [by eapply lookup_lt_Some|].
    cbn [SX.algorithm_] in He'.
    apply (allocated_tape_runs casadi_math_fun env vals inputv outputv B live_variables st
             B_ops B_i0 B_children B_out B_vals Hinp Hshape (length nodes) Hlen
             (SX.b_refcount b) (alg, a) alg' Hrl Hrc Halloc Hrel Hws e' He' Hop t).
    by rewrite (list_lookup_total_correct _ _ _ Hx).
Qed.

End SXCorrect.

(** The value an input buffer gives to the symbol [a]: the entry at the
    first place where [a] is found among the inputs. *)
Definition cells (inputv : list (list nat)) : list (nat * nat * nat) :=
  indexed inputv ≫= λ it, (λ c : nat * nat, (it.1, c.1, c.2)) <$> indexed it.2.

Definition bound {D : Type} `{!Inhabited D} (inputv : list (list nat))
    (input : list (list D)) (a : nat) : D :=
  match list_find (λ c : nat * nat * nat, c.2 = a) (cells inputv) with
  | Some (_, (ind, nz, _)) => (input !!! ind) !!! nz
  | None => inhabitant
  end.

Lemma elem_of_cells (inputv : list (list nat)) (ind nz a : nat) :
  (ind, nz, a) ∈ cells inputv ↔ (inputv !!! ind) !! nz = Some a.
Proof.
  unfold cells. rewrite list_elem_of_bind. split.
  - intros ([ind' row] & Hc & Hrow%elem_of_indexed).
    apply list_elem_of_fmap in Hc as ([nz' a'] & Heq & Hc%elem_of_indexed).
    cbn in Heq. inversion Heq; subst. by rewrite (list_lookup_total_correct _ _ _ Hrow).
  - intros Hc. destruct (inputv !! ind) as [row|] eqn:Hrow.
    + rewrite (list_lookup_total_correct _ _ _ Hrow) in Hc.
      exists (ind, row). split; [|by apply elem_of_indexed].
      apply list_elem_of_fmap. exists (nz, a). split; [done|]. by apply elem_of_indexed.
    + by rewrite list_lookup_total_alt, Hrow in Hc.
Qed.

Lemma bound_spec {D : Type} `{!Inhabited D} (inputv : list (list nat))
    (input : list (list D)) :
  (∀ ind nz ind' nz' a,
     (inputv !!! ind) !! nz = Some a → (inputv !!! ind') !! nz' = Some a →
     (input !!! ind) !!! nz = (input !!! ind') !!! nz') →
  ∀ ind nz a, (inputv !!! ind) !! nz = Some a →
              (input !!! ind) !!! nz = bound inputv input a.
Proof.
  intros Hcons ind nz a Hc. unfold bound.
  destruct (list_find _ (cells inputv)) as [[i [[ind' nz'] a']]|] eqn:Hfind.
  - apply list_find_Some in Hfind as (Hi & Ha & _). cbn in Ha. subst a'.
    apply list_elem_of_lookup_2, elem_of_cells in Hi. by apply (Hcons _ _ _ _ a).
  - apply list_find_None in Hfind. apply elem_of_cells in Hc.
    rewrite list.Forall_forall in Hfind. by destruct (Hfind _ Hc).
Qed.

(** The built-in functions of the example: code 0 adds, any other binary
    code multiplies. *)
Definition arith (o : Operation) (x y : Z) : Z :=
  match o with
  | OP_BINARY 0 => x + y
  | OP_BINARY _ => x * y
  | _ => x
  end.

(** [y = (a + b) * (a + b)], compiled with [live_variables] on. *)
Definition square_of_sum_tape : SX.compiled Z :=
  match SX.init true Toy.sx_square_of_sum [[0%nat; 1%nat]] [[3%nat]] with
  | inr c => c
  | inl _ => {| SX.algorithm_ := []; SX.worksize := 0; SX.free_vars_ := [] |}
  end.

(** The compiled tape computes the expressions it was compiled from.
    Let the node list be topologically sorted with one output sentinel per
    output nonzero, let every input be one of the nodes and every symbol
    one of the inputs, and let [init] have compiled it into [f], with
    [live_variables] on or off.  Run on buffers whose inputs give every
    symbol [a] the value [env a], whose outputs have the declared shape
    and whose work vector has room for [worksize f] entries, [evaluate]
    executes the whole tape and returns with every declared nonzero of
    every output holding the value of the node declared there. *)
Theorem compiled_tape_computes_outputs {D : Type} `{!Inhabited D}
    (casadi_math_fun : Operation → D → D → D) (env : nat → D)
    (live_variables : bool) (nodes : list (option (SX.SXNode D)))
    (inputv outputv : list (list nat)) (f : SX.compiled D) (st : SX.buffers D) :
  SX.init live_variables nodes inputv outputv = inr f →
  well_sorted nodes outputv = true →
  closed nodes inputv = true →
  (∀ ind nz a, (inputv !!! ind) !! nz = Some a → (SX.input st !!! ind) !!! nz = env a) →
  length <$> SX.output st = length <$> outputv →
  (SX.worksize f ≤ length (SX.work_ st))%nat →
  ∃ st', SX.evaluate casadi_math_fun f st = (SX.algorithm_ f, inr st')
         ∧ ∀ o nz t, (outputv !!! o) !! nz = Some t →
                     (SX.output st' !!! o) !! nz
                     = Some (values casadi_math_fun env nodes !!! t).
Proof.
  intros Hinit Hsorted Hclosed Hinp Hshape Hws.
  destruct (sx_tape_values casadi_math_fun env live_variables nodes inputv outputv f st
              Hinit Hsorted Hclosed Hinp Hshape Hws) as [Hfree Hout].
  unfold SX.evaluate. rewrite Hfree. rewrite bool_decide_eq_false_2 by (by intros ?).
  eexists. rewrite sx_run_trace. split; [done|].
  intros o nz t Ht. rewrite sx_run_state. by apply Hout.
Qed.

Lemma compiled_tape_computes_outputs_witness :
  ∃ st', SX.evaluate arith square_of_sum_tape
           {| SX.work_ := [0; 0]; SX.input := [[3; 4]]; SX.output := [[0]] |}
         = (SX.algorithm_ square_of_sum_tape, inr st')
         ∧ (SX.output st' !!! 0%nat) !! 0%nat = Some 49.
Proof.
  destruct (compiled_tape_computes_outputs arith (λ a, if a is 0%nat then 3 else 4) true
              Toy.sx_square_of_sum [[0%nat; 1%nat]] [[3%nat]] square_of_sum_tape
              {| SX.work_ := [0; 0]; SX.input := [[3; 4]]; SX.output := [[0]] |})
    as (st' & Hev & Hout).
  - vm_compute. reflexivity.
  - vm_compute. reflexivity.
  - vm_compute. reflexivity.
  - intros [|ind] [|[|nz]] a Ha; cbn in Ha; inversion Ha; subst; try reflexivity;
      destruct ind; discriminate.
  - reflexivity.
  - vm_compute. lia.
  - exists st'. split; [exact Hev|]. exact (Hout 0%nat 0%nat 3%nat eq_refl).
Defined.

(** Reusing the slots of dead nodes does not change what the tape
    computes.  On a node list as above, compiled once with
    [live_variables] off into [f0], the compilation with [live_variables]
    on returns as well, and the two tapes, run on the same buffers (in
    which a symbol that is listed twice among the inputs is given the same
    value both times), leave the same value in every declared nonzero of
    every output. *)
Theorem live_variables_keep_outputs {D : Type} `{!Inhabited D}
    (casadi_math_fun : Operation → D → D → D)
    (nodes : list (option (SX.SXNode D)))
    (inputv outputv : list (list nat)) (f0 : SX.compiled D) (st : SX.buffers D) :
  SX.init false nodes inputv outputv = inr f0 →
  well_sorted nodes outputv = true →
  closed nodes inputv = true →
  (∀ ind nz ind' nz' a,
     (inputv !!! ind) !! nz = Some a → (inputv !!! ind') !! nz' = Some a →
     (SX.input st !!! ind) !!! nz = (SX.input st !!! ind') !!! nz') →
  length <$> SX.output st = length <$> outputv →
  (SX.worksize f0 ≤ length (SX.work_ st))%nat →
  ∃ f1 st1 st0,
    SX.init true nodes inputv outputv = inr f1
    ∧ SX.evaluate casadi_math_fun f1 st = (SX.algorithm_ f1, inr st1)
    ∧ SX.evaluate casadi_math_fun f0 st = (SX.algorithm_ f0, inr st0)
    ∧ ∀ o nz t, (outputv !!! o) !! nz = Some t →
                (SX.output st1 !!! o) !! nz = (SX.output st0 !!! o) !! nz.
Proof.
  intros Hinit0 Hsorted Hclosed Hcons Hshape Hws.
  pose proof (sx_init_worksize nodes inputv outputv) as Hagree.
  rewrite Hinit0 in Hagree.
  destruct (SX.init true nodes inputv outputv) as [err|f1] eqn:Hinit1; [done|].
  cbn in Hagree.
  pose proof (bound_spec inputv (SX.input st) Hcons) as Hinp.
  destruct (sx_tape_values casadi_math_fun (bound inputv (SX.input st)) true nodes
              inputv outputv f1 st Hinit1 Hsorted Hclosed Hinp Hshape ltac:(lia))
    as [Hfree1 Hout1].
  destruct (sx_tape_values casadi_math_fun (bound inputv (SX.input st)) false nodes
              inputv outputv f0 st Hinit0 Hsorted Hclosed Hinp Hshape Hws)
    as [Hfree0 Hout0].
  exists f1. unfold SX.evaluate. rewrite Hfree1, Hfree0.
  rewrite bool_decide_eq_false_2 by (by intros ?).
  eexists. eexists. rewrite !sx_run_trace. split; [done|]. split; [done|].
  split; [done|]. intros o nz t Ht. rewrite !sx_run_state. cbn [snd].
  by rewrite (Hout1 o nz t Ht), (Hout0 o nz t Ht).
Qed.

Lemma live_variables_keep_outputs_witness :
  ∃ f1 st1 st0,
    SX.init true Toy.sx_square_of_sum [[0%nat; 1%nat]] [[3%nat]] = inr f1
    ∧ SX.evaluate arith f1
        {| SX.work_ := [0; 0; 0; 0]; SX.input := [[3; 4]]; SX.output := [[0]] |}
      = (SX.algorithm_ f1, inr st1)
    ∧ SX.output st1 = [[49]] ∧ SX.output st0 = [[49]].
Proof.
  destruct (live_variables_keep_outputs arith Toy.sx_square_of_sum
              [[0%nat; 1%nat]] [[3%nat]]
              (match SX.init false Toy.sx_square_of_sum [[0%nat; 1%nat]] [[3%nat]] with
               | inr c => c
               | inl _ => {| SX.algorithm_ := []; SX.worksize := 0; SX.free_vars_ := [] |}
               end)
              {| SX.work_ := [0; 0; 0; 0]; SX.input := [[3; 4]]; SX.output := [[0]] |})
    as (f1 & st1 & st0 & Hinit & Hev1 & Hev0 & Hsame).
  - vm_compute. reflexivity.
  - vm_compute. reflexivity.
  - vm_compute. reflexivity.
  - intros [|ind] [|[|nz]] [|ind'] [|[|nz']] a Ha Ha'; cbn in Ha, Ha';
      inversion Ha; subst; inversion Ha'; subst; try reflexivity;
      try (destruct ind; discriminate); destruct ind'; discriminate.
  - reflexivity.
  - vm_compute. lia.
  - exists f1, st1, st0. split; [exact Hinit|]. split; [exact Hev1|].
    vm_compute in Hinit. inversion Hinit; subst f1.
    vm_compute in Hev1. inversion Hev1; subst st1.
    vm_compute in Hev0. inversion Hev0; subst st0. split; reflexivity.
Defined.

(** [init] does not throw on a sorted node list: compiled with
    [live_variables] on or off, a node list that is topologically sorted
    with one output sentinel per output nonzero passes every checked
    access of the two loops, whatever the inputs are. *)
Theorem init_returns_on_sorted_graph {D : Type} `{!Inhabited D}
    (live_variables : bool) (nodes : list (option (SX.SXNode D)))
    (inputv outputv : list (list nat)) :
  well_sorted nodes outputv = true →
  ∃ f, SX.init live_variables nodes inputv outputv = inr f.
Proof.
  intros Hsorted.
  destruct (build_returns (length nodes) outputv nodes) as [b Hb].
  { intros k n Hk. pose proof (well_sorted_at _ _ _ _ Hsorted Hk) as Hs.
    unfold sorted_at in Hs. cbn [fst snd] in Hs. destruct n as [nd|].
    - apply andb_true_iff in Hs as [Hop Hdeps]. rewrite forallb_forall in Hdeps.
      assert (∀ c, c ∈ deps nd → (c < length nodes)%nat) as Hlt.
      { intros c Hc. apply list_elem_of_In, Hdeps, defined_before_spec in Hc
          as (_ & ndc & Hndc). by eapply lookup_lt_Some. }
      unfold deps in Hlt. split; [intros Heq; by rewrite Heq in Hop|].
      destruct (SX.getOp nd); try done; cbn; (split; intros Hn; [|try lia]).
      all: try lia.
      + apply Hlt, list_elem_of_here.
      + apply Hlt, list_elem_of_here.
      + apply Hlt, list_elem_of_further, list_elem_of_here.
    - destruct (concat outputv !! count_null (take k nodes)) as [t|]; [|done].
      exists t. split; [done|]. apply defined_before_spec in Hs as (_ & ndc & Hndc).
      by eapply lookup_lt_Some. }
  change (SX.build nodes outputv = inr b) in Hb.
  pose (fn := λ (_ : Operation) (x _ : D), x).
  pose (env := λ _ : nat, inhabitant : D).
  destruct (sx_sorted_records fn env nodes outputv b Hb Hsorted)
    as ([Hlen Hrec Hrl Hrc Hch Hsy Hcur Hoff] & B_ops & B_i0 & B_children & B_out & B_vals).
  destruct (allocate_fold_returns fn env (values fn env nodes) [] outputv
              (SX.b_algorithm b) live_variables
              {| SX.work_ := []; SX.input := [];
                 SX.output := (λ row : list nat, replicate (length row) inhabitant)
                                <$> outputv |}
              B_ops B_i0 B_children B_out B_vals) with (N := length nodes)
      (rc0 := SX.b_refcount b) (pre := SX.b_algorithm b) (rest := @nil (SX.AlgEl D))
    as [[alg a] Halloc]; try done.
  { cbn. rewrite <- list_fmap_compose. apply list_fmap_ext. intros i row _. cbn.
    by rewrite length_replicate. }
  { by rewrite app_nil_r. }
  unfold SX.init. rewrite Hb. cbn [mbind result_bind]. rewrite Halloc.
  cbn [mbind result_bind]. destruct (SX.add_inputs inputv _). by eexists.
Qed.

Lemma init_returns_on_sorted_graph_witness :
  ∃ f, SX.init true Toy.sx_square_of_sum [[0%nat; 1%nat]] [[3%nat]] = inr f.
Proof.
  apply (init_returns_on_sorted_graph true Toy.sx_square_of_sum [[0%nat; 1%nat]] [[3%nat]]).
  vm_compute. reflexivity.
Defined.
(** * The free variables of a compiled scalar function *)

Section SXFree.

Context {D : Type} `{!Inhabited D}.

(** The positions of the symbols (parameter nodes) of a node list, in
    order. *)
Definition is_symbol (it : nat * option (SX.SXNode D)) : bool :=
  match it.2 with
  | Some nd => bool_decide (SX.getOp nd = OP_PARAMETER)
  | None => false
  end.

Definition symbols (nodes : list (option (SX.SXNode D))) : list nat :=
  (filter (λ it, is_symbol it = true) (indexed nodes)).*1.

Lemma symbols_snoc (nodes : list (option (SX.SXNode D))) (n : option (SX.SXNode D)) :
  symbols (nodes ++ [n])
  = symbols nodes ++ (if is_symbol (length nodes, n) then [length nodes] else []).
Proof.
  unfold symbols. rewrite indexed_snoc, list.filter_app, fmap_app. f_equal.
  rewrite filter_cons, filter_nil.
  destruct (is_symbol (length nodes, n)) eqn:Hs.
  - by rewrite decide_True.
  - by rewrite decide_False.
Qed.

Lemma symbols_NoDup (nodes : list (option (SX.SXNode D))) : NoDup (symbols nodes).
Proof.
  unfold symbols. apply (sublist_NoDup _ (indexed nodes).*1).
  - unfold indexed. rewrite fst_zip by (rewrite length_seq; lia). apply NoDup_seq.
  - apply fmap_sublist, sublist_filter.
Qed.

Lemma symbols_lt (nodes : list (option (SX.SXNode D))) (a : nat) :
  a ∈ symbols nodes → (a < length nodes)%nat.
Proof.
  unfold symbols. intros ([k n] & -> & Hin)%list_elem_of_fmap.
  apply list_elem_of_filter in Hin as [_ Hin]. apply elem_of_indexed in Hin.
  by eapply lookup_lt_Some.
Qed.

(** Lines 395-399: a parameter node adds its place to [symb_loc]. *)
Lemma emit_symb (outputv : list (list nat)) (st st' : SX.build_state D)
    (idx : nat) (n : option (SX.SXNode D)) :
  SX.emit outputv st (idx, n) = inr st' →
  length (SX.b_algorithm st') = S (length (SX.b_algorithm st))
  ∧ SX.b_symb_loc st'
    = SX.b_symb_loc st ++ (if is_symbol (idx, n)
                           then [(length (SX.b_algorithm st), idx)] else []).
Proof.
  intros Hemit. unfold SX.emit in Hemit. unfold is_symbol. cbn [snd].
  destruct n as [nd|]; cbn [from_option] in Hemit.
  - destruct (SX.getOp nd) eqn:Ho; cbn [mbind result_bind mret result_ret] in Hemit.
    3:{ destruct (at_ _ _) as [err|t]; cbn [mbind result_bind mret result_ret] in Hemit;
          [done|].
        case_bool_decide; cbn [mbind result_bind mret result_ret] in Hemit;
          (destruct (SX.count_children _ (SX.b_refcount st)) as [err|rc];
             cbn in Hemit; [done|]);
          inversion Hemit; subst st'; cbn; rewrite length_app, app_nil_r; cbn;
          (split; [lia|done]). }
    all: destruct (SX.count_children _ (SX.b_refcount st)) as [err|rc];
      cbn in Hemit; [done|];
      inversion Hemit; subst st'; cbn; rewrite length_app, ?app_nil_r; cbn;
      (split; [lia|done]).
  - cbn [mbind result_bind mret result_ret] in Hemit.
    destruct (at_ _ _) as [err|t]; cbn [mbind result_bind mret result_ret] in Hemit;
      [done|].
    case_bool_decide; cbn [mbind result_bind mret result_ret] in Hemit;
      (destruct (SX.count_children _ (SX.b_refcount st)) as [err|rc];
         cbn in Hemit; [done|]);
      inversion Hemit; subst st'; cbn; rewrite length_app, app_nil_r; cbn;
      (split; [lia|done]).
Qed.

Lemma build_symb (st0 : SX.build_state D) (outputv : list (list nat))
    (pre : list (option (SX.SXNode D))) :
  SX.b_algorithm st0 = [] → SX.b_symb_loc st0 = [] →
  ∀ st, foldlM (SX.emit outputv) st0 (indexed pre) = inr st →
        length (SX.b_algorithm st) = length pre
        ∧ SX.b_symb_loc st = (λ k, (k, k)) <$> symbols pre.
Proof.
  intros Ha0 Hs0. induction pre as [|n pre IH] using rev_ind; intros st Hfold.
  - inversion Hfold; subst st. by rewrite Ha0, Hs0.
  - rewrite indexed_snoc, foldlM_app in Hfold.
    destruct (foldlM _ _ (indexed pre)) as [err|mid] eqn:Hmid;
      cbn [mbind result_bind] in Hfold; [done|].
    cbn [foldlM] in Hfold.
    destruct (SX.emit outputv mid (length pre, n)) as [err|st1] eqn:Hemit;
      cbn [mbind result_bind] in Hfold; [done|].
    inversion Hfold; subst st1; clear Hfold.
    destruct (IH mid eq_refl) as [Hlen Hsymb].
    apply emit_symb in Hemit as [Hlen' Hsymb'].
    split; [rewrite Hlen', Hlen, length_app; cbn; lia|].
    rewrite Hsymb', Hsymb, symbols_snoc, fmap_app, Hlen.
    by destruct (is_symbol (length pre, n)).
Qed.

(** Lines 516-535 unmark exactly the nodes that are among the inputs. *)
Lemma add_input_temp (ind : nat) (acc : list (SX.AlgEl D) * list Z) (c : nat * nat) :
  (c.2 < length acc.2)%nat → (∀ b, 0 ≤ acc.2 !!! b) →
  length (SX.add_input ind acc c).2 = length acc.2
  ∧ (SX.add_input ind acc c).2 !!! c.2 = 0
  ∧ ∀ b, b ≠ c.2 → (SX.add_input ind acc c).2 !!! b = acc.2 !!! b.
Proof.
  destruct c as [nz a]. cbn [snd]. intros Ha Hpos. unfold SX.add_input.
  case_bool_decide as Hi; cbn [snd].
  - split; [by rewrite length_insert|]. split.
    + by apply list_lookup_total_insert_eq.
    + intros b Hb. by apply list_lookup_total_insert_ne.
  - split; [done|]. split; [|done]. specialize (Hpos a). lia.
Qed.

Definition unmarked (inputv : list (list nat)) (temp : list Z)
    (acc : list (SX.AlgEl D) * list Z) : Prop :=
  length acc.2 = length temp
  ∧ ∀ b, acc.2 !!! b = temp !!! b ∨ (acc.2 !!! b = 0 ∧ b ∈ concat inputv).

Lemma add_inputs_temp (inputv : list (list nat)) (alg : list (SX.AlgEl D)) (temp : list Z) :
  Forall (Forall (λ a, (a < length temp)%nat)) inputv → (∀ b, 0 ≤ temp !!! b) →
  ∀ b, (SX.add_inputs inputv (alg, temp)).2 !!! b
       = if bool_decide (b ∈ concat inputv) then 0 else temp !!! b.
Proof.
  intros Hrange Hpos. unfold SX.add_inputs.
  assert (∀ acc, unmarked inputv temp acc → ∀ b, 0 ≤ acc.2 !!! b) as Hnonneg.
  { intros acc [_ Hacc] b. destruct (Hacc b) as [->|[-> _]]; [done|lia]. }
  assert (∀ ind row nz a acc,
            inputv !! ind = Some row → row !! nz = Some a → unmarked inputv temp acc →
            unmarked inputv temp (SX.add_input ind acc (nz, a))
            ∧ (SX.add_input ind acc (nz, a)).2 !!! a = 0
            ∧ ∀ b, acc.2 !!! b = 0 → (SX.add_input ind acc (nz, a)).2 !!! b = 0) as Hstep.
  { intros ind row nz a acc Hrow Hc Hacc.
    pose proof (Hnonneg acc Hacc) as Hp. destruct Hacc as [Hl Hacc].
    destruct (add_input_temp ind acc (nz, a)) as (Hl1 & Hz1 & Hk1); [|done|].
    { cbn. rewrite Hl. apply (Forall_lookup_1 _ _ _ _ (Forall_lookup_1 _ _ _ _ Hrange Hrow) Hc). }
    cbn [snd] in *. split; [split; [congruence|]|split; [done|]].
    - intros b. destruct (decide (b = a)) as [->|Hne].
      + right. split; [done|]. apply elem_of_concat. exists row.
        split; [by eapply list_elem_of_lookup_2|by eapply list_elem_of_lookup_2].
      + rewrite Hk1 by done. apply Hacc.
    - intros b Hb. destruct (decide (b = a)) as [->|Hne]; [done|]. by rewrite Hk1. }
  destruct (foldl_inv_each (unmarked inputv temp)
              (λ (it : nat * list nat) acc, ∀ a, a ∈ it.2 → acc.2 !!! a = 0)
              (λ acc it, foldl (SX.add_input it.1) acc (indexed it.2))
              (indexed inputv) (alg, temp)) as [[_ HJ] HR]; [| |by split; [|left]|].
  - intros acc1 [ind row] Hrow%elem_of_indexed Hacc1. cbn [fst snd].
    destruct (foldl_inv_each (unmarked inputv temp)
                (λ (c : nat * nat) acc, acc.2 !!! c.2 = 0)
                (SX.add_input ind) (indexed row) acc1) as [HJ HR]; [| |done|].
    + intros acc2 [nz a] Hc%elem_of_indexed Hacc2.
      destruct (Hstep ind row nz a acc2 Hrow Hc Hacc2) as (H1 & H2 & _). done.
    + intros acc2 [nz a] c' Hc%elem_of_indexed Hacc2 Hz.
      destruct (Hstep ind row nz a acc2 Hrow Hc Hacc2) as (_ & _ & H3). by apply H3.
    + split; [done|]. intros a [nz Hnz]%list_elem_of_lookup.
      apply (HR (nz, a)). by apply elem_of_indexed.
  - intros acc1 [ind row] [ind' row'] Hrow%elem_of_indexed Hacc1 Hz a Ha. cbn [fst snd] in *.
    apply (foldl_inv_mem (λ acc, unmarked inputv temp acc ∧ acc.2 !!! a = 0)); [|by auto].
    intros acc2 [nz b] Hc%elem_of_indexed [Hacc2 Hz2].
    destruct (Hstep ind row nz b acc2 Hrow Hc Hacc2) as (H1 & _ & H3). by auto.
  - intros b. case_bool_decide as Hb.
    + apply elem_of_concat in Hb as (row & Hrow & Hb).
      apply list_elem_of_lookup in Hrow as [ind Hind].
      apply (HR (ind, row)); [by apply elem_of_indexed|done].
    + destruct (HJ b) as [?|[_ ?]]; done.
Qed.

(** Lines 537-548 list the symbols that are still marked. *)
Lemma locate_free_filter (symb_loc : list (nat * nat)) (temp : list Z) :
  NoDup symb_loc.*2 →
  SX.locate_free symb_loc temp = filter (λ a, temp !!! a ≠ 0) symb_loc.*2.
Proof.
  unfold SX.locate_free.
  assert (∀ acc0 temp,
            NoDup symb_loc.*2 →
            (foldl (λ (acc : list nat * list Z) (it : nat * nat),
                      if bool_decide (acc.2 !!! it.2 ≠ 0)
                      then (acc.1 ++ [it.2], <[it.2 := 0]> acc.2)
                      else acc) (acc0, temp) symb_loc).1
            = acc0 ++ filter (λ a, temp !!! a ≠ 0) symb_loc.*2) as Hgen.
  { clear temp. induction symb_loc as [|it l IH]; intros acc0 temp Hnd; cbn [foldl].
    - by rewrite app_nil_r.
    - rewrite fmap_cons in Hnd. apply list.NoDup_cons in Hnd as [Hnotin Hnd].
      rewrite fmap_cons, filter_cons. cbn [fst snd].
      case_bool_decide as Hne.
      + rewrite IH by done. rewrite decide_True by done. rewrite <- app_assoc. cbn.
        do 2 f_equal. apply filter_agree. intros a Ha.
        rewrite list_lookup_total_insert_ne by (by intros <-). reflexivity.
      + rewrite IH by done. by destruct (decide (temp !!! it.2 ≠ 0)). }
  intros Hnd. by rewrite Hgen.
Qed.

Lemma sx_init_free_vars (live_variables : bool) (nodes : list (option (SX.SXNode D)))
    (inputv outputv : list (list nat)) (f : SX.compiled D) :
  SX.init live_variables nodes inputv outputv = inr f →
  Forall (Forall (λ a, (a < length nodes)%nat)) inputv →
  length (SX.algorithm_ f) = length nodes
  ∧ SX.free_vars_ f = filter (λ a, a ∉ concat inputv) (symbols nodes).
Proof.
  intros Hinit Hrange. unfold SX.init in Hinit.
  destruct (SX.build nodes outputv) as [err|b] eqn:Hbuild;
    cbn [mbind result_bind] in Hinit; [done|].
  destruct (foldlM (SX.allocate live_variables) _ (SX.b_algorithm b)) as [err|[alg a]]
    eqn:Halloc; cbn [mbind result_bind] in Hinit; [done|].
  destruct (SX.add_inputs inputv _) as [alg' temp'] eqn:Hadd.
  inversion Hinit; subst f; clear Hinit. cbn [SX.algorithm_ SX.free_vars_].
  destruct (build_symb {| SX.b_algorithm := []; SX.b_symb_loc := [];
                          SX.b_curr_oind := SX.first_output outputv; SX.b_curr_nz := 0;
                          SX.b_refcount := replicate (length nodes) 0 |}
              outputv nodes eq_refl eq_refl b Hbuild) as [Hlen Hsymb].
  assert ((SX.b_symb_loc b).*2 = symbols nodes) as Hsnd.
  { rewrite Hsymb, <- list_fmap_compose. apply list_fmap_id. }
  destruct (mark_symb_loc_spec (length nodes) (SX.b_symb_loc b)) as [Hml Hmv].
  { intros it Hit. rewrite Hsymb in Hit.
    by apply list_elem_of_fmap in Hit as (k & -> & _). }
  pose proof (add_inputs_temp inputv alg (SX.mark_symb_loc (length nodes) (SX.b_symb_loc b)))
    as Htemp.
  rewrite Hadd in Htemp. cbn [snd] in Htemp.
  split.
  - destruct (sx_allocate_fold_kind _ _ _ _ Halloc) as (alg0 & Halg & Hkind).
    cbn in Halg. subst alg0. apply Forall2_length in Hkind.
    assert (length (SX.add_inputs inputv
                      (alg, SX.mark_symb_loc (length nodes) (SX.b_symb_loc b))).1
            = length alg) as Hl.
    { unfold SX.add_inputs. apply (foldl_inv_mem (λ acc, length acc.1 = length alg)); [|done].
      intros acc [ind row] _ Hacc. cbn [fst snd].
      apply (foldl_inv_mem (λ acc, length acc.1 = length alg)); [|done].
      intros acc' [nz c] _ Hacc'. unfold SX.add_input.
      case_bool_decide; cbn [fst]; [by rewrite length_alter|done]. }
    rewrite Hadd in Hl. cbn in Hl. congruence.
  - rewrite locate_free_filter by (rewrite Hsnd; apply symbols_NoDup).
    rewrite Hsnd. apply filter_agree. intros s Hs. apply symbols_lt in Hs as Hlt.
    rewrite Htemp.
    + case_bool_decide as Hin; [by split|].
      rewrite Hmv by done. rewrite Hsnd.
      split; [done|]. intros _. rewrite bool_decide_eq_true_2 by done. lia.
    + by rewrite Hml.
    + intros j. destruct (decide (j < length nodes)%nat) as [Hj|Hj].
      * rewrite Hmv by done. case_bool_decide; lia.
      * rewrite list_lookup_total_alt, lookup_ge_None_2 by (rewrite Hml; lia). cbn. done.
Qed.

End SXFree.

(** The free variables of a compiled scalar function are the symbols of
    its expression graph that are not among its inputs, in the order of
    the sorted node list; [init] is given inputs that are all nodes of the
    graph, and returns a tape with one record per node. *)
Theorem free_variables_are_symbols_not_input {D : Type} `{!Inhabited D}
    (live_variables : bool) (nodes : list (option (SX.SXNode D)))
    (inputv outputv : list (list nat)) (f : SX.compiled D) :
  SX.init live_variables nodes inputv outputv = inr f →
  Forall (Forall (λ a, (a < length nodes)%nat)) inputv →
  length (SX.algorithm_ f) = length nodes
  ∧ SX.free_vars_ f = filter (λ a, a ∉ concat inputv) (symbols nodes).
Proof. apply sx_init_free_vars. Qed.

Lemma free_variables_are_symbols_not_input_witness :
  ∃ f, SX.init true Toy.sx_square_of_sum [[1%nat]] [[3%nat]] = inr f
       ∧ length (SX.algorithm_ f) = 5%nat ∧ SX.free_vars_ f = [0%nat].
Proof.
  eexists. split; [vm_compute; reflexivity|].
  apply (free_variables_are_symbols_not_input true Toy.sx_square_of_sum
           [[1%nat]] [[3%nat]]).
  - vm_compute. reflexivity.
  - repeat constructor.
Defined.
(** * The reverse sweep undoes the overwrites of the forward sweep *)

#[local] Existing Instance MX.MX_inhabited.

(** A kernel changes the symbolic work vector only where its result and
    sensitivity pointers point. *)
Definition kernel_frame {MX : Type} `{!MX.MXOps MX}
    (evaluateMX : MX.MXNode → MX.call → list (nat * Z * MX) → @MX.mem MX → @MX.mem MX)
  : Prop :=
  ∀ n c tape m,
    length (MX.swork (evaluateMX n c tape m)) = length (MX.swork m)
    ∧ ∀ k, MX.Swork k ∉ MX.c_output c ++ concat (MX.c_fwdSens c) ++ concat (MX.c_adjSens c) →
           MX.swork (evaluateMX n c tape m) !!! k = MX.swork m !!! k.

(** [purgeSeeds] changes the symbolic work vector only where the
    sensitivity pointers point, and returns sensitivities it was given. *)
Definition purge_frame {MX : Type} `{!MX.MXOps MX}
    (purgeSeeds : list (list MX.ptr) → list (list MX.ptr) → bool → @MX.mem MX →
                  list (list MX.ptr) * list (list MX.ptr) * @MX.mem MX) : Prop :=
  ∀ seed sens fwd m,
    length (MX.swork (purgeSeeds seed sens fwd m).2) = length (MX.swork m)
    ∧ (∀ k, MX.Swork k ∉ concat sens →
            MX.swork (purgeSeeds seed sens fwd m).2 !!! k = MX.swork m !!! k)
    ∧ ∀ d, d ∈ (purgeSeeds seed sens fwd m).1.2 → d ∈ sens.

(** An input or parameter record names the slot it stores to. *)
Definition heads_named (algorithm : list MX.AlgEl) : Prop :=
  Forall (λ it, MX.op it = OP_INPUT ∨ MX.op it = OP_PARAMETER →
                ∃ s rest, MX.res it = s :: rest ∧ 0 ≤ s) algorithm.

Lemma seeds_of_no_swork (l : list Z) (n k : nat) : MX.Swork k ∉ concat (seeds_of l n).
Proof.
  intros (row & Hrow & Hk)%elem_of_concat. unfold seeds_of in Hrow.
  apply list_elem_of_fmap in Hrow as (d & -> & _).
  apply list_elem_of_fmap in Hk as (el & Hk & _).
  unfold MX.dir_ptr in Hk. by case_bool_decide.
Qed.

Section Frames.

Context {MX : Type} `{!MX.MXOps MX}.

Variable create : MX.MXNode → MX.
Variable getOutput : MX.MXNode → nat → MX.
Variable evaluateMX : MX.MXNode → MX.call → list (nat * Z * MX) → @MX.mem MX → @MX.mem MX.
Variable purgeSeeds :
  list (list MX.ptr) → list (list MX.ptr) → bool → @MX.mem MX →
  list (list MX.ptr) * list (list MX.ptr) * @MX.mem MX.
Variable purge_flag : bool.

Hypothesis Hkernel : kernel_frame evaluateMX.
Hypothesis Hpurge : purge_frame purgeSeeds.

(** The memory [m'] keeps the size of the symbolic work vector of [m]
    and its entries outside the slots [slots]. *)
Definition frame (slots : list Z) (m m' : @MX.mem MX) : Prop :=
  length (MX.swork m') = length (MX.swork m)
  ∧ ∀ k, (∀ s, s ∈ slots → 0 ≤ s → Z.to_nat s ≠ k) → MX.swork m' !!! k = MX.swork m !!! k.

Lemma frame_refl (slots : list Z) (m : @MX.mem MX) : frame slots m m.
Proof. by split. Qed.

Lemma frame_trans (slots : list Z) (m1 m2 m3 : @MX.mem MX) :
  frame slots m1 m2 → frame slots m2 m3 → frame slots m1 m3.
Proof.
  intros [Hl1 H1] [Hl2 H2]. split; [congruence|].
  intros k Hk. rewrite H2, H1; auto.
Qed.

Lemma frame_same (slots : list Z) (m m' : @MX.mem MX) :
  MX.swork m' = MX.swork m → frame slots m m'.
Proof. intros Heq. split; by rewrite Heq. Qed.

Lemma frame_insert (slots : list Z) (m : @MX.mem MX) (s : Z) (v : MX) :
  s ∈ slots → 0 ≤ s →
  frame slots m (MX.set_swork (<[Z.to_nat s := v]> (MX.swork m)) m).
Proof.
  intros Hs Hnn. split; cbn; [by rewrite length_insert|].
  intros k Hk. apply list_lookup_total_insert_ne. by apply Hk.
Qed.

Lemma call_frame (slots : list Z) (n : MX.MXNode) (c : MX.call)
    (tape : list (nat * Z * MX)) (m : @MX.mem MX) :
  (∀ k, MX.Swork k ∈ MX.c_output c → ∃ s, s ∈ slots ∧ 0 ≤ s ∧ Z.to_nat s = k) →
  (∀ k, MX.Swork k ∉ concat (MX.c_fwdSens c)) →
  (∀ k, MX.Swork k ∉ concat (MX.c_adjSens c)) →
  frame slots m (evaluateMX n c tape m).
Proof.
  intros Hout Hf Ha. destruct (Hkernel n c tape m) as [Hlen Hkeep]. split; [done|].
  intros k Hk. apply Hkeep. rewrite !elem_of_app. intros [Hin|[Hin|Hin]].
  - destruct (Hout k Hin) as (s & Hs & Hnn & Heq). by apply (Hk s).
  - by apply (Hf k).
  - by apply (Ha k).
Qed.

Lemma purge_keeps (slots : list Z) (seed sens : list (list MX.ptr)) (fwd : bool)
    (m : @MX.mem MX) :
  (∀ k, MX.Swork k ∉ concat sens) →
  frame slots m (purgeSeeds seed sens fwd m).2
  ∧ ∀ k, MX.Swork k ∉ concat (purgeSeeds seed sens fwd m).1.2.
Proof.
  intros Hs. destruct (Hpurge seed sens fwd m) as (Hlen & Hkeep & Hsub).
  split; [split; [done|]|].
  - intros k _. by apply Hkeep.
  - intros k (row & Hrow & Hk)%elem_of_concat. apply (Hs k).
    apply elem_of_concat. exists row. split; [by apply Hsub|done].
Qed.

Lemma fwd_call_frame (slots : list Z) (alg_counter : nat) (n : MX.MXNode)
    (input_p output_p : list MX.ptr) (seed_p sens_p : list (list MX.ptr)) (og : bool)
    (tape : list (nat * Z * MX)) (m : @MX.mem MX) :
  (∀ k, MX.Swork k ∈ output_p → ∃ s, s ∈ slots ∧ 0 ≤ s ∧ Z.to_nat s = k) →
  (∀ k, MX.Swork k ∉ concat sens_p) →
  frame slots m
        (MX.fwd_call evaluateMX purgeSeeds purge_flag alg_counter n input_p output_p
                     seed_p sens_p og tape m).1.
Proof.
  intros Hout Hs. unfold MX.fwd_call. case_bool_decide as Hcall.
  - destruct (purge_keeps slots seed_p sens_p true m Hs) as [Hm1 Hpurged].
    destruct (purgeSeeds seed_p sens_p true m) as [[seed' sens'] m1]. cbn [fst snd] in *.
    eapply frame_trans; [exact Hm1|].
    destruct (_ && _); [|destruct purge_flag]; apply call_frame; cbn; try done.
    all: intros k Hk; by apply elem_of_nil in Hk.
  - cbn [fst]. apply call_frame; cbn; try done.
    intros k Hk. by apply elem_of_nil in Hk.
Qed.

Lemma adj_call_frame (slots : list Z) (alg_counter : nat) (n : MX.MXNode)
    (input_p output_p : list MX.ptr) (seed_p sens_p : list (list MX.ptr))
    (tape : list (nat * Z * MX)) (m : @MX.mem MX) :
  (∀ k, MX.Swork k ∈ output_p → ∃ s, s ∈ slots ∧ 0 ≤ s ∧ Z.to_nat s = k) →
  (∀ k, MX.Swork k ∉ concat sens_p) →
  frame slots m
        (MX.adj_call evaluateMX purgeSeeds purge_flag alg_counter n input_p output_p
                     seed_p sens_p tape m).1.
Proof.
  intros Hout Hs. unfold MX.adj_call. case_bool_decide as Hcall.
  - destruct (purge_keeps slots seed_p sens_p false m Hs) as [Hm1 Hpurged].
    destruct (purgeSeeds seed_p sens_p false m) as [[seed' sens'] m1]. cbn [fst snd] in *.
    eapply frame_trans; [exact Hm1|].
    destruct (_ && _); [|destruct purge_flag]; apply call_frame; cbn; try done.
    all: intros k Hk; by apply elem_of_nil in Hk.
  - cbn [fst]. apply call_frame; cbn; try done.
    intros k Hk. by apply elem_of_nil in Hk.
Qed.

Lemma elem_of_written (it : MX.AlgEl) (s : Z) :
  s ∈ written it ↔ MX.op it ≠ OP_OUTPUT ∧ s ∈ MX.res it ∧ 0 ≤ s.
Proof.
  unfold written. case_bool_decide as Hop.
  - rewrite list_elem_of_filter. tauto.
  - split; [by intros ?%elem_of_nil|]. intros [? _]. done.
Qed.

Lemma save_known_frame (ress : list Z) (tmp sw : list MX) :
  length (MX.save_known ress tmp sw) = length sw
  ∧ ∀ k, (∀ s, s ∈ ress → 0 ≤ s → Z.to_nat s ≠ k) →
         MX.save_known ress tmp sw !!! k = sw !!! k.
Proof.
  unfold MX.save_known.
  apply (foldl_inv_mem
           (λ sw', length sw' = length sw
                   ∧ ∀ k, (∀ s, s ∈ ress → 0 ≤ s → Z.to_nat s ≠ k) → sw' !!! k = sw !!! k));
    [|done].
  intros sw' [j s] Hin%elem_of_indexed [Hlen Hkeep]. cbn [fst snd].
  case_bool_decide as Hnn; [|done]. split; [by rewrite length_insert|].
  intros k Hk. rewrite list_lookup_total_insert_ne; [by apply Hkeep|].
  apply Hk; [by eapply list_elem_of_lookup_2|done].
Qed.

Variable f : @MX.function MX.
Variables (og : bool) (nfdir nadir : nat) (arg_ : list MX) (fseed : list (list MX)).

Lemma fwd_operation_frame (i : nat) (it : MX.AlgEl) (st : @MX.fwd_state MX) :
  MX.op it ≠ OP_OUTPUT →
  frame (written it) (MX.fw_mem st)
        (MX.fw_mem (MX.fwd_operation getOutput evaluateMX purgeSeeds purge_flag
                                     og nfdir i it st)).
Proof.
  intros Hop. unfold MX.fwd_operation. destruct (MX.data it) as [n|]; [|apply frame_refl].
  set (m0 := if og then MX.set_output_tmp _ (MX.fw_mem st) else MX.fw_mem st).
  assert (frame (written it) (MX.fw_mem st) m0) as H0
    by (subst m0; destruct og; by apply frame_same).
  set (m1 := MX.set_dwork _ m0).
  assert (frame (written it) m0 m1) as H1 by (by apply frame_same).
  set (output_p := imap _ (MX.res it)).
  assert (∀ k, MX.Swork k ∈ output_p → ∃ s, s ∈ written it ∧ 0 ≤ s ∧ Z.to_nat s = k) as Hout.
  { intros k Hk. subst output_p. apply elem_of_lookup_imap in Hk as (j & el & Hk & Hel).
    case_bool_decide as Hneg; [done|]. destruct og; [done|]. inversion Hk; subst k.
    exists el. split; [|split; [lia|done]].
    apply elem_of_written. split; [done|]. split; [by eapply list_elem_of_lookup_2|lia]. }
  destruct (negb og || bool_decide (0 < nfdir)%nat).
  - set (r := MX.fwd_call _ _ _ _ _ _ _ _ _ _ _ _).
    assert (frame (written it) m1 r.1) as H2.
    { subst r. apply fwd_call_frame; [exact Hout|]. intros k. apply seeds_of_no_swork. }
    cbn [MX.fw_mem]. destruct og.
    + eapply frame_trans; [exact H0|]. eapply frame_trans; [exact H1|].
      eapply frame_trans; [exact H2|].
      destruct (save_known_frame (MX.res it) (MX.output_tmp r.1) (MX.swork r.1)) as [Hl Hk].
      split; cbn; [done|]. intros k Hk'. apply Hk. intros s Hs Hnn. apply Hk'; [|done].
      apply elem_of_written. done.
    + eapply frame_trans; [exact H0|]. eapply frame_trans; [exact H1|]. exact H2.
  - cbn [MX.fw_mem]. destruct og.
    + eapply frame_trans; [exact H0|]. eapply frame_trans; [exact H1|].
      destruct (save_known_frame (MX.res it) (MX.output_tmp m1) (MX.swork m1)) as [Hl Hk].
      split; cbn; [done|]. intros k Hk'. apply Hk. intros s Hs Hnn. apply Hk'; [|done].
      apply elem_of_written. done.
    + eapply frame_trans; [exact H0|]. exact H1.
Qed.

(** A record of the forward loop changes the symbolic work vector only
    in the slots it stores to. *)
Lemma forward_frame (st : @MX.fwd_state MX) (i : nat) (it : MX.AlgEl) :
  (MX.op it = OP_INPUT ∨ MX.op it = OP_PARAMETER →
   ∃ s rest, MX.res it = s :: rest ∧ 0 ≤ s) →
  frame (written it) (MX.fw_mem st)
        (MX.fw_mem (forward create getOutput evaluateMX purgeSeeds purge_flag
                            f og nfdir nadir arg_ fseed st (i, it))).
Proof.
  intros Hhead. unfold forward, MX.forward.
  destruct (MX.capture_record _ _ _ _ _) as [tape tt_]. cbn [MX.fw_mem].
  assert (∀ v dw, MX.op it = OP_INPUT ∨ MX.op it = OP_PARAMETER →
                  frame (written it) (MX.fw_mem st)
                        (MX.set_dwork dw
                           (MX.set_swork (<[MX.front (MX.res it) := v]>
                                            (MX.swork (MX.fw_mem st))) (MX.fw_mem st))))
    as Hstore.
  { intros v dw Hop. destruct (Hhead Hop) as (s & rest & Hres & Hnn).
    assert (MX.front (MX.res it) = Z.to_nat s) as -> by (unfold MX.front; by rewrite Hres).
    split; cbn; [by rewrite length_insert|].
    intros k Hk. apply list_lookup_total_insert_ne. apply Hk; [|done].
    apply elem_of_written. split; [by destruct Hop as [-> | ->]|].
    split; [rewrite Hres; apply list_elem_of_here|done]. }
  case_bool_decide as Hin; [by apply Hstore; left|].
  case_bool_decide as Hout; [apply frame_refl|].
  case_bool_decide as Hpar; [by apply Hstore; right|].
  by apply (fwd_operation_frame i it
              {| MX.fw_mem := MX.fw_mem st; MX.fw_tape := tape; MX.fw_tt := tt_;
                 MX.fw_res := MX.fw_res st; MX.fw_fsens := MX.fw_fsens st;
                 MX.fw_calls := MX.fw_calls st |}).
Qed.

End Frames.

(** ** The layout of the tape *)

Section TapeLayout.

Context {MX : Type} `{!MX.MXOps MX}.

(** The slots marked as in use once [allocTape] has gone through the
    records [l]. *)
Definition marks_after (u : list bool) (l : list (nat * MX.AlgEl)) : list bool :=
  foldl (λ u ia, record_marked u ia.2) u l.

Lemma entries_app (l1 l2 : list (nat * MX.AlgEl)) :
  ∀ u, entries (MX:=MX) u (l1 ++ l2) = entries u l1 ++ entries (marks_after u l1) l2.
Proof.
  induction l1 as [|ia l1 IH]; intros u; [done|].
  cbn [app entries marks_after foldl]. rewrite IH, app_assoc. done.
Qed.

Lemma spill_records_marks (l : list (nat * MX.AlgEl)) :
  ∀ u (t : list (nat * Z * MX)), (foldl MX.spill_record (u, t) l).1 = marks_after u l.
Proof.
  induction l as [|[i it] l IH]; intros u t; [done|].
  cbn [foldl marks_after]. unfold MX.spill_record at 2, record_marked. cbn [fst snd].
  case_bool_decide; [|apply IH]. rewrite spill_fold. apply IH.
Qed.

Lemma marks_after_stores (worksize : nat) (l : list (nat * MX.AlgEl)) (s : Z) :
  slots_in_range worksize l.*2 → 0 ≤ s → (Z.to_nat s < worksize)%nat →
  marks_after (replicate worksize false) l !! Z.to_nat s = Some true ↔ s ∈ (stores_of l).*2.
Proof.
  intros Hr Hs Hlt.
  destruct (spill_record_inv (MX:=MX) worksize l [] (replicate worksize false, []))
    as (_ & Hmarks & _); [|done|].
  { unfold tape_inv. cbn [fst snd]. split; [by rewrite length_replicate|]. split; [|done].
    intros s' Hs' Hlt'. rewrite lookup_replicate. split.
    - intros [? _]. done.
    - intros Hin. by apply elem_of_nil in Hin. }
  rewrite spill_records_marks in Hmarks. cbn [app] in Hmarks. by apply Hmarks.
Qed.

Lemma marked_length (rs : list Z) : ∀ u, length (marked u rs) = length u.
Proof.
  induction rs as [|s rs IH]; intros u; cbn; [done|].
  case_bool_decide; [|apply IH]. destruct (u !!! Z.to_nat s); rewrite IH; [done|].
  by rewrite length_insert.
Qed.

(** A result stored into a slot in use is spilled. *)
Lemma spilled_in_use (rs : list Z) (c : Z) :
  ∀ u, u !! Z.to_nat c = Some true → c ∈ rs → 0 ≤ c → c ∈ spilled u rs.
Proof.
  induction rs as [|s rs IH]; intros u Hu Hc Hnn; [by apply elem_of_nil in Hc|].
  cbn [spilled]. apply elem_of_cons in Hc as [<-|Hc].
  - rewrite bool_decide_eq_true_2 by done.
    rewrite (list_lookup_total_correct _ _ _ Hu). apply list_elem_of_here.
  - case_bool_decide as Hs; [|by apply IH].
    destruct (u !!! Z.to_nat s) eqn:Hus.
    + apply list_elem_of_further. by apply IH.
    + apply IH; [|done|done].
      destruct (decide (Z.to_nat s = Z.to_nat c)) as [Heq|Hne].
      * rewrite Heq. apply list_lookup_insert_eq. by eapply lookup_lt_Some.
      * by rewrite list_lookup_insert_ne.
Qed.

Lemma elem_of_spilled (rs : list Z) (c : Z) (u : list bool) :
  c ∈ spilled u rs → c ∈ rs ∧ 0 ≤ c.
Proof.
  intros Hc. split.
  - eapply elem_of_sublist; [done|apply spilled_sublist].
  - pose proof (spilled_nonneg rs u) as Hnn. rewrite list.Forall_forall in Hnn. by apply Hnn.
Qed.

End TapeLayout.

(** ** Recovering and restoring the slots of one record *)

Section Recover.

Context {MX : Type} `{!MX.MXOps MX}.

Variable tape : list (nat * Z * MX).
Variable i : nat.
Variable base : nat.

(** The entry below [base], if there is one, belongs to another record. *)
Hypothesis below :
  (0 < base)%nat → ∃ e, tape !! (base - 1)%nat = Some e ∧ e.1.1 ≠ i.

(** Lines 945-951 meet the entries of a record from the last to the
    first; every slot met is left marked with the place of one of its
    entries. *)
Lemma recover_greedy (rest : list Z) :
  ∀ pend marks,
    (∀ j s, pend !! j = Some s → ∃ v, tape !! (base + j)%nat = Some (i, s, v)) →
    reverse pend `sublist_of` rest →
    Forall (λ s, 0 ≤ s) pend →
    ∃ marks',
      foldl (MX.recover_mark i tape) (marks, Z.of_nat (base + length pend) - 1) rest
      = (marks', Z.of_nat base - 1)
      ∧ length marks' = length marks
      ∧ (∀ k, (∀ s, s ∈ pend → Z.to_nat s ≠ k) → marks' !!! k = marks !!! k)
      ∧ (∀ s, s ∈ pend → (Z.to_nat s < length marks)%nat →
              ∃ j v, marks' !!! Z.to_nat s = 1 + Z.of_nat j ∧ tape !! j = Some (i, s, v)).
Proof.
  induction rest as [|c rest IH]; intros pend marks Htape Hsub Hnn.
  - apply sublist_nil_r in Hsub. apply (f_equal reverse) in Hsub.
    rewrite reverse_involutive in Hsub. cbn in Hsub. subst pend.
    exists marks. cbn. rewrite Nat.add_0_r. split; [done|]. split; [done|].
    split; [done|]. intros s Hs. by apply elem_of_nil in Hs.
  - cbn [foldl]. destruct pend as [|p pend _] using rev_ind.
    + (* nothing left to recover *)
      replace (MX.recover_mark i tape (marks, Z.of_nat (base + length (@nil Z)) - 1) c)
        with (marks, Z.of_nat (base + length (@nil Z)) - 1).
      { apply IH; [done|apply sublist_nil_l|done]. }
      unfold MX.recover_mark. cbn [length]. rewrite Nat.add_0_r.
      destruct (decide (0 < base)%nat) as [Hb|Hb].
      * destruct (below Hb) as (e & He & Hne).
        replace (Z.to_nat (Z.of_nat base - 1)) with (base - 1)%nat by lia.
        rewrite (list_lookup_total_correct _ _ _ He).
        rewrite (bool_decide_eq_false_2 (e.1 = (i, c))); [by rewrite andb_false_r|].
        intros Heq. apply Hne. by rewrite Heq.
      * rewrite (bool_decide_eq_false_2 (0 ≤ Z.of_nat base - 1)) by lia.
        by rewrite andb_false_r.
    + (* the entry on top is that of [p] *)
      rewrite length_app in *. cbn [length] in *.
      apply Forall_app in Hnn as [Hnn Hp]. apply Forall_cons_1 in Hp as [Hp _].
      destruct (Htape (length pend) p) as [v Hv]; [by apply list_lookup_middle|].
      replace (Z.to_nat (Z.of_nat (base + (length pend + 1)) - 1))
        with (base + length pend)%nat in * by lia.
      rewrite reverse_app in Hsub. cbn in Hsub.
      assert (∀ j s, pend !! j = Some s → ∃ v, tape !! (base + j)%nat = Some (i, s, v))
        as Htape'.
      { intros j s Hj. apply Htape. by apply lookup_app_l_Some. }
      destruct (decide (c = p)) as [->|Hne].
      * assert (reverse pend `sublist_of` rest) as Hsub'.
        { apply sublist_cons_r in Hsub as [Hsub|(l' & Heq & Hsub)].
          - etrans; [apply sublist_cons, reflexivity|exact Hsub].
          - by inversion Heq; subst. }
        replace (MX.recover_mark i tape
                   (marks, Z.of_nat (base + (length pend + 1)) - 1) p)
          with (<[Z.to_nat p := 1 + (Z.of_nat (base + (length pend + 1)) - 1)]> marks,
                Z.of_nat (base + length pend) - 1).
        2:{ unfold MX.recover_mark.
            replace (Z.to_nat (Z.of_nat (base + (length pend + 1)) - 1))
              with (base + length pend)%nat by lia.
            rewrite (list_lookup_total_correct _ _ _ Hv). cbn [fst].
            rewrite !bool_decide_eq_true_2 by (done || lia). cbn [andb].
            f_equal. lia. }
        destruct (IH pend (<[Z.to_nat p := 1 + (Z.of_nat (base + (length pend + 1)) - 1)]>
                             marks) Htape' Hsub' Hnn)
          as (marks' & Hfold & Hlen & Hkeep & Hset).
        rewrite length_insert in Hlen, Hset.
        exists marks'. split; [done|]. split; [done|]. split.
        -- intros k Hk. rewrite Hkeep.
           ++ apply list_lookup_total_insert_ne. apply Hk.
              apply elem_of_app. right. apply list_elem_of_here.
           ++ intros s Hs. apply Hk. apply elem_of_app. by left.
        -- intros s [Hs|Hs]%elem_of_app Hlt; [by apply Hset|].
           apply list_elem_of_singleton in Hs. subst s.
           destruct (decide (p ∈ pend)) as [Hin|Hnin]; [by apply Hset|].
           rewrite Hkeep.
           ++ exists (base + length pend)%nat, v.
              rewrite list_lookup_total_insert_eq by done. split; [lia|done].
           ++ intros s Hs Heq. apply Hnin.
              rewrite list.Forall_forall in Hnn. specialize (Hnn s Hs).
              assert (s = p) as -> by lia. done.
      * assert (reverse (pend ++ [p]) `sublist_of` rest) as Hsub'.
        { rewrite reverse_app. cbn.
          apply sublist_cons_r in Hsub as [Hsub|(l' & Heq & Hsub)]; [done|].
          inversion Heq; congruence. }
        replace (MX.recover_mark i tape
                   (marks, Z.of_nat (base + (length pend + 1)) - 1) c)
          with (marks, Z.of_nat (base + length (pend ++ [p])) - 1).
        2:{ unfold MX.recover_mark. rewrite length_app. cbn [length].
            replace (Z.to_nat (Z.of_nat (base + (length pend + 1)) - 1))
              with (base + length pend)%nat by lia.
            rewrite (list_lookup_total_correct _ _ _ Hv). cbn [fst].
            rewrite (bool_decide_eq_false_2 ((i, p) = (i, c))) by congruence.
            by rewrite andb_false_r. }
        apply IH; [done|done|]. apply Forall_app. split; [done|]. by constructor.
Qed.

End Recover.

Section Restore.

Context {MX : Type} `{!MX.MXOps MX}.

Variable tape : list (nat * Z * MX).

(** Lines 1046-1055 write back the entry a marked slot points to and
    unmark the slot; other slots are left alone. *)
Lemma restore_fold (rs : list Z) :
  ∀ sw marks,
    length sw = length marks →
    let r := foldl (MX.restore tape) (sw, marks) rs in
    length r.1 = length sw ∧ length r.2 = length marks
    ∧ (∀ k, (marks !!! k ≤ 0 ∨ ∀ c, c ∈ rs → 0 ≤ c → Z.to_nat c ≠ k) →
            r.1 !!! k = sw !!! k ∧ r.2 !!! k = marks !!! k)
    ∧ (∀ c, c ∈ rs → 0 ≤ c → (Z.to_nat c < length marks)%nat →
            0 < marks !!! Z.to_nat c →
            r.1 !!! Z.to_nat c = (tape !!! Z.to_nat (marks !!! Z.to_nat c - 1)).2
            ∧ r.2 !!! Z.to_nat c = 0).
Proof.
  induction rs as [|c0 rs IH]; intros sw marks Hlen; cbn zeta.
  - cbn. split; [done|]. split; [done|]. split; [done|].
    intros c Hc. by apply elem_of_nil in Hc.
  - cbn [foldl]. unfold MX.restore at 2 4 6 8 10 12.
    destruct (bool_decide (0 ≤ c0) && bool_decide (0 < marks !!! Z.to_nat c0)) eqn:Hcond.
    + apply andb_true_iff in Hcond as [Hc0 Hm0].
      rewrite bool_decide_eq_true in Hc0, Hm0.
      destruct (IH (<[Z.to_nat c0 := (tape !!! Z.to_nat (marks !!! Z.to_nat c0 - 1)).2]> sw)
                   (<[Z.to_nat c0 := 0]> marks)) as (Hl1 & Hl2 & Ha & Hb).
      { by rewrite !length_insert. }
      rewrite length_insert in Hl1. rewrite length_insert in Hl2.
      split; [done|]. split; [done|]. split.
      * intros k Hk.
        assert (Z.to_nat c0 ≠ k) as Hne.
        { destruct Hk as [Hk|Hk]; [intros <-; lia|]. apply Hk; [apply list_elem_of_here|done]. }
        destruct (Ha k) as [H1 H2].
        { destruct Hk as [Hk|Hk].
          - left. by rewrite list_lookup_total_insert_ne.
          - right. intros c Hc. apply Hk. by apply list_elem_of_further. }
        rewrite H1, H2. by rewrite !list_lookup_total_insert_ne by done.
      * intros c Hc Hnn Hlt Hpos.
        destruct (decide (Z.to_nat c0 = Z.to_nat c)) as [Heq|Hne].
        -- destruct (Ha (Z.to_nat c)) as [H1 H2].
           { left. rewrite <- Heq. rewrite list_lookup_total_insert_eq by lia. done. }
           rewrite H1, H2, <- Heq. by rewrite !list_lookup_total_insert_eq by lia.
        -- apply elem_of_cons in Hc as [->|Hc]; [done|].
           destruct (Hb c Hc Hnn) as [H1 H2].
           { by rewrite length_insert. }
           { by rewrite list_lookup_total_insert_ne. }
           rewrite H1, H2. by rewrite list_lookup_total_insert_ne by done.
    + apply andb_false_iff in Hcond.
      destruct (IH sw marks Hlen) as (Hl1 & Hl2 & Ha & Hb).
      split; [done|]. split; [done|]. split.
      * intros k Hk. apply Ha. destruct Hk as [Hk|Hk]; [by left|].
        right. intros c Hc. apply Hk. by apply list_elem_of_further.
      * intros c Hc Hnn Hlt Hpos. apply elem_of_cons in Hc as [->|Hc]; [|by apply Hb].
        exfalso. destruct Hcond as [Hf|Hf]; rewrite bool_decide_eq_false in Hf; done.
Qed.

End Restore.

Lemma sublist_reverse {A} (l1 l2 : list A) :
  l1 `sublist_of` l2 → reverse l1 `sublist_of` reverse l2.
Proof.
  induction 1 as [|x l1 l2 _ IH|x l1 l2 _ IH]; [done| |].
  - rewrite !reverse_cons. by apply sublist_app.
  - rewrite reverse_cons. by apply sublist_inserts_r.
Qed.

Lemma all_zero (l : list Z) (n : nat) :
  length l = n → (∀ k, (k < n)%nat → l !!! k = 0) → l = replicate n 0.
Proof.
  intros Hlen Hz. apply list_eq. intros k. destruct (decide (k < n)%nat) as [Hk|Hk].
  - rewrite lookup_replicate_2 by done.
    rewrite list_lookup_lookup_total_lt by lia. by rewrite Hz.
  - rewrite !lookup_ge_None_2; [done|rewrite length_replicate; lia|lia].
Qed.

(** ** The reverse loop *)

Section RestoreSweep.

Context {MX : Type} `{!MX.MXOps MX}.

Variable create : MX.MXNode → MX.
Variable getOutput : MX.MXNode → nat → MX.
Variable evaluateMX : MX.MXNode → MX.call → list (nat * Z * MX) → @MX.mem MX → @MX.mem MX.
Variable purgeSeeds :
  list (list MX.ptr) → list (list MX.ptr) → bool → @MX.mem MX →
  list (list MX.ptr) * list (list MX.ptr) * @MX.mem MX.
Variable purge_flag : bool.
Variable f : @MX.function MX.
Variables (og : bool) (nfdir nadir : nat) (arg_ : list MX) (fseed aseed : list (list MX)).
Variables (res : list MX) (fsens asens : list (list MX)).

Hypothesis Hkernel : kernel_frame evaluateMX.
Hypothesis Hpurge : purge_frame purgeSeeds.
Hypothesis Hrange : slots_in_range (MX.f_worksize f) (MX.f_algorithm_ f).
Hypothesis Hheads : heads_named (MX.f_algorithm_ f).
Hypothesis Hnadir : (0 < nadir)%nat.

Definition fw_after (l : list (nat * MX.AlgEl)) : @MX.fwd_state MX :=
  foldl (forward create getOutput evaluateMX purgeSeeds purge_flag f og nfdir nadir arg_ fseed)
        (MX.forward_start f nfdir res fsens) l.

Definition the_tape : list (nat * Z * MX) :=
  MX.fw_tape (fw_after (indexed (MX.f_algorithm_ f))).

Definition rev_step : @MX.adj_state MX → nat * MX.AlgEl → @MX.adj_state MX :=
  MX.reverse_step evaluateMX purgeSeeds purge_flag f nadir the_tape aseed.

(** The middle of a reverse step (lines 953-1044) changes the symbolic
    work vector only in the slots of the record's results. *)
Lemma reverse_middle_frame (i : nat) (it : MX.AlgEl) (marks : list Z)
    (st : @MX.adj_state MX) :
  let m := MX.ad_mem st in
  let mid :=
    if bool_decide (MX.op it = OP_INPUT) then
      let r := foldl (λ (acc : list (list MX) * list (list MX)) d,
                        let x := (acc.1 !!! MX.front (MX.res it)) !!! d in
                        (MX.store (MX.front (MX.res it)) d MX.mx_null acc.1,
                         MX.store d (MX.front (MX.arg it))
                           (if MX.mx_isEmpty_both x
                            then MX.mx_sparse
                                   (MX.sp_shape (MX.input_sp f !!! MX.front (MX.arg it)))
                            else x)
                           acc.2))
                     (MX.dwork m, MX.ad_asens st) (seq 0 nadir) in
      (MX.set_dwork r.1 m, r.2, MX.ad_calls st)
    else if bool_decide (MX.op it = OP_OUTPUT) then
      let dw := foldl (λ dw d,
                         MX.store (MX.front (MX.arg it)) d
                           (MX.mx_addToSum ((dw !!! MX.front (MX.arg it)) !!! d)
                              (MX.mx_setSparse ((aseed !!! d) !!! MX.front (MX.res it))
                                 (MX.output_sp f !!! MX.front (MX.res it)) true))
                           dw)
                      (MX.dwork m) (seq 0 nadir) in
      (MX.set_dwork dw m, MX.ad_asens st, MX.ad_calls st)
    else if bool_decide (MX.op it = OP_PARAMETER) then
      let dw := foldl (λ dw d, MX.store (MX.front (MX.res it)) d MX.mx_null dw)
                      (MX.dwork m) (seq 0 nadir) in
      (MX.set_dwork dw m, MX.ad_asens st, MX.ad_calls st)
    else
      match MX.data it with
      | None => (m, MX.ad_asens st, MX.ad_calls st)
      | Some n =>
          let input_p := (λ el, if bool_decide (el < 0) then MX.Null
                                else let tmp := marks !!! Z.to_nat el in
                                     if bool_decide (tmp = 0) then MX.Swork (Z.to_nat el)
                                     else MX.Spilled (Z.to_nat (tmp - 1))) <$> MX.arg it in
          let output_p := MX.slot_ptr <$> MX.res it in
          let aseed_p := (λ d, MX.dir_ptr d <$> MX.res it) <$> seq 0 nadir in
          let asens_p := (λ d, MX.dir_ptr d <$> MX.arg it) <$> seq 0 nadir in
          let m1 := MX.set_dwork (MX.adj_seeds nadir it m) m in
          let r := MX.adj_call evaluateMX purgeSeeds purge_flag i n input_p output_p
                               aseed_p asens_p the_tape m1 in
          (r.1, MX.ad_asens st, MX.ad_calls st ++ [r.2])
      end in
  frame (written it) m mid.1.1.
Proof.
  cbn zeta. case_bool_decide as Hin; [by apply frame_same|].
  case_bool_decide as Hout; [by apply frame_same|].
  case_bool_decide as Hpar; [by apply frame_same|].
  destruct (MX.data it) as [n|]; [|apply frame_refl]. cbn [fst].
  eapply frame_trans; [by apply (frame_same _ _ (MX.set_dwork (MX.adj_seeds nadir it
                                                                 (MX.ad_mem st))
                                                              (MX.ad_mem st)))|].
  apply adj_call_frame; [done|done| |].
  - intros k Hk. apply list_elem_of_fmap in Hk as (el & Hk & Hel).
    unfold MX.slot_ptr in Hk. case_bool_decide as Hneg; [done|]. inversion Hk; subst k.
    exists el. split; [|split; [lia|done]].
    apply elem_of_written. split; [done|]. split; [done|lia].
  - intros k. apply (seeds_of_no_swork (MX.arg it) nadir k).
Qed.

Definition u0 : list bool := replicate (MX.f_worksize f) false.

Lemma tape_keys : the_tape.*1 = (entries (MX:=MX) u0 (indexed (MX.f_algorithm_ f))).*1.
Proof.
  destruct (spill_tape_captured create getOutput evaluateMX purgeSeeds purge_flag
              f og nfdir nadir arg_ fseed res fsens Hnadir) as (Hkeys & _ & _).
  unfold the_tape, fw_after. unfold MX.forward_pass in Hkeys.
  etrans; [exact Hkeys|]. unfold MX.allocTape. by rewrite spill_records.
Qed.

Lemma tape_values (k i : nat) (s : Z) (v : MX) :
  the_tape !! k = Some (i, s, v) →
  v = MX.swork (MX.fw_mem (fw_after (take i (indexed (MX.f_algorithm_ f))))) !!! Z.to_nat s.
Proof.
  destruct (spill_tape_captured create getOutput evaluateMX purgeSeeds purge_flag
              f og nfdir nadir arg_ fseed res fsens Hnadir) as (_ & _ & Hvals).
  intros Hk. exact (Hvals k i s v Hk).
Qed.

Lemma rev_step_restores (L1 L2 : list (nat * MX.AlgEl)) (it : MX.AlgEl)
    (st : @MX.adj_state MX) :
  indexed (MX.f_algorithm_ f) = L1 ++ (length L1, it) :: L2 →
  MX.ad_tt st = Z.of_nat (length (entries (MX:=MX) u0 (L1 ++ [(length L1, it)]))) - 1 →
  MX.ad_marks st = replicate (MX.f_worksize f) 0 →
  length (MX.swork (MX.ad_mem st)) = MX.f_worksize f →
  let st' := rev_step st (length L1, it) in
  MX.ad_tt st' = Z.of_nat (length (entries (MX:=MX) u0 L1)) - 1
  ∧ MX.ad_marks st' = replicate (MX.f_worksize f) 0
  ∧ length (MX.swork (MX.ad_mem st')) = MX.f_worksize f
  ∧ (∀ s, s ∈ record_spilled (marks_after u0 L1) it →
          MX.swork (MX.ad_mem st') !!! Z.to_nat s
          = MX.swork (MX.fw_mem (fw_after L1)) !!! Z.to_nat s)
  ∧ (∀ k, (∀ s, s ∈ written it → 0 ≤ s → Z.to_nat s ≠ k) →
          MX.swork (MX.ad_mem st') !!! k = MX.swork (MX.ad_mem st) !!! k).
Proof.
  intros HL Htt Hmarks Hlen st'.
  set (i := length L1) in *.
  set (u := marks_after u0 L1). set (S := record_spilled u it).
  set (base := length (entries (MX:=MX) u0 L1)).
  assert (entries (MX:=MX) u0 (indexed (MX.f_algorithm_ f))
          = entries u0 L1 ++ placeholders i S ++ entries (record_marked u it) L2) as Hent.
  { rewrite HL, entries_app. done. }
  assert (length (entries (MX:=MX) u0 (L1 ++ [(i, it)])) = (base + length S)%nat) as Hbase.
  { rewrite entries_app. cbn [entries]. rewrite app_nil_r, length_app.
    unfold placeholders. by rewrite length_fmap. }
  rewrite Hbase in Htt.
  assert (∀ j s, S !! j = Some s → ∃ v, the_tape !! (base + j)%nat = Some (i, s, v))
    as Hkeys.
  { intros j s Hj. pose proof tape_keys as Hk.
    apply (f_equal (λ l, l !! (base + j)%nat)) in Hk. rewrite Hent in Hk.
    rewrite !list_lookup_fmap in Hk.
    rewrite lookup_app_r in Hk by (subst base; lia).
    replace (base + j - length (entries (MX:=MX) u0 L1))%nat with j in Hk by (subst base; lia).
    rewrite lookup_app_l in Hk
      by (unfold placeholders; rewrite length_fmap; by eapply lookup_lt_Some).
    unfold placeholders in Hk. rewrite list_lookup_fmap, Hj in Hk. cbn in Hk.
    destruct (the_tape !! (base + j)%nat) as [[[i' s'] v]|]; [|done].
    cbn in Hk. inversion Hk; subst. by exists v. }
  assert ((0 < base)%nat → ∃ e, the_tape !! (base - 1)%nat = Some e ∧ e.1.1 ≠ i) as Hbelow.
  { intros Hb. pose proof tape_keys as Hk.
    apply (f_equal (λ l, l !! (base - 1)%nat)) in Hk. rewrite Hent in Hk.
    rewrite !list_lookup_fmap in Hk. rewrite lookup_app_l in Hk by (subst base; lia).
    destruct (lookup_lt_is_Some_2 (entries (MX:=MX) u0 L1) (base - 1)%nat) as [e0 He0];
      [subst base; lia|].
    rewrite He0 in Hk. cbn in Hk.
    destruct (the_tape !! (base - 1)%nat) as [e|]; [|done].
    exists e. split; [done|]. cbn in Hk. inversion Hk as [Hkey]. rewrite Hkey.
    apply list_elem_of_lookup_2, entries_indices in He0.
    intros Heq. rewrite Heq in He0.
    pose proof (indexed_fst (MX.f_algorithm_ f)) as Hfst. rewrite HL, fmap_app in Hfst.
    assert (L1.*1 = seq 0 i) as Hseq.
    { apply (f_equal (take i)) in Hfst. rewrite take_app_length' in Hfst
        by (by rewrite length_fmap).
      rewrite Hfst. rewrite take_seq. f_equal.
      assert (i < length (MX.f_algorithm_ f))%nat; [|lia].
      rewrite <- (indexed_length (MX.f_algorithm_ f)), HL, length_app. cbn. lia. }
    rewrite Hseq in He0. apply elem_of_seq in He0. lia. }
  assert (it ∈ MX.f_algorithm_ f) as Hit.
  { rewrite <- (indexed_snd (MX.f_algorithm_ f)), HL, fmap_app, fmap_cons.
    apply elem_of_app. right. apply list_elem_of_here. }
  assert (MX.op it ≠ OP_OUTPUT →
          Forall (λ s, (Z.to_nat s < MX.f_worksize f)%nat) (MX.res it)) as Hres.
  { unfold slots_in_range in Hrange. rewrite list.Forall_forall in Hrange. by apply Hrange. }
  pose proof (reverse_middle_frame i it) as Hmid. cbn zeta in Hmid.
  unfold st', rev_step, MX.reverse_step.
  destruct (decide (MX.op it = OP_OUTPUT)) as [Hout|Hout].
  - (* an output instruction spills nothing and restores nothing *)
    assert (S = []) as HS by (subst S; unfold record_spilled; by rewrite bool_decide_eq_false_2 by (by intros ?)).
    rewrite HS in *. cbn [length] in Htt. rewrite Nat.add_0_r in Htt.
    rewrite (bool_decide_eq_false_2 (MX.op it ≠ OP_OUTPUT)) by (by intros ?).
    rewrite (bool_decide_eq_false_2 (MX.op it = OP_INPUT)) by congruence.
    rewrite (bool_decide_eq_true_2 (MX.op it = OP_OUTPUT)) by done.
    cbn. split; [done|]. split; [done|]. split; [done|]. split; [|done].
    intros s Hs. by apply elem_of_nil in Hs.
  - rewrite (bool_decide_eq_true_2 (MX.op it ≠ OP_OUTPUT)) by done.
    destruct (recover_greedy the_tape i base Hbelow (reverse (MX.res it)) S
                (MX.ad_marks st) Hkeys) as (marks' & Hfold & Hml & Hmkeep & Hmset).
    { apply sublist_reverse. subst S. unfold record_spilled.
      rewrite bool_decide_eq_true_2 by done. apply spilled_sublist. }
    { subst S. unfold record_spilled. rewrite bool_decide_eq_true_2 by done.
      apply spilled_nonneg. }
    rewrite Htt, Hfold. cbn beta iota zeta.
    specialize (Hmid marks' st). cbn beta iota zeta in Hmid.
    match type of Hmid with
    | frame _ _ (?X).1.1 => set (mid := X) in *
    end.
    destruct mid as [[m' asens'] calls']. cbn [fst] in Hmid. destruct Hmid as [Hl' Hkeep'].
    rewrite Hmarks, length_replicate in Hml.
    destruct (restore_fold the_tape (reverse (MX.res it)) (MX.swork m') marks')
      as (Hrl1 & Hrl2 & Ha & Hb); [congruence|].
    destruct (foldl (MX.restore the_tape) (MX.swork m', marks') (reverse (MX.res it)))
      as [sw marks''] eqn:Hrest.
    cbn [fst snd] in *. cbn [MX.ad_tt MX.ad_marks MX.ad_mem MX.swork MX.set_swork].
    assert (∀ s, s ∈ S → s ∈ MX.res it ∧ 0 ≤ s ∧ (Z.to_nat s < MX.f_worksize f)%nat) as HSin.
    { intros s Hs. subst S. unfold record_spilled in Hs.
      rewrite bool_decide_eq_true_2 in Hs by done. apply elem_of_spilled in Hs as [Hs Hnn].
      split; [done|]. split; [done|]. specialize (Hres Hout).
      rewrite list.Forall_forall in Hres. by apply Hres. }
    assert (∀ k, (k < MX.f_worksize f)%nat → (∀ s, s ∈ S → Z.to_nat s ≠ k) →
                 marks' !!! k = 0) as Hunmarked.
    { intros k Hlt Hk. rewrite Hmkeep by done. rewrite Hmarks.
      by rewrite lookup_total_replicate_2. }
    assert (∀ s, s ∈ S →
                 sw !!! Z.to_nat s = MX.swork (MX.fw_mem (fw_after L1)) !!! Z.to_nat s
                 ∧ marks'' !!! Z.to_nat s = 0) as Hspilled.
    { intros s Hs. destruct (HSin s Hs) as (Hin & Hnn & Hlt).
      destruct (Hmset s Hs) as (j & v & Hj & Hv); [by rewrite Hmarks, length_replicate|].
      destruct (Hb s) as [Hb1 Hb2]; [by apply elem_of_reverse|done|lia|lia|].
      split; [|done]. rewrite Hb1, Hj.
      replace (Z.to_nat (1 + Z.of_nat j - 1)) with j by lia.
      rewrite (list_lookup_total_correct _ _ _ Hv). cbn [snd].
      rewrite (tape_values _ _ _ _ Hv). rewrite HL. subst i. by rewrite take_app_length. }
    split; [done|]. split; [|split; [congruence|split]].
    + apply all_zero; [congruence|]. intros k Hlt.
      destruct (decide (k ∈ Z.to_nat <$> S)) as [Hin|Hin].
      * apply list_elem_of_fmap in Hin as (s & -> & Hs). by apply Hspilled.
      * destruct (Ha k) as [_ Ha2].
        { left. rewrite Hunmarked; [done|done|]. intros s Hs <-. apply Hin.
          apply list_elem_of_fmap. by exists s. }
        rewrite Ha2. apply Hunmarked; [done|]. intros s Hs <-. apply Hin.
        apply list_elem_of_fmap. by exists s.
    + intros s Hs. by apply Hspilled.
    + intros k Hk. destruct (Ha k) as [Ha1 _].
      { right. intros c Hc Hnn. apply Hk; [|done]. apply elem_of_written.
        split; [done|]. split; [by apply elem_of_reverse|done]. }
      rewrite Ha1. by apply Hkeep'.
Qed.

Lemma heads_of (L1 L2 : list (nat * MX.AlgEl)) (i : nat) (it : MX.AlgEl) :
  indexed (MX.f_algorithm_ f) = L1 ++ (i, it) :: L2 →
  MX.op it = OP_INPUT ∨ MX.op it = OP_PARAMETER → ∃ s rest, MX.res it = s :: rest ∧ 0 ≤ s.
Proof.
  intros HL. unfold heads_named in Hheads. rewrite list.Forall_forall in Hheads.
  apply Hheads. rewrite <- (indexed_snd (MX.f_algorithm_ f)), HL, fmap_app, fmap_cons.
  apply elem_of_app. right. apply list_elem_of_here.
Qed.

Lemma fw_after_snoc (L1 : list (nat * MX.AlgEl)) (ia : nat * MX.AlgEl) :
  fw_after (L1 ++ [ia])
  = forward create getOutput evaluateMX purgeSeeds purge_flag f og nfdir nadir arg_ fseed
            (fw_after L1) ia.
Proof. unfold fw_after. by rewrite foldl_app. Qed.

Lemma fw_after_length (L1 : list (nat * MX.AlgEl)) :
  ∀ L2, indexed (MX.f_algorithm_ f) = L1 ++ L2 →
        length (MX.swork (MX.fw_mem (fw_after L1))) = MX.f_worksize f.
Proof.
  induction L1 as [|[i it] L1 IH] using rev_ind; intros L2 HL.
  - unfold fw_after, MX.forward_start. cbn. by rewrite length_replicate.
  - rewrite fw_after_snoc. rewrite <- app_assoc in HL. cbn [app] in HL.
    destruct (forward_frame create getOutput evaluateMX purgeSeeds purge_flag Hkernel Hpurge
                f og nfdir nadir arg_ fseed (fw_after L1) i it) as [Hl _].
    { by apply (heads_of L1 L2 i). }
    rewrite Hl. by apply (IH ((i, it) :: L2)).
Qed.

(** A mark of [allocTape] is never taken back. *)
Lemma marked_keeps (rs : list Z) (k : nat) :
  ∀ u, u !! k = Some true → marked u rs !! k = Some true.
Proof.
  induction rs as [|s rs IH]; intros u Hu; cbn [marked]; [done|].
  case_bool_decide; [|by apply IH]. destruct (u !!! Z.to_nat s) eqn:Hs; [by apply IH|].
  apply IH. destruct (decide (Z.to_nat s = k)) as [<-|Hne].
  - apply list_lookup_insert_eq. by eapply lookup_lt_Some.
  - by rewrite list_lookup_insert_ne.
Qed.

(** What holds once the reverse loop has undone the records after [L1]:
    the tape counter is back where the forward loop had it, no slot is
    marked, and every slot in use holds what it held in the forward loop at
    that point. *)
Definition undone_to (L1 : list (nat * MX.AlgEl)) (st : @MX.adj_state MX) : Prop :=
  MX.ad_tt st = Z.of_nat (length (entries (MX:=MX) u0 L1)) - 1
  ∧ MX.ad_marks st = replicate (MX.f_worksize f) 0
  ∧ length (MX.swork (MX.ad_mem st)) = MX.f_worksize f
  ∧ ∀ k, marks_after u0 L1 !! k = Some true →
         MX.swork (MX.ad_mem st) !!! k = MX.swork (MX.fw_mem (fw_after L1)) !!! k.

Definition rev_start : @MX.adj_state MX :=
  let fw := fw_after (indexed (MX.f_algorithm_ f)) in
  {| MX.ad_mem := MX.set_dwork (replicate (MX.f_worksize f) (replicate nadir MX.mx_null))
                               (MX.fw_mem fw);
     MX.ad_tt := Z.of_nat (MX.fw_tt fw) - 1;
     MX.ad_marks := replicate (MX.f_worksize f) 0;
     MX.ad_asens := asens;
     MX.ad_calls := MX.fw_calls fw |}.

Lemma undone_start : undone_to (indexed (MX.f_algorithm_ f)) rev_start.
Proof.
  destruct (spill_tape_captured create getOutput evaluateMX purgeSeeds purge_flag
              f og nfdir nadir arg_ fseed res fsens Hnadir) as (_ & Htt & _).
  unfold MX.forward_pass in Htt.
  unfold undone_to, rev_start. cbn [MX.ad_tt MX.ad_marks MX.ad_mem MX.swork MX.set_dwork].
  split; [|split; [done|split; [|done]]].
  - pose proof tape_keys as Hk. apply (f_equal length) in Hk. rewrite !length_fmap in Hk.
    rewrite <- Hk. unfold the_tape, fw_after, forward. by rewrite Htt.
  - apply (fw_after_length _ []). by rewrite app_nil_r.
Qed.

Lemma undone_step (L1 L2 : list (nat * MX.AlgEl)) (ia : nat * MX.AlgEl)
    (st : @MX.adj_state MX) :
  indexed (MX.f_algorithm_ f) = L1 ++ ia :: L2 →
  undone_to (L1 ++ [ia]) st → undone_to L1 (rev_step st ia).
Proof.
  intros HL (Htt & Hmarks & Hlen & Hvals). destruct ia as [i it].
  assert (i = length L1) as ->.
  { assert (indexed (MX.f_algorithm_ f) !! length L1 = Some (i, it)) as Hlk
      by (rewrite HL; by apply list_lookup_middle).
    rewrite indexed_lookup in Hlk.
    destruct (MX.f_algorithm_ f !! length L1); simpl in Hlk; congruence. }
  destruct (rev_step_restores L1 L2 it st HL Htt Hmarks Hlen)
    as (Htt' & Hmarks' & Hlen' & Hsp & Hkeep).
  split; [done|]. split; [done|]. split; [done|].
  intros k Hk.
  assert (length (marks_after u0 L1) = MX.f_worksize f) as Hul.
  { assert (∀ l u, length (marks_after u l) = length u) as Hgen.
    { induction l as [|x l IH]; intros u; [done|]. cbn [marks_after foldl].
      unfold marks_after in IH. rewrite IH. unfold record_marked.
      case_bool_decide; [apply marked_length|done]. }
    rewrite Hgen. apply length_replicate. }
  destruct (decide (k ∈ Z.to_nat <$> written it)) as [Hin|Hin].
  - apply list_elem_of_fmap in Hin as (s & -> & Hs).
    apply elem_of_written in Hs as (Hop & Hs & Hnn).
    apply Hsp. unfold record_spilled. rewrite bool_decide_eq_true_2 by done.
    by apply spilled_in_use.
  - rewrite Hkeep.
    2:{ intros s Hs Hnn <-. apply Hin. apply list_elem_of_fmap. by exists s. }
    rewrite Hvals.
    2:{ unfold marks_after. rewrite foldl_app. cbn [foldl snd]. unfold record_marked.
        case_bool_decide; [|done]. by apply marked_keeps. }
    rewrite fw_after_snoc.
    destruct (forward_frame create getOutput evaluateMX purgeSeeds purge_flag Hkernel Hpurge
                f og nfdir nadir arg_ fseed (fw_after L1) (length L1) it) as [_ Hfr].
    { by apply (heads_of L1 L2 (length L1)). }
    apply Hfr. intros s Hs Hnn <-. apply Hin. apply list_elem_of_fmap. by exists s.
Qed.

Lemma undone_suffix (L2 : list (nat * MX.AlgEl)) :
  ∀ L1, indexed (MX.f_algorithm_ f) = L1 ++ L2 →
        undone_to L1 (foldl rev_step rev_start (reverse L2)).
Proof.
  induction L2 as [|ia L2 IH]; intros L1 HL.
  - rewrite app_nil_r in HL. rewrite <- HL. apply undone_start.
  - rewrite reverse_cons, foldl_app. cbn [foldl].
    apply (undone_step L1 L2); [done|]. apply IH. by rewrite <- app_assoc.
Qed.

End RestoreSweep.

(** The state of the reverse loop of [evalMX] (lines 931-1057) once it has
    undone the records from [i] on; with [i = 0] it is the whole loop. *)
Definition undone {MX : Type} `{!MX.MXOps MX}
    (evaluateMX : MX.MXNode → MX.call → list (nat * Z * MX) → MX.mem → MX.mem)
    (purgeSeeds : list (list MX.ptr) → list (list MX.ptr) → bool → MX.mem →
                  list (list MX.ptr) * list (list MX.ptr) * MX.mem)
    (purge_flag : bool) (f : MX.function) (nadir : nat) (aseed asens : list (list MX))
    (fw : MX.fwd_state) (i : nat) : MX.adj_state :=
  foldl (MX.reverse_step evaluateMX purgeSeeds purge_flag f nadir (MX.fw_tape fw) aseed)
        {| MX.ad_mem := MX.set_dwork (replicate (MX.f_worksize f) (replicate nadir MX.mx_null))
                                     (MX.fw_mem fw);
           MX.ad_tt := Z.of_nat (MX.fw_tt fw) - 1;
           MX.ad_marks := replicate (MX.f_worksize f) 0;
           MX.ad_asens := asens;
           MX.ad_calls := MX.fw_calls fw |}
        (reverse (drop i (indexed (MX.f_algorithm_ f)))).

Lemma undone_all {MX : Type} `{!MX.MXOps MX}
    (evaluateMX : MX.MXNode → MX.call → list (nat * Z * MX) → MX.mem → MX.mem)
    (purgeSeeds : list (list MX.ptr) → list (list MX.ptr) → bool → MX.mem →
                  list (list MX.ptr) * list (list MX.ptr) * MX.mem)
    (purge_flag : bool) (f : MX.function) (nadir : nat) (aseed asens : list (list MX))
    (fw : MX.fwd_state) :
  undone evaluateMX purgeSeeds purge_flag f nadir aseed asens fw 0
  = MX.reverse_pass evaluateMX purgeSeeds purge_flag f nadir aseed asens fw.
Proof. reflexivity. Qed.

Lemma stores_before (algorithm : list MX.AlgEl) (i j : nat) (s : Z) :
  (j, s) ∈ stores algorithm → (j < i)%nat →
  (j, s) ∈ stores_of (take i (indexed algorithm)).
Proof.
  intros Hin Hlt. unfold stores in Hin.
  rewrite <- (take_drop i (indexed algorithm)) in Hin. unfold stores_of in Hin |- *.
  rewrite bind_app in Hin. apply elem_of_app in Hin as [Hin|Hin]; [done|].
  apply list_elem_of_bind in Hin as ([j' it] & Hjs & Hia).
  apply list_elem_of_fmap in Hjs as (s' & Heq & _). cbn [fst] in Heq. inversion Heq; subst j' s'.
  apply list_elem_of_lookup in Hia as [n Hn]. rewrite lookup_drop, indexed_lookup in Hn.
  destruct (algorithm !! (i + n)%nat); simpl in Hn; [|done]. inversion Hn. lia.
Qed.

(** *** The kernels of the examples *)

Definition keeps (S : list MX.ptr) (m m' : @MX.mem Toy.mx) : Prop :=
  length (MX.swork m') = length (MX.swork m)
  ∧ ∀ k, MX.Swork k ∉ S → MX.swork m' !!! k = MX.swork m !!! k.

Lemma write_keeps (S : list MX.ptr) (v : Toy.mx) (m : MX.mem) (p : MX.ptr) :
  p ∈ S → keeps S m (Toy.write v m p).
Proof.
  intros Hp. destruct p as [|k| | |]; try done. split; cbn; [by rewrite length_insert|].
  intros k' Hk'. apply list_lookup_total_insert_ne. by intros ->.
Qed.

Lemma fold_keeps {A} (S : list MX.ptr) (g : MX.mem → A → MX.mem) (l : list A) :
  (∀ m x, x ∈ l → keeps S m (g m x)) → ∀ m, keeps S m (foldl g m l).
Proof.
  induction l as [|x l IH]; intros Hg m; [done|]. cbn [foldl].
  destruct (IH (λ m y Hy, Hg m y (list_elem_of_further _ _ _ Hy)) (g m x)) as [Hl Hk].
  destruct (Hg m x (list_elem_of_here _ _)) as [Hl' Hk'].
  split; [congruence|]. intros k Hin. by rewrite Hk, Hk'.
Qed.

Lemma keeps_trans (S : list MX.ptr) (m1 m2 m3 : MX.mem) :
  keeps S m1 m2 → keeps S m2 m3 → keeps S m1 m3.
Proof.
  intros [Hl1 Hk1] [Hl2 Hk2]. split; [congruence|]. intros k Hk. by rewrite Hk2, Hk1.
Qed.

Lemma toy_kernel_frame : kernel_frame Toy.evaluateMX.
Proof.
  intros n c tape m.
  set (S := MX.c_output c ++ concat (MX.c_fwdSens c) ++ concat (MX.c_adjSens c)).
  change (keeps S m (Toy.evaluateMX n c tape m)). unfold Toy.evaluateMX. cbn zeta.
  eapply keeps_trans; cycle 1.
  { apply fold_keeps. intros m' d Hd. apply fold_keeps. intros m'' p Hp.
    apply write_keeps. subst S. apply elem_of_app. right. apply elem_of_app. right.
    apply elem_of_concat. exists d.2. split; [|done].
    destruct d as [d1 d2]. by apply elem_of_zip_r in Hd. }
  eapply keeps_trans; cycle 1.
  { apply fold_keeps. intros m' d Hd. apply fold_keeps. intros m'' p Hp.
    apply write_keeps. subst S. apply elem_of_app. right. apply elem_of_app. left.
    apply elem_of_concat. exists d.2. split; [|done].
    destruct d as [d1 d2]. by apply elem_of_zip_r in Hd. }
  destruct (MX.c_output_given c); [done|]. apply fold_keeps. intros m' p Hp.
  apply write_keeps. subst S. apply elem_of_app. by left.
Qed.

Lemma toy_purge_frame : purge_frame Toy.purgeSeeds.
Proof.
  intros seed sens fwd m. unfold Toy.purgeSeeds. cbn [fst snd].
  assert (keeps (concat sens) m
            (foldl (λ m (d : list MX.ptr * list MX.ptr),
                      foldl (Toy.write (MX.mx_sparse (2%nat, 1%nat))) m d.2) m
                   (filter (λ d, Toy.seeded m d = false) (zip seed sens)))) as [Hl Hk].
  { apply fold_keeps. intros m' d Hd. apply fold_keeps. intros m'' p Hp.
    apply write_keeps. apply elem_of_concat. exists d.2. split; [|done].
    apply list_elem_of_filter in Hd as [_ Hd]. destruct d as [d1 d2].
    by apply elem_of_zip_r in Hd. }
  split; [done|]. split; [done|].
  intros d Hd. apply list_elem_of_fmap in Hd as ([d1 d2] & -> & Hd).
  apply list_elem_of_filter in Hd as [_ Hd]. by apply elem_of_zip_r in Hd.
Qed.

(** When the reverse loop of [evalMX] has undone the records from [i] on,
    every work slot that a record before [i] stored into holds again the
    expression it held when the forward loop reached record [i], and no
    slot is left marked: each record restores from the spill tape what the
    forward loop overwrote.  The kernels are supposed to change the
    symbolic work vector only where their result and sensitivity pointers
    point. *)
Theorem reverse_sweep_restores_work {MX : Type} `{!MX.MXOps MX}
    (create : MX.MXNode → MX) (getOutput : MX.MXNode → nat → MX)
    (evaluateMX : MX.MXNode → MX.call → list (nat * Z * MX) → MX.mem → MX.mem)
    (purgeSeeds : list (list MX.ptr) → list (list MX.ptr) → bool → MX.mem →
                  list (list MX.ptr) * list (list MX.ptr) * MX.mem)
    (purge_flag : bool) (f : MX.function) (og : bool) (nfdir nadir : nat)
    (arg_ : list MX) (fseed aseed : list (list MX)) (res : list MX)
    (fsens asens : list (list MX)) (i j : nat) (s : Z) :
  kernel_frame evaluateMX →
  purge_frame purgeSeeds →
  slots_in_range (MX.f_worksize f) (MX.f_algorithm_ f) →
  heads_named (MX.f_algorithm_ f) →
  (0 < nadir)%nat →
  (j, s) ∈ stores (MX.f_algorithm_ f) →
  (j < i)%nat →
  let fw := MX.forward_pass create getOutput evaluateMX purgeSeeds purge_flag
                            f og nfdir nadir arg_ fseed res fsens in
  let st := undone evaluateMX purgeSeeds purge_flag f nadir aseed asens fw i in
  MX.swork (MX.ad_mem st) !!! Z.to_nat s
  = MX.swork (MX.fw_mem (reached create getOutput evaluateMX purgeSeeds purge_flag
                                 f og nfdir nadir arg_ fseed res fsens i)) !!! Z.to_nat s
  ∧ MX.ad_marks st = replicate (MX.f_worksize f) 0.
Proof.
  intros Hkernel Hpurge Hrange Hheads Hnadir Hin Hlt fw st.
  destruct (undone_suffix create getOutput evaluateMX purgeSeeds purge_flag f og nfdir nadir
              arg_ fseed aseed res fsens asens Hkernel Hpurge Hrange Hheads Hnadir
              (drop i (indexed (MX.f_algorithm_ f))) (take i (indexed (MX.f_algorithm_ f))))
    as (_ & Hmarks & _ & Hvals); [by rewrite take_drop|].
  split; [|exact Hmarks].
  apply stores_before with (i := i) in Hin; [|done].
  assert (0 ≤ s ∧ (Z.to_nat s < MX.f_worksize f)%nat) as [Hnn Hr].
  { apply list_elem_of_bind in Hin as ([j' it] & Hjs & Hia).
    apply list_elem_of_fmap in Hjs as (s' & Heq & Hs). inversion Heq; subst s'.
    cbn [snd] in Hs. apply elem_of_written in Hs as (Hop & Hs & Hnn). split; [done|].
    assert (it ∈ MX.f_algorithm_ f) as Hit.
    { apply elem_of_take in Hia as (n & Hn & _). rewrite indexed_lookup in Hn.
      destruct (MX.f_algorithm_ f !! n) eqn:Hlk; simpl in Hn; [|done].
      inversion Hn; subst. by eapply list_elem_of_lookup_2. }
    unfold slots_in_range in Hrange. rewrite list.Forall_forall in Hrange.
    specialize (Hrange it Hit Hop). rewrite list.Forall_forall in Hrange. by apply Hrange. }
  apply Hvals. apply marks_after_stores; [|done|done|].
  - unfold slots_in_range in *. rewrite fmap_take, indexed_snd. by apply Forall_take.
  - apply list_elem_of_fmap. by exists (j, s).
Qed.

Lemma reverse_sweep_restores_work_witness :
  let fw := MX.forward_pass Toy.create Toy.getOutput Toy.evaluateMX Toy.purgeSeeds true
                            Toy.f false 0 1 [Toy.sym 10 "u"; Toy.sym 11 "v"] []
                            [MX.mx_null] [] in
  let st := undone Toy.evaluateMX Toy.purgeSeeds true Toy.f 1 [[Toy.expr 20]]
                   [[MX.mx_null; MX.mx_null]] fw 3 in
  MX.swork (MX.ad_mem st) !!! Z.to_nat 0
  = MX.swork (MX.fw_mem (reached Toy.create Toy.getOutput Toy.evaluateMX Toy.purgeSeeds
                                 true Toy.f false 0 1 [Toy.sym 10 "u"; Toy.sym 11 "v"] []
                                 [MX.mx_null] [] 3)) !!! Z.to_nat 0
  ∧ MX.ad_marks st = replicate (MX.f_worksize Toy.f) 0.
Proof.
  apply (reverse_sweep_restores_work Toy.create Toy.getOutput Toy.evaluateMX Toy.purgeSeeds
           true Toy.f false 0 1 [Toy.sym 10 "u"; Toy.sym 11 "v"] [] [[Toy.expr 20]]
           [MX.mx_null] [] [[MX.mx_null; MX.mx_null]] 3 0 0).
  - exact toy_kernel_frame.
  - exact toy_purge_frame.
  - unfold slots_in_range.
    match goal with |- ?P => apply (bool_decide_eq_true_1 P) end.
    vm_compute. reflexivity.
  - unfold heads_named. vm_compute MX.f_algorithm_.
    repeat (apply List.Forall_cons || apply List.Forall_nil);
      cbn; intros [Hop|Hop]; try discriminate Hop; eexists _, _; split; try reflexivity; lia.
  - lia.
  - match goal with |- ?P => apply (bool_decide_eq_true_1 P) end.
    vm_compute. reflexivity.
  - lia.
Defined.

(** On the example the call of record 3 stores into slot 0, which held
    the first input; the reverse loop puts the input back. *)
Example restore_of_call :
  let fw := MX.forward_pass Toy.create Toy.getOutput Toy.evaluateMX Toy.purgeSeeds true
                            Toy.f false 0 1 [Toy.sym 10 "u"; Toy.sym 11 "v"] []
                            [MX.mx_null] [] in
  MX.swork (MX.fw_mem fw) !!! 0%nat ≠ Toy.sym 10 "u"
  ∧ MX.swork (MX.ad_mem (undone Toy.evaluateMX Toy.purgeSeeds true Toy.f 1 [[Toy.expr 20]]
                                [[MX.mx_null; MX.mx_null]] fw 3)) !!! 0%nat
    = Toy.sym 10 "u".
Proof. split; [vm_compute; discriminate|vm_compute; reflexivity]. Qed.
(** * The forward sparsity sweep computes the dependencies of the outputs *)

(** ** The tape does not depend on the values of the constants *)

Definition result_rel {A B} (R : A → B → Prop) (x : result A) (y : result B) : Prop :=
  match x, y with
  | inl e, inl e' => e = e'
  | inr a, inr b => R a b
  | _, _ => False
  end.

Lemma foldlM_rel {A A' B B'} (R : A → A' → Prop) (Q : B → B' → Prop)
    (f : A → B → result A) (f' : A' → B' → result A') (l : list B) (l' : list B') :
  (∀ a a' x x', R a a' → Q x x' → result_rel R (f a x) (f' a' x')) →
  Forall2 Q l l' →
  ∀ a a', R a a' → result_rel R (foldlM f a l) (foldlM f' a' l').
Proof.
  intros Hstep Hl. induction Hl as [|x x' l l' Hx _ IH]; intros a a' Ha; [done|].
  cbn [foldlM]. pose proof (Hstep a a' x x' Ha Hx) as Hs.
  destruct (f a x) as [e|a1], (f' a' x') as [e'|a1']; cbn in *; try done. by apply IH.
Qed.

Lemma foldl_rel {A A' B B'} (R : A → A' → Prop) (Q : B → B' → Prop)
    (f : A → B → A) (f' : A' → B' → A') (l : list B) (l' : list B') :
  (∀ a a' x x', R a a' → Q x x' → R (f a x) (f' a' x')) →
  Forall2 Q l l' →
  ∀ a a', R a a' → R (foldl f a l) (foldl f' a' l').
Proof.
  intros Hstep Hl. induction Hl as [|x x' l l' Hx _ IH]; intros a a' Ha; [done|].
  cbn [foldl]. apply IH. by apply Hstep.
Qed.

Lemma Forall2_same {A} (l : list A) : Forall2 eq l l.
Proof. induction l; by constructor. Qed.

Section SXShape.

Context {D : Type} `{!Inhabited D}.

(** A node with its value forgotten: the sparsity sweep treats every
    constant as the empty mask. *)
Definition mask_node (nd : SX.SXNode D) : SX.SXNode Z :=
  {| SX.getOp := SX.getOp nd; SX.getValue := 0;
     SX.dep0 := SX.dep0 nd; SX.dep1 := SX.dep1 nd |}.

Definition mask_nodes (nodes : list (option (SX.SXNode D))) : list (option (SX.SXNode Z)) :=
  fmap (M:=list) (fmap (M:=option) mask_node) nodes.

(** Two records that differ at most in the value they carry, which is
    zero in the second if they are constants. *)
Definition same_record (e : SX.AlgEl D) (e' : SX.AlgEl Z) : Prop :=
  SX.op e' = SX.op e ∧ SX.i0 e' = SX.i0 e ∧ SX.i1 e' = SX.i1 e ∧ SX.i2 e' = SX.i2 e
  ∧ (SX.op e = OP_CONST → SX.d e' = 0).

Definition same_build (b : SX.build_state D) (b' : SX.build_state Z) : Prop :=
  Forall2 same_record (SX.b_algorithm b) (SX.b_algorithm b')
  ∧ SX.b_symb_loc b' = SX.b_symb_loc b
  ∧ SX.b_curr_oind b' = SX.b_curr_oind b
  ∧ SX.b_curr_nz b' = SX.b_curr_nz b
  ∧ SX.b_refcount b' = SX.b_refcount b.

Lemma count_children_same (e : SX.AlgEl D) (e' : SX.AlgEl Z) (rc : list Z) :
  same_record e e' → SX.count_children e' rc = SX.count_children e rc.
Proof.
  intros (Hop & _ & H1 & H2 & _). unfold SX.count_children, SX.child. by rewrite Hop, H1, H2.
Qed.

Lemma emit_same (outputv : list (list nat)) (b : SX.build_state D) (b' : SX.build_state Z)
    (idx : nat) (n : option (SX.SXNode D)) :
  same_build b b' →
  result_rel same_build (SX.emit outputv b (idx, n))
                        (SX.emit outputv b' (idx, mask_node <$> n)).
Proof.
  intros (Halg & Hsy & Hoi & Hnz & Hrc).
  assert (∀ (ae : SX.AlgEl D) (ae' : SX.AlgEl Z) sl oi nz,
            same_record ae ae' →
            result_rel same_build
              (refcount ← SX.count_children ae (SX.b_refcount b);
               mret {| SX.b_algorithm := SX.b_algorithm b ++ [ae]; SX.b_symb_loc := sl;
                       SX.b_curr_oind := oi; SX.b_curr_nz := nz;
                       SX.b_refcount := refcount |})
              (refcount ← SX.count_children ae' (SX.b_refcount b');
               mret {| SX.b_algorithm := SX.b_algorithm b' ++ [ae']; SX.b_symb_loc := sl;
                       SX.b_curr_oind := oi; SX.b_curr_nz := nz;
                       SX.b_refcount := refcount |})) as Hfin.
  { intros ae ae' sl oi nz Hae. rewrite (count_children_same ae ae') by done. rewrite Hrc.
    destruct (SX.count_children ae (SX.b_refcount b)) as [err|rc]; cbn; [done|].
    split; [|done]. cbn. apply Forall2_app; [done|]. by constructor. }
  assert (Forall2 same_record (SX.b_algorithm b) (SX.b_algorithm b') →
          length (SX.b_algorithm b') = length (SX.b_algorithm b)) as Hlen.
  { intros H'. symmetry. by eapply Forall2_length. }
  unfold SX.emit.
  destruct n as [nd|]; cbn [fmap option_fmap option_map from_option mask_node SX.getOp
                             SX.getValue SX.dep0 SX.dep1].
  - destruct (SX.getOp nd) eqn:Hop; cbn [mbind result_bind mret result_ret];
      rewrite ?Hsy, ?Hoi, ?Hnz, ?(Hlen Halg);
      try (apply Hfin; repeat split; cbn; try done; try congruence).
    destruct (at_ (outputv !!! SX.b_curr_oind b) (SX.b_curr_nz b)) as [err|t];
      cbn [mbind result_bind mret result_ret]; [done|].
    case_bool_decide; cbn [mbind result_bind mret result_ret];
      apply Hfin; repeat split; cbn; try done; try congruence.
  - cbn [mbind result_bind mret result_ret]. rewrite ?Hsy, ?Hoi, ?Hnz.
    destruct (at_ (outputv !!! SX.b_curr_oind b) (SX.b_curr_nz b)) as [err|t];
      cbn [mbind result_bind mret result_ret]; [done|].
    case_bool_decide; cbn [mbind result_bind mret result_ret];
      apply Hfin; repeat split; cbn; try done; try congruence.
Qed.

Lemma indexed_fmap {A B} (g : A → B) (l : list A) :
  indexed (g <$> l) = (λ it, (it.1, g it.2)) <$> indexed l.
Proof.
  unfold indexed. rewrite length_fmap. generalize (seq 0 (length l)). 
  induction l as [|x l IH]; intros [|k ks]; cbn; try done. by rewrite IH.
Qed.

Lemma build_same (nodes : list (option (SX.SXNode D))) (outputv : list (list nat)) :
  result_rel same_build (SX.build nodes outputv) (SX.build (mask_nodes nodes) outputv).
Proof.
  unfold SX.build, mask_nodes. rewrite indexed_fmap, length_fmap.
  apply (foldlM_rel same_build (λ it it', it' = (it.1, mask_node <$> it.2))).
  - intros b b' [idx n] it' Hb ->. by apply emit_same.
  - apply Forall2_fmap_r. induction (indexed nodes); by constructor.
  - repeat split; cbn; constructor.
Qed.

(** The second loop. *)
Lemma release_children_same (c : nat) (e : SX.AlgEl D) (e' : SX.AlgEl Z)
    (st : SX.alloc_state) :
  same_record e e' → SX.release_children c e' st = SX.release_children c e st.
Proof.
  intros (Hop & _ & H1 & H2 & _). revert st.
  induction c as [|c IH]; intros st; cbn [SX.release_children]; [done|].
  unfold SX.child. rewrite H1, H2.
  destruct (at_ _ _) as [err|v]; cbn [mbind result_bind]; [done|]. apply IH.
Qed.

Lemma set_i0_same (v : nat) (e : SX.AlgEl D) (e' : SX.AlgEl Z) :
  same_record e e' → same_record (SX.set_i0 v e) (SX.set_i0 v e').
Proof. intros (? & ? & ? & ? & ?). by repeat split. Qed.

Lemma set_i1_same (v : nat) (e : SX.AlgEl D) (e' : SX.AlgEl Z) :
  same_record e e' → same_record (SX.set_i1 v e) (SX.set_i1 v e').
Proof. intros (? & ? & ? & ? & ?). by repeat split. Qed.

Lemma set_i2_same (v : nat) (e : SX.AlgEl D) (e' : SX.AlgEl Z) :
  same_record e e' → same_record (SX.set_i2 v e) (SX.set_i2 v e').
Proof. intros (? & ? & ? & ? & ?). by repeat split. Qed.

Lemma store_result_same (live_variables : bool) (e : SX.AlgEl D) (e' : SX.AlgEl Z)
    (st : SX.alloc_state) :
  same_record e e' →
  same_record (SX.store_result live_variables e st).1 (SX.store_result live_variables e' st).1
  ∧ (SX.store_result live_variables e' st).2 = (SX.store_result live_variables e st).2.
Proof.
  intros He. pose proof He as (Hop & H0 & _). unfold SX.store_result. rewrite Hop, H0.
  case_bool_decide; [|done].
  destruct live_variables; [destruct (SX.a_unused st)|]; cbn [fst snd];
    (split; [by apply set_i0_same|done]).
Qed.

Lemma relocate_children_same (place : list nat) (e : SX.AlgEl D) (e' : SX.AlgEl Z) :
  same_record e e' →
  same_record (SX.relocate_children place e) (SX.relocate_children place e').
Proof.
  intros He. pose proof He as (Hop & _). unfold SX.relocate_children. rewrite Hop.
  apply (foldl_rel same_record eq); [|apply Forall2_same|done].
  intros a a' c ? Ha <-. pose proof Ha as (_ & _ & H1 & H2 & _).
  case_bool_decide; rewrite ?H1, ?H2; [by apply set_i1_same|by apply set_i2_same].
Qed.

Lemma pad_unary_same (e : SX.AlgEl D) (e' : SX.AlgEl Z) :
  same_record e e' → same_record (SX.pad_unary e) (SX.pad_unary e').
Proof.
  intros He. pose proof He as (Hop & _ & H1 & _). unfold SX.pad_unary. rewrite Hop, H1.
  case_bool_decide; [by apply set_i2_same|done].
Qed.

Definition same_alloc (acc : list (SX.AlgEl D) * SX.alloc_state)
    (acc' : list (SX.AlgEl Z) * SX.alloc_state) : Prop :=
  Forall2 same_record acc.1 acc'.1 ∧ acc'.2 = acc.2.

Lemma allocate_same (live_variables : bool) (acc : list (SX.AlgEl D) * SX.alloc_state)
    (acc' : list (SX.AlgEl Z) * SX.alloc_state) (e : SX.AlgEl D) (e' : SX.AlgEl Z) :
  same_alloc acc acc' → same_record e e' →
  result_rel same_alloc (SX.allocate live_variables acc e)
                        (SX.allocate live_variables acc' e').
Proof.
  intros [Halg Hst] He. pose proof He as (Hop & _). unfold SX.allocate.
  rewrite Hst, Hop, (release_children_same _ e e') by done.
  destruct (SX.release_children _ e acc.2) as [err|st1]; cbn [mbind result_bind]; [done|].
  destruct (store_result_same live_variables e e' st1 He) as [He2 Hst2].
  destruct (SX.store_result live_variables e st1) as [e2 st2].
  destruct (SX.store_result live_variables e' st1) as [e2' st2'].
  cbn [fst snd] in *. subst st2'. cbn. split; [|done]. cbn.
  apply Forall2_app; [done|]. constructor; [|constructor].
  by apply pad_unary_same, relocate_children_same.
Qed.

(** The input instructions. *)
Lemma add_input_same (ind : nat) (acc : list (SX.AlgEl D) * list Z)
    (acc' : list (SX.AlgEl Z) * list Z) (it : nat * nat) :
  Forall2 same_record acc.1 acc'.1 ∧ acc'.2 = acc.2 →
  Forall2 same_record (SX.add_input ind acc it).1 (SX.add_input ind acc' it).1
  ∧ (SX.add_input ind acc' it).2 = (SX.add_input ind acc it).2.
Proof.
  intros [Halg Ht]. unfold SX.add_input. destruct it as [nz a]. rewrite Ht.
  case_bool_decide; [|done]. cbn [fst snd]. split; [|done].
  apply Forall2_alter; [done|]. intros x y _ _ (? & ? & ? & ? & ?). by repeat split.
Qed.

Lemma add_inputs_same (inputv : list (list nat)) (acc : list (SX.AlgEl D) * list Z)
    (acc' : list (SX.AlgEl Z) * list Z) :
  Forall2 same_record acc.1 acc'.1 ∧ acc'.2 = acc.2 →
  Forall2 same_record (SX.add_inputs inputv acc).1 (SX.add_inputs inputv acc').1
  ∧ (SX.add_inputs inputv acc').2 = (SX.add_inputs inputv acc).2.
Proof.
  intros Hacc. unfold SX.add_inputs.
  apply (foldl_rel (λ (a : list (SX.AlgEl D) * list Z) (a' : list (SX.AlgEl Z) * list Z),
                      Forall2 same_record a.1 a'.1 ∧ a'.2 = a.2) eq);
    [|apply Forall2_same|done].
  intros a a' row ? Ha <-.
  apply (foldl_rel (λ (a : list (SX.AlgEl D) * list Z) (a' : list (SX.AlgEl Z) * list Z),
                      Forall2 same_record a.1 a'.1 ∧ a'.2 = a.2) eq);
    [|apply Forall2_same|done].
  intros a1 a1' it ? Ha1 <-. by apply add_input_same.
Qed.

Definition same_compiled (f : SX.compiled D) (f' : SX.compiled Z) : Prop :=
  Forall2 same_record (SX.algorithm_ f) (SX.algorithm_ f')
  ∧ SX.worksize f' = SX.worksize f
  ∧ SX.free_vars_ f' = SX.free_vars_ f.

(** [init] compiles a graph and the graph with its values forgotten into
    the same tape, up to the values the records carry. *)
Lemma init_same (live_variables : bool) (nodes : list (option (SX.SXNode D)))
    (inputv outputv : list (list nat)) :
  result_rel same_compiled (SX.init live_variables nodes inputv outputv)
                           (SX.init live_variables (mask_nodes nodes) inputv outputv).
Proof.
  unfold SX.init. pose proof (build_same nodes outputv) as Hb.
  destruct (SX.build nodes outputv) as [err|b],
           (SX.build (mask_nodes nodes) outputv) as [err'|b'];
    cbn [mbind result_bind] in *; try done.
  destruct Hb as (Halg & Hsy & _ & _ & Hrc).
  assert (length (mask_nodes nodes) = length nodes) as Hmn
    by (unfold mask_nodes; by rewrite length_fmap).
  rewrite !Hmn, Hrc, Hsy.
  pose proof (foldlM_rel same_alloc same_record
                (SX.allocate live_variables) (SX.allocate live_variables)
                (SX.b_algorithm b) (SX.b_algorithm b')
                (λ a a' x x', allocate_same live_variables a a' x x') Halg
                ([], {| SX.a_refcount := SX.b_refcount b;
                        SX.a_place := replicate (length nodes) 0%nat;
                        SX.a_unused := []; SX.a_worksize := 0 |})
                ([], {| SX.a_refcount := SX.b_refcount b;
                        SX.a_place := replicate (length nodes) 0%nat;
                        SX.a_unused := []; SX.a_worksize := 0 |})) as Ha.
  specialize (Ha ltac:(split; [constructor|done])).
  destruct (foldlM (SX.allocate live_variables) _ (SX.b_algorithm b)) as [err|[alg a]],
           (foldlM (SX.allocate live_variables) _ (SX.b_algorithm b')) as [err'|[alg' a']];
    cbn [mbind result_bind] in *; try done.
  destruct Ha as [Halg2 Ha2]. cbn [fst snd] in *. subst a'.
  destruct (add_inputs_same inputv
              (alg, SX.mark_symb_loc (length nodes) (SX.b_symb_loc b))
              (alg', SX.mark_symb_loc (length nodes) (SX.b_symb_loc b))) as [H1 H2]; [done|].
  destruct (SX.add_inputs inputv (alg, _)) as [algf tempf].
  destruct (SX.add_inputs inputv (alg', _)) as [algf' tempf'].
  cbn [fst snd] in *. subst tempf'. cbn. done.
Qed.

End SXShape.

(** ** The operations of a compiled tape *)

(** The operations left on the tape of a function without free
    variables. *)
Definition final_op (o : Operation) : bool :=
  match o with
  | OP_CONST | OP_INPUT | OP_OUTPUT | OP_UNARY _ | OP_BINARY _ => true
  | _ => false
  end.

(** On a sorted and closed graph, the two loops of [init] return the
    records [alg], and the finished tape is [alg] with every symbol turned
    into an input instruction. *)
Lemma sx_init_related {D : Type} `{!Inhabited D} (live_variables : bool)
    (nodes : list (option (SX.SXNode D))) (inputv outputv : list (list nat))
    (f : SX.compiled D) :
  SX.init live_variables nodes inputv outputv = inr f →
  well_sorted nodes outputv = true →
  closed nodes inputv = true →
  ∃ b alg a,
    SX.build nodes outputv = inr b
    ∧ foldlM (SX.allocate live_variables)
             ([], {| SX.a_refcount := SX.b_refcount b;
                     SX.a_place := replicate (length nodes) 0%nat;
                     SX.a_unused := []; SX.a_worksize := 0 |})
             (SX.b_algorithm b) = inr (alg, a)
    ∧ SX.worksize f = SX.a_worksize a
    ∧ related inputv alg (SX.algorithm_ f).
Proof.
  intros Hinit Hsorted Hclosed.
  destruct (closed_spec _ _ Hclosed) as [Hrange Hsym].
  unfold SX.init in Hinit.
  destruct (SX.build nodes outputv) as [err|b] eqn:Hbuild;
    cbn [mbind result_bind] in Hinit; [done|].
  destruct (foldlM (SX.allocate live_variables) _ (SX.b_algorithm b)) as [err|[alg a]]
    eqn:Halloc; cbn [mbind result_bind] in Hinit; [done|].
  destruct (SX.add_inputs inputv _) as [alg' temp'] eqn:Hadd.
  inversion Hinit; subst f; clear Hinit. cbn [SX.algorithm_ SX.worksize].
  exists b, alg, a. split; [done|]. split; [done|]. split; [done|].
  destruct (sx_sorted_records (λ _ x _, x) (λ _, inhabitant) nodes outputv b Hbuild Hsorted)
    as ([Hlen Hrec Hrl Hrc Hch Hsy Hcur Hoff] & B_ops & _).
  destruct (sx_allocate_fold_kind _ _ _ _ Halloc) as (alg0 & Halg & Hkind).
  cbn in Halg. subst alg0. apply Forall2_length in Hkind as Hlen2.
  assert (∀ j e, alg !! j = Some e → SX.op e = OP_PARAMETER ↔ (j, j) ∈ SX.b_symb_loc b)
    as Hpar.
  { intros j e Hj. destruct (Forall2_lookup_r _ _ _ _ _ Hkind Hj) as (eB & HeB & [Hk _]).
    rewrite Hsy. split.
    - intros Hop. split; [done|]. exists eB. split; [done|congruence].
    - intros (_ & eB' & HeB' & Hop). congruence. }
  assert (∀ j e, alg !! j = Some e → SX.op e = OP_PARAMETER → j ∈ concat inputv) as Hpin.
  { intros j e Hj Hop. destruct (Forall2_lookup_r _ _ _ _ _ Hkind Hj) as (eB & HeB & [Hk _]).
    specialize (Hrec j eB HeB). unfold record_of in Hrec.
    destruct (nodes !! j) as [[nd|]|] eqn:Hn; [| |done].
    - destruct Hrec as (Hop' & _). apply (Hsym j nd Hn). congruence.
    - destruct Hrec as (Hop' & _). congruence. }
  destruct (mark_symb_loc_spec (length nodes) (SX.b_symb_loc b)) as [Hml Hmv].
  { intros [j a0] Hit. apply Hsy in Hit as [-> _]. done. }
  destruct (add_inputs_inv inputv alg
              (alg, SX.mark_symb_loc (length nodes) (SX.b_symb_loc b))) as [Hinv Hzero].
  { by rewrite <- Hlen2, Hlen. }
  { split; [cbn; by rewrite Hml, <- Hlen2, Hlen|]. split; [done|].
    intros j Hj. destruct (lookup_lt_is_Some_2 alg j Hj) as [e He].
    exists e. split; [done|]. cbn [fst snd].
    rewrite Hmv by (by rewrite <- Hlen, Hlen2).
    destruct (decide (SX.op e = OP_PARAMETER)) as [Hop|Hop].
    - left. rewrite bool_decide_eq_true_2; [done|].
      apply list_elem_of_fmap. exists (j, j). split; [done|]. by apply (Hpar j e).
    - right. rewrite bool_decide_eq_false_2.
      + split; [done|]. exists e. split; [done|]. by left.
      + intros ([j' a0] & -> & Hin)%list_elem_of_fmap. cbn in Hop.
        apply Hop, (Hpar a0 e He). apply Hsy in Hin as Hin'. destruct Hin' as [-> _].
        done. }
  rewrite Hadd in Hinv, Hzero. cbn [fst snd] in Hzero.
  destruct Hinv as (_ & Hl & Hst). cbn [fst snd] in Hl, Hst. split; [done|].
  intros j e e' He He'.
  destruct (Hst j) as (e0 & He0 & [(Hmark & Hop & _)|(_ & e1 & He1 & Hfin)]).
  - by eapply lookup_lt_Some.
  - exfalso. cbn [snd] in Hmark. rewrite Hzero in Hmark; [lia|]. by apply (Hpin j e0).
  - cbn [fst] in He1. congruence.
Qed.

(** No symbol is left on the tape of a sorted and closed graph. *)
Lemma sx_tape_ops {D : Type} `{!Inhabited D} (live_variables : bool)
    (nodes : list (option (SX.SXNode D))) (inputv outputv : list (list nat))
    (f : SX.compiled D) :
  SX.init live_variables nodes inputv outputv = inr f →
  well_sorted nodes outputv = true →
  closed nodes inputv = true →
  ∀ e, e ∈ SX.algorithm_ f → final_op (SX.op e) = true.
Proof.
  intros Hinit Hsorted Hclosed.
  destruct (sx_init_related live_variables nodes inputv outputv f Hinit Hsorted Hclosed)
    as (b & alg & a & Hbuild & Halloc & _ & Hlen & Hrel).
  destruct (sx_sorted_records (λ _ x _, x) (λ _, inhabitant) nodes outputv b Hbuild Hsorted)
    as (_ & B_ops & _).
  destruct (sx_allocate_fold_kind _ _ _ _ Halloc) as (alg0 & Halg & Hkind).
  cbn in Halg. subst alg0.
  intros e' [j He']%list_elem_of_lookup.
  destruct (lookup_lt_is_Some_2 alg j) as [e He].
  { rewrite <- Hlen. by eapply lookup_lt_Some. }
  destruct (Hrel j e e' He He') as [[Hnp ->]|(_ & Hin & _)]; [|by rewrite Hin].
  destruct (Forall2_lookup_r _ _ _ _ _ Hkind He) as (eB & HeB & [Hk _]).
  pose proof (B_ops j eB HeB) as Ht. rewrite <- Hk in Ht.
  destruct (SX.op e); done.
Qed.

(** ** Sorted and closed graphs, with the values forgotten *)

Lemma forallb_fmap_ext {A B} (p : B → bool) (q : A → bool) (g : A → B) (l : list A) :
  (∀ x, p (g x) = q x) → forallb p (g <$> l) = forallb q l.
Proof. intros Hpq. induction l as [|x l IH]; [done|]. cbn. by rewrite Hpq, IH. Qed.

Lemma forallb_agree {A} (p q : A → bool) (l : list A) :
  (∀ x, p x = q x) → forallb p l = forallb q l.
Proof. intros Hpq. induction l as [|x l IH]; [done|]. cbn. by rewrite Hpq, IH. Qed.

Section SXMasked.

Context {D : Type} `{!Inhabited D}.

Lemma count_null_mask (nodes : list (option (SX.SXNode D))) :
  count_null (mask_nodes nodes) = count_null nodes.
Proof.
  unfold count_null, mask_nodes. induction nodes as [|[nd|] nodes IH]; [done| |].
  - rewrite fmap_cons, !filter_cons_False by done. exact IH.
  - rewrite fmap_cons, !filter_cons_True by done. cbn. by rewrite IH.
Qed.

Lemma is_node_mask (nodes : list (option (SX.SXNode D))) (c : nat) :
  is_node (mask_nodes nodes) c = is_node nodes c.
Proof.
  unfold is_node, mask_nodes. rewrite list_lookup_fmap.
  by destruct (nodes !! c) as [[nd|]|].
Qed.

Lemma well_sorted_mask (nodes : list (option (SX.SXNode D))) (outputv : list (list nat)) :
  well_sorted (mask_nodes nodes) outputv = well_sorted nodes outputv.
Proof.
  unfold well_sorted. rewrite count_null_mask. f_equal.
  unfold mask_nodes at 2. rewrite indexed_fmap. apply forallb_fmap_ext.
  intros [k n]. unfold sorted_at. cbn [fst snd]. destruct n as [nd|]; cbn [fmap option_fmap option_map].
  - f_equal. unfold deps, defined_before. cbn [mask_node SX.getOp SX.dep0 SX.dep1].
    apply forallb_agree. intros c. by rewrite is_node_mask.
  - unfold mask_nodes at 1. rewrite <- fmap_take. fold (mask_nodes (take k nodes)).
    rewrite count_null_mask. destruct (concat outputv !! _); [|done].
    unfold defined_before. by rewrite is_node_mask.
Qed.

Lemma closed_mask (nodes : list (option (SX.SXNode D))) (inputv : list (list nat)) :
  closed (mask_nodes nodes) inputv = closed nodes inputv.
Proof.
  unfold closed. f_equal.
  - unfold mask_nodes. by rewrite length_fmap.
  - unfold mask_nodes. rewrite indexed_fmap. apply forallb_fmap_ext.
    intros [k [nd|]]; done.
Qed.

End SXMasked.

(** ** The forward sweep as an evaluation over masks *)

(** Every operation takes the union of the masks of its operands. *)
Definition lor_fun (o : Operation) (x y : Z) : Z := Z.lor x y.

Definition as_buffers (st : SX.bvecs) : SX.buffers Z :=
  {| SX.work_ := SX.iwork st; SX.input := SX.sp_input st; SX.output := SX.sp_output st |}.

Lemma sp_fwd_exec {D : Type} (e : SX.AlgEl D) (e' : SX.AlgEl Z) (st : SX.bvecs) :
  same_record e e' → final_op (SX.op e) = true →
  as_buffers (SX.sp_fwd st e) = SX.exec lor_fun (as_buffers st) e'.
Proof.
  intros (Hop & H0 & H1 & H2 & Hd) Hfin. unfold SX.sp_fwd, SX.exec. rewrite Hop, H0, H1, H2.
  destruct (SX.op e) eqn:Ho; try done; cbn.
  by rewrite Hd.
Qed.

Lemma sp_fwd_run {D : Type} (alg : list (SX.AlgEl D)) (alg' : list (SX.AlgEl Z)) :
  Forall2 same_record alg alg' →
  (∀ e, e ∈ alg → final_op (SX.op e) = true) →
  ∀ st, as_buffers (foldl SX.sp_fwd st alg) = foldl (SX.exec lor_fun) (as_buffers st) alg'.
Proof.
  induction 1 as [|e e' alg alg' He _ IH]; intros Hops st; [done|].
  cbn [foldl]. rewrite IH by (intros x Hx; apply Hops; by apply list_elem_of_further).
  f_equal. apply sp_fwd_exec; [done|]. apply Hops, list_elem_of_here.
Qed.

(** ** The symbols an expression depends on *)

Section SXDependencies.

Context {D : Type} `{!Inhabited D}.

(** The symbols under the node at position [k], given those under the
    nodes before it: a symbol is under itself, an operation has the
    symbols of its operands under it. *)
Definition under (before : list (list nat)) (k : nat) (n : option (SX.SXNode D))
  : list nat :=
  match n with
  | None => []
  | Some nd =>
      match SX.getOp nd with
      | OP_PARAMETER => [k]
      | OP_UNARY _ => before !!! SX.dep0 nd
      | OP_BINARY _ => before !!! SX.dep0 nd ++ before !!! SX.dep1 nd
      | _ => []
      end
  end.

(** The positions of the symbols under every node of a sorted node list. *)
Definition symbols_under (nodes : list (option (SX.SXNode D))) : list (list nat) :=
  foldl (λ before n, before ++ [under before (length before) n]) [] nodes.

(** The union of the masks [env] gives to the elements of [l]. *)
Definition mask_of {A} (env : A → Z) (l : list A) : Z :=
  foldr (λ a m, Z.lor (env a) m) 0 l.

Lemma symbols_under_length (nodes : list (option (SX.SXNode D))) :
  length (symbols_under nodes) = length nodes.
Proof.
  induction nodes as [|n nodes IH] using rev_ind; [done|].
  unfold symbols_under in *. rewrite foldl_app. cbn [foldl]. rewrite !length_app, IH. done.
Qed.

Lemma symbols_under_snoc (nodes : list (option (SX.SXNode D))) (n : option (SX.SXNode D)) :
  symbols_under (nodes ++ [n])
  = symbols_under nodes ++ [under (symbols_under nodes) (length nodes) n].
Proof.
  unfold symbols_under at 1. rewrite foldl_app. cbn [foldl]. fold (symbols_under nodes).
  by rewrite symbols_under_length.
Qed.

Lemma mask_of_app {A} (env : A → Z) (l1 l2 : list A) :
  mask_of env (l1 ++ l2) = Z.lor (mask_of env l1) (mask_of env l2).
Proof.
  unfold mask_of. induction l1 as [|a l1 IH]; cbn [app foldr]; [done|].
  by rewrite IH, Z.lor_assoc.
Qed.

(** A bit is set in the union exactly when one of the elements has it. *)
Lemma mask_of_testbit {A} (env : A → Z) (l : list A) (b : Z) :
  Z.testbit (mask_of env l) b = true ↔ ∃ a, a ∈ l ∧ Z.testbit (env a) b = true.
Proof.
  induction l as [|a l IH].
  - cbn. rewrite Z.bits_0. split; [done|]. by intros (a & Ha%elem_of_nil & _).
  - change (mask_of env (a :: l)) with (Z.lor (env a) (mask_of env l)).
    rewrite Z.lor_spec, orb_true_iff, IH. split.
    + intros [Ha|(c & Hc & Hb)]; [exists a|exists c]; split; try done;
        [apply list_elem_of_here|by apply list_elem_of_further].
    + intros (c & [->|Hc]%elem_of_cons & Hb); [by left|]. right. by exists c.
Qed.

Variable env : nat → Z.

Definition deps_ok (nodes : list (option (SX.SXNode D))) : Prop :=
  ∀ k nd, nodes !! k = Some (Some nd) →
          scalar_op (SX.getOp nd) = true
          ∧ ∀ c, c ∈ deps nd → (c < k)%nat ∧ ∃ ndc, nodes !! c = Some (Some ndc).

Lemma deps_ok_sorted (nodes : list (option (SX.SXNode D))) (outputv : list (list nat)) :
  well_sorted nodes outputv = true → deps_ok nodes.
Proof.
  intros Hsorted k nd Hk. pose proof (well_sorted_at _ _ _ _ Hsorted Hk) as Hs.
  unfold sorted_at in Hs. cbn [fst snd] in Hs. apply andb_true_iff in Hs as [Hop Hdeps].
  split; [done|]. intros c Hc. rewrite forallb_forall in Hdeps.
  apply defined_before_spec, Hdeps, list_elem_of_In, Hc.
Qed.

(** Evaluating the graph over masks gives every node the union of the
    masks of the symbols under it. *)
Lemma values_mask_of (nodes : list (option (SX.SXNode D))) :
  deps_ok nodes →
  ∀ t nd, nodes !! t = Some (Some nd) →
          values lor_fun env (mask_nodes nodes) !!! t
          = mask_of env (symbols_under nodes !!! t).
Proof.
  induction nodes as [|n nodes IH] using rev_ind; intros Hok t nd Ht; [done|].
  assert (deps_ok nodes) as Hok'.
  { intros k ndk Hk. destruct (Hok k ndk) as [Hs Hd]; [by apply lookup_app_l_Some|].
    split; [done|]. intros c Hc. destruct (Hd c Hc) as (Hlt & ndc & Hndc).
    split; [done|]. exists ndc. apply lookup_lt_Some in Hk.
    by rewrite lookup_app_l in Hndc by lia. }
  assert (mask_nodes (nodes ++ [n]) = mask_nodes nodes ++ [mask_node <$> n]) as Hm
    by (unfold mask_nodes; by rewrite fmap_app).
  assert (length (mask_nodes nodes) = length nodes) as Hml
    by (unfold mask_nodes; by rewrite length_fmap).
  rewrite Hm, values_snoc, symbols_under_snoc, Hml.
  destruct (decide (t < length nodes)%nat) as [Hlt|Hge].
  - rewrite !lookup_total_app_l by (rewrite ?values_length, ?symbols_under_length; lia).
    apply (IH Hok' t nd). by rewrite lookup_app_l in Ht by done.
  - assert (t = length nodes) as ->.
    { apply lookup_lt_Some in Ht. rewrite length_app in Ht. cbn in Ht. lia. }
    rewrite list_lookup_middle in Ht by done. inversion Ht; subst n. clear Ht.
    rewrite !list_lookup_total_middle by (rewrite ?values_length, ?symbols_under_length; lia).
    destruct (Hok (length nodes) nd) as [Hs Hd]; [by apply list_lookup_middle|].
    assert (∀ c, c ∈ deps nd →
                 values lor_fun env (mask_nodes nodes) !!! c
                 = mask_of env (symbols_under nodes !!! c)) as Hc.
    { intros c Hc. destruct (Hd c Hc) as (Hlt & ndc & Hndc).
      rewrite lookup_app_l in Hndc by done. by apply (IH Hok' c ndc). }
    unfold deps in Hc. cbn [fmap option_fmap option_map node_value under mask_node SX.getOp
                            SX.getValue SX.dep0 SX.dep1].
    destruct (SX.getOp nd) eqn:Hop; try done; unfold lor_fun.
    + cbn. by rewrite Z.lor_0_r.
    + rewrite Z.lor_diag. apply Hc, list_elem_of_here.
    + rewrite mask_of_app. f_equal; apply Hc; [apply list_elem_of_here|].
      apply list_elem_of_further, list_elem_of_here.
Qed.

End SXDependencies.

(** Every number below the number of output sentinels is the number of
    sentinels before one of them. *)
Lemma sentinel_at {A} (nodes : list (option A)) (j : nat) :
  (j < count_null nodes)%nat →
  ∃ k, nodes !! k = Some None ∧ count_null (take k nodes) = j.
Proof.
  induction nodes as [|n nodes IH] using rev_ind; intros Hj; [cbn in Hj; lia|].
  rewrite count_null_snoc in Hj.
  destruct (decide (j < count_null nodes)%nat) as [Hlt|Hge].
  - destruct (IH Hlt) as (k & Hk & Hc). exists k. apply lookup_lt_Some in Hk as Hkl.
    split; [by apply lookup_app_l_Some|]. by rewrite take_app_le by lia.
  - case_bool_decide as Hn; [|lia]. subst n. exists (length nodes).
    split; [by apply list_lookup_middle|]. rewrite take_app_length. lia.
Qed.

(** On a sorted node list every declared nonzero of an output is a node. *)
Lemma output_is_node {D : Type} (nodes : list (option (SX.SXNode D)))
    (outputv : list (list nat)) (o nz t : nat) :
  well_sorted nodes outputv = true → (outputv !!! o) !! nz = Some t →
  ∃ nd, nodes !! t = Some (Some nd).
Proof.
  intros Hsorted Ht.
  destruct (outputv !! o) as [x|] eqn:Hx; [|by rewrite list_lookup_total_alt, Hx in Ht].
  rewrite (list_lookup_total_correct _ _ _ Hx) in Ht.
  pose proof (concat_lookup_nonzero outputv o nz t x Hx Ht) as Hcat.
  pose proof Hsorted as Hs. unfold well_sorted in Hs.
  apply andb_true_iff in Hs as [_ Hnull]. rewrite bool_decide_eq_true in Hnull.
  destruct (sentinel_at nodes (nonzeros_before outputv o + nz)) as (k & Hk & Hc).
  { rewrite Hnull. by eapply lookup_lt_Some. }
  pose proof (well_sorted_at _ _ _ _ Hsorted Hk) as Hat.
  unfold sorted_at in Hat. cbn [fst snd] in Hat. rewrite Hc, Hcat in Hat.
  by apply defined_before_spec in Hat as [_ Hnd].
Qed.

(** Forward sparsity propagation computes, for every output, the union of
    the masks of the inputs it depends on.  Let the node list be
    topologically sorted with one output sentinel per output nonzero, let
    every input be one of the nodes and every symbol one of the inputs,
    and let [init] have compiled it into [f], with [live_variables] on or
    off.  Run on mask arrays whose inputs give every symbol [a] the mask
    [env a], whose outputs have the declared shape and whose work array
    has room for [worksize f] masks, the forward sweep of [spEvaluate]
    leaves in every declared nonzero of every output the bitwise or of
    the masks of the symbols under the node declared there; what the work
    array and the constants held does not matter. *)
Theorem forward_sweep_gives_dependencies {D : Type} `{!Inhabited D}
    (env : nat → Z) (live_variables : bool) (nodes : list (option (SX.SXNode D)))
    (inputv outputv : list (list nat)) (f : SX.compiled D) (st : SX.bvecs) :
  SX.init live_variables nodes inputv outputv = inr f →
  well_sorted nodes outputv = true →
  closed nodes inputv = true →
  (∀ ind nz a, (inputv !!! ind) !! nz = Some a → (SX.sp_input st !!! ind) !!! nz = env a) →
  length <$> SX.sp_output st = length <$> outputv →
  (SX.worksize f ≤ length (SX.iwork st))%nat →
  ∀ o nz t, (outputv !!! o) !! nz = Some t →
            (SX.sp_output (SX.spEvaluate true (SX.algorithm_ f) st) !!! o) !! nz
            = Some (mask_of env (symbols_under nodes !!! t)).
Proof.
  intros Hinit Hsorted Hclosed Hinp Hshape Hws o nz t Ht.
  pose proof (init_same live_variables nodes inputv outputv) as Hsame.
  rewrite Hinit in Hsame.
  destruct (SX.init live_variables (mask_nodes nodes) inputv outputv) as [err|f'] eqn:Hinit';
    [done|]. destruct Hsame as (Halg & Hw & _).
  destruct (sx_tape_values lor_fun env live_variables (mask_nodes nodes) inputv outputv f'
              (as_buffers st) Hinit')
    as [_ Hout]; [by rewrite well_sorted_mask|by rewrite closed_mask|done|done| |].
  { cbn. by rewrite Hw. }
  specialize (Hout o nz t Ht).
  rewrite <- (sp_fwd_run (SX.algorithm_ f) (SX.algorithm_ f') Halg) in Hout
    by (by apply (sx_tape_ops live_variables nodes inputv outputv)).
  unfold SX.spEvaluate. cbn [as_buffers SX.output] in Hout. rewrite Hout. f_equal.
  destruct (output_is_node nodes outputv o nz t Hsorted Ht) as [nd Hnd].
  by apply (values_mask_of env nodes (deps_ok_sorted nodes outputv Hsorted) t nd).
Qed.

Lemma forward_sweep_gives_dependencies_witness :
  (SX.sp_output (SX.spEvaluate true (SX.algorithm_ square_of_sum_tape)
                   {| SX.iwork := [7; 7]; SX.sp_input := [[1; 2]]; SX.sp_output := [[0]] |})
     !!! 0%nat) !! 0%nat = Some 3.
Proof.
  refine (forward_sweep_gives_dependencies (λ a, if a is 0%nat then 1 else 2) true
            Toy.sx_square_of_sum [[0%nat; 1%nat]] [[3%nat]] square_of_sum_tape
            {| SX.iwork := [7; 7]; SX.sp_input := [[1; 2]]; SX.sp_output := [[0]] |}
            _ _ _ _ _ _ 0%nat 0%nat 3%nat _).
  - vm_compute. reflexivity.
  - vm_compute. reflexivity.
  - vm_compute. reflexivity.
  - intros [|ind] [|[|nz]] a Ha; cbn in Ha; inversion Ha; subst; try reflexivity;
      destruct ind; discriminate.
  - reflexivity.
  - vm_compute. lia.
  - reflexivity.
Defined.

(** On [y = (a + b) * (a + b)] both symbols are under the output, each
    met twice. *)
Example symbols_under_square_of_sum :
  symbols_under Toy.sx_square_of_sum !!! 3%nat = [0; 1; 0; 1]%nat.
Proof. reflexivity. Qed.
(** * The backward sparsity sweep computes the dependents of the inputs *)

(** ** Where the second loop of [init] puts the nodes *)

Section SXTrace.

Context {D : Type} `{!Inhabited D}.

Variable B : list (SX.AlgEl D).
Variable live_variables : bool.
Variable N : nat.

Hypothesis B_length : length B = N.
Hypothesis B_ops : ∀ k e, B !! k = Some e → tape_op (SX.op e) = true.
Hypothesis B_i0 : ∀ k e, B !! k = Some e → SX.op e ≠ OP_OUTPUT → SX.i0 e = k.
Hypothesis B_children :
  ∀ k e c, B !! k = Some e → c ∈ children e →
           (c < k)%nat ∧ ∃ ec, B !! c = Some ec ∧ SX.op ec ≠ OP_OUTPUT.

(** A node is live at [k] when it has a place and one of the
    instructions from [k] on reads it. *)
Definition live (k j : nat) : Prop := has B k j ∧ (0 < uses (drop k B) j)%nat.

(** The record [e3] of the second loop for the record [e] of the first,
    at position [k]: the nodes are replaced by their places. *)
Definition placed (place : list nat) (k : nat) (e e3 : SX.AlgEl D) : Prop :=
  SX.op e3 = SX.op e
  ∧ match SX.op e with
    | OP_OUTPUT =>
        SX.i0 e3 = SX.i0 e ∧ SX.i1 e3 = place !!! SX.i1 e ∧ SX.i2 e3 = SX.i2 e
    | OP_BINARY _ =>
        SX.i0 e3 = place !!! k ∧ SX.i1 e3 = place !!! SX.i1 e
        ∧ SX.i2 e3 = place !!! SX.i2 e
    | OP_UNARY _ =>
        SX.i0 e3 = place !!! k ∧ SX.i1 e3 = place !!! SX.i1 e
        ∧ SX.i2 e3 = place !!! SX.i1 e
    | _ => SX.i0 e3 = place !!! k
    end.

(** What the second loop has achieved after [k] instructions. *)
Definition traced (k : nat) (alg : list (SX.AlgEl D)) (a : SX.alloc_state) : Prop :=
  length alg = k
  ∧ allocated N (has B k) (uses (drop k B)) a
  ∧ (∀ j e e3, B !! j = Some e → alg !! j = Some e3 → placed (SX.a_place a) j e e3)
  ∧ (∀ j, has B k j → (SX.a_place a !!! j < SX.a_worksize a)%nat)
  ∧ (∀ j j', has B k j → has B k j' → (j < j')%nat →
             (0 < uses (drop (S j') B) j)%nat →
             SX.a_place a !!! j' ≠ SX.a_place a !!! j)
  ∧ (∀ k' j j', (k' ≤ k)%nat → live k' j → live k' j' →
                SX.a_place a !!! j = SX.a_place a !!! j' → j = j').

Lemma uses_drop (k : nat) (e : SX.AlgEl D) (j : nat) :
  B !! k = Some e →
  uses (drop k B) j = (occurrences j (children e) + uses (drop (S k) B) j)%nat.
Proof. intros Hk. by rewrite (drop_S _ _ _ Hk), uses_cons. Qed.

Lemma child_in (e : SX.AlgEl D) :
  match SX.op e with
  | OP_OUTPUT | OP_UNARY _ => SX.i1 e ∈ children e
  | OP_BINARY _ => SX.i1 e ∈ children e ∧ SX.i2 e ∈ children e
  | _ => True
  end.
Proof.
  unfold children, SX.child. destruct (SX.op e); cbn; try done;
    try apply list_elem_of_here.
  split; [apply list_elem_of_here|apply list_elem_of_further, list_elem_of_here].
Qed.

Lemma placed_stable (place place2 : list nat) (k j : nat) (e e3 : SX.AlgEl D) :
  B !! j = Some e → (j < k)%nat →
  (∀ c, (c < k)%nat → place2 !!! c = place !!! c) →
  placed place j e e3 → placed place2 j e e3.
Proof.
  intros Hj Hlt Hsame [Hop Hrest]. split; [done|].
  pose proof (child_in e) as Hc.
  assert (∀ c, c ∈ children e → place2 !!! c = place !!! c) as Hch.
  { intros c Hin. apply Hsame. destruct (B_children _ _ _ Hj Hin). lia. }
  destruct (SX.op e); rewrite ?(Hsame j Hlt); try done.
  - destruct Hrest as (? & ? & ?). by rewrite (Hch _ Hc).
  - destruct Hrest as (? & ? & ?). by rewrite (Hch _ Hc).
  - destruct Hrest as (? & ? & ?). destruct Hc as [Hc1 Hc2].
    by rewrite (Hch _ Hc1), (Hch _ Hc2).
Qed.

Lemma traced_step (k : nat) (alg : list (SX.AlgEl D)) (e : SX.AlgEl D)
    (a : SX.alloc_state) (r : list (SX.AlgEl D) * SX.alloc_state) :
  B !! k = Some e →
  traced k alg a →
  SX.allocate live_variables (alg, a) e = inr r →
  traced (S k) r.1 r.2.
Proof.
  intros Hk (Hlen & Hal & Hpl & Hrg & Hfree & Hinj) Halloc.
  assert (k < N)%nat as HkN by (rewrite <- B_length; by eapply lookup_lt_Some).
  assert (Forall (has B k) (reverse (children e))) as Hch.
  { apply list.Forall_forall. intros c Hc. rewrite elem_of_reverse in Hc.
    destruct (B_children _ _ _ Hk Hc) as [Hlt Hec]. by split. }
  unfold SX.allocate in Halloc. cbn [fst snd] in Halloc.
  rewrite release_children_fold in Halloc.
  destruct (release_fold_spec N _ (uses (drop (S k) B)) _ a (uses (drop k B)) Hal Hch)
    as (a1 & Hrel & Hal1 & Hp1 & Hw1).
  { intros j. rewrite (uses_drop k e j Hk), occurrences_reverse. lia. }
  change (SX.child e <$> seq 0 (ndeps (SX.op e))) with (children e) in Halloc.
  rewrite Hrel in Halloc. cbn [mbind result_bind] in Halloc.
  assert (∀ j, live (S k) j → has B (S k) j ∧ (0 < uses (drop (S k) B) j)%nat) as Hlive
    by (by intros j [? ?]).
  destruct (decide (SX.op e = OP_OUTPUT)) as [Hout|Hnout].
  - (* an output instruction *)
    unfold SX.store_result in Halloc.
    rewrite bool_decide_eq_false_2 in Halloc by (by intros ?).
    inversion Halloc; subst r; clear Halloc. cbn [fst snd].
    destruct (relocated B B_children (SX.a_place a1) e) as (Hop3 & Hi03 & Hd3 & Hrest).
    rewrite Hout in Hrest. destruct Hrest as [Hi1 Hi2]. rewrite Hp1 in Hop3, Hi03, Hi1, Hi2.
    assert (∀ j, has B (S k) j ↔ has B k j) as Hhas
      by (intros j; by eapply (has_S_output B N B_length)).
    assert (allocated N (has B (S k)) (uses (drop (S k) B)) a1) as Hal'.
    { eapply allocated_ext; [| |exact Hal1]; [|done]. exact Hhas. }
    split; [rewrite length_app; cbn; lia|]. split; [done|]. rewrite Hp1. split; [|split; [|split]].
    + intros j ej e3 Hj He3. destruct (decide (j < k)%nat) as [Hlt|Hge].
      * rewrite lookup_app_l in He3 by lia. by apply (Hpl j).
      * assert (j = k) as ->.
        { apply lookup_lt_Some in He3. rewrite length_app in He3. cbn in He3. lia. }
        rewrite <- Hlen, list_lookup_middle in He3 by done. inversion He3; subst e3.
        assert (ej = e) as -> by congruence.
        split; [done|]. by rewrite Hout.
    + intros j Hj%Hhas. rewrite Hw1. by apply Hrg.
    + intros j j' Hj%Hhas Hj'%Hhas. by apply Hfree.
    + intros k' j j' Hk' Hl Hl'. destruct (decide (k' ≤ k)%nat); [by apply (Hinj k')|].
      assert (k' = S k) as -> by lia.
      destruct (Hlive j Hl), (Hlive j' Hl'). rewrite <- Hp1.
      by apply (al_inj _ _ _ _ Hal').
  - (* a node *)
    destruct (store_result_spec N _ (uses (drop (S k) B)) a1 live_variables e k
                Hal1 Hnout (B_i0 _ _ Hk Hnout) HkN)
      as (s & a2 & Hstore & Hal2 & Hp2 & Hs2 & Hw2 & Hnew).
    { intros [Hlt _]. lia. }
    rewrite Hstore in Halloc. inversion Halloc; subst r; clear Halloc. cbn [fst snd].
    destruct (relocated B B_children (SX.a_place a2) (SX.set_i0 s e))
      as (Hop3 & Hi03 & Hd3 & Hrest).
    cbn [SX.set_i0 SX.op SX.i0 SX.i1 SX.i2 SX.d] in Hop3, Hi03, Hd3, Hrest.
    assert (∀ j, has B (S k) j ↔ has B k j ∨ j = k) as Hhas
      by (intros j; by eapply (has_S_node B N B_length)).
    assert (allocated N (has B (S k)) (uses (drop (S k) B)) a2) as Hal'.
    { eapply allocated_ext; [| |exact Hal2]; [|done]. exact Hhas. }
    assert (∀ c, (c < k)%nat → SX.a_place a2 !!! c = SX.a_place a !!! c) as Hsame.
    { intros c Hc. rewrite Hp2, Hp1. apply list_lookup_total_insert_ne. lia. }
    assert (SX.a_place a2 !!! k = s) as Hpk.
    { rewrite Hp2. apply list_lookup_total_insert_eq.
      destruct Hal1 as [_ _ _ Hpl1 _ _ _ _ _]. lia. }
    assert (∀ j, has B k j → (j < k)%nat) as Hhlt by (by intros j [? _]).
    split; [rewrite length_app; cbn; lia|]. split; [done|]. split; [|split; [|split]].
    + intros j ej e3 Hj He3. destruct (decide (j < k)%nat) as [Hlt|Hge].
      * rewrite lookup_app_l in He3 by lia.
        apply (placed_stable (SX.a_place a) _ k); [done|done|done|]. by apply (Hpl j).
      * assert (j = k) as ->.
        { apply lookup_lt_Some in He3. rewrite length_app in He3. cbn in He3. lia. }
        rewrite <- Hlen, list_lookup_middle in He3 by done. inversion He3; subst e3.
        assert (ej = e) as -> by congruence.
        split; [done|]. rewrite Hi03, Hpk. pose proof (B_ops _ _ Hk) as Hops.
        destruct (SX.op e); try done.
    + intros j [Hj| ->]%Hhas; [|by rewrite Hpk].
      rewrite (Hsame j (Hhlt j Hj)). specialize (Hrg j Hj). lia.
    + intros j j' Hj%Hhas Hj'%Hhas Hlt Hu.
      destruct Hj as [Hj| ->]; [|destruct Hj' as [Hj'%Hhlt| ->]; lia].
      rewrite (Hsame j (Hhlt j Hj)).
      destruct Hj' as [Hj'| ->].
      * rewrite (Hsame j' (Hhlt j' Hj')). by apply Hfree.
      * rewrite Hpk. rewrite <- Hp1. intros Heq. by apply (Hnew j Hj Hu).
    + intros k' j j' Hk' Hl Hl'. destruct (decide (k' ≤ k)%nat).
      * destruct Hl as [[Hlt ?] ?], Hl' as [[Hlt' ?] ?].
        rewrite !Hsame by lia. by apply (Hinj k').
      * assert (k' = S k) as -> by lia.
        destruct (Hlive j Hl), (Hlive j' Hl').
        by apply (al_inj _ _ _ _ Hal').
Qed.

Lemma traced_fold (rc0 : list Z) :
  length rc0 = N → (∀ j, (j < N)%nat → rc0 !!! j = Z.of_nat (uses B j)) →
  ∀ k r,
    (k ≤ N)%nat →
    foldlM (SX.allocate live_variables)
           ([], {| SX.a_refcount := rc0; SX.a_place := replicate N 0%nat;
                   SX.a_unused := []; SX.a_worksize := 0 |}) (take k B) = inr r →
    traced k r.1 r.2.
Proof.
  intros Hrl Hrc. induction k as [|k IH]; intros r Hk Hfold.
  - cbn in Hfold. inversion Hfold; subst r; clear Hfold. cbn [fst snd].
    split; [done|]. split; [|split; [|split; [|split]]].
    + rewrite drop_0. split; cbn; try done.
      * intros j [Hj _]. lia.
      * by rewrite length_replicate.
      * intros j [Hj _]. lia.
      * intros j j' [Hj _]. lia.
      * apply NoDup_nil_2.
      * intros s Hs. by apply elem_of_nil in Hs.
      * intros j [Hj _]. lia.
    + intros j e e3 _ He3. done.
    + intros j [Hj _]. lia.
    + intros j j' [Hj _]. lia.
    + intros k' j j' Hk' [[Hj _] _]. lia.
  - destruct (lookup_lt_is_Some_2 B k) as [e He]; [lia|].
    rewrite (take_S_r _ _ _ He), foldlM_app in Hfold.
    destruct (foldlM _ _ (take k B)) as [err|[alg a]] eqn:Hmid;
      cbn [mbind result_bind] in Hfold; [done|].
    cbn [foldlM] in Hfold.
    destruct (SX.allocate live_variables (alg, a) e) as [err|r1] eqn:Halloc;
      cbn [mbind result_bind] in Hfold; [done|].
    inversion Hfold; subst r1; clear Hfold.
    apply (traced_step k alg e a r He); [|done]. apply (IH (alg, a)); [lia|done].
Qed.

End SXTrace.

(** ** The backward sweep on a finished tape *)

Lemma or_into (x : Z) (slots : list nat) :
  ∀ w : list Z,
    let w' := foldl (λ w s, <[s := Z.lor (w !!! s) x]> w) w slots in
    length w' = length w
    ∧ ∀ s, (s < length w)%nat →
           w' !!! s = if decide (s ∈ slots) then Z.lor (w !!! s) x else w !!! s.
Proof.
  induction slots as [|c slots IH]; intros w; cbn zeta.
  - split; [done|]. intros s Hs. rewrite decide_False; [done|apply not_elem_of_nil].
  - cbn [foldl]. destruct (IH (<[c := Z.lor (w !!! c) x]> w)) as [Hl Hv].
    rewrite length_insert in Hl, Hv. split; [done|]. intros s Hs. rewrite Hv by done.
    destruct (decide (s = c)) as [->|Hne].
    + rewrite list_lookup_total_insert_eq by done.
      rewrite (decide_True (P := c ∈ c :: slots)) by apply list_elem_of_here.
      destruct (decide (c ∈ slots)); [|done]. by rewrite <- Z.lor_assoc, Z.lor_diag.
    + rewrite list_lookup_total_insert_ne by done.
      destruct (decide (s ∈ slots)) as [Hin|Hin].
      * rewrite decide_True; [done|by apply list_elem_of_further].
      * rewrite decide_False; [done|]. by intros [?|?]%elem_of_cons.
Qed.

Section SXReverse.

Context {D : Type} `{!Inhabited D}.

Variable B : list (SX.AlgEl D).
Variable N : nat.
Variable place : list nat.
Variable alg' : list (SX.AlgEl D).
Variable inputv : list (list nat).
Variable st0 : SX.bvecs.

(** What reaches the node or the output sentinel at each position. *)
Variable A : nat → Z.

Hypothesis B_length : length B = N.
Hypothesis B_ops : ∀ k e, B !! k = Some e → tape_op (SX.op e) = true.
Hypothesis B_children :
  ∀ k e c, B !! k = Some e → c ∈ children e →
           (c < k)%nat ∧ ∃ ec, B !! c = Some ec ∧ SX.op ec ≠ OP_OUTPUT.

(** The finished record for the record [e] of the first loop: a symbol
    has become an input instruction. *)
Definition finished (k : nat) (e e' : SX.AlgEl D) : Prop :=
  match SX.op e with
  | OP_PARAMETER =>
      SX.op e' = OP_INPUT ∧ SX.i0 e' = place !!! k
      ∧ (inputv !!! SX.i1 e') !! SX.i2 e' = Some k
  | _ => placed place k e e'
  end.

Hypothesis alg'_length : length alg' = N.
Hypothesis alg'_finished :
  ∀ k e e', B !! k = Some e → alg' !! k = Some e' → finished k e e'.
Hypothesis place_range : ∀ j, has B N j → (place !!! j < length (SX.iwork st0))%nat.
Hypothesis place_free :
  ∀ j j', has B N j → has B N j' → (j < j')%nat →
          (0 < uses (drop (S j') B) j)%nat → place !!! j' ≠ place !!! j.
Hypothesis place_inj :
  ∀ k j j', (k ≤ N)%nat → live B k j → live B k j' →
            place !!! j = place !!! j' → j = j'.
Hypothesis st0_zero :
  ∀ s, (s < length (SX.iwork st0))%nat → SX.iwork st0 !!! s = 0.
Hypothesis st0_shape : length <$> SX.sp_input st0 = length <$> inputv.

(** What the instructions from [k] on hand down to the node [j]. *)
Definition pend (k j : nat) : Z :=
  mask_of (λ it : nat * SX.AlgEl D, A it.1)
          (filter (λ it : nat * SX.AlgEl D, j ∈ children it.2) (drop k (indexed B))).

Hypothesis A_output :
  ∀ k e, B !! k = Some e → SX.op e = OP_OUTPUT →
         A k = (SX.sp_output st0 !!! SX.i0 e) !!! SX.i2 e.
Hypothesis A_node :
  ∀ k e, B !! k = Some e → SX.op e ≠ OP_OUTPUT → A k = pend (S k) k.

Lemma pend_unfold (k j : nat) (e : SX.AlgEl D) :
  B !! k = Some e →
  pend k j = if decide (j ∈ children e) then Z.lor (A k) (pend (S k) j)
             else pend (S k) j.
Proof.
  intros Hk. unfold pend.
  assert (indexed B !! k = Some (k, e)) as Hi by (by rewrite indexed_lookup, Hk).
  rewrite (drop_S _ _ _ Hi), filter_cons. cbn [snd].
  by destruct (decide (j ∈ children e)).
Qed.

Lemma pend_dead (k j : nat) : uses (drop k B) j = 0%nat → pend k j = 0.
Proof.
  intros Hu. unfold pend.
  assert (∀ it, it ∈ drop k (indexed B) → j ∉ children it.2) as Hno.
  { intros [m e] Hit Hin. cbn [snd] in Hin.
    assert (j ∈ drop k B ≫= children) as Hj.
    { apply list_elem_of_bind. exists e. split; [done|].
      rewrite <- (indexed_snd B), <- fmap_drop. apply list_elem_of_fmap. by exists (m, e). }
    apply occurrences_pos in Hj. unfold uses in Hu. lia. }
  induction (drop k (indexed B)) as [|it l IH]; [done|].
  rewrite filter_cons_False by (apply Hno, list_elem_of_here).
  apply IH. intros it' Hit'. by apply Hno, list_elem_of_further.
Qed.

Lemma live_has (k j : nat) : (k ≤ N)%nat → live B k j → has B N j.
Proof. intros Hk [[Hlt He] _]. split; [lia|done]. Qed.

Lemma live_child (k c : nat) (e : SX.AlgEl D) :
  B !! k = Some e → c ∈ children e → live B k c.
Proof.
  intros Hk Hc. destruct (B_children _ _ _ Hk Hc) as [Hlt Hec]. split; [by split|].
  rewrite (uses_drop B k e c Hk). apply occurrences_pos in Hc. lia.
Qed.

Lemma live_S (k j : nat) (e : SX.AlgEl D) :
  B !! k = Some e → live B k j → live B (S k) j ∨ j ∈ children e.
Proof.
  intros Hk [[Hlt He] Hu]. rewrite (uses_drop B k e j Hk) in Hu.
  destruct (decide (j ∈ children e)) as [Hin|Hin]; [by right|left].
  split; [split; [lia|done]|]. rewrite occurrences_pos in Hin. lia.
Qed.

Lemma live_before (k j : nat) (e : SX.AlgEl D) :
  B !! k = Some e → live B (S k) j → j ≠ k → live B k j.
Proof.
  intros Hk [[Hlt He] Hu] Hne. split; [split; [lia|done]|].
  rewrite (uses_drop B k e j Hk). lia.
Qed.

Lemma live_self (k : nat) (e : SX.AlgEl D) :
  B !! k = Some e → live B (S k) k → SX.op e ≠ OP_OUTPUT.
Proof. intros Hk [[_ (e0 & He0 & Hop)] _]. congruence. Qed.

(** What the backward sweep has achieved once it has gone through the
    instructions from [k] on. *)
Definition swept (k : nat) (st : SX.bvecs) : Prop :=
  length (SX.iwork st) = length (SX.iwork st0)
  ∧ SX.sp_output st = SX.sp_output st0
  ∧ length <$> SX.sp_input st = length <$> inputv
  ∧ (∀ j, live B k j → SX.iwork st !!! (place !!! j) = pend k j)
  ∧ (∀ s, (s < length (SX.iwork st0))%nat → (∀ j, live B k j → place !!! j ≠ s) →
          SX.iwork st !!! s = 0)
  ∧ (∀ m e', (k ≤ m)%nat → alg' !! m = Some e' → SX.op e' = OP_INPUT →
             (SX.sp_input st !!! SX.i1 e') !! SX.i2 e' = Some (A m)).

(** One instruction of the backward sweep, on the work array: the slot of
    a node is read and cleared, and what was read, or the seed of an output,
    is handed down to the operands. *)
Lemma sweep_work (k : nat) (e : SX.AlgEl D) (st : SX.bvecs) (slots : list nat) :
  B !! k = Some e → swept (S k) st →
  (∀ s, s ∈ slots ↔ ∃ c, c ∈ children e ∧ s = place !!! c) →
  let w := SX.iwork st in
  let w1 := if decide (SX.op e = OP_OUTPUT) then w else <[place !!! k := 0]> w in
  let w' := foldl (λ w s, <[s := Z.lor (w !!! s) (A k)]> w) w1 slots in
  (SX.op e ≠ OP_OUTPUT → w !!! (place !!! k) = A k)
  ∧ length w' = length (SX.iwork st0)
  ∧ (∀ j, live B k j → w' !!! (place !!! j) = pend k j)
  ∧ (∀ s, (s < length (SX.iwork st0))%nat → (∀ j, live B k j → place !!! j ≠ s) →
          w' !!! s = 0).
Proof.
  intros Hk (Hlen & _ & _ & Hlive & Hfree & _) Hslots w w1 w'.
  assert (k < N)%nat as HkN by (rewrite <- B_length; by eapply lookup_lt_Some).
  assert (∀ j, live B k j → (place !!! j < length w)%nat) as Hrange.
  { intros j Hj. unfold w. rewrite Hlen. apply place_range, (live_has k); [lia|done]. }
  assert (SX.op e ≠ OP_OUTPUT → (place !!! k < length w)%nat) as Hrk.
  { intros Hop. unfold w. rewrite Hlen. apply place_range. split; [done|eauto]. }
  assert (SX.op e ≠ OP_OUTPUT →
          ∀ j, live B (S k) j → j ≠ k → place !!! j ≠ place !!! k) as Hkeep.
  { intros Hop j [[Hlt Hej] Hu] Hne Heq.
    apply (place_free j k); [split; [lia|done]|split; [done|eauto]|lia|done|done]. }
  assert (SX.op e ≠ OP_OUTPUT → w !!! (place !!! k) = pend (S k) k) as Hseed.
  { intros Hop. destruct (decide (0 < uses (drop (S k) B) k)%nat) as [Hu|Hu].
    - apply Hlive. split; [split; [lia|eauto]|done].
    - rewrite (pend_dead (S k) k) by lia. apply Hfree; [rewrite <- Hlen; by apply Hrk|].
      intros j Hj. destruct (decide (j = k)) as [->|Hne]; [destruct Hj; lia|].
      by apply Hkeep. }
  assert (∀ c, c ∈ children e → w1 !!! (place !!! c) = pend (S k) c) as Hchild.
  { intros c Hc. pose proof (live_child k c e Hk Hc) as Hlc.
    destruct (B_children _ _ _ Hk Hc) as [Hclt Hcec].
    assert (has B (S k) c) as Hhc by (split; [lia|done]).
    assert (∀ j, live B (S k) j → j ≠ k → place !!! j = place !!! c →
                 (0 < uses (drop (S k) B) c)%nat) as Hsame.
    { intros j Hj Hne Heq. pose proof (live_before k j e Hk Hj Hne) as Hj'.
      assert (j = c) as -> by (apply (place_inj k); [lia|done|done|done]).
      by destruct Hj. }
    unfold w1. destruct (decide (SX.op e = OP_OUTPUT)) as [Hop|Hop].
    - destruct (decide (0 < uses (drop (S k) B) c)%nat) as [Hu|Hu]; [apply Hlive; by split|].
      rewrite (pend_dead (S k) c) by lia. apply Hfree; [rewrite <- Hlen; by apply Hrange|].
      intros j Hj Heq. apply Hu, (Hsame j); [done| |done].
      intros ->. by apply (live_self k e Hk Hj).
    - destruct (decide (place !!! c = place !!! k)) as [Heq|Hne].
      + rewrite Heq, list_lookup_total_insert_eq by (by apply Hrk).
        symmetry. apply pend_dead. destruct (uses (drop (S k) B) c) eqn:Hu; [done|].
        exfalso. apply (Hkeep Hop c); [split; [done|lia]|lia|done].
      + rewrite list_lookup_total_insert_ne by done.
        destruct (decide (0 < uses (drop (S k) B) c)%nat) as [Hu|Hu];
          [apply Hlive; by split|].
        rewrite (pend_dead (S k) c) by lia. apply Hfree; [rewrite <- Hlen; by apply Hrange|].
        intros j Hj Heq. destruct (decide (j = k)) as [->|Hnk]; [congruence|].
        by apply Hu, (Hsame j). }
  assert (length w1 = length w) as Hl1.
  { unfold w1. destruct (decide (SX.op e = OP_OUTPUT)); [done|by rewrite length_insert]. }
  destruct (or_into (A k) slots w1) as [Hl' Hv']. fold w' in Hl', Hv'.
  rewrite Hl1 in Hl', Hv'.
  assert (∀ s, s ∈ slots → ∃ c, live B k c ∧ c ∈ children e ∧ s = place !!! c) as Hsl.
  { intros s' (c & Hc & ->)%Hslots. exists c. split; [by apply (live_child k c e)|done]. }
  split; [|split; [|split]].
  - intros Hop. rewrite (Hseed Hop). symmetry. by apply (A_node k e).
  - unfold w in Hl'. by rewrite Hl', Hlen.
  - intros j Hj. rewrite Hv' by (by apply Hrange). rewrite (pend_unfold k j e Hk).
    destruct (decide (j ∈ children e)) as [Hin|Hin].
    + rewrite decide_True by (apply Hslots; eauto). rewrite (Hchild j Hin). apply Z.lor_comm.
    + rewrite decide_False.
      2:{ intros (c & Hlc & Hc & Heq)%Hsl. apply Hin.
          assert (j = c) as -> by (apply (place_inj k); [lia|done|done|done]). done. }
      destruct (live_S k j e Hk Hj) as [HjS|?]; [|done].
      unfold w1. destruct (decide (SX.op e = OP_OUTPUT)) as [Hop|Hop]; [by apply Hlive|].
      rewrite list_lookup_total_insert_ne; [by apply Hlive|].
      intros Heq. apply (Hkeep Hop j HjS); [|done]. destruct Hj as [[? _] _]. lia.
  - intros s Hs Hfr. rewrite Hv' by (unfold w; by rewrite Hlen).
    rewrite decide_False.
    2:{ intros (c & Hlc & Hc & Heq)%Hsl. by apply (Hfr c). }
    unfold w1. destruct (decide (SX.op e = OP_OUTPUT)) as [Hop|Hop].
    + apply Hfree; [done|]. intros j Hj. apply Hfr, (live_before k j e Hk Hj).
      intros ->. by apply (live_self k e Hk Hj).
    + destruct (decide (s = place !!! k)) as [->|Hne].
      * apply list_lookup_total_insert_eq. by apply Hrk.
      * rewrite list_lookup_total_insert_ne by done. apply Hfree; [done|].
        intros j Hj. destruct (decide (j = k)) as [->|Hnk]; [done|].
        by apply Hfr, (live_before k j e Hk Hj).
Qed.

Lemma children_of (e : SX.AlgEl D) :
  children e = match SX.op e with
               | OP_CONST | OP_PARAMETER | OP_INPUT => []
               | OP_BINARY _ => [SX.i1 e; SX.i2 e]
               | _ => [SX.i1 e]
               end.
Proof. unfold children, SX.child. by destruct (SX.op e). Qed.

(** One instruction of the backward sweep (lines 851-872). *)
Lemma sweep_step (k : nat) (e e' : SX.AlgEl D) (st : SX.bvecs) :
  B !! k = Some e → alg' !! k = Some e' → swept (S k) st → swept k (SX.sp_adj st e').
Proof.
  intros Hk Hk' Hst. pose proof Hst as (Hlen & Hout & Hshape & _ & _ & Hinp).
  pose proof (alg'_finished k e e' Hk Hk') as Hfin. unfold finished, placed in Hfin.
  pose proof (B_ops k e Hk) as Hops. pose proof (children_of e) as Hch.
  assert (SX.op e' ≠ OP_INPUT →
          ∀ m e'm, (k ≤ m)%nat → alg' !! m = Some e'm → SX.op e'm = OP_INPUT →
                   (SX.sp_input st !!! SX.i1 e'm) !! SX.i2 e'm = Some (A m)) as Hold.
  { intros Hop' m e'm Hm Hm' Hopm. destruct (decide (m = k)) as [->|]; [congruence|].
    apply Hinp; [lia|done|done]. }
  destruct (SX.op e) eqn:Hop; try done.
  - (* a constant *)
    destruct Hfin as [Hop' Hi0].
    destruct (sweep_work k e st [] Hk Hst) as (Hseed & Hl & Hlv & Hfr).
    { intros s. rewrite Hch. split; [by intros ?%elem_of_nil|].
      by intros (c & ?%elem_of_nil & _). }
    cbn zeta in Hl, Hlv, Hfr. rewrite Hop in Hl, Hlv, Hfr. cbn in Hl, Hlv, Hfr.
    unfold SX.sp_adj, swept. rewrite Hop', Hi0. cbn [SX.iwork SX.sp_input SX.sp_output].
    split; [done|]. split; [done|]. split; [done|]. split; [done|]. split; [done|].
    apply Hold. by rewrite Hop'.
  - (* an output sentinel *)
    destruct Hfin as (Hop' & Hi0 & Hi1 & Hi2).
    destruct (sweep_work k e st [place !!! SX.i1 e] Hk Hst) as (Hseed & Hl & Hlv & Hfr).
    { intros s. rewrite Hch. split.
      - intros ->%list_elem_of_singleton. exists (SX.i1 e). split; [apply list_elem_of_here|done].
      - intros (c & ->%list_elem_of_singleton & ->). apply list_elem_of_here. }
    cbn zeta in Hl, Hlv, Hfr. rewrite Hop in Hl, Hlv, Hfr. cbn in Hl, Hlv, Hfr.
    rewrite (A_output k e Hk Hop) in Hl, Hlv, Hfr.
    unfold SX.sp_adj, swept. rewrite Hop', Hi0, Hi1, Hi2, Hout.
    cbn [SX.iwork SX.sp_input SX.sp_output].
    split; [done|]. split; [done|]. split; [done|]. split; [done|]. split; [done|].
    apply Hold. by rewrite Hop'.
  - (* a symbol, which has become an input instruction *)
    destruct Hfin as (Hop' & Hi0 & Hcell).
    destruct (sweep_work k e st [] Hk Hst) as (Hseed & Hl & Hlv & Hfr).
    { intros s. rewrite Hch. split; [by intros ?%elem_of_nil|].
      by intros (c & ?%elem_of_nil & _). }
    cbn zeta in Hl, Hlv, Hfr. rewrite Hop in Hseed, Hl, Hlv, Hfr. cbn in Hl, Hlv, Hfr.
    unfold SX.sp_adj, swept. rewrite Hop', Hi0. cbn [SX.iwork SX.sp_input SX.sp_output].
    split; [done|]. split; [done|]. split; [by rewrite cell_update_shape|].
    split; [done|]. split; [done|].
    intros m e'm Hm Hm' Hopm. destruct (decide (m = k)) as [->|Hne].
    + assert (e'm = e') as -> by congruence.
      rewrite Hseed by done. apply cell_update_eq.
      rewrite (same_shape_row _ inputv _ Hshape). by eapply lookup_lt_Some.
    + rewrite cell_update_ne; [apply Hinp; [lia|done|done]|].
      destruct (lookup_lt_is_Some_2 B m) as [em Hem].
      { rewrite B_length, <- alg'_length. by eapply lookup_lt_Some. }
      pose proof (alg'_finished m em e'm Hem Hm') as Hfm. unfold finished, placed in Hfm.
      pose proof (B_ops m em Hem) as Hopsm.
      destruct (SX.op em) eqn:Hopem; try done; try (destruct Hfm as [Hfm _]; congruence).
      destruct Hfm as (_ & _ & Hcm). intros Heq. inversion Heq as [[H1 H2]].
      rewrite H1, H2 in Hcm. congruence.
  - (* a unary operation *)
    destruct Hfin as (Hop' & Hi0 & Hi1 & Hi2).
    destruct (sweep_work k e st [place !!! SX.i1 e; place !!! SX.i1 e] Hk Hst)
      as (Hseed & Hl & Hlv & Hfr).
    { intros s. rewrite Hch. split.
      - intros Hs. exists (SX.i1 e). split; [apply list_elem_of_here|].
        apply elem_of_cons in Hs as [->|Hs]; [done|]. by apply list_elem_of_singleton in Hs.
      - intros (c & ->%list_elem_of_singleton & ->). apply list_elem_of_here. }
    cbn zeta in Hl, Hlv, Hfr. rewrite Hop in Hseed, Hl, Hlv, Hfr. cbn in Hl, Hlv, Hfr.
    rewrite <- Hseed in Hl, Hlv, Hfr by done.
    unfold SX.sp_adj, swept. rewrite Hop', Hi0, Hi1, Hi2.
    cbn [SX.iwork SX.sp_input SX.sp_output].
    split; [done|]. split; [done|]. split; [done|]. split; [done|]. split; [done|].
    apply Hold. by rewrite Hop'.
  - (* a binary operation *)
    destruct Hfin as (Hop' & Hi0 & Hi1 & Hi2).
    destruct (sweep_work k e st [place !!! SX.i1 e; place !!! SX.i2 e] Hk Hst)
      as (Hseed & Hl & Hlv & Hfr).
    { intros s. rewrite Hch. split.
      - intros [->|Hs]%elem_of_cons; [exists (SX.i1 e)|exists (SX.i2 e)].
        + split; [apply list_elem_of_here|done].
        + apply list_elem_of_singleton in Hs.
          split; [apply list_elem_of_further, list_elem_of_here|done].
      - intros (c & [-> | ->%list_elem_of_singleton]%elem_of_cons & ->);
          [apply list_elem_of_here|apply list_elem_of_further, list_elem_of_here]. }
    cbn zeta in Hl, Hlv, Hfr. rewrite Hop in Hseed, Hl, Hlv, Hfr. cbn in Hl, Hlv, Hfr.
    rewrite <- Hseed in Hl, Hlv, Hfr by done.
    unfold SX.sp_adj, swept. rewrite Hop', Hi0, Hi1, Hi2.
    cbn [SX.iwork SX.sp_input SX.sp_output].
    split; [done|]. split; [done|]. split; [done|]. split; [done|]. split; [done|].
    apply Hold. by rewrite Hop'.
Qed.

Lemma swept_start : swept N st0.
Proof.
  assert (∀ j, ¬ live B N j) as Hno.
  { intros j [_ Hu]. rewrite drop_ge in Hu by lia. cbn in Hu. lia. }
  split; [done|]. split; [done|]. split; [done|]. split; [|split].
  - intros j Hj. by destruct (Hno j).
  - intros s Hs _. by apply st0_zero.
  - intros m e' Hm Hm'. apply lookup_lt_Some in Hm'. lia.
Qed.

Lemma swept_run (n : nat) :
  (n ≤ N)%nat → swept (N - n) (foldl SX.sp_adj st0 (reverse (drop (N - n) alg'))).
Proof.
  induction n as [|n IH]; intros Hn.
  - rewrite Nat.sub_0_r, drop_ge by lia. apply swept_start.
  - destruct (lookup_lt_is_Some_2 alg' (N - S n)) as [e' He']; [lia|].
    destruct (lookup_lt_is_Some_2 B (N - S n)) as [e He]; [lia|].
    rewrite (drop_S _ _ _ He'), reverse_cons, foldl_app. cbn [foldl].
    apply (sweep_step (N - S n) e e'); [done|done|].
    replace (S (N - S n)) with (N - n)%nat by lia. apply IH. lia.
Qed.

(** The whole backward sweep: every input instruction has stored what
    reaches its symbol, and the work array is clear again. *)
Lemma swept_all :
  let st := SX.spEvaluate false alg' st0 in
  SX.iwork st = replicate (length (SX.iwork st0)) 0
  ∧ ∀ m e', alg' !! m = Some e' → SX.op e' = OP_INPUT →
            (SX.sp_input st !!! SX.i1 e') !! SX.i2 e' = Some (A m).
Proof.
  pose proof (swept_run N (le_n N)) as Hs. rewrite Nat.sub_diag, drop_0 in Hs.
  destruct Hs as (Hlen & _ & _ & _ & Hfree & Hinp). cbn zeta. unfold SX.spEvaluate.
  split.
  - apply all_zero; [done|]. intros k Hk. apply Hfree; [done|].
    intros j [[Hj _] _]. lia.
  - intros m e' Hm Hop. apply (Hinp m e'); [lia|done|done].
Qed.

End SXReverse.

(** ** What an output reaches *)

Lemma mask_eq (x y : Z) :
  (∀ b, Z.testbit x b = true ↔ Z.testbit y b = true) → x = y.
Proof. intros Hb. apply Z.bits_inj'. intros b _. apply Bool.eq_true_iff_eq, Hb. Qed.

Lemma bind_agree {A C} (f g : A → list C) (l : list A) :
  (∀ x, x ∈ l → f x = g x) → l ≫= f = l ≫= g.
Proof.
  induction l as [|x l IH]; intros Hfg; [done|]. rewrite !bind_cons.
  rewrite (Hfg x (list_elem_of_here _ _)), IH; [done|].
  intros y Hy. by apply Hfg, list_elem_of_further.
Qed.

Section SXReach.

Context {D : Type} `{!Inhabited D}.

(** The positions reached from each instruction of [l] through the
    operands, the instruction's own position first. *)
Definition reaches (l : list (SX.AlgEl D)) : list (list nat) :=
  foldl (λ acc e, acc ++ [length acc :: (children e ≫= λ c, acc !!! c)]) [] l.

Lemma reaches_length (l : list (SX.AlgEl D)) : length (reaches l) = length l.
Proof.
  induction l as [|e l IH] using rev_ind; [done|].
  unfold reaches in *. rewrite foldl_app. cbn [foldl]. rewrite !length_app, IH. done.
Qed.

Lemma reaches_snoc (l : list (SX.AlgEl D)) (e : SX.AlgEl D) :
  reaches (l ++ [e]) = reaches l ++ [length l :: (children e ≫= λ c, reaches l !!! c)].
Proof.
  unfold reaches at 1. rewrite foldl_app. cbn [foldl]. fold (reaches l).
  by rewrite reaches_length.
Qed.

Lemma reaches_lookup (l : list (SX.AlgEl D)) :
  (∀ k e c, l !! k = Some e → c ∈ children e → (c < k)%nat) →
  ∀ k e, l !! k = Some e →
         reaches l !!! k = k :: (children e ≫= λ c, reaches l !!! c).
Proof.
  induction l as [|x l IH] using rev_ind; intros Hbelow k e Hk; [done|].
  assert (∀ k e c, l !! k = Some e → c ∈ children e → (c < k)%nat) as Hbelow'.
  { intros k' e' c Hk' Hc. apply (Hbelow k' e'); [by apply lookup_app_l_Some|done]. }
  rewrite reaches_snoc.
  assert (∀ c, (c < length l)%nat →
               (reaches l ++ [length l :: (children x ≫= λ c, reaches l !!! c)]) !!! c
               = reaches l !!! c) as Hpre.
  { intros c Hc. apply lookup_total_app_l. by rewrite reaches_length. }
  destruct (decide (k < length l)%nat) as [Hlt|Hge].
  - rewrite lookup_app_l in Hk by done. rewrite Hpre by done.
    rewrite (IH Hbelow' k e Hk). f_equal. apply bind_agree. intros c Hc.
    symmetry. apply Hpre. specialize (Hbelow' k e c Hk Hc). lia.
  - assert (k = length l) as ->.
    { apply lookup_lt_Some in Hk. rewrite length_app in Hk. cbn in Hk. lia. }
    rewrite list_lookup_middle in Hk by done. inversion Hk; subst x.
    rewrite list_lookup_total_middle by (by rewrite reaches_length).
    f_equal. apply bind_agree. intros c Hc. symmetry. apply Hpre.
    apply (Hbelow (length l) e); [by apply list_lookup_middle|done].
Qed.

Variable B : list (SX.AlgEl D).
Variable seedv : list (list Z).

Hypothesis B_children :
  ∀ k e c, B !! k = Some e → c ∈ children e →
           (c < k)%nat ∧ ∃ ec, B !! c = Some ec ∧ SX.op ec ≠ OP_OUTPUT.

Lemma reach_unfold (k : nat) (e : SX.AlgEl D) :
  B !! k = Some e → reaches B !!! k = k :: (children e ≫= λ c, reaches B !!! c).
Proof.
  apply reaches_lookup. intros k' e' c Hk' Hc. by destruct (B_children k' e' c Hk' Hc).
Qed.

Lemma reach_self (k : nat) (e : SX.AlgEl D) : B !! k = Some e → k ∈ reaches B !!! k.
Proof. intros Hk. rewrite (reach_unfold k e Hk). apply list_elem_of_here. Qed.

Lemma reach_inv (s : nat) (es : SX.AlgEl D) (j : nat) :
  B !! s = Some es → j ∈ reaches B !!! s →
  j = s ∨ ∃ c, c ∈ children es ∧ j ∈ reaches B !!! c.
Proof.
  intros Hs Hj. rewrite (reach_unfold s es Hs) in Hj.
  apply elem_of_cons in Hj as [->|Hj]; [by left|right].
  by apply list_elem_of_bind in Hj as (c & Hj & Hc); exists c.
Qed.

Lemma reach_child (s : nat) (es : SX.AlgEl D) (c j : nat) :
  B !! s = Some es → c ∈ children es → j ∈ reaches B !!! c → j ∈ reaches B !!! s.
Proof.
  intros Hs Hc Hj. rewrite (reach_unfold s es Hs). apply list_elem_of_further.
  apply list_elem_of_bind. by exists c.
Qed.

(** Below an instruction only nodes are reached. *)
Lemma reach_below (s : nat) :
  ∀ es j, B !! s = Some es → j ∈ reaches B !!! s →
          j = s ∨ ((j < s)%nat ∧ ∃ ej, B !! j = Some ej ∧ SX.op ej ≠ OP_OUTPUT).
Proof.
  induction s as [s IH] using lt_wf_ind. intros es j Hs Hj.
  destruct (reach_inv s es j Hs Hj) as [->|(c & Hc & Hjc)]; [by left|right].
  destruct (B_children s es c Hs Hc) as (Hlt & ec & Hec & Hop).
  destruct (IH c Hlt ec j Hec Hjc) as [->|[Hjlt Hej]]; [by eauto|].
  split; [lia|done].
Qed.

(** What is reached is closed under taking operands. *)
Lemma reach_closed (s : nat) :
  ∀ es m em c, B !! s = Some es → m ∈ reaches B !!! s → B !! m = Some em →
               c ∈ children em → c ∈ reaches B !!! s.
Proof.
  induction s as [s IH] using lt_wf_ind. intros es m em c Hs Hm Hem Hc.
  destruct (reach_inv s es m Hs Hm) as [->|(c' & Hc' & Hmc)].
  - assert (em = es) as -> by congruence.
    destruct (B_children s es c Hs Hc) as (Hlt & ec & Hec & Hop).
    apply (reach_child s es c); [done|done|]. by apply (reach_self c ec).
  - destruct (B_children s es c' Hs Hc') as (Hlt & ec' & Hec' & Hop).
    apply (reach_child s es c'); [done|done|]. by apply (IH c' Hlt ec' m em c).
Qed.

(** Whatever is reached, the instruction apart, is an operand of
    something reached. *)
Lemma reach_parent (s : nat) :
  ∀ es j, B !! s = Some es → j ∈ reaches B !!! s →
          j = s ∨ ∃ m em, B !! m = Some em ∧ j ∈ children em ∧ m ∈ reaches B !!! s.
Proof.
  induction s as [s IH] using lt_wf_ind. intros es j Hs Hj.
  destruct (reach_inv s es j Hs Hj) as [->|(c & Hc & Hjc)]; [by left|right].
  destruct (B_children s es c Hs Hc) as (Hlt & ec & Hec & Hop).
  destruct (IH c Hlt ec j Hec Hjc) as [->|(m & em & Hem & Hjm & Hmc)].
  - exists s, es. split; [done|]. split; [done|]. by apply (reach_self s es).
  - exists m, em. split; [done|]. split; [done|]. by apply (reach_child s es c).
Qed.

(** The union of the seeds of the output nonzeros that reach the position
    [m]. *)
Definition seed_of (e : SX.AlgEl D) : Z := (seedv !!! SX.i0 e) !!! SX.i2 e.

Definition dependents (m : nat) : Z :=
  mask_of (λ it : nat * SX.AlgEl D, seed_of it.2)
          (filter (λ it : nat * SX.AlgEl D,
                     SX.op it.2 = OP_OUTPUT ∧ m ∈ reaches B !!! it.1)
                  (indexed B)).

Lemma dependents_testbit (m : nat) (b : Z) :
  Z.testbit (dependents m) b = true
  ↔ ∃ s es, B !! s = Some es ∧ SX.op es = OP_OUTPUT ∧ m ∈ reaches B !!! s
            ∧ Z.testbit (seed_of es) b = true.
Proof.
  unfold dependents. rewrite mask_of_testbit. split.
  - intros ([s es] & Hin & Hb). apply list_elem_of_filter in Hin as [[Hop Hm] Hin].
    apply elem_of_indexed in Hin. by exists s, es.
  - intros (s & es & Hs & Hop & Hm & Hb). exists (s, es). split; [|done].
    apply list_elem_of_filter. split; [done|]. by apply elem_of_indexed.
Qed.

Lemma dependents_output (k : nat) (e : SX.AlgEl D) :
  B !! k = Some e → SX.op e = OP_OUTPUT → dependents k = seed_of e.
Proof.
  intros Hk Hop. apply mask_eq. intros b. rewrite dependents_testbit. split.
  - intros (s & es & Hs & Hops & Hm & Hb).
    destruct (reach_below s es k Hs Hm) as [->|(_ & ek & Hek & Hnop)].
    + by assert (e = es) as -> by congruence.
    + congruence.
  - intros Hb. exists k, e. split; [done|]. split; [done|]. split; [|done].
    by apply (reach_self k e).
Qed.

Lemma dependents_node (k : nat) (e : SX.AlgEl D) :
  B !! k = Some e → SX.op e ≠ OP_OUTPUT → dependents k = pend B dependents (S k) k.
Proof.
  intros Hk Hop. apply mask_eq. intros b. unfold pend.
  rewrite mask_of_testbit, dependents_testbit. split.
  - intros (s & es & Hs & Hops & Hm & Hb).
    destruct (reach_parent s es k Hs Hm) as [->|(m & em & Hem & Hkm & Hms)]; [congruence|].
    exists (m, em). cbn [fst snd]. split.
    + apply list_elem_of_filter. split; [done|].
      destruct (B_children m em k Hem Hkm) as [Hlt _].
      apply list_elem_of_lookup. exists (m - S k)%nat. rewrite lookup_drop.
      replace (S k + (m - S k))%nat with m by lia. by rewrite indexed_lookup, Hem.
    + apply dependents_testbit. by exists s, es.
  - intros ([m em] & Hin & Hb). cbn [fst snd] in *.
    apply list_elem_of_filter in Hin as [Hkm Hin].
    assert (B !! m = Some em) as Hem.
    { apply list_elem_of_lookup in Hin as [i Hi]. rewrite lookup_drop in Hi.
      apply elem_of_indexed. by eapply list_elem_of_lookup_2. }
    apply dependents_testbit in Hb as (s & es & Hs & Hops & Hms & Hb).
    exists s, es. split; [done|]. split; [done|]. split; [|done].
    by apply (reach_closed s es m em k).
Qed.

End SXReach.

(** ** Reached positions and the symbols under a node *)

Section SXSymbols.

Context {D : Type} `{!Inhabited D}.

Lemma symbols_under_lookup (nodes : list (option (SX.SXNode D))) :
  deps_ok nodes →
  ∀ k n, nodes !! k = Some n →
         symbols_under nodes !!! k = under (symbols_under nodes) k n.
Proof.
  induction nodes as [|x nodes IH] using rev_ind; intros Hok k n Hk; [done|].
  assert (deps_ok nodes) as Hok'.
  { intros j ndj Hj. destruct (Hok j ndj) as [Hs Hd]; [by apply lookup_app_l_Some|].
    split; [done|]. intros c Hc. destruct (Hd c Hc) as (Hlt & ndc & Hndc).
    split; [done|]. exists ndc. apply lookup_lt_Some in Hj.
    by rewrite lookup_app_l in Hndc by lia. }
  rewrite symbols_under_snoc.
  assert (∀ j (m : option (SX.SXNode D)),
            (j ≤ length nodes)%nat →
            match m with
            | Some nd => ∀ c, c ∈ deps nd → (c < j)%nat
            | None => True
            end →
            under (symbols_under nodes
                     ++ [under (symbols_under nodes) (length nodes) x]) j m
            = under (symbols_under nodes) j m) as Hpre.
  { intros j [nd|] Hj Hd; [|done]. unfold under. unfold deps in Hd.
    destruct (SX.getOp nd); try done.
    - rewrite lookup_total_app_l; [done|]. rewrite symbols_under_length.
      specialize (Hd (SX.dep0 nd) (list_elem_of_here _ _)). lia.
    - rewrite !lookup_total_app_l; [done| |]; rewrite symbols_under_length.
      + specialize (Hd (SX.dep1 nd)
                       (list_elem_of_further _ _ _ (list_elem_of_here _ _))). lia.
      + specialize (Hd (SX.dep0 nd) (list_elem_of_here _ _)). lia. }
  assert (match n with
          | Some nd => ∀ c, c ∈ deps nd → (c < k)%nat
          | None => True
          end) as Hdn.
  { destruct n as [nd|]; [|done]. intros c Hc. destruct (Hok k nd Hk) as [_ Hd].
    by destruct (Hd c Hc). }
  destruct (decide (k < length nodes)%nat) as [Hlt|Hge].
  - rewrite lookup_app_l in Hk by done.
    rewrite lookup_total_app_l by (by rewrite symbols_under_length).
    rewrite (IH Hok' k n Hk). symmetry. apply Hpre; [lia|done].
  - assert (k = length nodes) as ->.
    { apply lookup_lt_Some in Hk. rewrite length_app in Hk. cbn in Hk. lia. }
    rewrite list_lookup_middle in Hk by done. inversion Hk; subst x.
    rewrite list_lookup_total_middle by (by rewrite symbols_under_length).
    symmetry. apply Hpre; [lia|done].
Qed.

Variable nodes : list (option (SX.SXNode D)).
Variable outputv : list (list nat).
Variable B : list (SX.AlgEl D).

Hypothesis nodes_ok : deps_ok nodes.
Hypothesis B_length : length B = length nodes.
Hypothesis B_record : ∀ k e, B !! k = Some e → record_of nodes outputv k e.
Hypothesis B_children :
  ∀ k e c, B !! k = Some e → c ∈ children e →
           (c < k)%nat ∧ ∃ ec, B !! c = Some ec ∧ SX.op ec ≠ OP_OUTPUT.

Definition is_symbol_record (a : nat) : Prop :=
  ∃ ea, B !! a = Some ea ∧ SX.op ea = OP_PARAMETER.

(** The symbols under a node are the symbols its instruction reaches. *)
Lemma symbols_reached (t : nat) :
  ∀ nd a, nodes !! t = Some (Some nd) →
          a ∈ symbols_under nodes !!! t ↔ a ∈ reaches B !!! t ∧ is_symbol_record a.
Proof.
  induction t as [t IH] using lt_wf_ind. intros nd a Ht.
  destruct (lookup_lt_is_Some_2 B t) as [e He].
  { rewrite B_length. by eapply lookup_lt_Some. }
  pose proof (B_record t e He) as Hrec. unfold record_of in Hrec. rewrite Ht in Hrec.
  destruct Hrec as (Hop & _ & _ & Hdeps).
  destruct (nodes_ok t nd Ht) as [Hscalar Hbelow].
  rewrite (symbols_under_lookup nodes nodes_ok t _ Ht).
  rewrite (reach_unfold B B_children t e He), (children_of e), Hop.
  assert (∀ c, c ∈ deps nd →
               a ∈ symbols_under nodes !!! c
               ↔ a ∈ reaches B !!! c ∧ is_symbol_record a) as Hc.
  { intros c Hin. destruct (Hbelow c Hin) as (Hlt & ndc & Hndc). by apply (IH c Hlt ndc). }
  assert (is_symbol_record t → SX.getOp nd = OP_PARAMETER) as Hself.
  { intros (ea & Hea & Hopa). congruence. }
  unfold under, deps in *. destruct (SX.getOp nd) eqn:Hnd; try done.
  - (* a constant *)
    cbn. split; [by intros ?%elem_of_nil|].
    intros [->%list_elem_of_singleton Hs]. by specialize (Hself Hs).
  - (* a symbol *)
    cbn. rewrite !list_elem_of_singleton. split; [|by intros [? _]].
    intros ->. split; [done|]. exists e. split; [done|congruence].
  - (* a unary operation *)
    destruct (Hdeps eq_refl) as [-> _]. cbn. rewrite app_nil_r.
    rewrite (Hc (SX.dep0 nd) (list_elem_of_here _ _)). rewrite elem_of_cons. split.
    + intros [? ?]. split; [by right|done].
    + intros [[-> | ?] Hs]; [by specialize (Hself Hs)|done].
  - (* a binary operation *)
    destruct (Hdeps eq_refl) as [-> ->]. cbn. rewrite app_nil_r.
    rewrite elem_of_cons, !elem_of_app.
    rewrite (Hc (SX.dep0 nd) (list_elem_of_here _ _)).
    rewrite (Hc (SX.dep1 nd) (list_elem_of_further _ _ _ (list_elem_of_here _ _))). split.
    + intros [[? ?]|[? ?]]; (split; [|done]); right; [by left|by right].
    + intros [[-> | [?|?]] Hs]; [by specialize (Hself Hs)|by left|by right].
Qed.

End SXSymbols.

(** ** The finished tape of a sorted and closed graph *)

(** Every node has a place below [worksize], a node is not placed where
    a node still to be read sits, and the finished tape names the places. *)
Lemma sx_init_placed {D : Type} `{!Inhabited D} (live_variables : bool)
    (nodes : list (option (SX.SXNode D))) (inputv outputv : list (list nat))
    (f : SX.compiled D) :
  SX.init live_variables nodes inputv outputv = inr f →
  well_sorted nodes outputv = true →
  closed nodes inputv = true →
  ∃ b place,
    SX.build nodes outputv = inr b
    ∧ length (SX.algorithm_ f) = length nodes
    ∧ (∀ j, has (SX.b_algorithm b) (length nodes) j → (place !!! j < SX.worksize f)%nat)
    ∧ (∀ j j', has (SX.b_algorithm b) (length nodes) j →
               has (SX.b_algorithm b) (length nodes) j' → (j < j')%nat →
               (0 < uses (drop (S j') (SX.b_algorithm b)) j)%nat →
               place !!! j' ≠ place !!! j)
    ∧ (∀ k j j', (k ≤ length nodes)%nat →
                 live (SX.b_algorithm b) k j → live (SX.b_algorithm b) k j' →
                 place !!! j = place !!! j' → j = j')
    ∧ (∀ k e e', SX.b_algorithm b !! k = Some e → SX.algorithm_ f !! k = Some e' →
                 finished place inputv k e e').
Proof.
  intros Hinit Hsorted Hclosed.
  destruct (sx_init_related live_variables nodes inputv outputv f Hinit Hsorted Hclosed)
    as (b & alg & a & Hbuild & Halloc & Hwsf & Hlen' & Hrel).
  destruct (sx_sorted_records (λ _ x _, x) (λ _, inhabitant) nodes outputv b Hbuild Hsorted)
    as ([Hlen Hrec Hrl Hrc Hch Hsy Hcur Hoff] & B_ops & B_i0 & B_children & B_out & _).
  set (B := SX.b_algorithm b) in *. set (N := length nodes) in *.
  destruct (traced_fold B live_variables N Hlen B_ops B_i0 B_children (SX.b_refcount b)
              Hrl Hrc N (alg, a) (le_n N))
    as (Hla & Hal & Hpl & Hrg & Hfree & Hinj).
  { by rewrite take_ge by lia. }
  cbn [fst snd] in *. exists b, (SX.a_place a).
  split; [done|]. split; [by rewrite Hlen', Hla|]. rewrite Hwsf.
  split; [done|]. split; [done|]. split; [done|].
  intros k e e' Hk Hk'. destruct (lookup_lt_is_Some_2 alg k) as [e3 He3].
  { rewrite Hla. rewrite <- Hlen. by eapply lookup_lt_Some. }
  pose proof (Hpl k e e3 Hk He3) as Hp. pose proof Hp as [Hop3 Hrest].
  unfold finished.
  destruct (Hrel k e3 e' He3 Hk') as [[Hnp ->]|(Hpar & Hin & Hi0 & Hcell)].
  - destruct (SX.op e) eqn:Hop; done.
  - rewrite Hop3 in Hpar. rewrite Hpar in Hrest |- *. by rewrite Hi0, Hrest.
Qed.

(** Backward sparsity propagation computes, for every input, the union of
    the seeds of the outputs that depend on it.  Let the node list be
    topologically sorted with one output sentinel per output nonzero, let
    every input be one of the nodes and every symbol one of the inputs,
    and let [init] have compiled it into [f], with [live_variables] on or
    off.  After [spInit(false)] has cleared a work array with room for
    [worksize f] masks, the backward sweep of [spEvaluate] stores in the
    nonzero of a symbol that is listed once among the inputs the bitwise
    or of the masks held by the output nonzeros under which the symbol
    occurs, and leaves the work array clear. *)
Theorem backward_sweep_gives_dependents {D : Type} `{!Inhabited D}
    (live_variables : bool) (nodes : list (option (SX.SXNode D)))
    (inputv outputv : list (list nat)) (f : SX.compiled D) (st : SX.bvecs)
    (w : list Z) :
  SX.init live_variables nodes inputv outputv = inr f →
  well_sorted nodes outputv = true →
  closed nodes inputv = true →
  length <$> SX.sp_input st = length <$> inputv →
  SX.iwork st = SX.spInit false w →
  (SX.worksize f ≤ length w)%nat →
  let st' := SX.spEvaluate false (SX.algorithm_ f) st in
  SX.iwork st' = replicate (length w) 0
  ∧ ∀ ind nz a nd,
      (inputv !!! ind) !! nz = Some a →
      (∀ ind' nz', (inputv !!! ind') !! nz' = Some a → ind' = ind ∧ nz' = nz) →
      nodes !! a = Some (Some nd) → SX.getOp nd = OP_PARAMETER →
      (SX.sp_input st' !!! ind) !! nz
      = Some (mask_of (λ c : nat * nat * nat, (SX.sp_output st !!! c.1.1) !!! c.1.2)
                      (filter (λ c : nat * nat * nat, a ∈ symbols_under nodes !!! c.2)
                              (cells outputv))).
Proof.
  intros Hinit Hsorted Hclosed Hshape Hwork Hws st'.
  destruct (closed_spec _ _ Hclosed) as [Hrange _].
  destruct (sx_init_placed live_variables nodes inputv outputv f Hinit Hsorted Hclosed)
    as (b & place & Hbuild & Hlen' & Hrg & Hfree & Hinj & Hfin).
  destruct (sx_sorted_records (λ _ x _, x) (λ _, inhabitant) nodes outputv b Hbuild Hsorted)
    as ([Hlen Hrec Hrl Hrc Hch Hsy Hcur Hoff] & B_ops & B_i0 & B_children & B_out & _).
  set (B := SX.b_algorithm b) in *. set (N := length nodes) in *.
  set (seedv := SX.sp_output st).
  assert (length (SX.iwork st) = length w) as Hlw.
  { rewrite Hwork. unfold SX.spInit. cbn. by rewrite length_replicate. }
  destruct (swept_all B N place (SX.algorithm_ f) inputv st (dependents B seedv)
              Hlen B_ops B_children) as [Hclear Hinp].
  { exact Hlen'. }
  { exact Hfin. }
  { intros j Hj. rewrite Hlw. specialize (Hrg j Hj). lia. }
  { exact Hfree. }
  { exact Hinj. }
  { intros s Hs. rewrite Hwork. unfold SX.spInit. cbn.
    apply lookup_total_replicate_2. rewrite Hwork in Hs. unfold SX.spInit in Hs. cbn in Hs.
    by rewrite length_replicate in Hs. }
  { exact Hshape. }
  { intros k e Hk Hop. by rewrite (dependents_output B seedv B_children k e Hk Hop). }
  { intros k e Hk Hop. by apply (dependents_node B seedv B_children k e). }
  split; [by rewrite <- Hlw|].
  intros ind nz s nd Hcell Honce Hs Hsym.
  (* the input instruction of the symbol *)
  destruct (lookup_lt_is_Some_2 B s) as [es Hes].
  { rewrite Hlen. by eapply lookup_lt_Some. }
  destruct (lookup_lt_is_Some_2 (SX.algorithm_ f) s) as [es' Hes'].
  { rewrite Hlen'. by eapply lookup_lt_Some. }
  pose proof (Hrec s es Hes) as Hr. unfold record_of in Hr. rewrite Hs in Hr.
  destruct Hr as (Hops & _).
  pose proof (Hfin s es es' Hes Hes') as Hf. unfold finished in Hf.
  rewrite Hops, Hsym in Hf. destruct Hf as (Hin & _ & Hc).
  destruct (Honce _ _ Hc) as [Hi1 Hi2].
  unfold st'. rewrite <- Hi1, <- Hi2. rewrite (Hinp s es' Hes' Hin). f_equal.
  (* what reaches the symbol, in terms of the outputs *)
  pose proof (deps_ok_sorted nodes outputv Hsorted) as Hok.
  assert (count_null nodes = sum_list_with length outputv) as Hnull.
  { unfold well_sorted in Hsorted. apply andb_true_iff in Hsorted as [_ Hc0].
    rewrite bool_decide_eq_true in Hc0. by rewrite <- concat_length_nonzeros. }
  apply mask_eq. intros bit. rewrite dependents_testbit, mask_of_testbit. split.
  - intros (k & ek & Hk & Hop & Hreach & Hbit).
    exists (SX.i0 ek, SX.i2 ek, SX.i1 ek). split; [|done].
    apply list_elem_of_filter. split; [|by apply elem_of_cells, (B_out k)].
    cbn [snd].
    destruct (reach_inv B B_children k ek s Hk Hreach) as [->|(c & Hcin & Hsc)].
    { congruence. }
    rewrite (children_of ek), Hop in Hcin. apply list_elem_of_singleton in Hcin. subst c.
    destruct (B_children k ek (SX.i1 ek) Hk) as (Hlt & et & Het & Hnout).
    { rewrite (children_of ek), Hop. apply list_elem_of_here. }
    pose proof (Hrec _ _ Het) as Hrt. unfold record_of in Hrt.
    destruct (nodes !! SX.i1 ek) as [[ndt|]|] eqn:Hnt; [| |done].
    + apply (symbols_reached nodes outputv B Hok Hlen Hrec B_children _ ndt s Hnt).
      split; [done|]. exists es. split; [done|congruence].
    + destruct Hrt as [Hrt _]. congruence.
  - intros ([[o nz'] t] & Hmem & Hbit). cbn [fst snd] in *.
    apply list_elem_of_filter in Hmem as [Hunder Hmem]. cbn [snd] in Hunder.
    apply elem_of_cells in Hmem.
    destruct (outputv !! o) as [x|] eqn:Hx;
      [|by rewrite list_lookup_total_alt, Hx in Hmem].
    rewrite (list_lookup_total_correct _ _ _ Hx) in Hmem.
    destruct (sx_init_outputs live_variables nodes inputv outputv f Hinit Hnull Hrange
                o nz' x Hx) as (e' & He' & (Hop' & Hi0' & Hi2')); [by eapply lookup_lt_Some|].
    apply list_elem_of_lookup in He' as [k Hk'].
    destruct (lookup_lt_is_Some_2 B k) as [ek Hk].
    { rewrite Hlen. fold N in Hlen'. rewrite <- Hlen'. by eapply lookup_lt_Some. }
    pose proof (Hfin k ek e' Hk Hk') as Hf. unfold finished, placed in Hf.
    pose proof (B_ops k ek Hk) as Hopsk.
    destruct (SX.op ek) eqn:Hopk; try done; try (destruct Hf as [Hf _]; congruence).
    destruct Hf as (_ & Hk0 & _ & Hk2).
    pose proof (B_out k ek Hk Hopk) as Hcellk.
    rewrite <- Hk0, <- Hk2, Hi0', Hi2' in Hcellk.
    rewrite (list_lookup_total_correct _ _ _ Hx) in Hcellk.
    assert (SX.i1 ek = t) as Ht by congruence.
    exists k, ek. split; [done|]. split; [done|]. split.
    + destruct (output_is_node nodes outputv o nz' t Hsorted) as [ndt Hnt].
      { by rewrite (list_lookup_total_correct _ _ _ Hx). }
      apply (symbols_reached nodes outputv B Hok Hlen Hrec B_children t ndt s Hnt)
        in Hunder as [Hreach _].
      apply (reach_child B B_children k ek t); [done| |done].
      rewrite (children_of ek), Hopk, Ht. apply list_elem_of_here.
    + unfold seed_of. by rewrite <- Hk0, <- Hk2, Hi0', Hi2'.
Qed.

Lemma backward_sweep_gives_dependents_witness :
  SX.iwork (SX.spEvaluate false (SX.algorithm_ square_of_sum_tape)
              {| SX.iwork := SX.spInit false [5; 9]; SX.sp_input := [[0; 0]];
                 SX.sp_output := [[6]] |}) = [0; 0]
  ∧ (SX.sp_input (SX.spEvaluate false (SX.algorithm_ square_of_sum_tape)
                    {| SX.iwork := SX.spInit false [5; 9]; SX.sp_input := [[0; 0]];
                       SX.sp_output := [[6]] |}) !!! 0%nat) !! 1%nat = Some 6.
Proof.
  destruct (backward_sweep_gives_dependents true Toy.sx_square_of_sum
              [[0%nat; 1%nat]] [[3%nat]] square_of_sum_tape
              {| SX.iwork := SX.spInit false [5; 9]; SX.sp_input := [[0; 0]];
                 SX.sp_output := [[6]] |} [5; 9]) as [Hclear Hin].
  - vm_compute. reflexivity.
  - vm_compute. reflexivity.
  - vm_compute. reflexivity.
  - reflexivity.
  - reflexivity.
  - vm_compute. lia.
  - assert (∀ ind' nz', ([[0%nat; 1%nat]] !!! ind') !! nz' = Some 1%nat →
                          ind' = 0%nat ∧ nz' = 1%nat) as Honce.
    { intros ind' nz' Hc. destruct ind' as [|[|ind']]; cbn in Hc.
      - destruct nz' as [|[|nz']]; cbn in Hc; [discriminate|split; reflexivity|discriminate].
      - destruct nz'; discriminate.
      - destruct nz'; discriminate. }
    pose proof (Hin 0%nat 1%nat 1%nat Toy.sx_parameter eq_refl Honce eq_refl eq_refl) as H.
    vm_compute in Hclear, H |- *. split; [exact Hclear|exact H].
Defined.

(** On [y = (a + b) * (a + b)] the seed of the output reaches both
    inputs. *)
Example dependents_of_square_of_sum :
  SX.sp_input (SX.spEvaluate false (SX.algorithm_ square_of_sum_tape)
                 {| SX.iwork := [0; 0]; SX.sp_input := [[0; 0]]; SX.sp_output := [[6]] |})
  = [[6; 6]].
Proof. vm_compute. reflexivity. Qed.
(** * The compiled tape indexes its buffers in bounds *)

(** [evaluate], [spEvaluate] and [evalSXsparse] index the work vector and
    the input and output buffers without a check.  A record is in bounds
    when every place it names lies in a work vector of [worksize]
    entries, and the nonzero it reads from an input or stores to an
    output exists. *)
Definition in_bounds {D : Type} (worksize : nat) (inputv outputv : list (list nat))
    (e : SX.AlgEl D) : Prop :=
  match SX.op e with
  | OP_CONST => (SX.i0 e < worksize)%nat
  | OP_INPUT =>
      (SX.i0 e < worksize)%nat
      ∧ (SX.i1 e < length inputv)%nat ∧ (SX.i2 e < length (inputv !!! SX.i1 e))%nat
  | OP_OUTPUT =>
      (SX.i1 e < worksize)%nat
      ∧ (SX.i0 e < length outputv)%nat ∧ (SX.i2 e < length (outputv !!! SX.i0 e))%nat
  | OP_UNARY _ | OP_BINARY _ =>
      (SX.i0 e < worksize)%nat ∧ (SX.i1 e < worksize)%nat ∧ (SX.i2 e < worksize)%nat
  | _ => False
  end.

Lemma cell_in_range (rows : list (list nat)) (i j x : nat) :
  (rows !!! i) !! j = Some x → (i < length rows)%nat ∧ (j < length (rows !!! i))%nat.
Proof.
  intros Hc. split; [|by eapply lookup_lt_Some].
  destruct (decide (i < length rows)%nat) as [|Hge]; [done|].
  rewrite list_lookup_total_alt, (lookup_ge_None_2 rows i) in Hc by lia. cbn in Hc.
  by rewrite lookup_nil in Hc.
Qed.

(** On a sorted and closed graph every record of the tape [init]
    returns is in bounds, for a work vector of [worksize] entries and
    buffers of the shapes of the declared inputs and outputs; only
    constants, input and output instructions and built-in operations are
    left on the tape. *)
Theorem compiled_tape_stays_in_bounds {D : Type} `{!Inhabited D}
    (live_variables : bool) (nodes : list (option (SX.SXNode D)))
    (inputv outputv : list (list nat)) (f : SX.compiled D) :
  SX.init live_variables nodes inputv outputv = inr f →
  well_sorted nodes outputv = true →
  closed nodes inputv = true →
  Forall (in_bounds (SX.worksize f) inputv outputv) (SX.algorithm_ f).
Proof.
  intros Hinit Hsorted Hclosed.
  destruct (sx_init_placed live_variables nodes inputv outputv f Hinit Hsorted Hclosed)
    as (b & place & Hbuild & Hlen' & Hrg & _ & _ & Hfin).
  destruct (sx_sorted_records (λ _ x _, x) (λ _, inhabitant) nodes outputv b Hbuild Hsorted)
    as ([Hlen Hrec Hrl Hrc Hch Hsy Hcur Hoff] & B_ops & B_i0 & B_children & B_out & _).
  set (B := SX.b_algorithm b) in *.
  apply list.Forall_forall. intros e' [k Hk']%list_elem_of_lookup.
  destruct (lookup_lt_is_Some_2 B k) as [e Hk].
  { rewrite Hlen, <- Hlen'. by eapply lookup_lt_Some. }
  pose proof (Hfin k e e' Hk Hk') as Hf. unfold finished, placed in Hf.
  pose proof (B_ops k e Hk) as Hops.
  assert (SX.op e ≠ OP_OUTPUT → (place !!! k < SX.worksize f)%nat) as Hself.
  { intros Hop. apply Hrg. split; [|eauto]. rewrite <- Hlen. by eapply lookup_lt_Some. }
  assert (∀ c, c ∈ children e → (place !!! c < SX.worksize f)%nat) as Hchild.
  { intros c Hc. destruct (B_children k e c Hk Hc) as [Hlt Hec].
    apply Hrg. split; [|done]. apply lookup_lt_Some in Hk. rewrite Hlen in Hk. lia. }
  pose proof (children_of e) as Hce.
  unfold in_bounds. destruct (SX.op e) eqn:Hop; try done.
  - destruct Hf as [-> ->]. by apply Hself.
  - destruct Hf as (-> & -> & -> & ->).
    destruct (cell_in_range _ _ _ _ (B_out k e Hk Hop)) as [? ?].
    split; [|done]. apply Hchild. rewrite Hce. apply list_elem_of_here.
  - destruct Hf as (-> & -> & Hcell). destruct (cell_in_range _ _ _ _ Hcell) as [? ?].
    split; [by apply Hself|done].
  - destruct Hf as (-> & -> & -> & ->).
    assert (place !!! SX.i1 e < SX.worksize f)%nat
      by (apply Hchild; rewrite Hce; apply list_elem_of_here).
    split; [by apply Hself|done].
  - destruct Hf as (-> & -> & -> & ->).
    split; [by apply Hself|]. split; apply Hchild; rewrite Hce;
      [apply list_elem_of_here|apply list_elem_of_further, list_elem_of_here].
Qed.

Lemma compiled_tape_stays_in_bounds_witness :
  Forall (in_bounds (SX.worksize square_of_sum_tape) [[0%nat; 1%nat]] [[3%nat]])
         (SX.algorithm_ square_of_sum_tape).
Proof.
  apply (compiled_tape_stays_in_bounds true Toy.sx_square_of_sum).
  - vm_compute. reflexivity.
  - vm_compute. reflexivity.
  - vm_compute. reflexivity.
Defined.
